(** * velcursor: the trail engine of [cursorTrail.js]

A shallow embedding of the physics-and-geometry core of the cursor
trail (per-corner critically damped springs, the size-overshoot
oscillator, the polygon utilities, the trail store with its push
pipeline, the hex-cell acceptance loop and the adaptive quality
controller), followed by the properties the specification states
about them.

JavaScript numbers are modelled through the interface [Num]: the
definitions below are written once, against that interface, and are
read at three carriers:
- [R], the real numbers, where the numeric properties are proved
  (rounding error, and with it any dependence on the order of a
  sum, is abstracted away);
- [Q], exact rationals kept in lowest terms, where the rational part
  of the code (the geometry predicates) runs;
- [float], IEEE-754 binary64, the numbers the program really uses,
  with the arithmetic of the kernel and the [Math] functions of the
  engine: there the program runs as it does in the editor (the
  Euler oscillator, the canonicalization of a polygon, a sweep of
  the trail).
Properties that depend only on the control flow are proved for every
carrier. *)

From Stdlib Require Import List Bool Arith ZArith Lia.
From Stdlib Require Import QArith Qreduction Qabs Qround.
From Stdlib Require Import Reals Lra Psatz.
From Stdlib Require Import Floats.
From Stdlib Require Import Permutation Sorted.
From Stdlib Require Ascii String.
Import ListNotations.

(* ===================================================================== *)
(** ** Numbers *)
(* ===================================================================== *)

(** The arithmetic and comparisons of a JavaScript number. *)
Class Num (A : Type) : Type := {
  ofZ  : Z -> A;
  add  : A -> A -> A;
  sub  : A -> A -> A;
  mul  : A -> A -> A;
  div  : A -> A -> A;
  neg  : A -> A;
  abs  : A -> A;            (* Math.abs *)
  nmax : A -> A -> A;       (* Math.max *)
  nmin : A -> A -> A;       (* Math.min *)
  ltb  : A -> A -> bool;    (* a < b *)
  leb  : A -> A -> bool;    (* a <= b *)
  eqb  : A -> A -> bool     (* a === b *)
}.

(** The functions of the [Math] object that are not rational. *)
Class JSMath (A : Type) `{Num A} : Type := {
  exp    : A -> A;          (* Math.exp *)
  hypot  : A -> A -> A;     (* Math.hypot *)
  atan2  : A -> A -> A;     (* Math.atan2 (y, x) *)
  floorZ : A -> Z           (* the integer Math.floor returns *)
}.
Arguments JSMath A {_}.

Declare Scope num_scope.
Delimit Scope num_scope with num.
Infix "+" := add : num_scope.
Infix "-" := sub : num_scope.
Infix "*" := mul : num_scope.
Infix "/" := div : num_scope.
Notation "- x" := (neg x) : num_scope.
Infix "<?" := ltb (at level 70) : num_scope.
Infix "<=?" := leb (at level 70) : num_scope.
Infix "=?" := eqb (at level 70) : num_scope.
Notation "x >? y" := (ltb y x) (at level 70) : num_scope.
Notation "x >=? y" := (leb y x) (at level 70) : num_scope.

Section NumOps.

Context {A : Type} `{JSMath A}.
Local Open Scope num_scope.

(** A decimal literal [p/q], e.g. [dec 1 1000] for [0.001]. *)
Definition dec (p q : Z) : A := ofZ p / ofZ q.

(** JavaScript's truthiness of a number: [0] and [NaN] are falsy. *)
Definition falsy (a : A) : bool := (a =? ofZ 0) || negb (a =? a).

(** [a || b] on numbers. *)
Definition orElse (a b : A) : A := if falsy a then b else a.

(** [Math.sign]. *)
Definition sign (a : A) : A :=
  if ofZ 0 <? a then ofZ 1 else if a <? ofZ 0 then ofZ (-1) else a.

Definition floor (a : A) : A := ofZ (floorZ a).
Definition ceil (a : A) : A := ofZ (- floorZ (- a)).
(** [Math.round]: the nearest integer, halves upwards. *)
Definition round (a : A) : A := floor (a + dec 1 2).

(** How often [for (let i = 1; i <= n; i++)] runs its body. *)
Definition loopCount (n : A) : nat := Z.to_nat (floorZ n).

(* const clamp = (v, lo, hi) => Math.min(Math.max(v, lo), hi); *)
Definition clamp (v lo hi : A) : A := nmin (nmax v lo) hi.

(* const lerp = (a, b, t) => a + (b - a) * t; *)
Definition lerp (a b t : A) : A := a + (b - a) * t.

End NumOps.

(* --------------------------------------------------------------------- *)
(** *** The carrier [R] *)

Definition Rltb (x y : R) : bool := if Rlt_dec x y then true else false.
Definition Rleb (x y : R) : bool := if Rle_dec x y then true else false.
Definition Reqb (x y : R) : bool := if Req_dec_T x y then true else false.

#[export] Instance RNum : Num R := {|
  ofZ := IZR; add := Rplus; sub := Rminus; mul := Rmult; div := Rdiv;
  neg := Ropp; abs := Rabs; nmax := Rmax; nmin := Rmin;
  ltb := Rltb; leb := Rleb; eqb := Reqb
|}.

(** [Math.atan2] on the reals, by quadrant. *)
Definition Ratan2 (y x : R) : R :=
  (if Rlt_dec 0 x then atan (y / x)
   else if Rlt_dec x 0 then
     if Rle_dec 0 y then atan (y / x) + PI else atan (y / x) - PI
   else if Rlt_dec 0 y then PI / 2
   else if Rlt_dec y 0 then - PI / 2
   else 0)%R.

#[export] Instance RMath : JSMath R := {|
  exp := Rtrigo_def.exp;
  hypot x y := R_sqrt.sqrt (x * x + y * y)%R;
  atan2 := Ratan2;
  floorZ := Zfloor
|}.

(* --------------------------------------------------------------------- *)
(** *** The carrier [Q], in lowest terms *)

#[export] Instance QNum : Num Q := {|
  ofZ := inject_Z;
  add x y := Qred (Qplus x y);
  sub x y := Qred (Qminus x y);
  mul x y := Qred (Qmult x y);
  div x y := Qred (Qdiv x y);
  neg := Qopp;
  abs := Qabs;
  nmax x y := if Qle_bool x y then y else x;
  nmin x y := if Qle_bool x y then x else y;
  ltb x y := negb (Qle_bool y x);
  leb := Qle_bool;
  eqb := Qeq_bool
|}.

(* --------------------------------------------------------------------- *)
(** *** The carrier [float] (IEEE-754 binary64) *)

Definition float_ofZ (z : Z) : float :=
  match z with
  | Z0 => PrimFloat.zero
  | Zpos _ => PrimFloat.of_uint63 (Uint63.of_Z z)
  | Zneg p => PrimFloat.opp (PrimFloat.of_uint63 (Uint63.of_Z (Zpos p)))
  end.

(** [Math.max]: [NaN] if either argument is, and [+0] above [-0]. *)
Definition float_max (a b : float) : float :=
  if PrimFloat.is_nan a then a
  else if PrimFloat.is_nan b then b
  else if PrimFloat.ltb a b then b
  else if PrimFloat.ltb b a then a
  else if PrimFloat.get_sign a then b else a.

Definition float_min (a b : float) : float :=
  if PrimFloat.is_nan a then a
  else if PrimFloat.is_nan b then b
  else if PrimFloat.ltb a b then a
  else if PrimFloat.ltb b a then b
  else if PrimFloat.get_sign a then a else b.

#[export] Instance FloatNum : Num float := {|
  ofZ := float_ofZ;
  add := PrimFloat.add; sub := PrimFloat.sub;
  mul := PrimFloat.mul; div := PrimFloat.div;
  neg := PrimFloat.opp; abs := PrimFloat.abs;
  nmax := float_max; nmin := float_min;
  ltb := PrimFloat.ltb; leb := PrimFloat.leb; eqb := PrimFloat.eqb
|}.

(* --------------------------------------------------------------------- *)
(** *** The [Math] functions on [float]

The standard leaves the last bits of [Math.exp] and [Math.atan2] to
the engine. The definitions below follow V8, the engine of the editor
the extension runs in: its [exp], [atan] and [atan2] are those of
fdlibm ([base/ieee754.cc]), and [Math.hypot] is a compensated sum of
the squares scaled by the largest argument. *)

Module V8Math.

Local Open Scope float_scope.

(** The 64 bits of a number; [NaN] is the canonical quiet one. *)
Definition bits (x : float) : Z :=
  match Prim2SF x with
  | S754_zero s => if s then 2 ^ 63 else 0
  | S754_infinity s => (if s then 2 ^ 63 else 0) + 2047 * 2 ^ 52
  | S754_nan => 2047 * 2 ^ 52 + 2 ^ 51
  | S754_finite s m e =>
      (if s then 2 ^ 63 else 0)
      + (if 2 ^ 52 <=? Zpos m then (e + 1075) * 2 ^ 52 + (Zpos m - 2 ^ 52)
         else Zpos m)
  end%Z.

(** [GET_HIGH_WORD] (as a signed 32-bit integer) and [GET_LOW_WORD]. *)
Definition highWord (x : float) : Z :=
  let h := (bits x / 2 ^ 32)%Z in
  if (2 ^ 31 <=? h)%Z then (h - 2 ^ 32)%Z else h.

Definition lowWord (x : float) : Z := (bits x mod 2 ^ 32)%Z.

(** [hx & 0x7fffffff]. *)
Definition absWord (hx : Z) : Z := (hx mod 2 ^ 31)%Z.

(** The integer part of a finite number ([static_cast<int>]), and the
    integer [Math.floor] returns; [0] for [NaN] and the infinities. *)
Definition integerOf (roundDown : bool) (x : float) : Z :=
  match Prim2SF x with
  | S754_finite s m e =>
      let z := if s then Zneg m else Zpos m in
      if (0 <=? e)%Z then (z * 2 ^ e)%Z
      else if roundDown then Z.shiftr z (- e)
      else if s then (- Z.shiftr (Zpos m) (- e))%Z else Z.shiftr z (- e)
  | _ => 0%Z
  end.

Definition floorZ (x : float) : Z := integerOf true x.
Definition truncZ (x : float) : Z := integerOf false x.

(** The number of an integer of moderate size. *)
Definition ofInt (k : Z) : float :=
  match k with
  | Z0 => 0
  | Zpos _ => PrimFloat.of_uint63 (Uint63.of_Z k)
  | Zneg p => - PrimFloat.of_uint63 (Uint63.of_Z (Zpos p))
  end.

(* ---- atan ---- *)

Definition atanhi (id : Z) : float :=
  match id with
  | 0%Z => 0x1.dac670561bb4fp-2     (* atan(0.5)hi *)
  | 1%Z => 0x1.921fb54442d18p-1     (* atan(1.0)hi *)
  | 2%Z => 0x1.f730bd281f69bp-1     (* atan(1.5)hi *)
  | _ => 0x1.921fb54442d18p+0       (* atan(inf)hi *)
  end.

Definition atanlo (id : Z) : float :=
  match id with
  | 0%Z => 0x1.a2b7f222f65e2p-56    (* atan(0.5)lo *)
  | 1%Z => 0x1.1a62633145c07p-55    (* atan(1.0)lo *)
  | 2%Z => 0x1.007887af0cbbdp-56    (* atan(1.5)lo *)
  | _ => 0x1.1a62633145c07p-54      (* atan(inf)lo *)
  end.

Definition aT0 : float := 0x1.555555555550dp-2.
Definition aT1 : float := -0x1.999999998ebc4p-3.
Definition aT2 : float := 0x1.24924920083ffp-3.
Definition aT3 : float := -0x1.c71c6fe231671p-4.
Definition aT4 : float := 0x1.745cdc54c206ep-4.
Definition aT5 : float := -0x1.3b0f2af749a6dp-4.
Definition aT6 : float := 0x1.10d66a0d03d51p-4.
Definition aT7 : float := -0x1.dde2d52defd9ap-5.
Definition aT8 : float := 0x1.97b4b24760debp-5.
Definition aT9 : float := -0x1.2b4442c6a6c2fp-5.
Definition aT10 : float := 0x1.0ad3ae322da11p-6.

(** The end of [atan], after the argument reduction to [x] with table
    index [id] ([-1]: none). *)
Definition atanReduced (hx id : Z) (x : float) : float :=
  let z := x * x in
  let w := z * z in
  let s1 := z * (aT0 + w * (aT2 + w * (aT4 + w * (aT6 + w * (aT8 + w * aT10))))) in
  let s2 := w * (aT1 + w * (aT3 + w * (aT5 + w * (aT7 + w * aT9)))) in
  if (id <? 0)%Z then x - x * (s1 + s2)
  else
    let z := atanhi id - ((x * (s1 + s2) - atanlo id) - x) in
    if (hx <? 0)%Z then - z else z.

Definition atan (x : float) : float :=
  let hx := highWord x in
  let ix := absWord hx in
  if (0x44100000 <=? ix)%Z then                      (* |x| >= 2^66 *)
    if (0x7ff00000 <? ix)%Z || ((ix =? 0x7ff00000)%Z && negb (lowWord x =? 0)%Z)
    then x + x                                       (* NaN *)
    else if (0 <? hx)%Z then atanhi 3 + atanlo 3
    else - atanhi 3 - atanlo 3
  else if (ix <? 0x3fdc0000)%Z then                  (* |x| < 0.4375 *)
    if (ix <? 0x3e200000)%Z then x                   (* |x| < 2^-29 *)
    else atanReduced hx (-1) x
  else
    let x := abs x in
    if (ix <? 0x3ff30000)%Z then                     (* |x| < 1.1875 *)
      if (ix <? 0x3fe60000)%Z                        (* 7/16 <= |x| < 11/16 *)
      then atanReduced hx 0 ((2 * x - 1) / (2 + x))
      else atanReduced hx 1 ((x - 1) / (x + 1))      (* 11/16 <= |x| < 19/16 *)
    else if (ix <? 0x40038000)%Z                     (* |x| < 2.4375 *)
    then atanReduced hx 2 ((x - 0x1.8p+0) / (1 + 0x1.8p+0 * x))
    else atanReduced hx 3 (-1 / x).                  (* 2.4375 <= |x| < 2^66 *)

(* ---- atan2 ---- *)

Definition tiny : float := 0x1.56e1fc2f8f359p-997.    (* 1.0e-300 *)
Definition pi_o_4 : float := 0x1.921fb54442d18p-1.
Definition pi_o_2 : float := 0x1.921fb54442d18p+0.
Definition pi : float := 0x1.921fb54442d18p+1.
Definition pi_lo : float := 0x1.1a62633145c07p-53.

Definition atan2 (y x : float) : float :=
  let hx := highWord x in
  let ix := absWord hx in
  let lx := lowWord x in
  let hy := highWord y in
  let iy := absWord hy in
  let ly := lowWord y in
  if PrimFloat.is_nan x || PrimFloat.is_nan y then x + y
  else if (hx =? 0x3ff00000)%Z && (lx =? 0)%Z then atan y       (* x = 1.0 *)
  else
    (* 2 * sign(x) + sign(y) *)
    let m := ((if (hy <? 0)%Z then 1 else 0) + (if (hx <? 0)%Z then 2 else 0))%Z in
    if (iy =? 0)%Z && (ly =? 0)%Z then                          (* y = 0 *)
      match m with
      | 0%Z | 1%Z => y
      | 2%Z => pi + tiny
      | _ => - pi - tiny
      end
    else if (ix =? 0)%Z && (lx =? 0)%Z then                     (* x = 0 *)
      if (hy <? 0)%Z then - pi_o_2 - tiny else pi_o_2 + tiny
    else if (ix =? 0x7ff00000)%Z then                           (* x is INF *)
      if (iy =? 0x7ff00000)%Z then
        match m with
        | 0%Z => pi_o_4 + tiny
        | 1%Z => - pi_o_4 - tiny
        | 2%Z => 3 * pi_o_4 + tiny
        | _ => -3 * pi_o_4 - tiny
        end
      else
        match m with
        | 0%Z => 0
        | 1%Z => -0
        | 2%Z => pi + tiny
        | _ => - pi - tiny
        end
    else if (iy =? 0x7ff00000)%Z then                           (* y is INF *)
      if (hy <? 0)%Z then - pi_o_2 - tiny else pi_o_2 + tiny
    else
      let k := Z.shiftr (iy - ix) 20 in
      let '(z, m) :=
        if (60 <? k)%Z then (pi_o_2 + 0x1p-1 * pi_lo, (m mod 2)%Z)  (* |y/x| > 2^60 *)
        else if (hx <? 0)%Z && (k <? -60)%Z then (0, m)          (* 0 > |y|/x > -2^-60 *)
        else (atan (abs (y / x)), m) in
      match m with
      | 0%Z => z                                                 (* atan(+,+) *)
      | 1%Z => - z                                               (* atan(-,+) *)
      | 2%Z => pi - (z - pi_lo)                                  (* atan(+,-) *)
      | _ => (z - pi_lo) - pi                                    (* atan(-,-) *)
      end.

(* ---- exp ---- *)

Definition o_threshold : float := 0x1.62e42fefa39efp+9.
Definition u_threshold : float := -0x1.74910d52d3051p+9.
Definition ln2HI : float := 0x1.62e42feep-1.
Definition ln2LO : float := 0x1.a39ef35793c76p-33.
Definition invln2 : float := 0x1.71547652b82fep+0.
Definition P1 : float := 0x1.555555555553ep-3.
Definition P2 : float := -0x1.6c16c16bebd93p-9.
Definition P3 : float := 0x1.1566aaf25de2cp-14.
Definition P4 : float := -0x1.bbd41c5d26bf1p-20.
Definition P5 : float := 0x1.6376972bea4d0p-25.
Definition E : float := 0x1.5bf0a8b145769p+1.
Definition huge : float := 0x1.7e43c8800759cp+996.     (* 1.0e+300 *)
Definition twom1000 : float := 0x1p-1000.
Definition two1023 : float := 0x1p+1023.

Definition exp (x : float) : float :=
  let hx0 := highWord x in
  let xsb := (hx0 <? 0)%Z in                           (* sign bit of x *)
  let hx := absWord hx0 in                             (* high word of |x| *)
  if (0x7ff00000 <=? hx)%Z then
    if negb ((hx mod 2 ^ 20 =? 0)%Z && (lowWord x =? 0)%Z) then x + x   (* NaN *)
    else if xsb then 0 else x                          (* exp(+-inf) = {inf, 0} *)
  else if (0x40862E42 <=? hx)%Z && (o_threshold <? x) then huge * huge   (* overflow *)
  else if (0x40862E42 <=? hx)%Z && (x <? u_threshold) then twom1000 * twom1000
  else if (0x3fd62e42 <? hx)%Z && (hx <? 0x3FF0A2B2)%Z && (x =? 1) then E
  else if negb (0x3fd62e42 <? hx)%Z && (hx <? 0x3e300000)%Z then 1 + x   (* |x| < 2^-28 *)
  else
    (* argument reduction *)
    let '(hi, lo, k) :=
      if (0x3fd62e42 <? hx)%Z then                     (* |x| > 0.5 ln2 *)
        if (hx <? 0x3FF0A2B2)%Z then                   (* and |x| < 1.5 ln2 *)
          if xsb then (x + ln2HI, - ln2LO, (-1)%Z) else (x - ln2HI, ln2LO, 1%Z)
        else
          let k := truncZ (invln2 * x + (if xsb then -0x1p-1 else 0x1p-1)) in
          let t := ofInt k in
          (x - t * ln2HI, t * ln2LO, k)
      else (0, 0, 0%Z) in
    let x := if (0x3fd62e42 <? hx)%Z then hi - lo else x in
    (* x is now in primary range *)
    let t := x * x in
    let twopk := if (-1021 <=? k)%Z then Z.ldexp 1 k else Z.ldexp 1 (k + 1000) in
    let c := x - t * (P1 + t * (P2 + t * (P3 + t * (P4 + t * P5)))) in
    if (k =? 0)%Z then 1 - ((x * c) / (c - 2) - x)
    else
      let y := 1 - ((lo - (x * c) / (2 - c)) - hi) in
      if (-1021 <=? k)%Z then
        if (k =? 1024)%Z then y * 2 * two1023 else y * twopk
      else y * twopk * twom1000.

(* ---- hypot ---- *)

(** [Math.hypot(x, y)]. *)
Definition hypot (x y : float) : float :=
  let oneArgIsNaN := PrimFloat.is_nan x || PrimFloat.is_nan y in
  let ax := if PrimFloat.is_nan x then 0 else abs x in
  let ay := if PrimFloat.is_nan y then 0 else abs y in
  let max := if 0 <? ax then ax else 0 in
  let max := if max <? ay then ay else max in
  if max =? infinity then infinity
  else if oneArgIsNaN then nan
  else if max =? 0 then 0
  else
    (* Kahan summation to avoid rounding errors. *)
    let n := ax / max in
    let summand := n * n - 0 in
    let preliminary := 0 + summand in
    let compensation := (preliminary - 0) - summand in
    let sum := preliminary in
    let n := ay / max in
    let summand := n * n - compensation in
    let preliminary := sum + summand in
    let sum := preliminary in
    PrimFloat.sqrt sum * max.

End V8Math.

#[export] Instance FloatMath : JSMath float := {|
  exp := V8Math.exp;
  hypot := V8Math.hypot;
  atan2 := V8Math.atan2;
  floorZ := V8Math.floorZ
|}.

(* ===================================================================== *)
(** ** Configuration ([CFG]) *)
(* ===================================================================== *)

(** The fields of [CFG] that the modelled functions read, named
    [<group>_<field>]. *)
Record Config (A : Type) : Type := {
  trail_ttlMs : A;
  trail_maxRects : nat;
  trail_minAlpha : A;
  trail_minMovePx : A;
  trail_cornerInterpEpsilonPx : A;
  trail_interpStepPx : A;
  trail_adaptiveInterpStepPx : A;
  trail_maxInterpPerPush : A;
  trail_twistGuardEnabled : bool;
  trail_temporalSmoothFactor : A;
  trail_smoothReleaseDistancePx : A;
  trail_cornerStepClampPx : A;
  trail_cornerStepSpeedScale : A;
  stackHex_overlapEpsilonPx : A;
  performance_enabled : bool;
  performance_targetFrameMs : A;
  performance_framePressureWindowMs : A;
  performance_emaAlpha : A;
  performance_distanceNormPx : A;
  performance_frameWeight : A;
  performance_distanceWeight : A;
  performance_qualityMin : A;
  performance_degradeRatePerSec : A;
  performance_recoverRatePerSec : A;
  animation_length : A;
  animation_shortLength : A;
  dynamics_rankFactors : list A;
  dynamics_hardSnap : bool;
  dynamics_leadingSnapFactor : A;
  dynamics_leadingSnapThreshold : A;
  dynamics_maxTrailDistanceFactor : A;
  dynamics_snapAnimationLength : A;
  overshoot_omega : A;
  overshoot_zeta : A
}.

Arguments trail_ttlMs {A}. Arguments trail_maxRects {A}.
Arguments trail_minAlpha {A}. Arguments trail_minMovePx {A}.
Arguments trail_cornerInterpEpsilonPx {A}. Arguments trail_interpStepPx {A}.
Arguments trail_adaptiveInterpStepPx {A}. Arguments trail_maxInterpPerPush {A}.
Arguments trail_twistGuardEnabled {A}. Arguments trail_temporalSmoothFactor {A}.
Arguments trail_smoothReleaseDistancePx {A}. Arguments trail_cornerStepClampPx {A}.
Arguments trail_cornerStepSpeedScale {A}. Arguments stackHex_overlapEpsilonPx {A}.
Arguments performance_enabled {A}. Arguments performance_targetFrameMs {A}.
Arguments performance_framePressureWindowMs {A}. Arguments performance_emaAlpha {A}.
Arguments performance_distanceNormPx {A}. Arguments performance_frameWeight {A}.
Arguments performance_distanceWeight {A}. Arguments performance_qualityMin {A}.
Arguments performance_degradeRatePerSec {A}. Arguments performance_recoverRatePerSec {A}.
Arguments animation_length {A}. Arguments animation_shortLength {A}.
Arguments dynamics_rankFactors {A}. Arguments dynamics_hardSnap {A}.
Arguments dynamics_leadingSnapFactor {A}. Arguments dynamics_leadingSnapThreshold {A}.
Arguments dynamics_maxTrailDistanceFactor {A}. Arguments dynamics_snapAnimationLength {A}.
Arguments overshoot_omega {A}. Arguments overshoot_zeta {A}.

(** The values the source file ships. *)
Definition CFG {A : Type} `{Num A} : Config A := {|
  trail_ttlMs := ofZ 256;
  trail_maxRects := 30;
  trail_minAlpha := ofZ 0;
  trail_minMovePx := dec 8 100;
  trail_cornerInterpEpsilonPx := dec 2 100;
  trail_interpStepPx := dec 2 100;
  trail_adaptiveInterpStepPx := dec 32 100;
  trail_maxInterpPerPush := ofZ 4;
  trail_twistGuardEnabled := true;
  trail_temporalSmoothFactor := dec 32 100;
  trail_smoothReleaseDistancePx := ofZ 64;
  trail_cornerStepClampPx := ofZ 8;
  trail_cornerStepSpeedScale := ofZ 4;
  stackHex_overlapEpsilonPx := dec 25 100;
  performance_enabled := true;
  performance_targetFrameMs := dec 167 10;
  performance_framePressureWindowMs := ofZ 8;
  performance_emaAlpha := dec 16 100;
  performance_distanceNormPx := ofZ 120;
  performance_frameWeight := dec 7 10;
  performance_distanceWeight := dec 3 10;
  performance_qualityMin := dec 38 100;
  performance_degradeRatePerSec := dec 45 10;
  performance_recoverRatePerSec := dec 16 10;
  animation_length := dec 25 100;
  animation_shortLength := dec 125 1000;
  dynamics_rankFactors := [dec 8 10; dec 4 10; dec 4 10; dec 2 10];
  dynamics_hardSnap := false;
  dynamics_leadingSnapFactor := dec 1 10;
  dynamics_leadingSnapThreshold := dec 32 100;
  dynamics_maxTrailDistanceFactor := ofZ 8;
  dynamics_snapAnimationLength := dec 16 100;
  overshoot_omega := ofZ 16;
  overshoot_zeta := dec 16 100
|}.

(* ===================================================================== *)
(** ** SECTION 5: critically damped spring (1D) *)
(* ===================================================================== *)

Module CritDamped1D.
Section Spring.

Context {A : Type} `{JSMath A}.
Local Open Scope num_scope.

Record t : Type := { pos : A; vel : A; tau : A }.

Definition make (timeConstantSec : A) : t :=
  {| pos := ofZ 0; vel := ofZ 0; tau := timeConstantSec |}.

Definition setTimeConstant (s : t) (tau' : A) : t :=
  {| pos := pos s; vel := vel s; tau := tau' |}.

Definition setPos (s : t) (pos' : A) : t :=
  {| pos := pos'; vel := vel s; tau := tau s |}.

Definition reset (s : t) : t :=
  {| pos := ofZ 0; vel := ofZ 0; tau := tau s |}.

(** [step(dt)]: the state after the step and the returned flag. *)
Definition step (s : t) (dt : A) : t * bool :=
  if (tau s <=? dt) || (abs (pos s) <? dec 1 1000) then (reset s, false)
  else
    let o := ofZ 4 / tau s in
    let a := pos s in
    let b := pos s * o + vel s in
    let c := exp (- o * dt) in
    let pos' := (a + b * dt) * c in
    let vel' := c * (- a * o - b * dt * o + b) in
    ({| pos := pos'; vel := vel'; tau := tau s |}, abs pos' >=? dec 1 100).

End Spring.
Arguments t A : clear implicits.
End CritDamped1D.

(* ===================================================================== *)
(** ** SECTION 6: under-damped overshoot oscillator *)
(* ===================================================================== *)

Module UnderDampedScalar.
Section Oscillator.

Context {A : Type} `{Num A}.
Local Open Scope num_scope.

Record t : Type := { x : A; v : A; omega : A; zeta : A }.

Definition make (omega' zeta' : A) : t :=
  {| x := ofZ 0; v := ofZ 0; omega := omega'; zeta := zeta' |}.

Definition kick (s : t) (impulse : A) : t :=
  {| x := x s; v := v s + impulse; omega := omega s; zeta := zeta s |}.

Definition step (s : t) (dt : A) : t :=
  let w := omega s in
  let z := zeta s in
  let a := - ofZ 2 * z * w * v s - (w * w) * x s in
  let v1 := v s + a * dt in
  let x1 := x s + v1 * dt in
  (* deadzone *)
  if (abs x1 <? dec 1 10000) && (abs v1 <? dec 1 1000)
  then {| x := ofZ 0; v := ofZ 0; omega := w; zeta := z |}
  else {| x := x1; v := v1; omega := w; zeta := z |}.

(** [n] successive calls of [step(dt)]. *)
Fixpoint steps (n : nat) (s : t) (dt : A) : t :=
  match n with
  | O => s
  | S n' => steps n' (step s dt) dt
  end.

End Oscillator.
Arguments t A : clear implicits.
End UnderDampedScalar.

(** [bounce], built with the shipped [omega] and [zeta], after one
    [kick(5)]. *)
Definition kicked5 {A : Type} `{Num A} : UnderDampedScalar.t A :=
  UnderDampedScalar.kick
    (UnderDampedScalar.make (overshoot_omega CFG) (overshoot_zeta CFG)) (ofZ 5).

(* ===================================================================== *)
(** ** SECTION 11 (part): the adaptive quality controller of [rafLoop] *)
(* ===================================================================== *)

Module Quality.
Section Controller.

Context {A : Type} `{Num A}.
Local Open Scope num_scope.

(** [perfFrameEmaMs], [perfQuality], [perfTargetQuality] and
    [cursor.last.t]. *)
Record t : Type := {
  perfFrameEmaMs : A;
  perfQuality : A;
  perfTargetQuality : A;
  lastT : A
}.

(** The values the variables are declared with; [t0] is [nowMs()] when
    the controller object is built. *)
Definition init (cfg : Config A) (t0 : A) : t :=
  {| perfFrameEmaMs := performance_targetFrameMs cfg;
     perfQuality := ofZ 1;
     perfTargetQuality := ofZ 1;
     lastT := t0 |}.

(* const dtSec = clamp((frameNowMs - cursor.last.t) / 1000, 0, 0.05); *)
Definition dtSecOf (st : t) (frameNowMs : A) : A :=
  clamp ((frameNowMs - lastT st) / ofZ 1000) (ofZ 0) (dec 5 100).

(** [perfTargetQuality] as the tick computes it from the new average. *)
Definition targetOf (cfg : Config A) (ema dist : A) : A :=
  let framePressure :=
    clamp ((ema - performance_targetFrameMs cfg)
           / nmax (dec 1 10000) (performance_framePressureWindowMs cfg))
          (ofZ 0) (ofZ 1) in
  let distancePressure :=
    clamp (dist / nmax (dec 1 10000) (performance_distanceNormPx cfg))
          (ofZ 0) (ofZ 1) in
  let hybridPressure :=
    clamp (performance_frameWeight cfg * framePressure
           + performance_distanceWeight cfg * distancePressure)
          (ofZ 0) (ofZ 1) in
  ofZ 1 - hybridPressure * (ofZ 1 - performance_qualityMin cfg).

(** The quality block of one frame: [frameNowMs] is the frame's clock
    reading, [cursorVisible] whether the frame gets past the early
    return, [dist] is [motion.dist]. *)
Definition tick (cfg : Config A) (st : t)
           (frameNowMs : A) (cursorVisible : bool) (dist : A) : t :=
  let dtSec := dtSecOf st frameNowMs in
  if negb cursorVisible then
    {| perfFrameEmaMs := perfFrameEmaMs st; perfQuality := perfQuality st;
       perfTargetQuality := perfTargetQuality st; lastT := frameNowMs |}
  else
    let frameMs := dtSec * ofZ 1000 in
    if performance_enabled cfg then
      let ema := lerp (perfFrameEmaMs st) frameMs (performance_emaAlpha cfg) in
      let target := targetOf cfg ema dist in
      let q :=
        if target <? perfQuality st
        then nmax target (perfQuality st - performance_degradeRatePerSec cfg * dtSec)
        else nmin target (perfQuality st + performance_recoverRatePerSec cfg * dtSec) in
      {| perfFrameEmaMs := ema;
         perfQuality := clamp q (performance_qualityMin cfg) (ofZ 1);
         perfTargetQuality := target;
         lastT := frameNowMs |}
    else
      {| perfFrameEmaMs := performance_targetFrameMs cfg;
         perfQuality := ofZ 1;
         perfTargetQuality := ofZ 1;
         lastT := frameNowMs |}.

(** A frame as the controller sees it. *)
Record frame : Type := { frameNowMs : A; cursorVisible : bool; dist : A }.

Definition tickFrame (cfg : Config A) (st : t) (f : frame) : t :=
  tick cfg st (frameNowMs f) (cursorVisible f) (dist f).

(** The controller after a sequence of frames. *)
Definition run (cfg : Config A) (st : t) (fs : list frame) : t :=
  fold_left (tickFrame cfg) fs st.

End Controller.
Arguments t A : clear implicits.
Arguments frame A : clear implicits.
End Quality.

(* ===================================================================== *)
(** ** SECTION 9 (part): points and polygons *)
(* ===================================================================== *)

Module Point.

Record t (A : Type) : Type := mk { x : A; y : A }.
Arguments mk {A}. Arguments x {A}. Arguments y {A}.

End Point.
Abbreviation Pt := Point.mk.

(** A polygon is the array of its vertices. *)
Definition Polygon (A : Type) : Type := list (Point.t A).

Section Geometry.

Context {A : Type} `{JSMath A}.
Local Open Scope num_scope.
Local Abbreviation point := (Point.t A).
Local Abbreviation polygon := (Polygon A).

Definition origin : point := Pt (ofZ 0) (ofZ 0).

(** [pts[i]]; every index the code forms is reduced modulo the length or
    bounded by it, so the default is never read on a non-empty array. *)
Definition at_ (pts : polygon) (i : nat) : point := nth i pts origin.

(** [pts[i] = p]. *)
Fixpoint setAt (pts : polygon) (i : nat) (p : point) : polygon :=
  match pts, i with
  | [], _ => []
  | _ :: rest, O => p :: rest
  | q :: rest, S i' => q :: setAt rest i' p
  end.

(** [Array.prototype.sort(cmp)]: the stable sort; [a] goes before [b]
    when [cmp(a, b) < 0]. *)
Fixpoint insertBy {T : Type} (cmp : T -> T -> A) (a : T) (l : list T) : list T :=
  match l with
  | [] => [a]
  | b :: l' => if cmp a b <? ofZ 0 then a :: l else b :: insertBy cmp a l'
  end.

Definition sortBy {T : Type} (cmp : T -> T -> A) (l : list T) : list T :=
  fold_left (fun acc a => insertBy cmp a acc) l [].

(** The order of a sorted array: [b] does not go before [a]. *)
Definition notBefore {T : Type} (cmp : T -> T -> A) (a b : T) : Prop :=
  (cmp b a <? ofZ 0) = false.

Definition lerpPoint (p0 p1 : point) (t : A) : point :=
  Pt (lerp (Point.x p0) (Point.x p1) t) (lerp (Point.y p0) (Point.y p1) t).

Definition pointDist (a b : point) : A :=
  hypot (Point.x a - Point.x b) (Point.y a - Point.y b).

Definition clonePolygon (pts : polygon) : polygon :=
  map (fun p => Pt (Point.x p) (Point.y p)) pts.

Definition rotatePolygon (pts : polygon) (offset : nat) : polygon :=
  let n := length pts in
  map (fun i => at_ pts ((i + offset) mod n)) (seq 0 n).

Definition polygonCenter (pts : polygon) : point :=
  let sx := fold_left (fun s p => s + Point.x p) pts (ofZ 0) in
  let sy := fold_left (fun s p => s + Point.y p) pts (ofZ 0) in
  let n := ofZ (Z.of_nat (Nat.max 1 (length pts))) in
  Pt (sx / n) (sy / n).

Definition polygonSignedArea (pts : polygon) : A :=
  let n := length pts in
  if (n <? 3)%nat then ofZ 0
  else
    let s := fold_left
               (fun s i =>
                  let j := ((i + 1) mod n)%nat in
                  s + (Point.x (at_ pts i) * Point.y (at_ pts j)
                       - Point.x (at_ pts j) * Point.y (at_ pts i)))
               (seq 0 n) (ofZ 0) in
    dec 5 10 * s.

(** The records [sortPolygonByAngle] sorts: [{ p, a, r2 }]. *)
Record Keyed : Type := { k_p : point; k_a : A; k_r2 : A }.

Definition keyOf (c p : point) : Keyed :=
  let dx := Point.x p - Point.x c in
  let dy := Point.y p - Point.y c in
  {| k_p := Pt (Point.x p) (Point.y p); k_a := atan2 dy dx; k_r2 := dx * dx + dy * dy |}.

(* (a, b) => a.a - b.a || a.r2 - b.r2 || a.p.y - b.p.y || a.p.x - b.p.x *)
Definition angleCmp (a b : Keyed) : A :=
  orElse (k_a a - k_a b)
    (orElse (k_r2 a - k_r2 b)
       (orElse (Point.y (k_p a) - Point.y (k_p b))
               (Point.x (k_p a) - Point.x (k_p b)))).

Definition sortPolygonByAngle (pts : polygon) : polygon :=
  if (length pts <? 3)%nat then clonePolygon pts
  else
    let c := polygonCenter pts in
    map k_p (sortBy angleCmp (map (keyOf c) pts)).

Definition rotateToTopLeftStart (pts : polygon) : polygon :=
  let n := length pts in
  if (n =? 0)%nat then []
  else
    let best :=
      fold_left
        (fun best i =>
           if (Point.y (at_ pts i) <? Point.y (at_ pts best))
              || ((Point.y (at_ pts i) =? Point.y (at_ pts best))
                  && (Point.x (at_ pts i) <? Point.x (at_ pts best)))
           then i else best)
        (seq 1 (n - 1)) 0%nat in
    clonePolygon (rotatePolygon pts best).

Definition orient2 (a b c : point) : A :=
  (Point.x b - Point.x a) * (Point.y c - Point.y a)
  - (Point.y b - Point.y a) * (Point.x c - Point.x a).

Definition onSegment (a b p : point) (eps : A) : bool :=
  if abs (orient2 a b p) >? eps then false
  else
    (Point.x p >=? nmin (Point.x a) (Point.x b) - eps)
    && (Point.x p <=? nmax (Point.x a) (Point.x b) + eps)
    && (Point.y p >=? nmin (Point.y a) (Point.y b) - eps)
    && (Point.y p <=? nmax (Point.y a) (Point.y b) + eps).

Definition segmentsIntersect (a b c d : point) (eps : A) : bool :=
  let o1 := orient2 a b c in
  let o2 := orient2 a b d in
  let o3 := orient2 c d a in
  let o4 := orient2 c d b in
  let properCross :=
    (((o1 >? eps) && (o2 <? - eps)) || ((o1 <? - eps) && (o2 >? eps)))
    && (((o3 >? eps) && (o4 <? - eps)) || ((o3 <? - eps) && (o4 >? eps))) in
  if properCross then true
  else if (abs o1 <=? eps) && onSegment a b c eps then true
  else if (abs o2 <=? eps) && onSegment a b d eps then true
  else if (abs o3 <=? eps) && onSegment c d a eps then true
  else if (abs o4 <=? eps) && onSegment c d b eps then true
  else false.

(** The default [eps = 1e-6] of [onSegment] and [segmentsIntersect]. *)
Definition eps6 : A := dec 1 1000000.

Definition isSelfIntersectingPolygon (pts : polygon) : bool :=
  let n := length pts in
  if (n <? 4)%nat then false
  else
    existsb
      (fun i =>
         let a0 := at_ pts i in
         let a1 := at_ pts ((i + 1) mod n) in
         existsb
           (fun j =>
              (* Ignore adjacent edges that share a vertex in the closed loop. *)
              if (j =? i)%nat || ((i + 1) mod n =? j)%nat || ((j + 1) mod n =? i)%nat
              then false
              else segmentsIntersect a0 a1 (at_ pts j) (at_ pts ((j + 1) mod n)) eps6)
           (seq (i + 1) (n - (i + 1))))
      (seq 0 n).

Definition isValidTrailPolygon (pts : polygon) : bool :=
  (3 <=? length pts)%nat && negb (isSelfIntersectingPolygon pts).

(** [lerpPolygon]: as long as the shorter of the two arrays. *)
Definition lerpPolygon (p0 p1 : polygon) (t : A) : polygon :=
  map (fun ab => lerpPoint (fst ab) (snd ab) t) (combine p0 p1).

Definition pointSub (a b : point) : point :=
  Pt (Point.x a - Point.x b) (Point.y a - Point.y b).
Definition pointAdd (a b : point) : point :=
  Pt (Point.x a + Point.x b) (Point.y a + Point.y b).
Definition pointScale (p : point) (s : A) : point :=
  Pt (Point.x p * s) (Point.y p * s).
Definition pointMid (a b : point) : point :=
  Pt ((Point.x a + Point.x b) * dec 5 10) ((Point.y a + Point.y b) * dec 5 10).
Definition pointLen (p : point) : A := hypot (Point.x p) (Point.y p).
Definition pointDot (a b : point) : A :=
  Point.x a * Point.x b + Point.y a * Point.y b.
Definition pointPerp (p : point) : point := Pt (- Point.y p) (Point.x p).
Definition clonePoint (p : point) : point := Pt (Point.x p) (Point.y p).

(** [{ minX, minY, maxX, maxY }]. *)
Record Aabb : Type := { minX : A; minY : A; maxX : A; maxY : A }.

(** [aabbFromPolygon]: the source starts the four folds at [+-Infinity],
    which the first vertex replaces; the box of an empty array (infinite
    and inverted in the source) is [None] here. [polygonsOverlap] calls
    it on arrays of three points or more only. *)
Definition aabbFromPolygon (pts : polygon) : option Aabb :=
  match pts with
  | [] => None
  | p :: rest =>
      Some {| minX := fold_left (fun m q => nmin m (Point.x q)) rest (Point.x p);
              minY := fold_left (fun m q => nmin m (Point.y q)) rest (Point.y p);
              maxX := fold_left (fun m q => nmax m (Point.x q)) rest (Point.x p);
              maxY := fold_left (fun m q => nmax m (Point.y q)) rest (Point.y p) |}
  end.

Definition aabbOverlaps (a b : Aabb) (eps : A) : bool :=
  negb ((maxX a <? minX b - eps) || (maxX b <? minX a - eps)
        || (maxY a <? minY b - eps) || (maxY b <? minY a - eps)).

(** [pointInPolygon]: the loop [for (i = 0, j = n - 1; i < n; j = i++)]. *)
Definition pointInPolygon (pt : point) (poly : polygon) : bool :=
  let n := length poly in
  fst (fold_left
         (fun (st : bool * nat) i =>
            let '(inside, j) := st in
            let xi := Point.x (at_ poly i) in
            let yi := Point.y (at_ poly i) in
            let xj := Point.x (at_ poly j) in
            let yj := Point.y (at_ poly j) in
            let crosses := negb (Bool.eqb (yi >? Point.y pt) (yj >? Point.y pt)) in
            if negb crosses then (inside, i)
            else
              let xCross :=
                ((xj - xi) * (Point.y pt - yi)) / nmax (dec 1 1000000000) (yj - yi) + xi in
              if Point.x pt <? xCross then (negb inside, i) else (inside, i))
         (seq 0 n) (false, (n - 1)%nat)).

Definition polygonsOverlap (a b : polygon) (eps : A) : bool :=
  if (length a <? 3)%nat || (length b <? 3)%nat then false
  else
    match aabbFromPolygon a, aabbFromPolygon b with
    | Some ab, Some bb =>
        if negb (aabbOverlaps ab bb eps) then false
        else if existsb
                  (fun i =>
                     let a0 := at_ a i in
                     let a1 := at_ a ((i + 1) mod length a) in
                     existsb
                       (fun j =>
                          segmentsIntersect a0 a1
                            (at_ b j) (at_ b ((j + 1) mod length b)) eps)
                       (seq 0 (length b)))
                  (seq 0 (length a))
        then true
        else if pointInPolygon (at_ a 0) b then true
        else if pointInPolygon (at_ b 0) a then true
        else false
    | _, _ => false
    end.

End Geometry.

(** The order [angleCmp] decides over the reals: lexicographic on the
    angle, the squared radius, [y] and [x]. *)
Definition keyLt (a b : Keyed (A := R)) : Prop :=
  (k_a a < k_a b
   \/ (k_a a = k_a b
       /\ (k_r2 a < k_r2 b
           \/ (k_r2 a = k_r2 b
               /\ (Point.y (k_p a) < Point.y (k_p b)
                   \/ (Point.y (k_p a) = Point.y (k_p b)
                       /\ Point.x (k_p a) < Point.x (k_p b)))))))%R.

Section Canonicalization.

Context {A : Type} `{JSMath A}.
Local Open Scope num_scope.
Local Abbreviation point := (Point.t A).
Local Abbreviation polygon := (Polygon A).

(** [x < best] where [best] starts at [Infinity] ([None]): every finite
    [x] is below [Infinity]. *)
Definition ltInf (x : A) (best : option A) : bool :=
  match best with
  | None => true
  | Some b => x <? b
  end.

(** [let score = 0; for (i < n) score += pointDist(cand[i], ref[i])]. *)
Definition matchScore (cand ref : polygon) : A :=
  fold_left (fun s cr => s + pointDist (fst cr) (snd cr)) (combine cand ref) (ofZ 0).

(** The candidates of [matchPolygonToReference] in the order the two
    loops visit them. *)
Definition matchCandidates (bases : list polygon) (n : nat) : list polygon :=
  flat_map (fun base => map (rotatePolygon base) (seq 0 n)) bases.

(** [if (score < bestScore) { bestScore = score; best = cand; }] over
    the candidates. *)
Definition pickBest (ref : polygon) (cands : list polygon)
  : option polygon * option A :=
  fold_left
    (fun (st : option polygon * option A) cand =>
       let score := matchScore cand ref in
       if ltInf score (snd st) then (Some cand, Some score) else st)
    cands (None, None).

Definition matchBases (ref ordered : polygon) : list polygon :=
  let refSign := sign (polygonSignedArea ref) in
  let bases := [ordered; rev ordered] in
  if negb (refSign =? ofZ 0) then
    let filtered := filter (fun b => sign (polygonSignedArea b) =? refSign) bases in
    match filtered with
    | [] => bases
    | _ => filtered
    end
  else bases.

Definition matchPolygonToReference (pts refPts : polygon) : polygon :=
  let n := Nat.min (length pts) (length refPts) in
  if (n <? 3)%nat then clonePolygon pts
  else
    let ref := firstn n refPts in
    let ordered := sortPolygonByAngle (firstn n pts) in
    match fst (pickBest ref (matchCandidates (matchBases ref ordered) n)) with
    | Some best => clonePolygon best
    | None => clonePolygon pts
    end.

Definition canonicalizePolygon (pts : polygon) (refPts : option polygon) : polygon :=
  let n := length pts in
  if (n <? 3)%nat then clonePolygon pts
  else
    let ordered := sortPolygonByAngle (firstn n pts) in
    match refPts with
    | Some ref =>
        if (length ref =? n)%nat then matchPolygonToReference ordered ref
        else rotateToTopLeftStart ordered
    | None => rotateToTopLeftStart ordered
    end.

(** A polygon is canonical when [canonicalizePolygon] has produced it. *)
Definition isCanonical (P : polygon) : Prop :=
  exists (Q : polygon) (refPts : option polygon), P = canonicalizePolygon Q refPts.

Definition clampPointStep (from to : point) (maxStep : A) : point :=
  if negb (maxStep >? ofZ 0) then Pt (Point.x to) (Point.y to)
  else
    let dx := Point.x to - Point.x from in
    let dy := Point.y to - Point.y from in
    let d := hypot dx dy in
    if (d <=? maxStep) || (d <? eps6) then Pt (Point.x to) (Point.y to)
    else
      let s := maxStep / d in
      Pt (Point.x from + dx * s) (Point.y from + dy * s).

Definition maxCornerDelta (prevPts currPts : polygon) : A :=
  fold_left (fun m pc => nmax m (pointDist (fst pc) (snd pc)))
            (combine prevPts currPts) (ofZ 0).

Definition avgCornerDelta (prevPts currPts : polygon) : A :=
  let n := Nat.min (length prevPts) (length currPts) in
  if (n =? 0)%nat then ofZ 0
  else
    fold_left (fun s pc => s + pointDist (fst pc) (snd pc))
              (combine prevPts currPts) (ofZ 0)
    / ofZ (Z.of_nat n).

Definition perimeter (pts : polygon) : A :=
  let n := length pts in
  if (n <? 2)%nat then ofZ 0
  else
    fold_left (fun p i => p + pointDist (at_ pts i) (at_ pts ((i + 1) mod n)))
              (seq 0 n) (ofZ 0).

(** The index of the vertex nearest [targetPoint] (first minimum). *)
Definition leadIndex (pts : polygon) (targetPoint : point) : nat :=
  fst (fold_left
         (fun (st : nat * option A) i =>
            let dx := Point.x (at_ pts i) - Point.x targetPoint in
            let dy := Point.y (at_ pts i) - Point.y targetPoint in
            let d2 := dx * dx + dy * dy in
            if ltInf d2 (snd st) then (i, Some d2) else st)
         (seq 0 (length pts)) (0%nat, None)).

(* Force the corner nearest the target caret location to be an
   axis-aligned right angle. *)
Definition enforceLeadingAxisCorner (pts : polygon) (targetPoint : option point)
  : polygon :=
  let n := length pts in
  match targetPoint with
  | None => clonePolygon pts
  | Some target =>
      if (n <? 4)%nat then clonePolygon pts
      else
        let leadIdx := leadIndex pts target in
        let prevIdx := ((leadIdx + n - 1) mod n)%nat in   (* (leadIdx - 1 + n) % n *)
        let nextIdx := ((leadIdx + 1) mod n)%nat in
        let lead := at_ pts leadIdx in
        let prev := at_ pts prevIdx in
        let next := at_ pts nextIdx in
        let makeCandidate (prevHorizontal : bool) :=
          let cand := clonePolygon pts in
          if prevHorizontal then
            setAt (setAt cand prevIdx (Pt (Point.x prev) (Point.y lead)))
                  nextIdx (Pt (Point.x lead) (Point.y next))
          else
            setAt (setAt cand prevIdx (Pt (Point.x lead) (Point.y prev)))
                  nextIdx (Pt (Point.x next) (Point.y lead)) in
        let scoreCandidate (cand : polygon) :=
          pointDist (at_ cand prevIdx) prev + pointDist (at_ cand nextIdx) next in
        let candA := makeCandidate true in
        let candB := makeCandidate false in
        let preferA := scoreCandidate candA <=? scoreCandidate candB in
        let first := if preferA then candA else candB in
        let second := if preferA then candB else candA in
        if isValidTrailPolygon first then first
        else if isValidTrailPolygon second then second
        else clonePolygon pts
  end.

End Canonicalization.

(* ===================================================================== *)
(** ** SECTION 9: trail sample storage *)
(* ===================================================================== *)

Module TrailSample.

(** Trail sample shape: [{ t, cx, cy, pts }]. *)
Record sample (A : Type) : Type := mk { t : A; cx : A; cy : A; pts : Polygon A }.
Arguments mk {A}. Arguments t {A}. Arguments cx {A}.
Arguments cy {A}. Arguments pts {A}.

End TrailSample.
Abbreviation TrailSample := TrailSample.sample.

(** The two module-level variables [trail] and [lastPushed]. Samples are
    never written after they are built, so the reference [lastPushed]
    holds into [trail] is kept as a copy of the sample. *)
Record TrailState (A : Type) : Type := {
  trail : list (TrailSample A);
  lastPushed : option (TrailSample A)
}.
Arguments trail {A}. Arguments lastPushed {A}.

Section TrailStore.

Context {A : Type} `{JSMath A}.
Local Open Scope num_scope.
Local Abbreviation point := (Point.t A).
Local Abbreviation polygon := (Polygon A).
Local Abbreviation sample := (TrailSample A).
Local Abbreviation state := (TrailState A).

Variable cfg : Config A.

(** The stored polygon passes [isValidTrailPolygon]. *)
Definition validSample (s : sample) : Prop :=
  isValidTrailPolygon (TrailSample.pts s) = true.

(** [const trail = []; let lastPushed = null;] *)
Definition emptyTrail : state := {| trail := []; lastPushed := None |}.

(** [if (trail.length > CFG.trail.maxRects)
       trail.splice(0, trail.length - CFG.trail.maxRects);] *)
Definition capTrail (tr : list sample) : list sample :=
  if (trail_maxRects cfg <? length tr)%nat
  then skipn (length tr - trail_maxRects cfg) tr
  else tr.

Definition sampleOf (stampMs : A) (pts : polygon) : sample :=
  let center := polygonCenter pts in
  TrailSample.mk stampMs (Point.x center) (Point.y center) pts.

(** Lines 1647-1653: clone, canonicalize against the last pushed
    polygon, correct the leading corner. *)
Definition preparePolygon (last : option sample) (poly : polygon)
           (targetPoint : option point) : polygon :=
  let pts := clonePolygon poly in
  let pts := if trail_twistGuardEnabled cfg
             then canonicalizePolygon pts (option_map TrailSample.pts last)
             else pts in
  match targetPoint with
  | Some _ => enforceLeadingAxisCorner pts targetPoint
  | None => pts
  end.

(** Lines 1667-1692: re-canonicalize, smooth towards the last pushed
    polygon, clamp the per-vertex step, canonicalize and correct again.
    [center] is the centre of the prepared polygon. *)
Definition smoothPolygon (last : sample) (pts : polygon)
           (targetPoint : option point) : polygon :=
  let center := polygonCenter pts in
  let lastPts := TrailSample.pts last in
  let sameLength (p : polygon) := (length lastPts =? length p)%nat in
  let pts := if trail_twistGuardEnabled cfg && sameLength pts
             then canonicalizePolygon pts (Some lastPts) else pts in
  let rawCenterDx := Point.x center - TrailSample.cx last in
  let rawCenterDy := Point.y center - TrailSample.cy last in
  let rawCenterDist := hypot rawCenterDx rawCenterDy in
  let smoothBase := clamp (trail_temporalSmoothFactor cfg) (ofZ 0) (dec 95 100) in
  let releaseDist :=
    nmax (dec 1 10000) (orElse (trail_smoothReleaseDistancePx cfg) (ofZ 0)) in
  let release := clamp (rawCenterDist / releaseDist) (ofZ 0) (ofZ 1) in
  let smooth := smoothBase * (ofZ 1 - release) in
  let pts := if (smooth >? ofZ 0) && sameLength pts
             then lerpPolygon pts lastPts smooth else pts in
  let pts :=
    if (trail_cornerStepClampPx cfg >? ofZ 0) && sameLength pts then
      let speedClamp :=
        nmax (ofZ 0) (orElse (trail_cornerStepSpeedScale cfg) (ofZ 0)) * rawCenterDist in
      let maxStep := trail_cornerStepClampPx cfg + speedClamp in
      map (fun lp => clampPointStep (fst lp) (snd lp) maxStep) (combine lastPts pts)
    else pts in
  let pts := if trail_twistGuardEnabled cfg && sameLength pts
             then canonicalizePolygon pts (Some lastPts) else pts in
  match targetPoint with
  | Some _ => enforceLeadingAxisCorner pts targetPoint
  | None => pts
  end.

(** [interpMetric], lines 1694-1702. *)
Definition interpMetric (last : sample) (pts : polygon) : A :=
  let center := polygonCenter pts in
  let dx := Point.x center - TrailSample.cx last in
  let dy := Point.y center - TrailSample.cy last in
  let centerDist := hypot dx dy in
  let cornerMax := maxCornerDelta (TrailSample.pts last) pts in
  let cornerAvg := avgCornerDelta (TrailSample.pts last) pts in
  let shapeDelta :=
    abs (perimeter pts - perimeter (TrailSample.pts last)) * dec 35 100 in
  nmax (nmax (nmax centerDist cornerMax) cornerAvg) shapeDelta.

Definition moveThreshold : A :=
  nmax (trail_minMovePx cfg) (trail_cornerInterpEpsilonPx cfg).

(** [segments], lines 1705-1712. *)
Definition segmentsOf (metric perfQuality : A) : A :=
  let adaptiveStep :=
    nmax (dec 1 10000)
         (orElse (trail_adaptiveInterpStepPx cfg) (trail_interpStepPx cfg))
    / nmax perfQuality (dec 1 10000) in
  let effectiveMaxInterpPerPush :=
    nmax (ofZ 1) (round (trail_maxInterpPerPush cfg * perfQuality)) in
  nmin effectiveMaxInterpPerPush (nmax (ofZ 1) (ceil (metric / adaptiveStep))).

(** The body of the interpolation loop for one [i]: the polygon the
    iteration would store. *)
Definition entryPolygon (last : sample) (pts prevEntryPts : polygon)
           (targetPoint : option point) (segments : A) (i : nat) : polygon :=
  let t := ofZ (Z.of_nat i) / segments in
  let entryPts := lerpPolygon (TrailSample.pts last) pts t in
  let entryPts :=
    if trail_twistGuardEnabled cfg && (length prevEntryPts =? length entryPts)%nat
    then canonicalizePolygon entryPts (Some prevEntryPts) else entryPts in
  match targetPoint with
  | Some _ => enforceLeadingAxisCorner entryPts targetPoint
  | None => entryPts
  end.

(** The loop [for (let i = 1; i <= segments; i++)] over the remaining
    values [idxs] of [i]: the entries it pushes, in order. *)
Fixpoint interpEntries (last : sample) (pts prevEntryPts : polygon)
         (targetPoint : option point) (stampMs segments : A) (idxs : list nat)
  : list sample :=
  match idxs with
  | [] => []
  | i :: idxs' =>
      let entryPts := entryPolygon last pts prevEntryPts targetPoint segments i in
      if negb (isValidTrailPolygon entryPts)
      then interpEntries last pts prevEntryPts targetPoint stampMs segments idxs'
      else sampleOf stampMs entryPts
           :: interpEntries last pts entryPts targetPoint stampMs segments idxs'
  end.

(** Everything one push appends before the cap is applied. *)
Definition pushedEntries (last : sample) (pts : polygon)
           (targetPoint : option point) (stampMs perfQuality : A) : list sample :=
  let segments := segmentsOf (interpMetric last pts) perfQuality in
  interpEntries last pts (TrailSample.pts last) targetPoint stampMs segments
                (seq 1 (loopCount segments)).

(** [pushTrailPolygon(poly, targetPoint, stampMs, perfQuality)]. *)
Definition pushTrailPolygon (st : state) (poly : polygon)
           (targetPoint : option point) (stampMs perfQuality : A) : state :=
  if (length poly <? 3)%nat then st
  else
    let pts := preparePolygon (lastPushed st) poly targetPoint in
    if negb (isValidTrailPolygon pts) then st
    else
      match lastPushed st with
      | None =>
          let first := sampleOf stampMs pts in
          {| trail := capTrail (trail st ++ [first]); lastPushed := Some first |}
      | Some last =>
          let pts := smoothPolygon last pts targetPoint in
          if negb (isValidTrailPolygon pts) then st
          else if interpMetric last pts <? moveThreshold then st
          else
            let entries := pushedEntries last pts targetPoint stampMs perfQuality in
            {| trail := capTrail (trail st ++ entries);
               lastPushed := match entries with
                             | [] => Some last
                             | _ => Some (List.last entries last)
                             end |}
      end.

(** [trail.splice(i, 1)]. *)
Fixpoint removeAt {T : Type} (i : nat) (l : list T) : list T :=
  match l, i with
  | [], _ => []
  | _ :: l', O => l'
  | a :: l', S i' => a :: removeAt i' l'
  end.

(** The loop of [pruneTrail] with [i] indices still to visit: it looks
    at [trail[i - 1]], then at the lower ones. *)
Fixpoint pruneLoop (now : A) (i : nat) (tr : list sample) : list sample :=
  match i with
  | O => tr
  | S i' =>
      match nth_error tr i' with
      | Some s =>
          if now - TrailSample.t s >? trail_ttlMs cfg
          then pruneLoop now i' (removeAt i' tr)
          else pruneLoop now i' tr
      | None => pruneLoop now i' tr   (* the index is in range: not taken *)
      end
  end.

(** The test a sample passes to survive [pruneTrail(now)]. *)
Definition fresh (now : A) (s : sample) : bool :=
  negb (now - TrailSample.t s >? trail_ttlMs cfg).

(** [pruneTrail(now)]. *)
Definition pruneTrail (st : state) (now : A) : state :=
  {| trail := pruneLoop now (length (trail st)) (trail st);
     lastPushed := lastPushed st |}.

(** The cleanup handler: [trail.length = 0; lastPushed = null;]. *)
Definition cleanupTrail (st : state) : state := emptyTrail.

End TrailStore.

(* ===================================================================== *)
(** ** SECTION 7: corner control *)
(* ===================================================================== *)

Module Corner.
Section CornerControl.

Context {A : Type} `{JSMath A}.
Local Open Scope num_scope.

Record t : Type := {
  rel : Point.t A;
  cx : A; cy : A;
  sx : CritDamped1D.t A; sy : CritDamped1D.t A;
  pdx : A; pdy : A
}.

(** [{ useShort, leadingness }]. *)
Record SnapState : Type := { useShort : bool; leadingness : A }.

Variable cfg : Config A.

(* constructor(rel) *)
Definition make (rel' : Point.t A) : t :=
  {| rel := rel';
     cx := - ofZ 100000; cy := - ofZ 100000;
     sx := CritDamped1D.make (animation_length cfg);
     sy := CritDamped1D.make (animation_length cfg);
     pdx := - ofZ 100000; pdy := - ofZ 100000 |}.

Definition getDest (c : t) (centerX centerY w h : A) : Point.t A :=
  Pt (centerX + Point.x (rel c) * w) (centerY + Point.y (rel c) * h).

(** Whether the hard-snap branch applies to a corner of this rank. *)
Definition snaps (snapState : SnapState) : bool :=
  dynamics_hardSnap cfg && (leadingness snapState >=? dynamics_leadingSnapThreshold cfg).

(** The time constant [update] gives both springs. *)
Definition tauOf (rankFactor : A) (snapState : SnapState) : A :=
  let base := if useShort snapState
              then animation_shortLength cfg else animation_length cfg in
  if snaps snapState then dynamics_snapAnimationLength cfg
  else nmax (dec 1 100) (base * rankFactor).

(** [update(dt, centerX, centerY, w, h, rankFactor, snapState)]: the
    corner afterwards and the returned flag. *)
Definition update (c : t) (dt centerX centerY w h rankFactor : A)
           (snapState : SnapState) : t * bool :=
  let dest := getDest c centerX centerY w h in
  if pdx c <? - ofZ 10000 then
    ({| rel := rel c;
        cx := Point.x dest; cy := Point.y dest;
        sx := CritDamped1D.reset (sx c); sy := CritDamped1D.reset (sy c);
        pdx := Point.x dest; pdy := Point.y dest |}, false)
  else
    let sx1 := CritDamped1D.setPos (sx c) (cx c - Point.x dest) in
    let sy1 := CritDamped1D.setPos (sy c) (cy c - Point.y dest) in
    let tau := tauOf rankFactor snapState in
    let sx2 := CritDamped1D.setTimeConstant sx1 tau in
    let sy2 := CritDamped1D.setTimeConstant sy1 tau in
    (* The catch-up jump writes [cx], [cy]; both are overwritten below
       before anything reads them. *)
    let jumped :=
      if snaps snapState then
        let dx := Point.x dest - pdx c in
        let dy := Point.y dest - pdy c in
        if hypot dx dy >? dec 1 1000
        then (cx c + dx * dynamics_leadingSnapFactor cfg,
              cy c + dy * dynamics_leadingSnapFactor cfg)
        else (cx c, cy c)
      else (cx c, cy c) in
    let '(sx3, mx) := CritDamped1D.step sx2 dt in
    let '(sy3, my) := CritDamped1D.step sy2 dt in
    let cx1 := Point.x dest + CritDamped1D.pos sx3 in
    let cy1 := Point.y dest + CritDamped1D.pos sy3 in
    let maxStretch := dynamics_maxTrailDistanceFactor cfg * nmax w h in
    ({| rel := rel c;
        cx := clamp cx1 (Point.x dest - maxStretch) (Point.x dest + maxStretch);
        cy := clamp cy1 (Point.y dest - maxStretch) (Point.y dest + maxStretch);
        sx := sx3; sy := sy3;
        pdx := Point.x dest; pdy := Point.y dest |}, mx || my).

(** [n] successive calls of [update] with the same arguments (a
    stationary target rectangle and a constant frame time): the corner
    afterwards and the flag the last call returned. *)
Fixpoint ticks (n : nat) (c : t) (dt centerX centerY w h rankFactor : A)
         (snapState : SnapState) : t * bool :=
  match n with
  | O => (c, false)
  | S n' =>
      update (fst (ticks n' c dt centerX centerY w h rankFactor snapState))
             dt centerX centerY w h rankFactor snapState
  end.

(** Successive calls of [update] with the same target rectangle, one
    for each frame [(dt, rankFactor, snapState)] of the list: the corner
    afterwards and the flag the last call returned. *)
Definition run (frames : list (A * A * SnapState)) (c : t)
           (centerX centerY w h : A) : t * bool :=
  fold_left
    (fun (st : t * bool) (frame : A * A * SnapState) =>
       let '(dt, rankFactor, snapState) := frame in
       update (fst st) dt centerX centerY w h rankFactor snapState)
    frames (c, false).

End CornerControl.
Arguments t A : clear implicits.
Arguments SnapState A : clear implicits.

(** The factor by which one step over [dt] shrinks the offset of a
    settling spring, at most: [(1 + w dt) e^(-w dt)] with [w = 4 / tau],
    and [0] when the step snaps ([tau <= dt]). *)
Definition decayFactor (tau dt : R) : R :=
  if Rle_dec tau dt then 0%R
  else ((1 + 4 / tau * dt) * Rtrigo_def.exp (- (4 / tau * dt)))%R.

(** A sample corner: the top-left corner of an 8 by 18 caret centred at
    the origin (destination [(-4, -9)]), seen before, displaced by 100 px
    to the right, springs at rest. *)
Definition displacedCorner : t R :=
  {| rel := Pt (- (1 / 2))%R (- (1 / 2))%R;
     cx := 96%R; cy := (- 9)%R;
     sx := CritDamped1D.make (animation_length CFG);
     sy := CritDamped1D.make (animation_length CFG);
     pdx := (- 4)%R; pdy := (- 9)%R |}.

(** The snap state [step] passes for rank 0 when nothing moved. *)
Definition trailingAtRest : SnapState R :=
  {| useShort := false; leadingness := 0%R |}.

(** A spring axis is settling when its velocity points at the target and
    is no larger than [omega * |offset|]: a spring released at rest is,
    and stays so. *)
Definition axisSettling (omega off vel : R) : Prop :=
  ((0 <= off /\ vel <= 0 /\ 0 <= vel + omega * off)
   \/ (off <= 0 /\ 0 <= vel /\ vel + omega * off <= 0))%R.

(** Both axes of a corner are settling towards the destination the
    arguments give, and the corner is inside the stretch clamp. *)
Definition settling (cfg : Config R) (c : t R)
           (centerX centerY w h rankFactor : R) (snapState : SnapState R) : Prop :=
  let dest := getDest c centerX centerY w h in
  let omega := (4 / tauOf cfg rankFactor snapState)%R in
  let maxStretch := (dynamics_maxTrailDistanceFactor cfg * Rmax w h)%R in
  (axisSettling omega (cx c - Point.x dest) (CritDamped1D.vel (sx c))
   /\ Rabs (cx c - Point.x dest) <= maxStretch
   /\ axisSettling omega (cy c - Point.y dest) (CritDamped1D.vel (sy c))
   /\ Rabs (cy c - Point.y dest) <= maxStretch)%R.

End Corner.

(* ===================================================================== *)
(** ** SECTION 8: cursor squish controller *)
(* ===================================================================== *)

Module CursorSquish.
Section Squish.

Context {A : Type} `{JSMath A}.
Local Open Scope num_scope.

(** [{ cx, cy, w, h }]. *)
Record Target : Type := { t_cx : A; t_cy : A; t_w : A; t_h : A }.

(** [{ dx, dy, dist, useShort }]. *)
Record MotionInfo : Type := { dx : A; dy : A; dist : A; useShort : bool }.

Record t : Type := { corners : list (Corner.t A); target : Target }.

Variable cfg : Config A.

Definition REL_CORNERS : list (Point.t A) :=
  [ Pt (- dec 5 10) (- dec 5 10); Pt (dec 5 10) (- dec 5 10);
    Pt (dec 5 10) (dec 5 10); Pt (- dec 5 10) (dec 5 10) ].

(* constructor() *)
Definition make : t :=
  {| corners := map (Corner.make cfg) REL_CORNERS;
     target := {| t_cx := ofZ 0; t_cy := ofZ 0; t_w := ofZ 8; t_h := ofZ 18 |} |}.

Definition NO_MOTION : MotionInfo :=
  {| dx := ofZ 0; dy := ofZ 0; dist := ofZ 0; useShort := false |}.

Definition normalize2 (x y : A) : Point.t A :=
  let len := hypot x y in
  if falsy len then Pt (ofZ 0) (ofZ 0) else Pt (x / len) (y / len).

(** [align[i]]; the default is not read for [i < 4]. *)
Definition alignOf (dir : Point.t A) (c : Corner.t A) : A :=
  Point.x (Corner.rel c) * Point.x dir + Point.y (Corner.rel c) * Point.y dir.

(** [[0, 1, 2, 3].sort((a, b) => align[a] - align[b])]. *)
Definition rankOrder (align : list A) : list nat :=
  sortBy (fun a b => nth a align (ofZ 0) - nth b align (ofZ 0)) [0; 1; 2; 3]%nat.

(** [rankOf[i]]: where [i] stands in [idxs]. *)
Fixpoint rankOf (idxs : list nat) (i : nat) : nat :=
  match idxs with
  | [] => O
  | j :: idxs' => if (j =? i)%nat then O else S (rankOf idxs' i)
  end.

(** The loop over the corners, with [i] the index of the first of [cs]. *)
Fixpoint stepCorners (dtSec : A) (tg : Target) (useShort' : bool)
         (idxs : list nat) (i : nat) (cs : list (Corner.t A)) (anyMoving : bool)
  : list (Corner.t A) * bool :=
  match cs with
  | [] => ([], anyMoving)
  | c :: cs' =>
      let rank := rankOf idxs i in
      let rankFactor :=
        match nth_error (dynamics_rankFactors cfg) rank with
        | Some f => f
        | None => ofZ 1
        end in
      let snapState :=
        {| Corner.useShort := useShort';
           Corner.leadingness := ofZ (Z.of_nat rank) / ofZ 3 |} in
      let '(c', m) :=
        Corner.update cfg c dtSec (t_cx tg) (t_cy tg) (t_w tg) (t_h tg)
                      rankFactor snapState in
      let '(rest, anyMoving') :=
        stepCorners dtSec tg useShort' idxs (S i) cs' (m || anyMoving) in
      (c' :: rest, anyMoving')
  end.

(** [step(dtSec, motionInfo)]. *)
Definition step (s : t) (dtSec : A) (motionInfo : MotionInfo) : t * bool :=
  let dir := if dist motionInfo >? dec 1 10000
             then normalize2 (dx motionInfo) (dy motionInfo)
             else Pt (ofZ 0) (ofZ 0) in
  let align := map (alignOf dir) (corners s) in
  let idxs := rankOrder align in
  let '(cs, anyMoving) :=
    stepCorners dtSec (target s) (useShort motionInfo) idxs 0 (corners s) false in
  ({| corners := cs; target := target s |}, anyMoving).

End Squish.
Arguments t A : clear implicits.
Arguments Target A : clear implicits.
Arguments MotionInfo A : clear implicits.
End CursorSquish.

(* ===================================================================== *)
(** ** SECTION 10 (part): the cell loop of [drawStackedHexTrail] *)
(* ===================================================================== *)

Module StackHex.
Section Cells.

Context {A : Type} `{Num A}.
Local Open Scope num_scope.
Local Abbreviation point := (Point.t A).
Local Abbreviation polygon := (Polygon A).

(** What one iteration of the cell loop has computed when it reaches the
    validity checks (line 2022): the six points of the cell, whether it
    is one of the head cells, and its alpha. The local-frame geometry
    that places the points (lines 1949-2020) is not modelled; the loop
    hands [handoffL], [handoffR] on as the next cell's [baseL], [baseR]. *)
Record Cell : Type := {
  baseL : point; baseR : point;
  partR : point; handoffR : point; handoffL : point; partL : point;
  headQuad : bool;
  alphaCell : A
}.

Definition quadCell (c : Cell) : polygon :=
  [clonePoint (baseL c); clonePoint (baseR c);
   clonePoint (handoffR c); clonePoint (handoffL c)].

Definition hexCell (c : Cell) : polygon :=
  [clonePoint (baseL c); clonePoint (baseR c); clonePoint (partR c);
   clonePoint (handoffR c); clonePoint (handoffL c); clonePoint (partL c)].

(** [baseL = clonePoint(handoffL); baseR = clonePoint(handoffR);] *)
Definition chained (c c' : Cell) : Prop :=
  baseL c' = clonePoint (handoffL c) /\ baseR c' = clonePoint (handoffR c).

Variable cfg : Config A.

(** The inner loop [for (j = 0; j < renderedCells.length - 1; j++)]:
    does the cell overlap a rendered cell other than the last one? *)
Definition overlapsEarlier (cellPts : polygon) (renderedCells : list polygon) : bool :=
  existsb
    (fun r => polygonsOverlap cellPts r (orElse (stackHex_overlapEpsilonPx cfg) (ofZ 0)))
    (removelast renderedCells).

(** How an iteration ends. *)
Inductive Outcome : Type :=
| Drawn (cellPts : polygon)      (* the first choice passed both checks *)
| Fallback (cellPts : polygon)    (* the quad drawn in its place *)
| Skipped.

Definition polygonOf (o : Outcome) : option polygon :=
  match o with
  | Drawn p | Fallback p => Some p
  | Skipped => None
  end.

(** [let cellPts = headQuad ? quadCell : [...]]. *)
Definition firstChoice (c : Cell) : polygon :=
  if headQuad c then quadCell c else hexCell c.

(** Lines 2022-2054 for one cell. *)
Definition decide (c : Cell) (renderedCells : list polygon) : Outcome :=
  let cellPts := firstChoice c in
  let valid := isValidTrailPolygon cellPts in
  let valid :=
    if valid && (1 <? length renderedCells)%nat
    then negb (overlapsEarlier cellPts renderedCells)
    else valid in
  let fellBack := negb valid && negb (headQuad c) in
  let cellPts' := if fellBack then quadCell c else cellPts in
  let valid' := if fellBack then isValidTrailPolygon cellPts' else valid in
  if valid' && (alphaCell c >? ofZ 0)
  then (if fellBack then Fallback cellPts' else Drawn cellPts')
  else Skipped.

(** The cell loop: the outcome of every iteration, given the cells
    rendered so far. *)
Fixpoint cellLoop (cells : list Cell) (renderedCells : list polygon) : list Outcome :=
  match cells with
  | [] => []
  | c :: cells' =>
      let o := decide c renderedCells in
      let renderedCells' :=
        match polygonOf o with
        | Some p => renderedCells ++ [p]
        | None => renderedCells
        end in
      o :: cellLoop cells' renderedCells'
  end.

(** [renderedCells] after a list of outcomes. *)
Definition rendered (os : list Outcome) : list polygon :=
  flat_map (fun o => match polygonOf o with Some p => [p] | None => [] end) os.

(** [renderedCells] at the end of the frame. *)
Definition renderedCells (cells : list Cell) : list polygon :=
  rendered (cellLoop cells []).

End Cells.
Arguments Cell A : clear implicits.
Arguments Outcome A : clear implicits.

(** Sample cells of a trail that runs straight along the [y] axis: base
    edge from [(0, y0)] to [(10, y0)], hand-off edge [len] further on
    ([len < 0] for a cell that runs back), side points pulled inwards as
    [clampPointStep] pulls them (coordinates rounded to one decimal). *)
Definition straightCell {A : Type} `{Num A} (y0 len : Z) (head : bool) : Cell A :=
  {| baseL := Pt (ofZ 0) (ofZ y0);
     baseR := Pt (ofZ 10) (ofZ y0);
     partR := Pt (dec 83 10) (add (ofZ y0) (mul (dec 32 110) (ofZ len)));
     handoffR := Pt (ofZ 10) (ofZ (y0 + len));
     handoffL := Pt (ofZ 0) (ofZ (y0 + len));
     partL := Pt (dec 17 10) (add (ofZ y0) (mul (dec 32 110) (ofZ len)));
     headQuad := head;
     alphaCell := dec 1 2 |}.

End StackHex.

(** The sample polygon of the trail scenarios: the axis-aligned 10 by 20
    rectangle with top-left corner [(x, 0)], vertices in the corner order
    of the controller (top-left, top-right, bottom-right, bottom-left). *)
Definition rectAt {A : Type} `{Num A} (x : A) : Polygon A :=
  [ Pt x (ofZ 0); Pt (add x (ofZ 10)) (ofZ 0);
    Pt (add x (ofZ 10)) (ofZ 20); Pt x (ofZ 20) ].

(** The centre of [rectAt x], where the caret is. *)
Definition caretAt {A : Type} `{Num A} (x : A) : Point.t A :=
  Pt (add x (ofZ 5)) (ofZ 10).

(* ===================================================================== *)
(** ** Histories of the trail store *)
(* ===================================================================== *)

(** The three operations of the program that write [trail]. *)
Inductive TrailOp (A : Type) : Type :=
| OpPush (poly : Polygon A) (targetPoint : option (Point.t A)) (stampMs perfQuality : A)
| OpPrune (now : A)
| OpCleanup.
Arguments OpPush {A}. Arguments OpPrune {A}. Arguments OpCleanup {A}.

Section Histories.

Context {A : Type} `{JSMath A}.
Variable cfg : Config A.

Definition applyOp (st : TrailState A) (op : TrailOp A) : TrailState A :=
  match op with
  | OpPush poly targetPoint stampMs perfQuality =>
      pushTrailPolygon cfg st poly targetPoint stampMs perfQuality
  | OpPrune now => pruneTrail cfg st now
  | OpCleanup => cleanupTrail st
  end.

(** The store after a history that starts with the empty trail. *)
Definition runOps (ops : list (TrailOp A)) : TrailState A :=
  fold_left applyOp ops emptyTrail.

End Histories.

(* ===================================================================== *)
(** ** The subdivision count, as documented and in a sample move *)
(* ===================================================================== *)

Section MoveScenario.

Context {A : Type} `{JSMath A}.
Local Open Scope num_scope.


(** The caret rests at [x = 0]: its rectangle is the first push. *)
Definition restingTrail : TrailState A :=
  pushTrailPolygon CFG emptyTrail (rectAt (ofZ 0)) (Some (caretAt (ofZ 0)))
                   (ofZ 0) (ofZ 1).


(** The same rectangle pushed once more, as on a tick without motion. *)
Definition jitterTrail : TrailState A :=
  pushTrailPolygon CFG restingTrail (rectAt (ofZ 0)) (Some (caretAt (ofZ 0)))
                   (ofZ 16) (ofZ 1).

End MoveScenario.

(* ===================================================================== *)
(** ** A quadrilateral with two vertices on nearly one ray *)
(* ===================================================================== *)

(** The binary64 polygon [(3.6, 5.3), (6.3, 0.7), (3.7, 7), (0.4, 1.4)].
    Seen from its centroid [(3.5, 3.6)] the first and the third vertex
    lie in the same direction, the third twice as far. *)
Definition nearRayQuad : Polygon float :=
  [ Pt (dec 36 10) (dec 53 10); Pt (dec 63 10) (dec 7 10);
    Pt (dec 37 10) (ofZ 7); Pt (dec 4 10) (dec 14 10) ].

(** [nearRayQuad] canonicalized without a reference. *)
Definition nearRayCanonical : Polygon float :=
  canonicalizePolygon nearRayQuad None.

(* ===================================================================== *)
(** ** A fast sweep of the caret, in binary64 *)
(* ===================================================================== *)

(** Frame [k] of the sweep: 16 ms after the frame before, the caret
    rectangle 200px further to the right, at full quality. *)
Definition sweepOp (k : nat) : TrailOp float :=
  let x := ofZ (200 * Z.of_nat k) in
  OpPush (rectAt x) (Some (caretAt x)) (ofZ (16 * Z.of_nat k)) (ofZ 1).

(** The store after the first [n] frames of the sweep. *)
Definition sweepTrail (n : nat) : TrailState float :=
  runOps CFG (map sweepOp (seq 0 n)).

(* ===================================================================== *)
(** ** Further configuration *)
(* ===================================================================== *)

(** More fields of [CFG], read by the functions below. *)
Record ConfigMore (A : Type) : Type := {
  animation_shortMoveThresholdPx : A;
  motion_snapCenterToDevicePixel : bool;
  overshoot_enabled : bool;
  overshoot_gain : A;
  overshoot_minScale : A;
  overshoot_maxScale : A;
  trail_drawSubdivideStepPx : A;
  trail_maxDrawSubdivisions : A;
  trail_ribbonSides : A;
  trail_ribbonSidesMin : A;
  performance_subdivideOnlyThreshold : A;
  performance_blurStartThreshold : A;
  performance_historyStartThreshold : A;
  stackHex_maxCellsPerFrame : A
}.

Arguments animation_shortMoveThresholdPx {A}.
Arguments motion_snapCenterToDevicePixel {A}.
Arguments overshoot_enabled {A}. Arguments overshoot_gain {A}.
Arguments overshoot_minScale {A}. Arguments overshoot_maxScale {A}.
Arguments trail_drawSubdivideStepPx {A}. Arguments trail_maxDrawSubdivisions {A}.
Arguments trail_ribbonSides {A}. Arguments trail_ribbonSidesMin {A}.
Arguments performance_subdivideOnlyThreshold {A}.
Arguments performance_blurStartThreshold {A}.
Arguments performance_historyStartThreshold {A}.
Arguments stackHex_maxCellsPerFrame {A}.

(** The values the source file ships. *)
Definition CFG_more {A : Type} `{Num A} : ConfigMore A := {|
  animation_shortMoveThresholdPx := ofZ 32;
  motion_snapCenterToDevicePixel := true;
  overshoot_enabled := true;
  overshoot_gain := dec 64 100;
  overshoot_minScale := neg (dec 4 100);
  overshoot_maxScale := dec 32 100;
  trail_drawSubdivideStepPx := dec 72 100;
  trail_maxDrawSubdivisions := ofZ 6;
  trail_ribbonSides := ofZ 4;
  trail_ribbonSidesMin := ofZ 4;
  performance_subdivideOnlyThreshold := dec 68 100;
  performance_blurStartThreshold := dec 66 100;
  performance_historyStartThreshold := dec 50 100;
  stackHex_maxCellsPerFrame := ofZ 48
|}.

(* ===================================================================== *)
(** ** SECTION 2 (part): utilities *)
(* ===================================================================== *)

(** [{ left, top, width, height }]. *)
Record Rect (A : Type) : Type := { left : A; top : A; width : A; height : A }.
Arguments left {A}. Arguments top {A}. Arguments width {A}. Arguments height {A}.

Section Utilities.

Context {A : Type} `{JSMath A}.
Local Open Scope num_scope.

Variable cfgm : ConfigMore A.

(** [snapToDevicePixel(v)], with [devicePixelRatio] the value of
    [window.devicePixelRatio]. *)
Definition snapToDevicePixel (devicePixelRatio v : A) : A :=
  if negb (motion_snapCenterToDevicePixel cfgm) then v
  else
    let dpr := orElse devicePixelRatio (ofZ 1) in
    round (v * dpr) / dpr.

(* const TRAIL_WIDTH_ENVELOPE_AT = (frac) => 0.20 + 0.80 * (1 - frac); *)
Definition TRAIL_WIDTH_ENVELOPE_AT (frac : A) : A :=
  dec 20 100 + dec 80 100 * (ofZ 1 - frac).

(** [scalePolygonInto(dst, pts, cx, cy, scale)]: the contents of [dst]
    afterwards ([dst] is a scratch buffer, distinct from [pts]). *)
Definition scalePolygonInto (pts : Polygon A) (cx cy scale : A) : Polygon A :=
  map (fun p =>
         let dx := Point.x p - cx in
         let dy := Point.y p - cy in
         Pt (cx + dx * scale) (cy + dy * scale))
      pts.

End Utilities.

(* ===================================================================== *)
(** ** SECTION 8 (rest): the rectangles of the squish controller *)
(* ===================================================================== *)

Module SquishRect.
Section Rects.

Context {A : Type} `{JSMath A}.
Local Open Scope num_scope.

Variable cfgm : ConfigMore A.

(** The controller with [this.last.cx], [this.last.cy]. *)
Record t : Type := {
  squish : CursorSquish.t A;
  last_cx : A;
  last_cy : A
}.

(* constructor() *)
Definition make (cfg : Config A) : t :=
  {| squish := CursorSquish.make cfg; last_cx := ofZ 0; last_cy := ofZ 0 |}.

(** [setTargetFromRect(r)]: the controller afterwards and the returned
    [{ dx, dy, dist, useShort }]. *)
Definition setTargetFromRect (s : t) (r : Rect A) : t * CursorSquish.MotionInfo A :=
  let cx := left r + width r / ofZ 2 in
  let cy := top r + height r / ofZ 2 in
  let dx := cx - last_cx s in
  let dy := cy - last_cy s in
  let dist := hypot dx dy in
  let useShort := dist <=? animation_shortMoveThresholdPx cfgm in
  ({| squish :=
        {| CursorSquish.corners := CursorSquish.corners (squish s);
           CursorSquish.target :=
             {| CursorSquish.t_cx := cx; CursorSquish.t_cy := cy;
                CursorSquish.t_w := nmax (ofZ 1) (width r);
                CursorSquish.t_h := nmax (ofZ 1) (height r) |} |};
      last_cx := cx; last_cy := cy |},
   {| CursorSquish.dx := dx; CursorSquish.dy := dy;
      CursorSquish.dist := dist; CursorSquish.useShort := useShort |}).

(** [getTargetRect()]. *)
Definition getTargetRect (s : t) : Rect A :=
  let tg := CursorSquish.target (squish s) in
  {| left := CursorSquish.t_cx tg - CursorSquish.t_w tg / ofZ 2;
     top := CursorSquish.t_cy tg - CursorSquish.t_h tg / ofZ 2;
     width := nmax (ofZ 1) (CursorSquish.t_w tg);
     height := nmax (ofZ 1) (CursorSquish.t_h tg) |}.

(** [this.corners.map((c) => ({ x: c.cx, y: c.cy }))]. *)
Definition cornerPoints (s : t) : Polygon A :=
  map (fun c => Pt (Corner.cx c) (Corner.cy c)) (CursorSquish.corners (squish s)).

(** [getAabbRect()]; the box of a controller without corners (infinite
    in the source) is [None]. *)
Definition getAabbRect (s : t) : option (Rect A) :=
  match aabbFromPolygon (cornerPoints s) with
  | Some box =>
      Some {| left := minX box; top := minY box;
              width := nmax (ofZ 1) (maxX box - minX box);
              height := nmax (ofZ 1) (maxY box - minY box) |}
  | None => None
  end.

(** [getCornerPolygon(padPx)]. *)
Definition getCornerPolygon (s : t) (padPx : A) : Polygon A :=
  let pts := cornerPoints s in
  if negb (padPx >? ofZ 0) || (length pts =? 0)%nat then pts
  else
    let sx := fold_left (fun s p => s + Point.x p) pts (ofZ 0) in
    let sy := fold_left (fun s p => s + Point.y p) pts (ofZ 0) in
    let cx := sx / ofZ (Z.of_nat (length pts)) in
    let cy := sy / ofZ (Z.of_nat (length pts)) in
    map (fun p =>
           let dx := Point.x p - cx in
           let dy := Point.y p - cy in
           let len := hypot dx dy in
           if len <? eps6 then Pt (Point.x p) (Point.y p)
           else
             let s := (len + padPx) / len in
             Pt (cx + dx * s) (cy + dy * s))
        pts.

(** [cursor.step(dtSec, motion)] on the wrapped controller. *)
Definition step (cfg : Config A) (s : t) (dtSec : A)
           (motionInfo : CursorSquish.MotionInfo A) : t * bool :=
  let '(sq, moving) := CursorSquish.step cfg (squish s) dtSec motionInfo in
  ({| squish := sq; last_cx := last_cx s; last_cy := last_cy s |}, moving).

End Rects.
Arguments t A : clear implicits.
End SquishRect.

(* ===================================================================== *)
(** ** SECTION 10, 11 (part): the scalars of a frame *)
(* ===================================================================== *)

Section FrameScalars.

Context {A : Type} `{JSMath A}.
Local Open Scope num_scope.

Variable cfg : Config A.
Variable cfgm : ConfigMore A.

(** [scaleExtra], from the oscillator's [x]. *)
Definition scaleExtraOf (bounceX : A) : A :=
  if overshoot_enabled cfgm
  then clamp (bounceX * overshoot_gain cfgm)
             (overshoot_minScale cfgm) (overshoot_maxScale cfgm)
  else ofZ 0.

(* clamp((now - s.t) / ttl, 0, 1) *)
Definition ageFrac (now stamp : A) : A :=
  clamp ((now - stamp) / trail_ttlMs cfg) (ofZ 0) (ofZ 1).

(* Math.max(minPolyScale, (1 + scaleExtra) * TRAIL_WIDTH_ENVELOPE_AT(frac)) *)
Definition polyScaleAt (scaleExtra frac : A) : A :=
  nmax (dec 5 100) ((ofZ 1 + scaleExtra) * TRAIL_WIDTH_ENVELOPE_AT frac).

(* clamp((1 - frac) * trailOpacity, CFG.trail.minAlpha, 1) *)
Definition alphaAt (frac trailOpacity : A) : A :=
  clamp ((ofZ 1 - frac) * trailOpacity) (trail_minAlpha cfg) (ofZ 1).

(** The staged quality parameters [draw] derives from [perfQuality];
    [shadowScale] is the factor of the branch that draws the shadow. *)
Record DrawParams : Type := {
  clampedQuality : A;
  allowPostSubdivideCuts : bool;
  effectiveDrawSubdivideStep : A;
  effectiveMaxDrawSubdivisions : A;
  effectiveRibbonSides : A;
  effectiveMaxRects : A;
  shadowScale : A
}.

Definition drawParams (perfQuality : A) : DrawParams :=
  let qMin := performance_qualityMin cfg in
  let clampedQuality := clamp perfQuality qMin (ofZ 1) in
  let allowPostSubdivideCuts :=
    clampedQuality <? performance_subdivideOnlyThreshold cfgm in
  let subQuality := clampedQuality in
  {| clampedQuality := clampedQuality;
     allowPostSubdivideCuts := allowPostSubdivideCuts;
     effectiveDrawSubdivideStep :=
       trail_drawSubdivideStepPx cfgm / nmax subQuality (dec 1 10000);
     effectiveMaxDrawSubdivisions :=
       nmax (ofZ 1) (round (trail_maxDrawSubdivisions cfgm * subQuality));
     effectiveRibbonSides :=
       nmax (ofZ 3)
            (round (lerp (trail_ribbonSidesMin cfgm) (trail_ribbonSides cfgm)
                         clampedQuality));
     effectiveMaxRects :=
       if allowPostSubdivideCuts
          && (clampedQuality <? performance_historyStartThreshold cfgm)
       then nmax (ofZ 8)
                 (round (ofZ (Z.of_nat (trail_maxRects cfg)) * clampedQuality))
       else ofZ (Z.of_nat (trail_maxRects cfg));
     shadowScale :=
       if allowPostSubdivideCuts
          && (clampedQuality <? performance_blurStartThreshold cfgm)
       then
         let denom :=
           nmax (dec 1 10000)
                (performance_blurStartThreshold cfgm - performance_qualityMin cfg) in
         clamp ((clampedQuality - performance_qualityMin cfg) / denom) (ofZ 0) (ofZ 1)
       else ofZ 1 |}.

End FrameScalars.

(* ===================================================================== *)
(** ** SECTION 10 (part): the sections [drawStackedHexTrail] picks *)
(* ===================================================================== *)

Section HexPick.

Context {A : Type} `{JSMath A}.
Local Open Scope num_scope.

Variable cfgm : ConfigMore A.

(* Math.max(1, Math.round(Math.max(1, cfg.maxCellsPerFrame || 1) * clampedQuality)) *)
Definition maxCellsOf (clampedQuality : A) : A :=
  nmax (ofZ 1)
       (round (nmax (ofZ 1) (orElse (stackHex_maxCellsPerFrame cfgm) (ofZ 1))
               * clampedQuality)).

(** [stride], for [sections.length = sectionsLength]. *)
Definition strideOf (sectionsLength : nat) (maxCells : A) : A :=
  let available := ofZ (Z.of_nat sectionsLength - 1) in
  nmax (ofZ 1) (ceil (available / maxCells)).

(** The loop [for (let i = stride; i < sections.length - 1; i += stride)
    picked.push(i)] from [i] on, where [last] is [sections.length - 1].
    The stride is a whole number, at least 1, so the loop ends within
    [fuel = sections.length] rounds. *)
Fixpoint pickLoop (fuel i stride last : nat) : list nat :=
  match fuel with
  | O => []
  | S fuel' =>
      if (i <? last)%nat then i :: pickLoop fuel' (i + stride) stride last else []
  end.

(** [picked], for a non-empty [sections]. *)
Definition pickedIndices (sectionsLength : nat) (stride : A) : list nat :=
  let strideN := Z.to_nat (floorZ stride) in
  let picked := 0%nat :: pickLoop sectionsLength strideN strideN (sectionsLength - 1) in
  if (List.last picked 0%nat =? sectionsLength - 1)%nat then picked
  else picked ++ [(sectionsLength - 1)%nat].

End HexPick.

(* ===================================================================== *)
(** ** SECTION 8 (part): resampling an outline to a given number of sides *)
(* ===================================================================== *)

Section Resample.

Context {A : Type} `{JSMath A}.
Local Open Scope num_scope.

(** [v | 0]: the number without its fraction, wrapped to 32 signed bits;
    [NaN] gives [0]. *)
Definition toInt32 (v : A) : Z :=
  if negb (v =? v) then 0%Z
  else
    let z := if v <? ofZ 0 then Z.opp (floorZ (- v)) else floorZ v in
    ((z + 2 ^ 31) mod 2 ^ 32 - 2 ^ 31)%Z.

(** [edgeLens]: the length of the edge leaving each vertex. *)
Definition edgeLengths (src : Polygon A) : list A :=
  let srcN := length src in
  map (fun i =>
         let j := ((i + 1) mod srcN)%nat in
         let dx := Point.x (at_ src j) - Point.x (at_ src i) in
         let dy := Point.y (at_ src j) - Point.y (at_ src i) in
         hypot dx dy)
      (seq 0 srcN).

(** The three variables of the walk along the outline. *)
Record Walk := {
  edgeIdx : nat;
  edgeEndCum : A;
  edgeStartCum : A
}.

(** [while (edgeIdx < srcN - 1 && target > edgeEndCum) { ... }]; each
    round raises [edgeIdx], so [srcN] rounds of fuel are never used up. *)
Fixpoint advance (fuel : nat) (edgeLens : list A) (srcN : nat) (target : A)
    (w : Walk) : Walk :=
  match fuel with
  | O => w
  | S fuel' =>
      if (edgeIdx w <? srcN - 1)%nat && (edgeEndCum w <? target) then
        advance fuel' edgeLens srcN target
          {| edgeStartCum := edgeEndCum w;
             edgeIdx := edgeIdx w + 1;
             edgeEndCum := edgeEndCum w + nth (edgeIdx w + 1) edgeLens (ofZ 0) |}
      else w
  end.

(** The body of [for (let i = 0; i < dstN; i++)], for the [i] of [todo]. *)
Fixpoint resampleWalk (src : Polygon A) (edgeLens : list A) (total : A)
    (dstN : nat) (todo : list nat) (w : Walk) : Polygon A :=
  match todo with
  | [] => []
  | i :: rest =>
      let srcN := length src in
      let target := (total * ofZ (Z.of_nat i)) / ofZ (Z.of_nat dstN) in
      let w' := advance srcN edgeLens srcN target w in
      let edgeLen := nmax eps6 (nth (edgeIdx w') edgeLens (ofZ 0)) in
      let t := clamp ((target - edgeStartCum w') / edgeLen) (ofZ 0) (ofZ 1) in
      let a := at_ src (edgeIdx w') in
      let b := at_ src ((edgeIdx w' + 1) mod srcN) in
      Pt (lerp (Point.x a) (Point.x b) t) (lerp (Point.y a) (Point.y b) t)
      :: resampleWalk src edgeLens total dstN rest w'
  end.

(** The value [resamplePolygonInto] leaves in [dst]. *)
Definition resamplePolygonInto (src : Polygon A) (outSides : A) : Polygon A :=
  let srcN := length src in
  let dstN := Z.to_nat (Z.max 3 (toInt32 outSides)) in
  if (srcN <? 3)%nat then []
  else if (srcN =? dstN)%nat then
    map (fun i => Pt (Point.x (at_ src i)) (Point.y (at_ src i))) (seq 0 dstN)
  else
    let edgeLens := edgeLengths src in
    let total := fold_left (fun total len => total + len) edgeLens (ofZ 0) in
    if negb (eps6 <? total) then
      map (fun _ => Pt (Point.x (at_ src 0)) (Point.y (at_ src 0))) (seq 0 dstN)
    else
      resampleWalk src edgeLens total dstN (seq 0 dstN)
        {| edgeIdx := 0; edgeEndCum := nth 0 edgeLens (ofZ 0);
           edgeStartCum := ofZ 0 |}.

End Resample.

(* ===================================================================== *)
(** ** SECTION 2 (part): colours *)
(* ===================================================================== *)

(** A JavaScript string of ASCII characters is a [string]; the numbers
    [parseInt] gives for at most two hexadecimal digits are exact, so they
    are integers here, and [NaN] is [None]. *)
Module ColorParse.

Import Stdlib.Strings.Ascii Stdlib.Strings.String.

(** [{ r, g, b, a }]. *)
Record Color : Type := { r : Z; g : Z; b : Z; a : Z }.

(* hex.startsWith("#") ? hex.slice(1) : hex *)
Definition stripHash (hex : string) : string :=
  match hex with
  | String c rest => if Ascii.eqb c "#" then rest else hex
  | EmptyString => hex
  end.

(** [toUpperCase] on an ASCII character: the letters [a] to [z]. *)
Definition upperChar (c : ascii) : ascii :=
  let n := N_of_ascii c in
  if (97 <=? n)%N && (n <=? 122)%N then ascii_of_N (n - 32) else c.

Fixpoint toUpperCase (s : string) : string :=
  match s with
  | EmptyString => EmptyString
  | String c s' => String (upperChar c) (toUpperCase s')
  end.

(** [h[i]], as the string it contributes to a concatenation. *)
Definition charAt (h : string) (i : nat) : string :=
  match get i h with
  | Some c => String c EmptyString
  | None => EmptyString
  end.

(* if (h.length === 3) h = h[0] + h[0] + h[1] + h[1] + h[2] + h[2]; *)
Definition expandShort (h : string) : string :=
  if (String.length h =? 3)%nat then
    append (append (append (append (append (charAt h 0) (charAt h 0)) (charAt h 1))
                           (charAt h 1)) (charAt h 2)) (charAt h 2)
  else h.

(* if (h.length === 6) h += "FF"; *)
Definition addAlpha (h : string) : string :=
  if (String.length h =? 6)%nat then append h "FF" else h.

(** The white space [parseInt] skips, among the ASCII characters: tab,
    line feed, vertical tab, form feed, carriage return and space. *)
Definition isStrWhiteSpace (c : ascii) : bool :=
  let n := N_of_ascii c in
  ((9 <=? n)%N && (n <=? 13)%N) || (n =? 32)%N.

Fixpoint trimStart (s : string) : string :=
  match s with
  | String c s' => if isStrWhiteSpace c then trimStart s' else s
  | EmptyString => s
  end.

(** The value of a digit of radix 16. *)
Definition digitOf (c : ascii) : option Z :=
  let n := Z.of_N (N_of_ascii c) in
  if (48 <=? n)%Z && (n <=? 57)%Z then Some (n - 48)%Z
  else if (65 <=? n)%Z && (n <=? 70)%Z then Some (n - 55)%Z
  else if (97 <=? n)%Z && (n <=? 102)%Z then Some (n - 87)%Z
  else None.

(** The value of the longest prefix of digits, [acc] being the value of
    the digits read so far ([None]: no digit yet). *)
Fixpoint digitsValue (s : string) (acc : option Z) : option Z :=
  match s with
  | String c s' =>
      match digitOf c with
      | Some d =>
          digitsValue s' (Some (16 * match acc with Some v => v | None => 0 end + d)%Z)
      | None => acc
      end
  | EmptyString => acc
  end.

(** [parseInt(s, 16)]: leading white space, a sign, the prefix [0x] or
    [0X], then the digits; [NaN] without a digit. *)
Definition parseInt16 (s : string) : option Z :=
  let s1 := trimStart s in
  let '(sign, s2) :=
    match s1 with
    | String c t =>
        if Ascii.eqb c "-" then ((-1)%Z, t)
        else if Ascii.eqb c "+" then (1%Z, t)
        else (1%Z, s1)
    | EmptyString => (1%Z, s1)
    end in
  let s3 :=
    match s2 with
    | String c0 (String c1 t) =>
        if Ascii.eqb c0 "0" && (Ascii.eqb c1 "x" || Ascii.eqb c1 "X") then t else s2
    | _ => s2
    end in
  match digitsValue s3 None with
  | Some v => Some (sign * v)%Z
  | None => None
  end.

(** [v >> 0]: [NaN] gives [0], an integer is wrapped to 32 signed bits. *)
Definition shr0 (v : option Z) : Z :=
  match v with
  | None => 0%Z
  | Some z => ((z + 2 ^ 31) mod 2 ^ 32 - 2 ^ 31)%Z
  end.

(** [h.slice(from, to)], for [from <= to]. *)
Definition slice (h : string) (from to : nat) : string :=
  substring from (to - from) h.

Definition resolveColor (hex : string) : Color :=
  let h := stripHash hex in
  let h := toUpperCase h in
  let h := expandShort h in
  let h := addAlpha h in
  {| r := shr0 (parseInt16 (slice h 0 2));
     g := shr0 (parseInt16 (slice h 2 4));
     b := shr0 (parseInt16 (slice h 4 6));
     a := shr0 (parseInt16 (slice h 6 8)) |}.

End ColorParse.

(* ===================================================================== *)
(** ** Invariants and proof tactics *)
(* ===================================================================== *)

(** What every reachable state of the quality controller satisfies. *)
Definition qualityInv (cfg : Config R) (st : Quality.t R) : Prop :=
  (performance_qualityMin cfg <= Quality.perfQuality st <= 1)%R
  /\ (performance_enabled cfg = false -> Quality.perfQuality st = 1%R).

(** Unfold the operations of the interface at [R]. *)
Ltac at_R :=
  cbn [ofZ add sub mul div neg abs nmax nmin ltb leb eqb RNum
       exp hypot atan2 floorZ RMath] in *.

(** Run the list and index bookkeeping of a definition on a literal
    polygon. *)
Ltac run_lists :=
  cbn [length seq existsb nth at_ map combine fold_left firstn skipn rev app
       filter flat_map fst snd setAt List.last
       Nat.add Nat.sub Nat.mul Nat.leb Nat.ltb Nat.eqb Nat.min Nat.max
       Nat.modulo Nat.divmod Nat.div Z.of_nat Pos.of_succ_nat Pos.succ
       andb orb negb Point.x Point.y] in *.

(** Read the fields of the shipped configuration. *)
Ltac cfg_values :=
  cbn [CFG trail_ttlMs trail_maxRects trail_minAlpha trail_minMovePx
       trail_cornerInterpEpsilonPx trail_interpStepPx trail_adaptiveInterpStepPx
       trail_maxInterpPerPush trail_twistGuardEnabled trail_temporalSmoothFactor
       trail_smoothReleaseDistancePx trail_cornerStepClampPx
       trail_cornerStepSpeedScale stackHex_overlapEpsilonPx] in *;
  unfold dec in *; at_R.

(* ===================================================================== *)
(** * Properties *)
(* ===================================================================== *)

(** ** The trail store, for every carrier *)

Section TrailStoreFacts.

Context {A : Type} `{JSMath A}.
Variable cfg : Config A.
Local Open Scope num_scope.

Lemma isValidTrailPolygon_spec (pts : Polygon A) :
  isValidTrailPolygon pts = true <->
  (3 <= length pts)%nat /\ isSelfIntersectingPolygon pts = false.
Proof.
  unfold isValidTrailPolygon.
  rewrite andb_true_iff, negb_true_iff, Nat.leb_le. tauto.
Qed.

(** What the interpolation loop pushes passed the validity check, carries
    the push's time stamp, and is no longer than the loop. *)
Lemma interpEntries_valid last pts prevEntryPts target stampMs segments idxs :
  Forall validSample
    (interpEntries cfg last pts prevEntryPts target stampMs segments idxs).
Proof.
  revert prevEntryPts.
  induction idxs as [|i idxs IH]; intros prevEntryPts; simpl.
  - constructor.
  - destruct (isValidTrailPolygon
                (entryPolygon cfg last pts prevEntryPts target segments i)) eqn:E;
      simpl.
    + constructor; [exact E | apply IH].
    + apply IH.
Qed.

Lemma interpEntries_stamp last pts prevEntryPts target stampMs segments idxs :
  Forall (fun s => TrailSample.t s = stampMs)
    (interpEntries cfg last pts prevEntryPts target stampMs segments idxs).
Proof.
  revert prevEntryPts.
  induction idxs as [|i idxs IH]; intros prevEntryPts; simpl.
  - constructor.
  - destruct (isValidTrailPolygon
                (entryPolygon cfg last pts prevEntryPts target segments i));
      simpl; [constructor; [reflexivity|]|]; apply IH.
Qed.


Lemma capTrail_length (tr : list (TrailSample A)) :
  (length (capTrail cfg tr) <= trail_maxRects cfg)%nat.
Proof.
  unfold capTrail.
  destruct (Nat.ltb_spec (trail_maxRects cfg) (length tr)).
  - rewrite length_skipn. lia.
  - lia.
Qed.

Lemma capTrail_suffix (tr : list (TrailSample A)) :
  capTrail cfg tr = skipn (length tr - trail_maxRects cfg) tr.
Proof.
  unfold capTrail.
  destruct (Nat.ltb_spec (trail_maxRects cfg) (length tr)); [reflexivity|].
  replace (length tr - trail_maxRects cfg)%nat with 0%nat by lia. reflexivity.
Qed.

Lemma Forall_skipn {T} (P : T -> Prop) n (l : list T) :
  Forall P l -> Forall P (skipn n l).
Proof.
  intros HF. rewrite <- (firstn_skipn n l) in HF.
  apply Forall_app in HF. tauto.
Qed.

Lemma capTrail_Forall (P : TrailSample A -> Prop) tr :
  Forall P tr -> Forall P (capTrail cfg tr).
Proof. intros. rewrite capTrail_suffix. now apply Forall_skipn. Qed.

(** The shape of a push: either nothing changes, or the new samples, all
    valid and stamped alike, are appended and the cap is applied. *)
Lemma pushTrailPolygon_shape st poly target stampMs perfQuality :
  let st' := pushTrailPolygon cfg st poly target stampMs perfQuality in
  st' = st \/
  exists new,
    trail st' = capTrail cfg (trail st ++ new)
    /\ Forall validSample new
    /\ Forall (fun s => TrailSample.t s = stampMs) new
    /\ (lastPushed st' = lastPushed st \/ exists s, In s new /\ lastPushed st' = Some s).
Proof.
  unfold pushTrailPolygon.
  destruct (length poly <? 3)%nat; [now left|].
  destruct (isValidTrailPolygon (preparePolygon cfg (lastPushed st) poly target)) eqn:V1;
    simpl; [|now left].
  destruct (lastPushed st) as [last|] eqn:L.
  - destruct (isValidTrailPolygon
                (smoothPolygon cfg last
                   (preparePolygon cfg (Some last) poly target) target)) eqn:V2;
      simpl; [|now left].
    destruct (interpMetric _ _ <? moveThreshold cfg); [now left|].
    right. eexists. split; [reflexivity|].
    split; [apply interpEntries_valid|].
    split; [apply interpEntries_stamp|].
    simpl. unfold pushedEntries.
    match goal with |- context [interpEntries ?a ?b ?c ?d ?e ?f ?g ?h] =>
      destruct (interpEntries a b c d e f g h) as [|e0 es] eqn:E end.
    + now left.
    + right. exists (List.last (e0 :: es) last). split; [|reflexivity].
      destruct (exists_last (l := e0 :: es)) as [l' [a Hl]]; [discriminate|].
      rewrite Hl, last_last. apply in_or_app. right. now left.
  - right. exists [sampleOf stampMs (preparePolygon cfg None poly target)].
    split; [reflexivity|].
    split; [constructor; [exact V1|constructor]|].
    split; [constructor; [reflexivity|constructor]|].
    right. eexists. split; [left; reflexivity|reflexivity].
Qed.

Lemma removeAt_firstn {T} i (l : list T) :
  firstn i (removeAt i l) = firstn i l.
Proof.
  revert l. induction i as [|i IH]; intros [|a l]; simpl; try reflexivity.
  now rewrite IH.
Qed.

Lemma removeAt_skipn {T} i (l : list T) :
  skipn i (removeAt i l) = skipn (S i) l.
Proof.
  revert l. induction i as [|i IH]; intros [|a l]; simpl; try reflexivity.
  rewrite IH. reflexivity.
Qed.

Lemma removeAt_length {T} i (l : list T) :
  (i < length l)%nat -> length (removeAt i l) = (length l - 1)%nat.
Proof.
  revert l. induction i as [|i IH]; intros [|a l]; simpl; intros Hi; try lia.
  rewrite IH by lia. lia.
Qed.

Lemma firstn_S_nth_error {T} i (l : list T) s :
  nth_error l i = Some s -> firstn (S i) l = firstn i l ++ [s].
Proof.
  revert l. induction i as [|i IH]; intros [|a l]; simpl; try discriminate.
  - now intros [= ->].
  - intros Hn. f_equal. now apply IH.
Qed.

(** The backwards loop of [pruneTrail] is a filter. *)
Lemma pruneLoop_filter now i (tr : list (TrailSample A)) :
  (i <= length tr)%nat ->
  pruneLoop cfg now i tr = filter (fresh cfg now) (firstn i tr) ++ skipn i tr.
Proof.
  revert tr. induction i as [|i IH]; intros tr Hi; simpl pruneLoop.
  - reflexivity.
  - destruct (nth_error tr i) as [s|] eqn:E.
    2:{ apply nth_error_None in E. lia. }
    rewrite (firstn_S_nth_error _ _ _ E), filter_app. simpl filter.
    unfold fresh at 2.
    destruct (trail_ttlMs cfg <? now - TrailSample.t s); simpl negb.
    + rewrite IH by (rewrite removeAt_length; lia).
      rewrite removeAt_firstn, removeAt_skipn, app_nil_r. reflexivity.
    + rewrite IH by lia. rewrite <- app_assoc. simpl. f_equal.
      clear - E. revert tr E. induction i; intros [|a l]; simpl; try discriminate.
      * now intros [= ->].
      * intros. now apply IHi.
Qed.

Lemma pruneTrail_filter st now :
  trail (pruneTrail cfg st now) = filter (fresh cfg now) (trail st).
Proof.
  simpl. rewrite pruneLoop_filter by lia.
  rewrite firstn_all, skipn_all, app_nil_r. reflexivity.
Qed.

Lemma applyOp_valid st op :
  Forall validSample (trail st) -> Forall validSample (trail (applyOp cfg st op)).
Proof.
  intros HF. destruct op as [poly target stampMs q|now|]; simpl.
  - destruct (pushTrailPolygon_shape st poly target stampMs q)
      as [->|(new & -> & Hv & _)]; [exact HF|].
    apply capTrail_Forall, Forall_app. now split.
  - rewrite pruneLoop_filter by lia.
    rewrite firstn_all, skipn_all, app_nil_r.
    apply Forall_forall. intros s Hs. apply filter_In in Hs.
    rewrite Forall_forall in HF. now apply HF.
  - constructor.
Qed.

Lemma applyOp_bounded st op :
  (length (trail st) <= trail_maxRects cfg)%nat ->
  (length (trail (applyOp cfg st op)) <= trail_maxRects cfg)%nat.
Proof.
  intros HL. destruct op as [poly target stampMs q|now|]; simpl.
  - destruct (pushTrailPolygon_shape st poly target stampMs q)
      as [->|(new & -> & _)]; [exact HL|apply capTrail_length].
  - rewrite pruneLoop_filter by lia.
    rewrite firstn_all, skipn_all, app_nil_r.
    etransitivity; [apply filter_length_le|exact HL].
  - lia.
Qed.

Lemma runOps_invariant (P : TrailState A -> Prop) :
  P emptyTrail -> (forall st op, P st -> P (applyOp cfg st op)) ->
  forall ops, P (runOps cfg ops).
Proof.
  intros H0' Hstep ops. unfold runOps.
  generalize (@emptyTrail A) H0'. induction ops as [|op ops IH]; intros st Hst; simpl.
  - exact Hst.
  - apply IH, Hstep, Hst.
Qed.

End TrailStoreFacts.

(** C1. Whatever the history of pushes, prunes and cleanups, every sample
    in the trail buffer holds a polygon of at least three vertices on which
    [isSelfIntersectingPolygon] answers false; and each single push stores
    only such samples, the first-ever one and the interpolated ones
    alike. *)
Theorem C1_stored_polygons_are_valid :
  forall (A : Type) (N : Num A) (M : JSMath A) (cfg : Config A),
    (forall ops : list (TrailOp A),
        Forall (fun s => (3 <= length (TrailSample.pts s))%nat
                         /\ isSelfIntersectingPolygon (TrailSample.pts s) = false)
               (trail (runOps cfg ops)))
    /\ (forall st poly target stampMs perfQuality,
           Forall (fun s => In s (trail st)
                            \/ ((3 <= length (TrailSample.pts s))%nat
                                /\ isSelfIntersectingPolygon (TrailSample.pts s) = false))
                  (trail (pushTrailPolygon cfg st poly target stampMs perfQuality))).
Proof.
  intros A N M cfg. split.
  - intros ops.
    eapply Forall_impl; [intros s Hs; apply isValidTrailPolygon_spec; exact Hs|].
    apply (runOps_invariant cfg (fun st => Forall validSample (trail st))).
    + constructor.
    + intros st op. apply applyOp_valid.
  - intros st poly target stampMs q.
    destruct (pushTrailPolygon_shape cfg st poly target stampMs q)
      as [->|(new & -> & Hv & _)].
    + apply Forall_forall. intros s Hs. now left.
    + apply capTrail_Forall, Forall_app. split.
      * apply Forall_forall. intros s Hs. now left.
      * eapply Forall_impl; [|exact Hv].
        intros s Hs. right. now apply isValidTrailPolygon_spec.
Qed.

(** C4. After any history the buffer holds at most [maxRects] samples.
    A push that is not rejected appends its samples (the first sample, or
    the entries of the interpolation loop) behind the old ones and then
    drops from the front, oldest first, as many samples as exceed
    [maxRects]: what stays is the last [maxRects] of old followed by new,
    in their order. [pruneTrail(now)] keeps exactly the samples whose age
    is not above [ttlMs], in their order. *)
Theorem C4_trail_is_capped_fifo_and_pruned :
  forall (A : Type) (N : Num A) (M : JSMath A) (cfg : Config A),
    (forall ops : list (TrailOp A),
        (length (trail (runOps cfg ops)) <= trail_maxRects cfg)%nat)
    /\ (forall st poly target stampMs perfQuality,
           let st' := pushTrailPolygon cfg st poly target stampMs perfQuality in
           let prepared := preparePolygon cfg (lastPushed st) poly target in
           let fifo (new : list (TrailSample A)) :=
             let all := trail st ++ new in
             let excess := (length all - trail_maxRects cfg)%nat in
             trail st' = skipn excess all
             /\ firstn excess all ++ trail st' = all
             /\ length (trail st') = Nat.min (length all) (trail_maxRects cfg) in
           (3 <= length poly)%nat ->
           isValidTrailPolygon prepared = true ->
           match lastPushed st with
           | None => fifo [sampleOf stampMs prepared]
           | Some last =>
               let pts := smoothPolygon cfg last prepared target in
               isValidTrailPolygon pts = true ->
               (interpMetric last pts <? moveThreshold cfg)%num = false ->
               fifo (pushedEntries cfg last pts target stampMs perfQuality)
           end)
    /\ (forall st now,
           trail (pruneTrail cfg st now)
           = filter (fun s => negb (sub now (TrailSample.t s) >? trail_ttlMs cfg)%num)
                    (trail st)
           /\ Forall (fun s => (sub now (TrailSample.t s) >? trail_ttlMs cfg)%num = false)
                     (trail (pruneTrail cfg st now))).
Proof.
  intros A N M cfg. split; [|split].
  - intros ops.
    apply (runOps_invariant cfg
             (fun st => (length (trail st) <= trail_maxRects cfg)%nat)).
    + simpl. lia.
    + intros st op. apply applyOp_bounded.
  - intros st poly target stampMs q st' prepared fifo Hlen Hv1.
    assert (Hfifo : forall new,
               trail st' = capTrail cfg (trail st ++ new) -> fifo new).
    { intros new E. unfold fifo. cbv zeta. rewrite E, capTrail_suffix.
      split; [reflexivity|]. split; [apply firstn_skipn|].
      rewrite length_skipn. lia. }
    assert (Hlt : (length poly <? 3)%nat = false) by (apply Nat.ltb_ge; exact Hlen).
    destruct (lastPushed st) as [last|] eqn:HL.
    + intros pts Hv2 Hm. apply Hfifo.
      unfold st', pushTrailPolygon. rewrite Hlt, HL.
      fold prepared. rewrite Hv1. cbn [negb]. fold pts. rewrite Hv2, Hm.
      reflexivity.
    + apply Hfifo.
      unfold st', pushTrailPolygon. rewrite Hlt, HL.
      fold prepared. rewrite Hv1. reflexivity.
  - intros st now. rewrite pruneTrail_filter. split; [reflexivity|].
    apply Forall_forall. intros s Hs. apply filter_In in Hs.
    destruct Hs as [_ Hs]. unfold fresh in Hs. now apply negb_true_iff in Hs.
Qed.

(** The ninth frame of the sweep finds 29 samples stored and appends
    four: the buffer is over the cap of 30 by three, and the three oldest
    samples (centres at 5, 55 and 105) are dropped from the front. *)
Lemma C4_witness_cap_reached :
  let st := sweepTrail 8 in
  let st' := applyOp CFG st (sweepOp 8) in
  exists new : list (TrailSample float),
    length (trail st) = 29%nat
    /\ length new = 4%nat
    /\ trail st' = skipn 3 (trail st ++ new)
    /\ firstn 3 (trail st ++ new) ++ trail st' = trail st ++ new
    /\ length (trail st') = 30%nat
    /\ map TrailSample.cx new = map float_ofZ [1455; 1505; 1555; 1605]%Z
    /\ map TrailSample.cx (firstn 3 (trail st ++ new)) = map float_ofZ [5; 55; 105]%Z
    /\ st' = sweepTrail 9.
Proof.
  cbv zeta.
  set (st := sweepTrail 8).
  set (x := float_ofZ 1600).
  set (last := sampleOf (float_ofZ 112) (rectAt (float_ofZ 1400))).
  assert (E : lastPushed st = Some last) by (vm_compute; reflexivity).
  pose proof (proj1 (proj2 (C4_trail_is_capped_fifo_and_pruned float _ _ CFG))
                st (rectAt x) (Some (caretAt x)) (float_ofZ 128) (float_ofZ 1)) as H.
  cbv zeta in H. rewrite E in H.
  specialize (H ltac:(simpl; lia) ltac:(vm_compute; reflexivity)
                ltac:(vm_compute; reflexivity) ltac:(vm_compute; reflexivity)).
  match type of H with
  | _ = skipn _ (_ ++ ?new) /\ _ =>
      exists new;
      assert (E3 : (length (trail st ++ new) - trail_maxRects (CFG (A := float)))%nat
                   = 3%nat) by (vm_compute; reflexivity);
      assert (E30 : Nat.min (length (trail st ++ new))
                            (trail_maxRects (CFG (A := float))) = 30%nat)
        by (vm_compute; reflexivity)
  end.
  rewrite E3, E30 in H. destruct H as (H1 & H2 & H3).
  split; [vm_compute; reflexivity|].
  split; [vm_compute; reflexivity|].
  split; [exact H1|]. split; [exact H2|]. split; [exact H3|].
  split; [vm_compute; reflexivity|].
  split; vm_compute; reflexivity.
Defined.

(** C10. A rejected push changes nothing: when the input has fewer than
    three points, when the polygon fails the validity check after the
    first or after the second processing stage, or when the movement
    metric is below the minimum-motion threshold, the trail buffer and the
    last-pushed sample are what they were. *)
Theorem C10_rejected_push_is_atomic :
  forall (A : Type) (N : Num A) (M : JSMath A) (cfg : Config A)
         (st : TrailState A) (poly : Polygon A) (target : option (Point.t A))
         (stampMs perfQuality : A),
    ((length poly < 3)%nat
     \/ isValidTrailPolygon (preparePolygon cfg (lastPushed st) poly target) = false
     \/ (exists last,
            lastPushed st = Some last /\
            let pts := smoothPolygon cfg last
                         (preparePolygon cfg (lastPushed st) poly target) target in
            isValidTrailPolygon pts = false
            \/ (interpMetric last pts <? moveThreshold cfg)%num = true)) ->
    pushTrailPolygon cfg st poly target stampMs perfQuality = st.
Proof.
  intros A N M cfg st poly target stampMs q Hrej.
  unfold pushTrailPolygon.
  destruct (Nat.ltb_spec (length poly) 3) as [Hlen|Hlen]; [reflexivity|].
  destruct Hrej as [Hrej|[Hrej|(last & HL & Hrej)]].
  - lia.
  - now rewrite Hrej.
  - destruct (isValidTrailPolygon (preparePolygon cfg (lastPushed st) poly target));
      simpl; [|reflexivity].
    rewrite HL in *. simpl in Hrej.
    destruct Hrej as [-> | Hm]; simpl; [reflexivity|].
    rewrite Hm. now destruct (isValidTrailPolygon _).
Qed.

(** ** The overshoot oscillator *)

(** C9. After every oscillator step, in every carrier: if [|x|] and [|v|]
    are under the deadzone thresholds ([1e-4] and [1e-3]) they are exactly
    zero. And the oscillator with the shipped [omega = 16], [zeta = 0.16],
    kicked once with impulse 5 and stepped 500 times at [dt = 1/60], ends
    with [x] and [v] exactly zero in binary64 floating point, the
    arithmetic of the program. *)
Theorem C9_deadzone_forces_exact_rest :
  (forall (A : Type) (N : Num A) (s : UnderDampedScalar.t A) (dt : A),
      let s' := UnderDampedScalar.step s dt in
      ((abs (UnderDampedScalar.x s') <? dec 1 10000)
       && (abs (UnderDampedScalar.v s') <? dec 1 1000))%num = true ->
      UnderDampedScalar.x s' = ofZ 0 /\ UnderDampedScalar.v s' = ofZ 0)
  /\ (let s := UnderDampedScalar.steps 500 (kicked5 (A := float)) (dec 1 60) in
      UnderDampedScalar.x s = 0%float /\ UnderDampedScalar.v s = 0%float).
Proof.
  split.
  - intros A N s dt s'. subst s'. unfold UnderDampedScalar.step.
    match goal with |- context [if ?c then _ else _] => destruct c eqn:E end.
    + intros _. split; reflexivity.
    + cbn [UnderDampedScalar.x UnderDampedScalar.v]. rewrite E. discriminate.
  - vm_compute. split; reflexivity.
Qed.

(** The 500th step of the scenario, in floating point, is an instance of
    the deadzone rule. *)
Lemma C9_witness_scenario_last_step :
  ((abs (UnderDampedScalar.x
           (UnderDampedScalar.step
              (UnderDampedScalar.steps 499 (kicked5 (A := float)) (dec 1 60))
              (dec 1 60))) <? dec 1 10000)
   && (abs (UnderDampedScalar.v
              (UnderDampedScalar.step
                 (UnderDampedScalar.steps 499 (kicked5 (A := float)) (dec 1 60))
                 (dec 1 60))) <? dec 1 1000))%num = true
  /\ UnderDampedScalar.x
       (UnderDampedScalar.step
          (UnderDampedScalar.steps 499 (kicked5 (A := float)) (dec 1 60))
          (dec 1 60)) = ofZ 0
  /\ UnderDampedScalar.v
       (UnderDampedScalar.step
          (UnderDampedScalar.steps 499 (kicked5 (A := float)) (dec 1 60))
          (dec 1 60)) = ofZ 0.
Proof.
  assert (Hc : ((abs (UnderDampedScalar.x
           (UnderDampedScalar.step
              (UnderDampedScalar.steps 499 (kicked5 (A := float)) (dec 1 60))
              (dec 1 60))) <? dec 1 10000)
      && (abs (UnderDampedScalar.v
              (UnderDampedScalar.step
                 (UnderDampedScalar.steps 499 (kicked5 (A := float)) (dec 1 60))
                 (dec 1 60))) <? dec 1 1000))%num = true)
    by (vm_compute; reflexivity).
  split; [exact Hc|].
  exact (proj1 C9_deadzone_forces_exact_rest float FloatNum
           (UnderDampedScalar.steps 499 (kicked5 (A := float)) (dec 1 60))
           (dec 1 60) Hc).
Defined.

(** ** The cell loop of the hex path, for every carrier *)

Section StackHexFacts.
Context {A : Type} `{Num A}.
Variable cfg : Config A.
Local Open Scope num_scope.

Lemma rendered_app (os1 os2 : list (StackHex.Outcome A)) :
  StackHex.rendered (os1 ++ os2) = StackHex.rendered os1 ++ StackHex.rendered os2.
Proof. unfold StackHex.rendered. apply flat_map_app. Qed.

Lemma cellLoop_length cells r0 :
  length (StackHex.cellLoop cfg cells r0) = length cells.
Proof.
  revert r0. induction cells as [|c cells IH]; intros r0; simpl; [reflexivity|].
  now rewrite IH.
Qed.

(** The [k]-th iteration decides on the cells rendered by the iterations
    before it. *)
Lemma cellLoop_nth cells r0 k c :
  nth_error cells k = Some c ->
  nth_error (StackHex.cellLoop cfg cells r0) k
  = Some (StackHex.decide cfg c
            (r0 ++ StackHex.rendered (firstn k (StackHex.cellLoop cfg cells r0)))).
Proof.
  revert r0 k. induction cells as [|c0 cells IH]; intros r0 [|k] Hk;
    simpl in Hk; try discriminate.
  - injection Hk as ->. simpl. now rewrite app_nil_r.
  - simpl. rewrite (IH _ _ Hk). f_equal. f_equal.
    unfold StackHex.rendered at 2. simpl flat_map.
    fold (StackHex.rendered (firstn k (StackHex.cellLoop cfg cells
           match StackHex.polygonOf (StackHex.decide cfg c0 r0) with
           | Some p => r0 ++ [p]
           | None => r0
           end))).
    destruct (StackHex.polygonOf (StackHex.decide cfg c0 r0)); simpl.
    + now rewrite <- app_assoc.
    + reflexivity.
Qed.

(** What the three outcomes of one iteration mean. *)
Lemma decide_spec (c : StackHex.Cell A) (renderedCells : list (Polygon A)) :
  match StackHex.decide cfg c renderedCells with
  | StackHex.Drawn p =>
      p = StackHex.firstChoice c
      /\ isValidTrailPolygon p = true
      /\ Forall (fun r => polygonsOverlap p r
                            (orElse (stackHex_overlapEpsilonPx cfg) (ofZ 0)) = false)
                (removelast renderedCells)
  | StackHex.Fallback p =>
      StackHex.headQuad c = false
      /\ p = StackHex.quadCell c
      /\ isValidTrailPolygon p = true
      /\ (isValidTrailPolygon (StackHex.hexCell c) = false
          \/ Exists (fun r => polygonsOverlap (StackHex.hexCell c) r
                                (orElse (stackHex_overlapEpsilonPx cfg) (ofZ 0)) = true)
                    (removelast renderedCells))
  | StackHex.Skipped => True
  end.
Proof.
  unfold StackHex.decide, StackHex.firstChoice.
  set (first := if StackHex.headQuad c then StackHex.quadCell c else StackHex.hexCell c).
  destruct (isValidTrailPolygon first) eqn:V.
  - destruct (1 <? length renderedCells)%nat eqn:L; cbn [andb].
    + destruct (StackHex.overlapsEarlier cfg first renderedCells) eqn:O; cbn [negb andb].
      * destruct (StackHex.headQuad c) eqn:Hq; cbn [negb].
        -- exact I.
        -- destruct (isValidTrailPolygon (StackHex.quadCell c)) eqn:Vq; cbn [andb];
             [|exact I].
           destruct (ofZ 0 <? StackHex.alphaCell c); [|exact I].
           split; [reflexivity|]. split; [reflexivity|]. split; [exact Vq|].
           right. unfold StackHex.overlapsEarlier in O. subst first.
           apply existsb_exists in O. apply Exists_exists. exact O.
      * destruct (ofZ 0 <? StackHex.alphaCell c); [|exact I].
        split; [reflexivity|]. split; [exact V|].
        unfold StackHex.overlapsEarlier in O.
        apply Forall_forall. intros r Hr.
        destruct (polygonsOverlap first r _) eqn:E; [|reflexivity].
        exfalso. assert (Hex : existsb
          (fun r => polygonsOverlap first r
                      (orElse (stackHex_overlapEpsilonPx cfg) (ofZ 0)))
          (removelast renderedCells) = true)
          by (apply existsb_exists; eauto).
        congruence.
    + cbn [negb andb]. destruct (ofZ 0 <? StackHex.alphaCell c); [|exact I].
      split; [reflexivity|]. split; [exact V|].
      apply Nat.ltb_ge in L.
      destruct renderedCells as [|r0 [|r1 rs]]; simpl in L |- *;
        [constructor | constructor | lia].
  - cbn [andb negb]. destruct (StackHex.headQuad c) eqn:Hq; cbn [negb].
    + exact I.
    + destruct (isValidTrailPolygon (StackHex.quadCell c)) eqn:Vq; cbn [andb];
        [|exact I].
      destruct (ofZ 0 <? StackHex.alphaCell c); [|exact I].
      split; [reflexivity|]. split; [reflexivity|]. split; [exact Vq|].
      left. subst first. exact V.
Qed.
End StackHexFacts.

(** C6, as the code has it. In the cell loop of the hex path, the first
    choice of an iteration (the quad for a head cell, the hexagon
    otherwise) is rendered only when it passes [isValidTrailPolygon] and
    overlaps, by [polygonsOverlap] with the configured epsilon, none of the
    cells rendered before it other than the most recent one; a quad is
    rendered in place of a hexagon only when the hexagon failed one of the
    two tests, and then on passing [isValidTrailPolygon] alone. *)
Theorem C6_cell_acceptance :
  forall (A : Type) (N : Num A) (cfg : Config A)
         (cells : list (StackHex.Cell A)) (k : nat)
         (c : StackHex.Cell A) (o : StackHex.Outcome A),
    nth_error cells k = Some c ->
    nth_error (StackHex.cellLoop cfg cells []) k = Some o ->
    let before := StackHex.rendered (firstn k (StackHex.cellLoop cfg cells [])) in
    let eps := orElse (stackHex_overlapEpsilonPx cfg) (ofZ 0) in
    match o with
    | StackHex.Drawn p =>
        p = StackHex.firstChoice c
        /\ isValidTrailPolygon p = true
        /\ Forall (fun r => polygonsOverlap p r eps = false) (removelast before)
    | StackHex.Fallback p =>
        StackHex.headQuad c = false
        /\ p = StackHex.quadCell c
        /\ isValidTrailPolygon p = true
        /\ (isValidTrailPolygon (StackHex.hexCell c) = false
            \/ Exists (fun r => polygonsOverlap (StackHex.hexCell c) r eps = true)
                      (removelast before))
    | StackHex.Skipped => True
    end.
Proof.
  intros A N cfg cells k c o Hc Ho before eps.
  rewrite (cellLoop_nth cfg cells [] k c Hc) in Ho. injection Ho as <-.
  exact (decide_spec cfg c before).
Qed.

(** The claim as the specification states it fails on two hexagonal cells
    of a straight trail: the second one is built on the hand-off edge of
    the first, both are rendered as hexagons, and the overlap test answers
    true for the pair (they share that edge). The inner loop leaves out
    the most recently rendered cell, and runs only once two cells are
    rendered. *)
Lemma C6_counterexample_adjacent_cells_overlap :
  let c0 := StackHex.straightCell (A := Q) 0 11 false in
  let c1 := StackHex.straightCell (A := Q) 11 11 false in
  StackHex.chained c0 c1
  /\ StackHex.cellLoop CFG [c0; c1] []
     = [StackHex.Drawn (StackHex.hexCell c0); StackHex.Drawn (StackHex.hexCell c1)]
  /\ StackHex.renderedCells CFG [c0; c1] = [StackHex.hexCell c0; StackHex.hexCell c1]
  /\ polygonsOverlap (StackHex.hexCell c1) (StackHex.hexCell c0)
       (orElse (stackHex_overlapEpsilonPx CFG) (ofZ 0)) = true.
Proof.
  cbv zeta. split; [split; vm_compute; reflexivity|].
  split; [vm_compute; reflexivity|].
  split; vm_compute; reflexivity.
Qed.

(** A third cell that runs back over the second one: its hexagon touches
    the first cell, so the quad is rendered in its place (which covers the
    second cell and touches the first all the same). *)
Lemma C6_witness_fallback_quad :
  let c0 := StackHex.straightCell (A := Q) 0 11 false in
  let c1 := StackHex.straightCell (A := Q) 11 11 false in
  let c2 := StackHex.straightCell (A := Q) 22 (-11) false in
  nth_error [c0; c1; c2] 2 = Some c2
  /\ nth_error (StackHex.cellLoop CFG [c0; c1; c2] []) 2
     = Some (StackHex.Fallback (StackHex.quadCell c2))
  /\ isValidTrailPolygon (StackHex.quadCell c2) = true
  /\ (isValidTrailPolygon (StackHex.hexCell c2) = false
      \/ Exists (fun r => polygonsOverlap (StackHex.hexCell c2) r
                            (orElse (stackHex_overlapEpsilonPx CFG) (ofZ 0)) = true)
                (removelast
                   (StackHex.rendered
                      (firstn 2 (StackHex.cellLoop CFG [c0; c1; c2] []))))).
Proof.
  intros c0 c1 c2.
  assert (Hc : nth_error [c0; c1; c2] 2 = Some c2) by reflexivity.
  assert (Ho : nth_error (StackHex.cellLoop CFG [c0; c1; c2] []) 2
               = Some (StackHex.Fallback (StackHex.quadCell c2)))
    by (vm_compute; reflexivity).
  split; [exact Hc|]. split; [exact Ho|].
  exact (proj2 (proj2 (C6_cell_acceptance Q QNum CFG [c0; c1; c2] 2 c2
                         (StackHex.Fallback (StackHex.quadCell c2)) Hc Ho))).
Defined.

(** ** Reading the interface at [R] *)

Lemma Rltb_true x y : Rltb x y = true <-> (x < y)%R.
Proof. unfold Rltb. destruct (Rlt_dec x y); split; intros; try easy; lra. Qed.

Lemma Rltb_false x y : Rltb x y = false <-> (y <= x)%R.
Proof. unfold Rltb. destruct (Rlt_dec x y); split; intros; try easy; lra. Qed.

Lemma Rleb_true x y : Rleb x y = true <-> (x <= y)%R.
Proof. unfold Rleb. destruct (Rle_dec x y); split; intros; try easy; lra. Qed.

Lemma Rleb_false x y : Rleb x y = false <-> (y < x)%R.
Proof. unfold Rleb. destruct (Rle_dec x y); split; intros; try easy; lra. Qed.

Lemma Reqb_true x y : Reqb x y = true <-> x = y.
Proof. unfold Reqb. destruct (Req_dec_T x y); split; intros; try easy. Qed.

Lemma Reqb_false x y : Reqb x y = false <-> x <> y.
Proof. unfold Reqb. destruct (Req_dec_T x y); split; intros; try easy. Qed.

Lemma clamp_R_bounds (v lo hi : R) :
  (lo <= hi)%R -> (lo <= clamp v lo hi <= hi)%R.
Proof.
  intros Hlh. unfold clamp. at_R.
  unfold Rmin, Rmax. repeat destruct (Rle_dec _ _); lra.
Qed.

Lemma clamp_R_id (v lo hi : R) :
  (lo <= v <= hi)%R -> clamp v lo hi = v.
Proof.
  intros Hv. unfold clamp. at_R.
  unfold Rmin, Rmax. repeat destruct (Rle_dec _ _); lra.
Qed.

(** ** The critically damped spring, over [R] *)

Local Open Scope R_scope.

(** C2. One step of the scalar spring over the reals. Either [tau <= dt]
    or [|pos| < 0.001], and the spring is reset to zero offset and zero
    velocity and reports not-moving; or neither holds, and the step is the
    closed form [x(t) = (a + b t) e^(-w t)], [v(t) = e^(-w t) (b - w (a + b t))]
    with [a = x0], [b = v0 + w x0], [w = 4 / tau], it reports moving exactly
    when the new [|x|] is at least [0.01], and the new state is not the rest
    state. *)
Theorem C2_spring_step_closed_form :
  forall (s : CritDamped1D.t R) (dt : R),
    let w := 4 / CritDamped1D.tau s in
    let a := CritDamped1D.pos s in
    let b := CritDamped1D.vel s + w * a in
    let xt := (a + b * dt) * Rtrigo_def.exp (- w * dt) in
    let vt := Rtrigo_def.exp (- w * dt) * (b - w * (a + b * dt)) in
    ((CritDamped1D.tau s <= dt \/ Rabs (CritDamped1D.pos s) < 1 / 1000)
     /\ CritDamped1D.step s dt
        = ({| CritDamped1D.pos := 0; CritDamped1D.vel := 0;
              CritDamped1D.tau := CritDamped1D.tau s |}, false))
    \/
    (~ (CritDamped1D.tau s <= dt \/ Rabs (CritDamped1D.pos s) < 1 / 1000)
     /\ (exists moving : bool,
            CritDamped1D.step s dt
            = ({| CritDamped1D.pos := xt; CritDamped1D.vel := vt;
                  CritDamped1D.tau := CritDamped1D.tau s |}, moving)
            /\ (moving = true <-> 1 / 100 <= Rabs xt))
     /\ ~ (xt = 0 /\ vt = 0)).
Proof.
  intros s dt w a b xt vt.
  unfold CritDamped1D.step, CritDamped1D.reset, dec. at_R.
  destruct (Rleb (CritDamped1D.tau s) dt) eqn:E1;
    [apply Rleb_true in E1 | apply Rleb_false in E1].
  - left. split; [now left | reflexivity].
  - destruct (Rltb (Rabs (CritDamped1D.pos s)) (1 / 1000)) eqn:E2;
      [apply Rltb_true in E2 | apply Rltb_false in E2]; cbn [orb].
    + left. split; [now right | reflexivity].
    + right. split; [lra|]. split.
      * eexists. split.
        -- f_equal. f_equal; subst xt vt a b w.
           ++ f_equal. f_equal. ring.
           ++ f_equal. ring.
        -- fold w. replace (CritDamped1D.pos s * w + CritDamped1D.vel s) with b
             by (subst b a; ring).
           fold a. fold xt. apply Rleb_true.
      * intros [Hx Hv]. subst xt vt.
        pose proof (exp_pos (- w * dt)) as Hpos.
        assert (Ha : a + b * dt = 0) by nra.
        rewrite Ha in Hv.
        assert (Hb : b = 0) by nra.
        assert (Ha0 : a = 0) by nra.
        subst a. rewrite Ha0, Rabs_R0 in E2. lra.
Qed.

(** ** The adaptive quality controller, over [R] *)

Section QualityFacts.

Variable cfg : Config R.
Hypothesis qualityMin_le_1 : performance_qualityMin cfg <= 1.
Hypothesis degrade_nonneg : 0 <= performance_degradeRatePerSec cfg.
Hypothesis recover_nonneg : 0 <= performance_recoverRatePerSec cfg.

Lemma dtSecOf_bounds (st : Quality.t R) (frameNowMs : R) :
  0 <= Quality.dtSecOf st frameNowMs <= 5 / 100.
Proof.
  unfold Quality.dtSecOf, dec. at_R. apply clamp_R_bounds. lra.
Qed.

Lemma targetOf_bounds (ema dist : R) :
  performance_qualityMin cfg <= Quality.targetOf cfg ema dist <= 1.
Proof.
  unfold Quality.targetOf. at_R.
  match goal with |- context [clamp ?v 0 1 * _] =>
    pose proof (@clamp_R_bounds v 0 1 ltac:(lra)) as Hh;
    set (h := clamp v 0 1) in *
  end.
  nra.
Qed.

Lemma qualityInv_init t0 : qualityInv cfg (Quality.init cfg t0).
Proof. unfold qualityInv. simpl. split; [lra | reflexivity]. Qed.

(** One frame: the invariant is kept and the quality moves towards the
    target, rate-limited, without passing it. *)
Lemma tick_moves_toward_target (st : Quality.t R) (f : Quality.frame R) :
  qualityInv cfg st ->
  let st' := Quality.tickFrame cfg st f in
  let dt := Quality.dtSecOf st (Quality.frameNowMs f) in
  let q := Quality.perfQuality st in
  let q' := Quality.perfQuality st' in
  let target := Quality.perfTargetQuality st' in
  qualityInv cfg st'
  /\ (Quality.cursorVisible f = false -> q' = q)
  /\ (Quality.cursorVisible f = true ->
      performance_qualityMin cfg <= target <= 1
      /\ (target < q -> target <= q' <= q /\ q - q' <= performance_degradeRatePerSec cfg * dt)
      /\ (q <= target -> q <= q' <= target /\ q' - q <= performance_recoverRatePerSec cfg * dt)).
Proof.
  intros [Hq Hd] st' dt q q' target.
  subst st' q' target. unfold qualityInv, Quality.tickFrame, Quality.tick.
  fold dt. pose proof (dtSecOf_bounds st (Quality.frameNowMs f)) as Hdt. fold dt in Hdt.
  destruct (Quality.cursorVisible f); cbn [negb].
  2:{ cbn [Quality.perfQuality]. split; [split; assumption|].
      split; [reflexivity | discriminate]. }
  destruct (performance_enabled cfg) eqn:En.
  - cbn [Quality.perfQuality Quality.perfTargetQuality].
    match goal with |- context [Quality.targetOf cfg ?e ?d] =>
      pose proof (targetOf_bounds e d) as Ht;
      set (target := Quality.targetOf cfg e d) in *
    end.
    fold q in Hq |- *. at_R.
    assert (Hcases :
      (target < q /\
       clamp (if Rltb target q
              then Rmax target (q - performance_degradeRatePerSec cfg * dt)
              else Rmin target (q + performance_recoverRatePerSec cfg * dt))
             (performance_qualityMin cfg) 1
       = Rmax target (q - performance_degradeRatePerSec cfg * dt))
      \/ (q <= target /\
          clamp (if Rltb target q
                 then Rmax target (q - performance_degradeRatePerSec cfg * dt)
                 else Rmin target (q + performance_recoverRatePerSec cfg * dt))
                (performance_qualityMin cfg) 1
          = Rmin target (q + performance_recoverRatePerSec cfg * dt))).
    { destruct (Rltb target q) eqn:E;
        [apply Rltb_true in E; left | apply Rltb_false in E; right];
        (split; [lra|]); apply clamp_R_id;
        unfold Rmax, Rmin; destruct (Rle_dec _ _); nra. }
    destruct Hcases as [[Hlt ->] | [Hle ->]].
    + assert (Hm : target <= Rmax target (q - performance_degradeRatePerSec cfg * dt) <= q
                   /\ q - Rmax target (q - performance_degradeRatePerSec cfg * dt)
                      <= performance_degradeRatePerSec cfg * dt).
      { unfold Rmax; destruct (Rle_dec _ _); nra. }
      split; [split; [lra | intros; congruence]|].
      split; [discriminate|]. intros _.
      split; [lra|]. split; [intros _; exact Hm | intros; lra].
    + assert (Hm : q <= Rmin target (q + performance_recoverRatePerSec cfg * dt) <= target
                   /\ Rmin target (q + performance_recoverRatePerSec cfg * dt) - q
                      <= performance_recoverRatePerSec cfg * dt).
      { unfold Rmin; destruct (Rle_dec _ _); nra. }
      split; [split; [lra | intros; congruence]|].
      split; [discriminate|]. intros _.
      split; [lra|]. split; [intros; lra | intros _; exact Hm].
  - cbn [Quality.perfQuality Quality.perfTargetQuality]. at_R.
    specialize (Hd eq_refl). fold q in Hd, Hq.
    split; [split; [lra | reflexivity]|].
    split; [discriminate|]. intros _.
    split; [lra|]. split; [intros; lra|].
    intros _. split; [lra|]. nra.
Qed.

Lemma run_inv t0 (fs : list (Quality.frame R)) :
  qualityInv cfg (Quality.run cfg (Quality.init cfg t0) fs).
Proof.
  unfold Quality.run.
  generalize (Quality.init cfg t0) (qualityInv_init t0).
  induction fs as [|f fs IH]; intros st Hst; simpl.
  - exact Hst.
  - apply IH. apply (tick_moves_toward_target st f Hst).
Qed.

End QualityFacts.

(** C3. With [qualityMin <= 1] and non-negative rates (the documented
    ranges), after any sequence of frames, whatever their clock readings
    and motion distances: the quality scalar lies in [[qualityMin, 1]], and
    the next frame leaves it in that interval; a frame that returns early
    (no visible cursor) leaves it unchanged; every other frame moves it
    towards the target it has just computed without passing it, down by at
    most [degradeRatePerSec * dt] when the target is below, up by at most
    [recoverRatePerSec * dt] otherwise. *)
Theorem C3_quality_bounded_and_monotone :
  forall (cfg : Config R),
    performance_qualityMin cfg <= 1 ->
    0 <= performance_degradeRatePerSec cfg ->
    0 <= performance_recoverRatePerSec cfg ->
    forall (t0 : R) (fs : list (Quality.frame R)) (f : Quality.frame R),
      let st := Quality.run cfg (Quality.init cfg t0) fs in
      let st' := Quality.tickFrame cfg st f in
      let dt := Quality.dtSecOf st (Quality.frameNowMs f) in
      let q := Quality.perfQuality st in
      let q' := Quality.perfQuality st' in
      let target := Quality.perfTargetQuality st' in
      performance_qualityMin cfg <= q <= 1
      /\ performance_qualityMin cfg <= q' <= 1
      /\ 0 <= dt <= 5 / 100
      /\ (Quality.cursorVisible f = false -> q' = q)
      /\ (Quality.cursorVisible f = true ->
          (target < q ->
           target <= q' <= q /\ q - q' <= performance_degradeRatePerSec cfg * dt)
          /\ (q <= target ->
              q <= q' <= target /\ q' - q <= performance_recoverRatePerSec cfg * dt)).
Proof.
  intros cfg Hq Hd Hr t0 fs f st st' dt q q' target.
  pose proof (run_inv cfg Hq Hd Hr t0 fs) as Hinv. fold st in Hinv.
  destruct (tick_moves_toward_target cfg Hq Hd Hr st f Hinv) as (Hinv' & Hhid & Hvis).
  split; [exact (proj1 Hinv)|].
  split; [exact (proj1 Hinv')|].
  split; [apply dtSecOf_bounds|].
  split; [exact Hhid|].
  intros Hv. destruct (Hvis Hv) as (_ & Hdown & Hup). split; assumption.
Qed.

(** The shipped configuration, a slow first frame after a large jump: the
    quality leaves 1 by exactly the rate limit. *)
Lemma C3_witness_shipped_configuration :
  let f := {| Quality.frameNowMs := 50; Quality.cursorVisible := true;
              Quality.dist := 200 |} in
  let st := Quality.run CFG (Quality.init CFG 0) [] in
  let st' := Quality.tickFrame CFG st f in
  performance_qualityMin CFG <= Quality.perfQuality st' <= 1
  /\ (Quality.perfTargetQuality st' < Quality.perfQuality st ->
      Quality.perfQuality st - Quality.perfQuality st'
      <= performance_degradeRatePerSec CFG * Quality.dtSecOf st 50).
Proof.
  intros f st st'.
  assert (H1 : performance_qualityMin (A := R) CFG <= 1) by (cbn; unfold dec; at_R; lra).
  assert (H2 : 0 <= performance_degradeRatePerSec (A := R) CFG)
    by (cbn; unfold dec; at_R; lra).
  assert (H3 : 0 <= performance_recoverRatePerSec (A := R) CFG)
    by (cbn; unfold dec; at_R; lra).
  pose proof (C3_quality_bounded_and_monotone CFG H1 H2 H3 0 [] f) as H.
  cbv zeta in H. destruct H as (_ & Hq' & _ & _ & Hvis).
  split; [exact Hq'|].
  intros Hlt. exact (proj2 (proj1 (Hvis eq_refl) Hlt)).
Defined.

(** ** Sorting with a comparator, over [R] *)

Section SortFacts.
Variable T : Type.
Variable cmp : T -> T -> R.

(** The comparator is a strict total order: what
    [Array.prototype.sort] needs for its result to be determined. *)
Hypothesis cmp_asym : forall a b, cmp a b < 0 -> ~ cmp b a < 0.
Hypothesis cmp_trans : forall a b c, cmp a b < 0 -> cmp b c < 0 -> cmp a c < 0.
Hypothesis cmp_total : forall a b, ~ cmp a b < 0 -> ~ cmp b a < 0 -> a = b.

Lemma notBefore_R a b : notBefore cmp a b <-> ~ cmp b a < 0.
Proof. unfold notBefore. at_R. rewrite Rltb_false. lra. Qed.

Lemma notBefore_trans a b c :
  notBefore cmp a b -> notBefore cmp b c -> notBefore cmp a c.
Proof.
  rewrite !notBefore_R. intros Hab Hbc Hca.
  destruct (Rlt_dec (cmp a b) 0) as [Hlt|Hn].
  - apply Hbc. now apply cmp_trans with a.
  - assert (a = b) by now apply cmp_total. subst b. contradiction.
Qed.

Lemma insertBy_perm a l : Permutation (insertBy cmp a l) (a :: l).
Proof.
  induction l as [|b l IH]; simpl.
  - reflexivity.
  - at_R. destruct (Rltb (cmp a b) 0).
    + reflexivity.
    + rewrite IH. apply perm_swap.
Qed.

Lemma insertBy_sorted a l :
  StronglySorted (notBefore cmp) l -> StronglySorted (notBefore cmp) (insertBy cmp a l).
Proof.
  induction l as [|b l IH]; intros Hs; simpl.
  - repeat constructor.
  - at_R. inversion Hs as [|? ? Hl Hb]; subst.
    destruct (Rltb (cmp a b) 0) eqn:E;
      [apply Rltb_true in E | apply Rltb_false in E].
    + constructor; [exact Hs|]. constructor.
      * apply notBefore_R. now apply cmp_asym.
      * eapply Forall_impl; [|exact Hb].
        intros c Hc. apply notBefore_trans with b; [|exact Hc].
        apply notBefore_R. now apply cmp_asym.
    + constructor; [now apply IH|].
      apply (Permutation_Forall (Permutation_sym (insertBy_perm a l))).
      constructor; [|exact Hb]. apply notBefore_R. lra.
Qed.

Lemma sortBy_fold acc l :
  StronglySorted (notBefore cmp) acc ->
  StronglySorted (notBefore cmp) (fold_left (fun acc a => insertBy cmp a acc) l acc)
  /\ Permutation (fold_left (fun acc a => insertBy cmp a acc) l acc) (acc ++ l).
Proof.
  revert acc. induction l as [|a l IH]; intros acc Hacc; simpl.
  - rewrite app_nil_r. now split.
  - destruct (IH (insertBy cmp a acc) (insertBy_sorted a acc Hacc)) as [Hs Hp].
    split; [exact Hs|]. rewrite Hp, insertBy_perm.
    change (a :: acc ++ l) with ((a :: acc) ++ l).
    rewrite (Permutation_middle acc l a). reflexivity.
Qed.

Lemma sortBy_sorted l : StronglySorted (notBefore cmp) (sortBy cmp l).
Proof. apply (sortBy_fold [] l). constructor. Qed.

Lemma sortBy_perm l : Permutation (sortBy cmp l) l.
Proof. apply (sortBy_fold [] l). constructor. Qed.

(** Two sorted arrangements of the same elements are the same list. *)
Lemma sorted_perm_unique l1 l2 :
  StronglySorted (notBefore cmp) l1 -> StronglySorted (notBefore cmp) l2 ->
  Permutation l1 l2 -> l1 = l2.
Proof.
  revert l2. induction l1 as [|a l1 IH]; intros l2 H1 H2 Hp.
  - apply Permutation_nil in Hp. now subst.
  - destruct l2 as [|b l2].
    + apply Permutation_sym, Permutation_nil in Hp. discriminate.
    + inversion H1 as [|? ? Hs1 Ha]; subst. inversion H2 as [|? ? Hs2 Hb]; subst.
      assert (Hab : a = b).
      { assert (Hin1 : In a (b :: l2))
          by (apply (Permutation_in _ Hp); now left).
        assert (Hin2 : In b (a :: l1))
          by (apply (Permutation_in _ (Permutation_sym Hp)); now left).
        destruct Hin1 as [->|Hin1]; [reflexivity|].
        destruct Hin2 as [->|Hin2]; [reflexivity|].
        rewrite Forall_forall in Ha, Hb.
        specialize (Ha _ Hin2). specialize (Hb _ Hin1).
        apply notBefore_R in Ha, Hb. now apply cmp_total. }
      subst b. f_equal. apply IH; try assumption.
      now apply Permutation_cons_inv with a.
Qed.

Lemma sortBy_perm_eq l l' : Permutation l l' -> sortBy cmp l = sortBy cmp l'.
Proof.
  intros Hp. apply sorted_perm_unique; try apply sortBy_sorted.
  rewrite !sortBy_perm. exact Hp.
Qed.

Lemma sortBy_sorted_id l : StronglySorted (notBefore cmp) l -> sortBy cmp l = l.
Proof.
  intros Hs. apply sorted_perm_unique; [apply sortBy_sorted | exact Hs | apply sortBy_perm].
Qed.

Lemma sortBy_idem l : sortBy cmp (sortBy cmp l) = sortBy cmp l.
Proof. apply sortBy_perm_eq, sortBy_perm. Qed.

Lemma sortBy_length l : length (sortBy cmp l) = length l.
Proof. apply Permutation_length, sortBy_perm. Qed.
End SortFacts.

(** ** The angle order of [sortPolygonByAngle], over [R] *)

Lemma orElse_zero (d r : R) : d = 0 -> orElse d r = r.
Proof.
  intros ->. unfold orElse, falsy. at_R.
  destruct (Reqb 0 0) eqn:E; [reflexivity|]. apply Reqb_false in E. lra.
Qed.

Lemma orElse_nonzero (d r : R) : d <> 0 -> orElse d r = d.
Proof.
  intros Hd. unfold orElse, falsy. at_R.
  destruct (Reqb d 0) eqn:E; [apply Reqb_true in E; lra|].
  destruct (Reqb d d) eqn:E'; [reflexivity|]. apply Reqb_false in E'. lra.
Qed.

Lemma angleCmp_lt (a b : Keyed (A := R)) : angleCmp a b < 0 <-> keyLt a b.
Proof.
  unfold angleCmp, keyLt. at_R.
  destruct (Req_dec_T (k_a a - k_a b) 0) as [E1|E1];
    [rewrite (orElse_zero _ _ E1) | rewrite (orElse_nonzero _ _ E1); lra].
  destruct (Req_dec_T (k_r2 a - k_r2 b) 0) as [E2|E2];
    [rewrite (orElse_zero _ _ E2) | rewrite (orElse_nonzero _ _ E2); lra].
  destruct (Req_dec_T (Point.y (k_p a) - Point.y (k_p b)) 0) as [E3|E3];
    [rewrite (orElse_zero _ _ E3) | rewrite (orElse_nonzero _ _ E3); lra].
  lra.
Qed.

Lemma angleCmp_asym (a b : Keyed (A := R)) : angleCmp a b < 0 -> ~ angleCmp b a < 0.
Proof. rewrite !angleCmp_lt. unfold keyLt. lra. Qed.

Lemma angleCmp_trans (a b c : Keyed (A := R)) :
  angleCmp a b < 0 -> angleCmp b c < 0 -> angleCmp a c < 0.
Proof. rewrite !angleCmp_lt. unfold keyLt. lra. Qed.

Lemma angleCmp_total (a b : Keyed (A := R)) :
  ~ angleCmp a b < 0 -> ~ angleCmp b a < 0 -> a = b.
Proof.
  rewrite !angleCmp_lt. unfold keyLt. intros H1 H2.
  destruct a as [[ax ay] aa ar], b as [[bx by_] ba br]. cbn in *.
  assert (aa = ba) by lra. assert (ar = br) by lra.
  assert (ay = by_) by lra. assert (ax = bx) by lra.
  now subst.
Qed.

Lemma clonePolygon_id {A : Type} (pts : Polygon A) : clonePolygon pts = pts.
Proof.
  unfold clonePolygon. induction pts as [|[x y] pts IH]; simpl; [reflexivity|].
  now rewrite IH.
Qed.

Lemma fold_left_Rplus_shift (l : list R) (s : R) :
  fold_left Rplus l s = s + fold_left Rplus l 0.
Proof.
  revert s. induction l as [|a l IH]; intros s; simpl.
  - lra.
  - rewrite IH, (IH (0 + a)). lra.
Qed.

Lemma fold_left_Rplus_perm (l l' : list R) (s : R) :
  Permutation l l' -> fold_left Rplus l s = fold_left Rplus l' s.
Proof.
  intros Hp. revert s. induction Hp; intros s; simpl.
  - reflexivity.
  - apply IHHp.
  - f_equal. lra.
  - now rewrite IHHp1.
Qed.

Lemma fold_left_map_sum {T : Type} (f : T -> R) (l : list T) (s : R) :
  fold_left (fun s a => s + f a) l s = fold_left Rplus (map f l) s.
Proof. revert s. induction l as [|a l IH]; intros s; simpl; [reflexivity|apply IH]. Qed.

Lemma polygonCenter_perm (p q : Polygon R) :
  Permutation p q -> polygonCenter p = polygonCenter q.
Proof.
  intros Hp. unfold polygonCenter. at_R.
  rewrite !(fold_left_map_sum (fun a => Point.x a)), !(fold_left_map_sum (fun a => Point.y a)).
  rewrite (fold_left_Rplus_perm _ _ 0 (Permutation_map (fun a => Point.x a) Hp)).
  rewrite (fold_left_Rplus_perm _ _ 0 (Permutation_map (fun a => Point.y a) Hp)).
  now rewrite (Permutation_length Hp).
Qed.

Lemma map_k_p_keyOf (c : Point.t R) (pts : Polygon R) :
  map k_p (map (keyOf c) pts) = pts.
Proof.
  induction pts as [|[x y] pts IH]; simpl; [reflexivity|]. now rewrite IH.
Qed.

(** [sortPolygonByAngle] permutes its argument, and sorts every
    rearrangement of a polygon into the same list. *)
Lemma sortPolygonByAngle_perm (pts : Polygon R) :
  Permutation (sortPolygonByAngle pts) pts.
Proof.
  unfold sortPolygonByAngle. destruct (length pts <? 3)%nat.
  - now rewrite clonePolygon_id.
  - transitivity (map k_p (map (keyOf (polygonCenter pts)) pts));
      [|now rewrite map_k_p_keyOf].
    apply Permutation_map, sortBy_perm.
    + apply angleCmp_asym.
    + apply angleCmp_trans.
    + apply angleCmp_total.
Qed.

Lemma sortPolygonByAngle_length (pts : Polygon R) :
  length (sortPolygonByAngle pts) = length pts.
Proof. apply Permutation_length, sortPolygonByAngle_perm. Qed.

Lemma sortPolygonByAngle_perm_eq (p q : Polygon R) :
  (3 <= length p)%nat -> Permutation p q ->
  sortPolygonByAngle p = sortPolygonByAngle q.
Proof.
  intros Hlen Hp. unfold sortPolygonByAngle.
  rewrite <- (Permutation_length Hp).
  destruct (Nat.ltb_spec (length p) 3); [lia|].
  rewrite (polygonCenter_perm p q Hp). f_equal.
  apply sortBy_perm_eq.
  - apply angleCmp_asym.
  - apply angleCmp_trans.
  - apply angleCmp_total.
  - now apply Permutation_map.
Qed.

Lemma sortPolygonByAngle_idem (p : Polygon R) :
  sortPolygonByAngle (sortPolygonByAngle p) = sortPolygonByAngle p.
Proof.
  destruct (Nat.ltb_spec (length p) 3) as [Hlt|Hge].
  - unfold sortPolygonByAngle at 2.
    destruct (Nat.ltb_spec (length p) 3); [|lia].
    rewrite clonePolygon_id. reflexivity.
  - apply sortPolygonByAngle_perm_eq.
    + now rewrite sortPolygonByAngle_length.
    + apply sortPolygonByAngle_perm.
Qed.

(** ** Rotations of a polygon *)

Lemma shift_mod_perm (n off : nat) :
  Permutation (map (fun i => (i + off) mod n)%nat (seq 0 n)) (seq 0 n).
Proof.
  destruct n as [|n]; [reflexivity|].
  apply NoDup_Permutation_bis.
  - apply NoDup_map_NoDup_ForallPairs; [|apply seq_NoDup].
    intros a b Ha Hb Hab. apply in_seq in Ha, Hb.
    assert (Hinv : forall i, (i < S n)%nat ->
              (((i + off) mod S n + (S n - off mod S n)) mod S n = i)%nat).
    { intros i Hi.
      rewrite Nat.Div0.add_mod_idemp_l.
      pose proof (Nat.div_mod_eq off (S n)) as Hoff.
      pose proof (Nat.mod_upper_bound off (S n) ltac:(lia)) as Hr.
      replace (i + off + (S n - off mod S n))%nat
        with (i + (off / S n + 1) * S n)%nat by nia.
      rewrite Nat.Div0.mod_add. apply Nat.mod_small. exact Hi. }
    rewrite <- (Hinv a) by lia. rewrite <- (Hinv b) by lia.
    now rewrite Hab.
  - now rewrite length_map.
  - intros x Hx. apply in_map_iff in Hx. destruct Hx as (i & <- & Hi).
    apply in_seq.
    pose proof (Nat.mod_upper_bound (i + off) (S n) ltac:(lia)). lia.
Qed.

Lemma map_at_seq {A : Type} `{Num A} (pts : Polygon A) :
  map (at_ pts) (seq 0 (length pts)) = pts.
Proof.
  apply nth_ext with (d := at_ pts 0) (d' := origin).
  - now rewrite length_map, length_seq.
  - intros i Hi. rewrite length_map, length_seq in Hi.
    rewrite (map_nth (at_ pts)). rewrite seq_nth by exact Hi. reflexivity.
Qed.

Lemma rotatePolygon_length {A : Type} `{Num A} (pts : Polygon A) off :
  length (rotatePolygon pts off) = length pts.
Proof. unfold rotatePolygon. now rewrite length_map, length_seq. Qed.

Lemma rotatePolygon_at {A : Type} `{Num A} (pts : Polygon A) off i :
  (i < length pts)%nat ->
  at_ (rotatePolygon pts off) i = at_ pts ((i + off) mod length pts).
Proof.
  intros Hi. unfold rotatePolygon, at_ at 1.
  rewrite (nth_indep _ _ (at_ pts ((0 + off) mod length pts)))
    by (now rewrite length_map, length_seq).
  rewrite (map_nth (fun i => at_ pts ((i + off) mod length pts))).
  now rewrite seq_nth.
Qed.

Lemma rotatePolygon_0 {A : Type} `{Num A} (pts : Polygon A) :
  rotatePolygon pts 0 = pts.
Proof.
  unfold rotatePolygon.
  transitivity (map (at_ pts) (seq 0 (length pts))); [|apply map_at_seq].
  apply map_ext_in. intros i Hi. apply in_seq in Hi.
  rewrite Nat.add_0_r, Nat.mod_small by lia. reflexivity.
Qed.

Lemma rotatePolygon_perm {A : Type} `{Num A} (pts : Polygon A) off :
  Permutation (rotatePolygon pts off) pts.
Proof.
  unfold rotatePolygon.
  transitivity (map (at_ pts) (seq 0 (length pts)));
    [|now rewrite map_at_seq].
  rewrite <- (map_map (fun i => (i + off) mod length pts)%nat (at_ pts)).
  apply Permutation_map, shift_mod_perm.
Qed.

(** The signed area does not depend on where the vertex list starts. *)
Lemma polygonSignedArea_rotate (pts : Polygon R) off :
  polygonSignedArea (rotatePolygon pts off) = polygonSignedArea pts.
Proof.
  unfold polygonSignedArea. rewrite rotatePolygon_length.
  destruct (length pts <? 3)%nat; [reflexivity|]. f_equal.
  set (n := length pts).
  set (term := fun (q : Polygon R) (i : nat) =>
                 (@mul R _ (Point.x (at_ q i)) (Point.y (at_ q ((i + 1) mod n)))
                  - @mul R _ (Point.x (at_ q ((i + 1) mod n))) (Point.y (at_ q i)))%num).
  change (fold_left (fun s i => (s + term (rotatePolygon pts off) i)%num) (seq 0 n) (ofZ 0)
          = fold_left (fun s i => (s + term pts i)%num) (seq 0 n) (ofZ 0)).
  at_R.
  rewrite (fold_left_map_sum (term (rotatePolygon pts off))),
          (fold_left_map_sum (term pts)).
  transitivity (fold_left Rplus
                  (map (term pts) (map (fun i => (i + off) mod n)%nat (seq 0 n))) 0).
  - f_equal. rewrite map_map. apply map_ext_in. intros i Hi. apply in_seq in Hi.
    unfold term.
    assert (Hn : (0 < n)%nat) by lia.
    rewrite !rotatePolygon_at by (try apply Nat.mod_upper_bound; fold n; lia).
    fold n.
    replace (((i + 1) mod n + off) mod n)%nat with (((i + off) mod n + 1) mod n)%nat.
    + reflexivity.
    + rewrite !Nat.Div0.add_mod_idemp_l. f_equal. lia.
  - apply fold_left_Rplus_perm, Permutation_map, shift_mod_perm.
Qed.

(** ** The correspondence search of [matchPolygonToReference] *)

Lemma pointDist_nonneg (a b : Point.t R) : 0 <= pointDist a b.
Proof. unfold pointDist. at_R. apply sqrt_pos. Qed.

Lemma pointDist_refl (a : Point.t R) : pointDist a a = 0.
Proof.
  unfold pointDist. at_R.
  replace ((Point.x a - Point.x a) * (Point.x a - Point.x a)
           + (Point.y a - Point.y a) * (Point.y a - Point.y a)) with 0 by ring.
  apply sqrt_0.
Qed.

Lemma sum_squares_nonneg (x y : R) : 0 <= x * x + y * y.
Proof. apply Rplus_le_le_0_compat; apply Rle_0_sqr. Qed.

Lemma pointDist_zero (a b : Point.t R) : pointDist a b = 0 -> a = b.
Proof.
  unfold pointDist. at_R. intros Hd.
  apply sqrt_eq_0 in Hd; [|apply sum_squares_nonneg].
  apply Rplus_sqr_eq_0 in Hd.
  destruct a as [ax ay], b as [bx by_]. cbn in *.
  assert (ax = bx) by lra. assert (ay = by_) by lra. now subst.
Qed.

Lemma matchScore_shift (l : list (Point.t R * Point.t R)) (s : R) :
  fold_left (fun s cr => (s + pointDist (fst cr) (snd cr))%num) l s
  = s + fold_left (fun s cr => (s + pointDist (fst cr) (snd cr))%num) l 0.
Proof.
  at_R. rewrite !(fold_left_map_sum (fun cr => pointDist (fst cr) (snd cr))).
  apply fold_left_Rplus_shift.
Qed.

Lemma matchScore_cons (a b : Point.t R) (cand ref : Polygon R) :
  matchScore (a :: cand) (b :: ref) = pointDist a b + matchScore cand ref.
Proof.
  unfold matchScore. simpl combine. cbn [fold_left fst snd].
  rewrite matchScore_shift. at_R. lra.
Qed.

Lemma matchScore_nonneg (cand ref : Polygon R) : 0 <= matchScore cand ref.
Proof.
  revert ref. induction cand as [|a cand IH]; intros [|b ref];
    try (unfold matchScore; simpl; at_R; lra).
  rewrite matchScore_cons. pose proof (pointDist_nonneg a b). specialize (IH ref). lra.
Qed.

Lemma matchScore_refl (p : Polygon R) : matchScore p p = 0.
Proof.
  induction p as [|a p IH]; [unfold matchScore; simpl; at_R; lra|].
  rewrite matchScore_cons, pointDist_refl, IH. lra.
Qed.

Lemma matchScore_zero (cand ref : Polygon R) :
  length cand = length ref -> matchScore cand ref = 0 -> cand = ref.
Proof.
  revert ref. induction cand as [|a cand IH]; intros [|b ref] Hlen Hs;
    simpl in Hlen; try discriminate; [reflexivity|].
  rewrite matchScore_cons in Hs.
  pose proof (pointDist_nonneg a b). pose proof (matchScore_nonneg cand ref).
  assert (pointDist a b = 0) by lra. assert (matchScore cand ref = 0) by lra.
  f_equal; [now apply pointDist_zero | apply IH; [lia | assumption]].
Qed.

(** [pickBest] returns a candidate of least score, when there is one. *)
Lemma pickBest_fold (ref : Polygon R) (cands : list (Polygon R)) (c : Polygon R) :
  exists best,
    fold_left
      (fun (st : option (Polygon R) * option R) cand =>
         if ltInf (matchScore cand ref) (snd st)
         then (Some cand, Some (matchScore cand ref)) else st)
      cands (Some c, Some (matchScore c ref))
    = (Some best, Some (matchScore best ref))
    /\ In best (c :: cands)
    /\ Forall (fun c' => matchScore best ref <= matchScore c' ref) (c :: cands).
Proof.
  revert c. induction cands as [|d cands IH]; intros c; simpl fold_left.
  - exists c. split; [reflexivity|]. split; [now left|].
    constructor; [lra | constructor].
  - cbn [snd ltInf]. at_R.
    destruct (Rltb (matchScore d ref) (matchScore c ref)) eqn:E;
      [apply Rltb_true in E | apply Rltb_false in E].
    + destruct (IH d) as (best & Hf & Hin & Hall).
      exists best. split; [exact Hf|]. split; [right; exact Hin|].
      inversion Hall as [|? ? Hd Hrest]; subst.
      constructor; [lra|]. constructor; assumption.
    + destruct (IH c) as (best & Hf & Hin & Hall).
      exists best. split; [exact Hf|].
      split; [destruct Hin as [->|Hin]; [now left | right; now right]|].
      inversion Hall as [|? ? Hc Hrest]; subst.
      constructor; [exact Hc|]. constructor; [lra | exact Hrest].
Qed.

Lemma pickBest_spec (ref : Polygon R) (cands : list (Polygon R)) :
  cands <> [] ->
  exists best,
    fst (pickBest ref cands) = Some best
    /\ In best cands
    /\ Forall (fun c' => matchScore best ref <= matchScore c' ref) cands.
Proof.
  destruct cands as [|c cands]; [congruence|]. intros _.
  unfold pickBest. simpl fold_left. cbn [snd ltInf].
  destruct (pickBest_fold ref cands c) as (best & Hf & Hin & Hall).
  exists best. rewrite Hf. auto.
Qed.

(** ** Canonical polygons *)

Lemma matchBases_incl {A : Type} `{JSMath A} (ref ordered : Polygon A) :
  incl (matchBases ref ordered) [ordered; rev ordered]
  /\ matchBases ref ordered <> [].
Proof.
  unfold matchBases.
  destruct (negb _); [|split; [apply incl_refl | discriminate]].
  destruct (filter _ _) as [|b bs] eqn:E.
  - split; [apply incl_refl | discriminate].
  - split; [|discriminate]. rewrite <- E. intros x Hx.
    apply filter_In in Hx. tauto.
Qed.

(** A base with the winding of the reference survives the filter. *)
Lemma matchBases_keeps (ref ordered base : Polygon R) :
  In base [ordered; rev ordered] ->
  polygonSignedArea base = polygonSignedArea ref ->
  In base (matchBases ref ordered).
Proof.
  intros Hin Harea. unfold matchBases.
  destruct (negb _); [|exact Hin].
  assert (Hf : In base
                 (filter (fun b => (sign (polygonSignedArea b)
                                    =? sign (polygonSignedArea ref))%num)
                         [ordered; rev ordered])).
  { apply filter_In. split; [exact Hin|]. rewrite Harea. at_R. now apply Reqb_true. }
  destruct (filter _ _); [contradiction | exact Hf].
Qed.

Lemma matchCandidates_in {A : Type} `{Num A} (bases : list (Polygon A)) n c :
  In c (matchCandidates bases n) <->
  exists base k, In base bases /\ (k < n)%nat /\ c = rotatePolygon base k.
Proof.
  unfold matchCandidates. rewrite in_flat_map. split.
  - intros (base & Hb & Hc). apply in_map_iff in Hc. destruct Hc as (k & <- & Hk).
    apply in_seq in Hk. exists base, k. repeat split; [assumption | lia].
  - intros (base & k & Hb & Hk & ->). exists base. split; [assumption|].
    apply in_map, in_seq. lia.
Qed.

(** The result of [matchPolygonToReference] on equally long arguments is
    a rotation of the sorted polygon or of its reverse. *)
Lemma matchPolygonToReference_shape (pts ref : Polygon R) :
  (3 <= length pts)%nat -> length ref = length pts ->
  exists base k,
    In base [sortPolygonByAngle pts; rev (sortPolygonByAngle pts)]
    /\ (k < length pts)%nat
    /\ matchPolygonToReference pts ref = rotatePolygon base k.
Proof.
  intros Hlen Href. unfold matchPolygonToReference.
  rewrite Href, Nat.min_id.
  destruct (Nat.ltb_spec (length pts) 3); [lia|].
  rewrite firstn_all, <- Href, firstn_all, Href.
  set (S := sortPolygonByAngle pts).
  destruct (matchBases_incl ref S) as [Hincl Hne].
  destruct (pickBest_spec ref (matchCandidates (matchBases ref S) (length pts)))
    as (best & Hbest & Hin & _).
  { destruct (matchBases ref S) as [|b bs]; [congruence|].
    unfold matchCandidates. simpl.
    destruct (length pts) as [|n]; [lia|]. discriminate. }
  rewrite Hbest, clonePolygon_id.
  apply matchCandidates_in in Hin. destruct Hin as (base & k & Hb & Hk & ->).
  exists base, k. split; [apply Hincl, Hb|]. now split.
Qed.

Lemma fold_left_pick_in {T : Type} (f : nat -> nat -> bool) (l : list nat) (b : nat) :
  In (fold_left (fun best i => if f best i then i else best) l b) (b :: l).
Proof.
  revert b. induction l as [|a l IH]; intros b; simpl fold_left.
  - now left.
  - destruct (f b a).
    + right. apply IH.
    + destruct (IH b) as [H|H]; [left; exact H | right; right; exact H].
Qed.

Lemma rotateToTopLeftStart_shape {A : Type} `{Num A} (pts : Polygon A) :
  pts <> [] ->
  exists k, (k < length pts)%nat /\ rotateToTopLeftStart pts = rotatePolygon pts k.
Proof.
  intros Hne. unfold rotateToTopLeftStart.
  destruct (Nat.eqb_spec (length pts) 0) as [E|E].
  - destruct pts; [congruence | discriminate].
  - rewrite clonePolygon_id.
    match goal with |- context [rotatePolygon pts ?b] => exists b end.
    split; [|reflexivity].
    match goal with |- (fold_left ?g ?l ?b < _)%nat =>
      pose proof (@fold_left_pick_in nat
        (fun best i =>
           ((Point.y (at_ pts i) <? Point.y (at_ pts best))
            || ((Point.y (at_ pts i) =? Point.y (at_ pts best))
                && (Point.x (at_ pts i) <? Point.x (at_ pts best))))%num) l b) as Hin
    end.
    destruct Hin as [<-|Hin]; [lia|]. apply in_seq in Hin. lia.
Qed.

(** Every value of [canonicalizePolygon] is the argument itself (fewer
    than three points) or a rotation of the angle-sorted argument or of
    its reverse. *)
Lemma canonicalizePolygon_shape (Q : Polygon R) (ref : option (Polygon R)) :
  ((length Q < 3)%nat /\ canonicalizePolygon Q ref = Q)
  \/ ((3 <= length Q)%nat
      /\ exists base k,
           In base [sortPolygonByAngle Q; rev (sortPolygonByAngle Q)]
           /\ (k < length Q)%nat
           /\ canonicalizePolygon Q ref = rotatePolygon base k).
Proof.
  unfold canonicalizePolygon.
  destruct (Nat.ltb_spec (length Q) 3) as [Hlt|Hge].
  - left. split; [exact Hlt | apply clonePolygon_id].
  - right. split; [exact Hge|]. rewrite firstn_all.
    set (S := sortPolygonByAngle Q).
    assert (HS : length S = length Q) by apply sortPolygonByAngle_length.
    assert (Htl : exists base k,
               In base [S; rev S] /\ (k < length Q)%nat
               /\ rotateToTopLeftStart S = rotatePolygon base k).
    { destruct (rotateToTopLeftStart_shape S) as (k & Hk & E).
      - intros E. rewrite E in HS. simpl in HS. lia.
      - exists S, k. split; [now left|]. split; [lia | exact E]. }
    destruct ref as [r|]; [|exact Htl].
    destruct (Nat.eqb_spec (length r) (length Q)) as [Hr|Hr]; [|exact Htl].
    destruct (matchPolygonToReference_shape S r) as (base & k & Hb & Hk & E);
      [lia | lia |].
    unfold S in Hb. rewrite sortPolygonByAngle_idem in Hb. fold S in Hb.
    exists base, k. split; [exact Hb|]. split; [lia | exact E].
Qed.

(** ** Canonicalization rearranges, on every carrier *)

Section Rearrangement.
Context {A : Type} `{JSMath A}.

Lemma insertBy_permutes {T : Type} (cmp : T -> T -> A) (a : T) (l : list T) :
  Permutation (insertBy cmp a l) (a :: l).
Proof.
  induction l as [|b l IH]; simpl.
  - reflexivity.
  - destruct (ltb (cmp a b) (ofZ 0)).
    + reflexivity.
    + rewrite IH. apply perm_swap.
Qed.

Lemma sortBy_permutes {T : Type} (cmp : T -> T -> A) (l : list T) :
  Permutation (sortBy cmp l) l.
Proof.
  unfold sortBy.
  assert (G : forall acc, Permutation
                            (fold_left (fun acc a => insertBy cmp a acc) l acc)
                            (acc ++ l)).
  { induction l as [|a l IH]; intros acc; simpl.
    - now rewrite app_nil_r.
    - rewrite IH, insertBy_permutes. apply Permutation_middle. }
  apply (G []).
Qed.

Lemma sortPolygonByAngle_permutes (pts : Polygon A) :
  Permutation (sortPolygonByAngle pts) pts.
Proof.
  unfold sortPolygonByAngle. destruct (length pts <? 3)%nat.
  - now rewrite clonePolygon_id.
  - rewrite sortBy_permutes, map_map.
    generalize (polygonCenter pts). intros c.
    replace (map (fun p => k_p (keyOf c p)) pts) with pts; [reflexivity|].
    induction pts as [|[x y] l IH]; [reflexivity|].
    cbn [map]. now rewrite <- IH.
Qed.

(** The first candidate is below [Infinity]: with candidates, [pickBest]
    returns one of them. *)
Lemma pickBest_picks (ref : Polygon A) (cands : list (Polygon A)) :
  cands <> [] -> exists best, fst (pickBest ref cands) = Some best /\ In best cands.
Proof.
  destruct cands as [|c cands]; [congruence|]. intros _.
  unfold pickBest. simpl fold_left. cbn [snd ltInf].
  generalize (matchScore c ref). revert c.
  induction cands as [|d cands IH]; intros c s; simpl fold_left.
  - exists c. split; [reflexivity | now left].
  - cbn [snd ltInf]. destruct (ltb (matchScore d ref) s).
    + destruct (IH d (matchScore d ref)) as (best & E & Hin).
      exists best. split; [exact E | now right].
    + destruct (IH c s) as (best & E & Hin).
      exists best. split; [exact E|].
      destruct Hin as [->|Hin]; [now left | right; now right].
Qed.

Lemma matchPolygonToReference_permutes (pts ref : Polygon A) :
  length ref = length pts ->
  Permutation (matchPolygonToReference pts ref) pts.
Proof.
  intros Href. unfold matchPolygonToReference.
  rewrite Href, Nat.min_id.
  destruct (Nat.ltb_spec (length pts) 3) as [Hlt|Hge];
    [now rewrite clonePolygon_id|].
  rewrite firstn_all, <- Href, firstn_all, Href.
  set (S := sortPolygonByAngle pts).
  assert (HS : Permutation S pts) by apply sortPolygonByAngle_permutes.
  destruct (matchBases_incl ref S) as [Hincl Hne].
  destruct (pickBest_picks ref (matchCandidates (matchBases ref S) (length pts)))
    as (best & Hbest & Hin).
  { destruct (matchBases ref S) as [|b bs]; [congruence|].
    unfold matchCandidates. simpl.
    destruct (length pts) as [|n]; [lia|]. discriminate. }
  rewrite Hbest, clonePolygon_id.
  apply matchCandidates_in in Hin. destruct Hin as (base & k & Hb & Hk & ->).
  rewrite rotatePolygon_perm.
  apply Hincl in Hb. destruct Hb as [<-|[<-|[]]]; [exact HS|].
  now rewrite <- Permutation_rev.
Qed.

(** Whatever the arithmetic, [canonicalizePolygon] returns the vertices
    of its argument, each as often as it occurs there. *)
Lemma canonicalizePolygon_rearranges (pts : Polygon A) (ref : option (Polygon A)) :
  Permutation (canonicalizePolygon pts ref) pts.
Proof.
  unfold canonicalizePolygon.
  destruct (Nat.ltb_spec (length pts) 3) as [Hlt|Hge];
    [now rewrite clonePolygon_id|].
  rewrite firstn_all.
  set (S := sortPolygonByAngle pts).
  assert (HS : Permutation S pts) by apply sortPolygonByAngle_permutes.
  assert (Htl : Permutation (rotateToTopLeftStart S) pts).
  { destruct (rotateToTopLeftStart_shape S) as (k & _ & ->).
    - intros E. apply Permutation_length in HS. rewrite E in HS. simpl in HS. lia.
    - now rewrite rotatePolygon_perm. }
  destruct ref as [r|]; [|exact Htl].
  destruct (Nat.eqb_spec (length r) (length pts)) as [Hr|Hr]; [|exact Htl].
  rewrite matchPolygonToReference_permutes; [exact HS|].
  rewrite Hr. symmetry. now apply Permutation_length.
Qed.

End Rearrangement.

(** C7. Canonicalizing a polygon against itself as the reference
    returns its vertices, each as often as it occurs, on every carrier
    (binary64 included); over the reals a polygon that
    [canonicalizePolygon] has produced comes back unchanged, vertex by
    vertex in the same order. *)
Theorem C7_canonicalization_idempotent :
  (forall (A : Type) (N : Num A) (M : JSMath A) (P : Polygon A),
      Permutation (canonicalizePolygon P (Some P)) P
      /\ length (canonicalizePolygon P (Some P)) = length P)
  /\ (forall P : Polygon R,
         isCanonical P -> canonicalizePolygon P (Some P) = P).
Proof.
  split.
  { intros A N M P.
    pose proof (canonicalizePolygon_rearranges P (Some P)) as HP.
    split; [exact HP | now apply Permutation_length]. }
  intros P (Q & ref & ->).
  destruct (canonicalizePolygon_shape Q ref)
    as [[Hlt ->] | (Hge & base & k & Hbase & Hk & ->)].
  - unfold canonicalizePolygon.
    destruct (Nat.ltb_spec (length Q) 3); [apply clonePolygon_id | lia].
  - set (S := sortPolygonByAngle Q) in *.
    set (P := rotatePolygon base k).
    assert (HS : length S = length Q) by apply sortPolygonByAngle_length.
    assert (Hbl : length base = length Q).
    { destruct Hbase as [<-|[<-|[]]]; [exact HS | now rewrite length_rev]. }
    assert (HP : length P = length Q)
      by (unfold P; now rewrite rotatePolygon_length).
    assert (HbS : Permutation base S).
    { destruct Hbase as [<-|[<-|[]]]; [reflexivity|].
      apply Permutation_sym, Permutation_rev. }
    assert (Hperm : Permutation P Q).
    { unfold P. rewrite rotatePolygon_perm, HbS. apply sortPolygonByAngle_perm. }
    assert (Hsort : sortPolygonByAngle P = S)
      by (apply sortPolygonByAngle_perm_eq; [lia | exact Hperm]).
    unfold canonicalizePolygon.
    destruct (Nat.ltb_spec (length P) 3); [lia|].
    rewrite firstn_all, Hsort, Nat.eqb_refl.
    unfold matchPolygonToReference.
    rewrite HS, HP, Nat.min_id.
    destruct (Nat.ltb_spec (length Q) 3); [lia|].
    rewrite <- HP, firstn_all, HP, <- HS, firstn_all, HS.
    unfold S at 1. rewrite sortPolygonByAngle_idem. fold S.
    assert (HinP : In P (matchCandidates (matchBases P S) (length Q))).
    { apply matchCandidates_in. exists base, k.
      split; [|split; [exact Hk | reflexivity]].
      apply matchBases_keeps; [exact Hbase|].
      unfold P. symmetry. apply polygonSignedArea_rotate. }
    destruct (pickBest_spec P (matchCandidates (matchBases P S) (length Q)))
      as (best & Hbest & Hin & Hmin).
    { intros E. rewrite E in HinP. contradiction. }
    rewrite Hbest, clonePolygon_id.
    rewrite Forall_forall in Hmin. specialize (Hmin P HinP).
    rewrite matchScore_refl in Hmin.
    pose proof (matchScore_nonneg best P) as Hnn.
    apply matchScore_zero; [|lra].
    apply matchCandidates_in in Hin. destruct Hin as (b' & k' & Hb' & _ & ->).
    rewrite rotatePolygon_length, HP.
    destruct (matchBases_incl P S) as [Hincl _].
    destruct (Hincl _ Hb') as [<-|[<-|[]]]; [exact HS | now rewrite length_rev].
Qed.

(** C7, counterexample. In binary64 the canonical form of [nearRayQuad]
    is not a fixed point. The centroid is summed in array order: that of
    [nearRayQuad] is [(3.5000000000000004, 3.6)], from where [(3.6, 5.3)]
    comes after [(3.7, 7)] by one unit in the last place of the angle;
    that of the canonical form is [(3.5, 3.6)], from where the two angles
    are equal and the squared radius puts [(3.6, 5.3)] first.
    Canonicalized against itself, the canonical form comes back with its
    second and third vertex exchanged, the second vertex more than 1.7
    pixels from where it was. *)
Lemma C7_counterexample_binary64 :
  let P := nearRayCanonical in
  let P' := canonicalizePolygon P (Some P) in
  isCanonical P
  /\ P = [ Pt (dec 63 10) (dec 7 10); Pt (dec 37 10) (ofZ 7);
           Pt (dec 36 10) (dec 53 10); Pt (dec 4 10) (dec 14 10) ]
  /\ P' = [ Pt (dec 63 10) (dec 7 10); Pt (dec 36 10) (dec 53 10);
            Pt (dec 37 10) (ofZ 7); Pt (dec 4 10) (dec 14 10) ]
  /\ (dec 17 10 <? pointDist (at_ P 1) (at_ P' 1))%num = true.
Proof.
  cbv zeta. split; [exists nearRayQuad, None; reflexivity|].
  split; [vm_compute; reflexivity|].
  split; vm_compute; reflexivity.
Qed.

(** ** Corner springs with a stationary target, over [R] *)

Lemma decayFactor_bounds (tau dt : R) :
  0 < dt -> 0 <= Corner.decayFactor tau dt < 1.
Proof.
  intros Hdt. unfold Corner.decayFactor.
  destruct (Rle_dec tau dt) as [Hle|Hgt]; [lra|].
  assert (Htau : 0 < tau) by lra.
  assert (Hs : 0 < 4 / tau * dt).
  { apply Rmult_lt_0_compat; [|exact Hdt].
    apply Rdiv_lt_0_compat; lra. }
  set (s := 4 / tau * dt) in *.
  pose proof (exp_pos (- s)) as Hc.
  pose proof (exp_ineq1 s ltac:(lra)) as He.
  assert (Hinv : Rtrigo_def.exp (- s) * Rtrigo_def.exp s = 1)
    by (rewrite <- exp_plus; replace (- s + s) with 0 by ring; apply exp_0).
  split; [apply Rmult_le_pos; lra|].
  rewrite <- Hinv at 2. rewrite (Rmult_comm (1 + s)).
  apply Rmult_lt_compat_l; lra.
Qed.

Lemma Rabs_le_inv (x b : R) : Rabs x <= b -> - b <= x <= b.
Proof. unfold Rabs. destruct (Rcase_abs x); lra. Qed.

Lemma Rmult_nonpos_nonneg (x y : R) : x <= 0 -> 0 <= y -> x * y <= 0.
Proof. intros. nra. Qed.

Lemma Rmult_nonneg_nonpos (x y : R) : 0 <= x -> y <= 0 -> x * y <= 0.
Proof. intros. nra. Qed.

(** One step of a settling spring: it stays settling, the offset shrinks
    by the decay factor at least, and the flag is raised only for an
    offset of 0.01 or more. *)
Lemma spring_step_settling (s : CritDamped1D.t R) (dt : R) :
  0 < dt ->
  Corner.axisSettling (4 / CritDamped1D.tau s) (CritDamped1D.pos s) (CritDamped1D.vel s) ->
  let s' := fst (CritDamped1D.step s dt) in
  CritDamped1D.tau s' = CritDamped1D.tau s
  /\ Corner.axisSettling (4 / CritDamped1D.tau s) (CritDamped1D.pos s') (CritDamped1D.vel s')
  /\ Rabs (CritDamped1D.pos s')
     <= Corner.decayFactor (CritDamped1D.tau s) dt * Rabs (CritDamped1D.pos s)
  /\ (snd (CritDamped1D.step s dt) = true -> 1 / 100 <= Rabs (CritDamped1D.pos s')).
Proof.
  intros Hdt Hset s'. subst s'.
  pose proof (decayFactor_bounds (CritDamped1D.tau s) dt Hdt) as Hrho.
  unfold CritDamped1D.step, CritDamped1D.reset, dec. at_R.
  assert (Hrest :
    Corner.axisSettling (4 / CritDamped1D.tau s) 0 0
    /\ Rabs 0 <= Corner.decayFactor (CritDamped1D.tau s) dt * Rabs (CritDamped1D.pos s)).
  { split; [left; lra|]. rewrite Rabs_R0.
    apply Rmult_le_pos; [lra | apply Rabs_pos]. }
  destruct (Rleb (CritDamped1D.tau s) dt) eqn:E1;
    [apply Rleb_true in E1 | apply Rleb_false in E1]; cbn [orb fst snd CritDamped1D.tau
      CritDamped1D.pos CritDamped1D.vel].
  { split; [reflexivity|]. split; [apply Hrest|]. split; [apply Hrest | discriminate]. }
  destruct (Rltb (Rabs (CritDamped1D.pos s)) (1 / 1000)) eqn:E2;
    [apply Rltb_true in E2 | apply Rltb_false in E2]; cbn [orb fst snd CritDamped1D.tau
      CritDamped1D.pos CritDamped1D.vel].
  { split; [reflexivity|]. split; [apply Hrest|]. split; [apply Hrest | discriminate]. }
  split; [reflexivity|].
  unfold Corner.decayFactor in *. destruct (Rle_dec (CritDamped1D.tau s) dt); [lra|].
  set (o := 4 / CritDamped1D.tau s) in *.
  set (a := CritDamped1D.pos s) in *. set (v := CritDamped1D.vel s) in *.
  assert (Ho : 0 < o) by (apply Rdiv_lt_0_compat; lra).
  replace (- o * dt) with (- (o * dt)) by ring.
  set (c := Rtrigo_def.exp (- (o * dt))) in *.
  assert (Hc : 0 < c) by apply exp_pos.
  assert (Hvel : c * (- a * o - (a * o + v) * dt * o + (a * o + v))
                 = c * (v - (a * o + v) * dt * o)) by ring.
  assert (Hu : c * (v - (a * o + v) * dt * o) + o * ((a + (a * o + v) * dt) * c)
               = c * (v + o * a)) by ring.
  rewrite Hvel.
  destruct Hset as [(Ha & Hv & Hb) | (Ha & Hv & Hb)].
  - assert (Hbd : 0 <= (a * o + v) * dt) by (apply Rmult_le_pos; lra).
    assert (Hvd : v * dt <= 0) by (apply Rmult_nonpos_nonneg; lra).
    assert (Hbdo : 0 <= (a * o + v) * dt * o) by (apply Rmult_le_pos; lra).
    assert (Hp : 0 <= (a + (a * o + v) * dt) * c).
    { apply Rmult_le_pos; lra. }
    assert (Hle : (a + (a * o + v) * dt) * c <= (1 + o * dt) * c * a).
    { replace ((1 + o * dt) * c * a) with ((a + a * o * dt) * c) by ring.
      apply Rmult_le_compat_r; [lra|]. lra. }
    split; [left; split; [exact Hp|]; split|].
    { apply Rle_trans with (c * 0); [|lra].
      apply Rmult_le_compat_l; lra. }
    { rewrite Hu. apply Rmult_le_pos; lra. }
    split.
    + rewrite (Rabs_pos_eq _ Hp), (Rabs_pos_eq a Ha). exact Hle.
    + intros Hm. now apply Rleb_true in Hm.
  - assert (Hbd : (a * o + v) * dt <= 0) by (apply Rmult_nonpos_nonneg; lra).
    assert (Hvd : 0 <= v * dt) by (apply Rmult_le_pos; lra).
    assert (Hbdo : (a * o + v) * dt * o <= 0) by (apply Rmult_nonpos_nonneg; lra).
    assert (Hp : (a + (a * o + v) * dt) * c <= 0).
    { apply Rmult_nonpos_nonneg; lra. }
    assert (Hle : - ((a + (a * o + v) * dt) * c) <= (1 + o * dt) * c * - a).
    { replace ((1 + o * dt) * c * - a) with (- (a + a * o * dt) * c) by ring.
      replace (- ((a + (a * o + v) * dt) * c)) with (- (a + (a * o + v) * dt) * c) by ring.
      apply Rmult_le_compat_r; [lra|]. lra. }
    split; [right; split; [exact Hp|]; split|].
    { apply Rle_trans with (c * 0); [lra|].
      apply Rmult_le_compat_l; lra. }
    { rewrite Hu. apply Rmult_nonneg_nonpos; lra. }
    split.
    + rewrite (Rabs_left1 _ Hp), (Rabs_left1 a Ha). exact Hle.
    + intros Hm. now apply Rleb_true in Hm.
Qed.

Section StationaryTarget.
Variable cfg : Config R.
Variables dt centerX centerY w h rankFactor : R.
Variable snapState : Corner.SnapState R.
Hypothesis dt_pos : 0 < dt.

Local Abbreviation tau := (Corner.tauOf cfg rankFactor snapState).
Local Abbreviation rho := (Corner.decayFactor tau dt).
Local Abbreviation destX c := (Point.x (Corner.getDest c centerX centerY w h)).
Local Abbreviation destY c := (Point.y (Corner.getDest c centerX centerY w h)).
Local Abbreviation tick c :=
  (Corner.update cfg c dt centerX centerY w h rankFactor snapState).

(** One call of [update] on a settling corner. *)
Lemma update_settling (c : Corner.t R) :
  Corner.settling cfg c centerX centerY w h rankFactor snapState ->
  let c' := fst (tick c) in
  Corner.settling cfg c' centerX centerY w h rankFactor snapState
  /\ Corner.rel c' = Corner.rel c
  /\ Rabs (Corner.cx c' - destX c) <= rho * Rabs (Corner.cx c - destX c)
  /\ Rabs (Corner.cy c' - destY c) <= rho * Rabs (Corner.cy c - destY c)
  /\ CritDamped1D.pos (Corner.sx c') = Corner.cx c' - destX c
  /\ CritDamped1D.pos (Corner.sy c') = Corner.cy c' - destY c
  /\ (snd (tick c) = true ->
      1 / 100 <= Rabs (CritDamped1D.pos (Corner.sx c'))
      \/ 1 / 100 <= Rabs (CritDamped1D.pos (Corner.sy c'))).
Proof.
  intros Hset c'. subst c'.
  pose proof (decayFactor_bounds tau dt dt_pos) as Hrho.
  unfold Corner.settling in Hset. cbv zeta in Hset.
  destruct Hset as (Hx & HSx & Hy & HSy).
  set (dX := destX c) in *. set (dY := destY c) in *.
  set (S := dynamics_maxTrailDistanceFactor cfg * Rmax w h) in *.
  assert (HS : 0 <= S) by (pose proof (Rabs_pos (Corner.cx c - dX)); lra).
  assert (H0 : Corner.axisSettling (4 / tau) 0 0) by (left; lra).
  assert (Hr : forall z, 0 <= rho * Rabs z)
    by (intros z; apply Rmult_le_pos; [lra | apply Rabs_pos]).
  assert (Hshape : forall c1 : Corner.t R,
            Corner.rel c1 = Corner.rel c ->
            Corner.axisSettling (4 / tau) (Corner.cx c1 - dX)
              (CritDamped1D.vel (Corner.sx c1)) ->
            Rabs (Corner.cx c1 - dX) <= S ->
            Corner.axisSettling (4 / tau) (Corner.cy c1 - dY)
              (CritDamped1D.vel (Corner.sy c1)) ->
            Rabs (Corner.cy c1 - dY) <= S ->
            Corner.settling cfg c1 centerX centerY w h rankFactor snapState).
  { intros c1 Hrel A1 A2 A3 A4. unfold Corner.settling. cbv zeta.
    unfold Corner.getDest. rewrite Hrel.
    fold (Corner.getDest c centerX centerY w h). fold dX. fold dY. fold S.
    auto. }
  unfold Corner.update. fold (Corner.getDest c centerX centerY w h).
  fold dX. fold dY. at_R. fold S.
  destruct (Rltb (Corner.pdx c) _).
  - (* first observation: snap to the destination *)
    cbn [fst snd Corner.rel Corner.cx Corner.cy Corner.sx Corner.sy
         CritDamped1D.reset CritDamped1D.pos CritDamped1D.vel].
    replace (dX - dX) with 0 by ring. replace (dY - dY) with 0 by ring.
    rewrite Rabs_R0.
    split.
    { apply Hshape;
        cbn [Corner.rel Corner.cx Corner.cy Corner.sx Corner.sy
             CritDamped1D.reset CritDamped1D.pos CritDamped1D.vel];
        try replace (dX - dX) with 0 by ring; try replace (dY - dY) with 0 by ring;
        rewrite ?Rabs_R0; auto. }
    repeat split; auto; discriminate.
  - set (sx2 := CritDamped1D.setTimeConstant
                  (CritDamped1D.setPos (Corner.sx c) (Corner.cx c - dX)) tau).
    set (sy2 := CritDamped1D.setTimeConstant
                  (CritDamped1D.setPos (Corner.sy c) (Corner.cy c - dY)) tau).
    pose proof (spring_step_settling sx2 dt dt_pos Hx) as Hsx.
    pose proof (spring_step_settling sy2 dt dt_pos Hy) as Hsy.
    cbv zeta in Hsx, Hsy.
    cbn [sx2 sy2 CritDamped1D.setTimeConstant CritDamped1D.setPos
         CritDamped1D.tau CritDamped1D.pos CritDamped1D.vel] in Hsx, Hsy.
    fold sx2 in Hsx. fold sy2 in Hsy.
    destruct (CritDamped1D.step sx2 dt) as [sx3 mx].
    destruct (CritDamped1D.step sy2 dt) as [sy3 my].
    cbn [fst snd] in *.
    destruct Hsx as (_ & Hx' & Hxle & Hmx). destruct Hsy as (_ & Hy' & Hyle & Hmy).
    assert (Hxb : Rabs (CritDamped1D.pos sx3) <= S).
    { apply Rle_trans with (rho * Rabs (Corner.cx c - dX)); [exact Hxle|].
      pose proof (Rabs_pos (Corner.cx c - dX)). nra. }
    assert (Hyb : Rabs (CritDamped1D.pos sy3) <= S).
    { apply Rle_trans with (rho * Rabs (Corner.cy c - dY)); [exact Hyle|].
      pose proof (Rabs_pos (Corner.cy c - dY)). nra. }
    rewrite (clamp_R_id (dX + CritDamped1D.pos sx3))
      by (apply Rabs_le_inv in Hxb; lra).
    rewrite (clamp_R_id (dY + CritDamped1D.pos sy3))
      by (apply Rabs_le_inv in Hyb; lra).
    cbn [Corner.rel Corner.cx Corner.cy Corner.sx Corner.sy].
    replace (dX + CritDamped1D.pos sx3 - dX) with (CritDamped1D.pos sx3) by ring.
    replace (dY + CritDamped1D.pos sy3 - dY) with (CritDamped1D.pos sy3) by ring.
    split.
    { apply Hshape;
        cbn [Corner.rel Corner.cx Corner.cy Corner.sx Corner.sy];
        try replace (dX + CritDamped1D.pos sx3 - dX) with (CritDamped1D.pos sx3) by ring;
        try replace (dY + CritDamped1D.pos sy3 - dY) with (CritDamped1D.pos sy3) by ring;
        auto. }
    repeat split; auto.
    intros Hm. apply orb_true_iff in Hm. destruct Hm as [Hm|Hm]; [left|right]; auto.
Qed.

(** After [n] calls the corner is still settling and both offsets have
    shrunk by [rho ^ n]. *)
Lemma ticks_settling (c : Corner.t R) (n : nat) :
  Corner.settling cfg c centerX centerY w h rankFactor snapState ->
  let c' := fst (Corner.ticks cfg n c dt centerX centerY w h rankFactor snapState) in
  Corner.settling cfg c' centerX centerY w h rankFactor snapState
  /\ Corner.rel c' = Corner.rel c
  /\ Rabs (Corner.cx c' - destX c) <= rho ^ n * Rabs (Corner.cx c - destX c)
  /\ Rabs (Corner.cy c' - destY c) <= rho ^ n * Rabs (Corner.cy c - destY c).
Proof.
  intros Hset. induction n as [|n IH]; cbn [Corner.ticks].
  - cbn [fst pow]. split; [exact Hset|]. split; [reflexivity|]. split; lra.
  - cbv zeta in IH |- *. destruct IH as (Hset' & Hrel & Hxn & Hyn).
    set (cn := fst (Corner.ticks cfg n c dt centerX centerY w h rankFactor snapState)) in *.
    destruct (update_settling cn Hset') as (Hs & Hr & Hx & Hy & _).
    assert (Hd : Corner.getDest cn centerX centerY w h
                 = Corner.getDest c centerX centerY w h)
      by (unfold Corner.getDest; now rewrite Hrel).
    rewrite Hd in Hx, Hy.
    pose proof (decayFactor_bounds tau dt dt_pos) as Hrho.
    split; [exact Hs|]. split; [congruence|].
    cbn [pow]. split.
    + apply Rle_trans with (rho * Rabs (Corner.cx cn - destX c)); [exact Hx|].
      rewrite Rmult_assoc. apply Rmult_le_compat_l; lra.
    + apply Rle_trans with (rho * Rabs (Corner.cy cn - destY c)); [exact Hy|].
      rewrite Rmult_assoc. apply Rmult_le_compat_l; lra.
Qed.
End StationaryTarget.

(** A step that does not snap keeps at least the fraction [1 - w dt] of a
    positive offset, when the spring is settling. *)
Lemma spring_step_lower (s : CritDamped1D.t R) (dt : R) :
  0 < dt -> dt < CritDamped1D.tau s ->
  0 <= CritDamped1D.vel s + 4 / CritDamped1D.tau s * CritDamped1D.pos s ->
  1 / 1000 <= CritDamped1D.pos s ->
  (1 - 4 / CritDamped1D.tau s * dt) * CritDamped1D.pos s
  <= CritDamped1D.pos (fst (CritDamped1D.step s dt))
  /\ (1 / 100 <= CritDamped1D.pos (fst (CritDamped1D.step s dt)) ->
      snd (CritDamped1D.step s dt) = true).
Proof.
  intros Hdt Htau Hb Ha.
  unfold CritDamped1D.step, dec. at_R.
  destruct (Rleb (CritDamped1D.tau s) dt) eqn:E1;
    [apply Rleb_true in E1; lra | clear E1].
  destruct (Rltb (Rabs (CritDamped1D.pos s)) (1 / 1000)) eqn:E2;
    [apply Rltb_true in E2; rewrite Rabs_pos_eq in E2; lra | clear E2].
  cbn [orb fst snd CritDamped1D.pos].
  set (o := 4 / CritDamped1D.tau s) in *.
  set (a := CritDamped1D.pos s) in *. set (v := CritDamped1D.vel s) in *.
  assert (Ho : 0 < o) by (apply Rdiv_lt_0_compat; lra).
  replace (- o * dt) with (- (o * dt)) by ring.
  assert (Hs : 0 < o * dt) by (apply Rmult_lt_0_compat; lra).
  pose proof (exp_ineq1 (- (o * dt)) ltac:(lra)) as Hc.
  set (c := Rtrigo_def.exp (- (o * dt))) in *.
  assert (Hc0 : 0 < c) by apply exp_pos.
  assert (Hbd : 0 <= (a * o + v) * dt) by (apply Rmult_le_pos; lra).
  assert (Hlow : (1 - o * dt) * a <= (a + (a * o + v) * dt) * c).
  { apply Rle_trans with (a * c).
    - rewrite (Rmult_comm _ a). apply Rmult_le_compat_l; lra.
    - apply Rmult_le_compat_r; lra. }
  split; [exact Hlow|].
  intros Hm. apply Rleb_true. rewrite Rabs_pos_eq; lra.
Qed.

Section StationaryTargetLower.
Variable cfg : Config R.
Variables dt centerX centerY w h rankFactor : R.
Variable snapState : Corner.SnapState R.
Hypothesis dt_pos : 0 < dt.

Local Abbreviation tau := (Corner.tauOf cfg rankFactor snapState).
Local Abbreviation destX c := (Point.x (Corner.getDest c centerX centerY w h)).
Local Abbreviation tick c :=
  (Corner.update cfg c dt centerX centerY w h rankFactor snapState).

(** A corner that is settling from a positive [x] offset, seen before, and
    whose step does not snap: the offset after [n] calls is at least
    [(1 - w dt)^n] times the first one, and as long as that bound is 0.01
    or more the last call reports moving. *)
Lemma ticks_lower (c : Corner.t R) (n : nat) :
  Corner.settling cfg c centerX centerY w h rankFactor snapState ->
  dt < tau -> 0 < 1 - 4 / tau * dt ->
  - 10000 <= Corner.pdx c -> - 10000 <= destX c ->
  1 / 100 <= (1 - 4 / tau * dt) ^ n * (Corner.cx c - destX c) ->
  let r := Corner.ticks cfg n c dt centerX centerY w h rankFactor snapState in
  (1 - 4 / tau * dt) ^ n * (Corner.cx c - destX c) <= Corner.cx (fst r) - destX c
  /\ - 10000 <= Corner.pdx (fst r)
  /\ ((0 < n)%nat ->
      snd r = true /\ CritDamped1D.pos (Corner.sx (fst r)) = Corner.cx (fst r) - destX c).
Proof.
  intros Hset Htau Hq Hpd Hd.
  set (q := 1 - 4 / tau * dt) in *.
  assert (Hq1 : q < 1).
  { assert (0 < 4 / tau * dt); [|unfold q; lra].
    apply Rmult_lt_0_compat; [apply Rdiv_lt_0_compat|]; lra. }
  induction n as [|n IH]; intros Hn r; subst r.
  - cbn [Corner.ticks fst snd pow]. split; [lra|]. split; [exact Hpd | lia].
  - assert (Ha0 : 0 <= Corner.cx c - destX c).
    { pose proof (pow_lt q (S n) Hq) as Hp.
      destruct (Rle_dec 0 (Corner.cx c - destX c)); [assumption|].
      exfalso. assert (q ^ S n * (Corner.cx c - destX c) <= 0)
        by (apply Rmult_nonneg_nonpos; lra). lra. }
    assert (Hn' : 1 / 100 <= q ^ n * (Corner.cx c - destX c)).
    { apply Rle_trans with (q ^ S n * (Corner.cx c - destX c)); [exact Hn|].
      cbn [pow]. pose proof (pow_lt q n Hq).
      apply Rmult_le_compat_r; [exact Ha0|].
      rewrite <- (Rmult_1_l (q ^ n)) at 2. apply Rmult_le_compat_r; lra. }
    specialize (IH Hn'). cbv zeta in IH. destruct IH as (Hlow & Hpdn & _).
    destruct (ticks_settling cfg dt centerX centerY w h rankFactor snapState dt_pos c n Hset)
      as (Hsetn & Hreln & _).
    cbn [Corner.ticks].
    set (cn := fst (Corner.ticks cfg n c dt centerX centerY w h rankFactor snapState)) in *.
    assert (Hdn : Corner.getDest cn centerX centerY w h
                  = Corner.getDest c centerX centerY w h)
      by (unfold Corner.getDest; now rewrite Hreln).
    unfold Corner.settling in Hsetn. cbv zeta in Hsetn. rewrite Hdn in Hsetn.
    destruct Hsetn as (Hx & HSx & Hy & HSy).
    set (dX := destX c) in *.
    unfold Corner.update. rewrite Hdn. fold dX. at_R.
    destruct (Rltb (Corner.pdx cn) _) eqn:E;
      [apply Rltb_true in E; lra | clear E].
    set (sx2 := CritDamped1D.setTimeConstant
                  (CritDamped1D.setPos (Corner.sx cn) (Corner.cx cn - dX)) tau).
    assert (Hb : 0 <= CritDamped1D.vel sx2
                      + 4 / CritDamped1D.tau sx2 * CritDamped1D.pos sx2).
    { cbn [sx2 CritDamped1D.setTimeConstant CritDamped1D.setPos
           CritDamped1D.tau CritDamped1D.pos CritDamped1D.vel].
      destruct Hx as [(? & ? & ?) | (? & ? & ?)]; [lra|].
      assert (Corner.cx cn - dX = 0) by lra. lra. }
    pose proof (spring_step_lower sx2 dt dt_pos) as Hlo.
    pose proof (spring_step_settling sx2 dt dt_pos) as Hst.
    cbv zeta in Hst.
    cbn [sx2 CritDamped1D.setTimeConstant CritDamped1D.setPos
         CritDamped1D.tau CritDamped1D.pos CritDamped1D.vel] in Hlo, Hst, Hb.
    fold sx2 in Hlo, Hst.
    specialize (Hlo Htau Hb ltac:(lra)). specialize (Hst Hx).
    destruct (CritDamped1D.step sx2 dt) as [sx3 mx].
    destruct (CritDamped1D.step _ dt) as [sy3 my].
    cbn [fst snd Corner.cx Corner.pdx Corner.sx] in *.
    destruct Hlo as (Hlo & Hflag). destruct Hst as (_ & _ & Hle & _).
    fold q in Hlo.
    pose proof (decayFactor_bounds tau dt dt_pos) as Hrho.
    assert (Hpos : q ^ S n * (Corner.cx c - dX) <= CritDamped1D.pos sx3).
    { apply Rle_trans with (q * (Corner.cx cn - dX)); [|exact Hlo].
      cbn [pow]. rewrite Rmult_assoc. apply Rmult_le_compat_l; lra. }
    assert (Hb3 : Rabs (CritDamped1D.pos sx3)
                  <= dynamics_maxTrailDistanceFactor cfg * Rmax w h).
    { apply Rle_trans with (Corner.decayFactor tau dt * Rabs (Corner.cx cn - dX));
        [exact Hle|].
      pose proof (Rabs_pos (Corner.cx cn - dX)). nra. }
    rewrite (clamp_R_id (dX + CritDamped1D.pos sx3))
      by (apply Rabs_le_inv in Hb3; lra).
    replace (dX + CritDamped1D.pos sx3 - dX) with (CritDamped1D.pos sx3) by ring.
    split; [exact Hpos|]. split; [lra|]. intros _.
    split; [|reflexivity]. rewrite Hflag; [reflexivity | lra].
Qed.
End StationaryTargetLower.

(** ** Any corner state: the step and the clamp as a contraction *)

Lemma Rabs_bound (z t : R) : - t <= z <= t -> Rabs z <= t.
Proof. intros H. apply Rabs_le. exact H. Qed.

(** One step of the critically damped spring followed by the stretch
    clamp, in exact arithmetic. *)
Lemma spring_clamp_contracts (p v o dt tau c M kappa : R) :
  0 < dt < tau -> o * tau = 4 -> 0 < c <= kappa -> c * (1 + o * dt) <= 1 ->
  3 / 5 <= kappa < 1 -> 0 <= M -> Rabs p <= M ->
  let b := p * o + v in
  let pos' := (p + b * dt) * c in
  let vel' := c * (- p * o - b * dt * o + b) in
  let q := Rmin (Rmax pos' (- M)) M in
  Rabs q <= M
  /\ Rabs q <= kappa * (Rabs p + tau * Rabs b)
  /\ Rabs (q * o + vel') <= kappa * Rabs b.
Proof.
  intros Hdt Ho Hc Hcx Hk HM Hp b pos' vel' q.
  assert (Hopos : 0 < o) by nra.
  set (x := o * dt) in *.
  assert (Hx : 0 < x < 4) by (unfold x; nra).
  assert (Hc1 : c * (x - 1) <= kappa) by nra.
  assert (Hid : pos' * o + vel' = c * b) by (unfold pos', vel'; ring).
  apply Rabs_le_inv in Hp.
  assert (Hpc : - M <= p * c <= M) by nra.
  assert (Hpos' : pos' = p * c + b * dt * c) by (unfold pos'; ring).
  assert (HposAbs : Rabs pos' <= kappa * (Rabs p + tau * Rabs b)).
  { unfold pos'. rewrite Rabs_mult, (Rabs_pos_eq c) by lra.
    assert (Rabs (p + b * dt) <= Rabs p + tau * Rabs b).
    { eapply Rle_trans; [apply Rabs_triang|].
      rewrite Rabs_mult, (Rabs_pos_eq dt) by lra.
      pose proof (Rabs_pos b). nra. }
    pose proof (Rabs_pos (p + b * dt)). pose proof (Rabs_pos p). pose proof (Rabs_pos b).
    nra. }
  assert (Hq : (q = pos' /\ - M <= pos' <= M)
               \/ (q = M /\ M < pos') \/ (q = - M /\ pos' < - M)).
  { unfold q, Rmin, Rmax.
    destruct (Rle_dec pos' (- M)) as [H1|H1]; destruct (Rle_dec _ M) as [H2|H2].
    - destruct (Req_dec pos' (- M)); [left; lra | right; right; lra].
    - exfalso. lra.
    - left. lra.
    - right. left. lra. }
  split; [|split].
  - apply Rabs_bound. destruct Hq as [[-> ?]|[[-> ?]|[-> ?]]]; lra.
  - eapply Rle_trans; [|exact HposAbs].
    destruct Hq as [[-> ?]|[[-> ?]|[-> ?]]].
    + lra.
    + rewrite (Rabs_pos_eq M), (Rabs_pos_eq pos') by lra. lra.
    + rewrite Rabs_Ropp, (Rabs_pos_eq M) by lra.
      rewrite (Rabs_left pos') by lra. lra.
  - destruct Hq as [[-> ?]|[[-> Hhi]|[-> Hlo]]].
    + rewrite Hid, Rabs_mult, (Rabs_pos_eq c) by lra.
      pose proof (Rabs_pos b). nra.
    + assert (Hdc : 0 < dt * c) by nra.
      assert (Hb : 0 < b).
      { destruct (Rlt_dec 0 b) as [?|Hn]; [assumption|].
        assert (b * (dt * c) <= 0) by nra. lra. }
      assert (Hexc : 0 <= (pos' - M) * o <= c * b * x).
      { split; [nra|]. unfold x.
        assert (pos' - M <= b * dt * c) by lra. nra. }
      replace (M * o + vel') with (c * b - (pos' - M) * o) by lra.
      rewrite (Rabs_pos_eq b) by lra.
      apply Rabs_bound. split; [|nra].
      assert (c * b * (x - 1) <= kappa * b) by nra. nra.
    + assert (Hdc : 0 < dt * c) by nra.
      assert (Hb : b < 0).
      { destruct (Rlt_dec b 0) as [?|Hn]; [assumption|].
        assert (0 <= b * (dt * c)) by nra. lra. }
      assert (Hexc : 0 <= (- M - pos') * o <= c * (- b) * x).
      { split; [nra|]. unfold x.
        assert (- M - pos' <= - b * dt * c) by lra. nra. }
      replace (- M * o + vel') with (c * b + (- M - pos') * o) by lra.
      rewrite (Rabs_left b) by lra.
      apply Rabs_bound. split; [nra|].
      assert (c * (- b) * (x - 1) <= kappa * (- b)) by nra. nra.
Qed.

Lemma clamp_shift (d u M : R) :
  clamp (d + u) (d - M) (d + M) - d = Rmin (Rmax u (- M)) M.
Proof.
  unfold clamp. at_R. unfold Rmin, Rmax.
  repeat destruct (Rle_dec _ _); lra.
Qed.

Lemma clamp_zero (M : R) : 0 <= M -> Rmin (Rmax 0 (- M)) M = 0.
Proof. intros HM. unfold Rmin, Rmax. repeat destruct (Rle_dec _ _); lra. Qed.

Lemma clamped_inside (u M : R) : 0 <= M -> Rabs (Rmin (Rmax u (- M)) M) <= M.
Proof.
  intros HM. apply Rabs_le. unfold Rmin, Rmax. repeat destruct (Rle_dec _ _); lra.
Qed.

(** The two outcomes of a spring step. *)
Lemma step_cases (p v tau dt : R) :
  let r := CritDamped1D.step
             {| CritDamped1D.pos := p; CritDamped1D.vel := v; CritDamped1D.tau := tau |}
             dt in
  ((tau <= dt \/ Rabs p < 1 / 1000)
   /\ CritDamped1D.pos (fst r) = 0 /\ CritDamped1D.vel (fst r) = 0 /\ snd r = false)
  \/ (dt < tau /\ 1 / 1000 <= Rabs p
      /\ CritDamped1D.pos (fst r)
         = (p + (p * (4 / tau) + v) * dt) * Rtrigo_def.exp (- (4 / tau) * dt)
      /\ CritDamped1D.vel (fst r)
         = Rtrigo_def.exp (- (4 / tau) * dt)
           * (- p * (4 / tau) - (p * (4 / tau) + v) * dt * (4 / tau)
              + (p * (4 / tau) + v))).
Proof.
  intros r. unfold r, CritDamped1D.step. cbn [CritDamped1D.pos CritDamped1D.vel CritDamped1D.tau].
  unfold dec. at_R.
  destruct (Rleb tau dt) eqn:E1; [apply Rleb_true in E1|apply Rleb_false in E1].
  - left. cbn [orb fst snd CritDamped1D.reset CritDamped1D.pos CritDamped1D.vel].
    at_R. repeat split; auto.
  - destruct (Rltb (Rabs p) (1 / 1000)) eqn:E2;
      [apply Rltb_true in E2|apply Rltb_false in E2]; cbn [orb].
    + left. cbn [fst snd CritDamped1D.reset CritDamped1D.pos CritDamped1D.vel].
      at_R. repeat split; auto.
    + right. cbn [fst snd CritDamped1D.pos CritDamped1D.vel].
      repeat split; auto; lra.
Qed.

Lemma run_snoc (cfg : Config R) (frames : list (R * R * Corner.SnapState R))
      (dt rankFactor : R) (snapState : Corner.SnapState R)
      (c : Corner.t R) (centerX centerY w h : R) :
  Corner.run cfg (frames ++ [(dt, rankFactor, snapState)]) c centerX centerY w h
  = Corner.update cfg (fst (Corner.run cfg frames c centerX centerY w h))
                  dt centerX centerY w h rankFactor snapState.
Proof. unfold Corner.run. rewrite fold_left_app. reflexivity. Qed.

Section StationaryTargetAnyState.

Variable cfg : Config R.
Variables centerX centerY w h : R.

Local Abbreviation M := (dynamics_maxTrailDistanceFactor cfg * Rmax w h).
Local Abbreviation destX c := (Point.x (Corner.getDest c centerX centerY w h)).
Local Abbreviation destY c := (Point.y (Corner.getDest c centerX centerY w h)).
Local Abbreviation offX c := (Corner.cx c - destX c).
Local Abbreviation offY c := (Corner.cy c - destY c).
Local Abbreviation springX c tau :=
  {| CritDamped1D.pos := offX c; CritDamped1D.vel := CritDamped1D.vel (Corner.sx c);
     CritDamped1D.tau := tau |}.
Local Abbreviation springY c tau :=
  {| CritDamped1D.pos := offY c; CritDamped1D.vel := CritDamped1D.vel (Corner.sy c);
     CritDamped1D.tau := tau |}.

(** What [update] does, axis by axis: either the corner is seen for the
    first time and put on its destination, or each axis takes a spring
    step from its offset and is clamped. *)
Lemma update_cases (c : Corner.t R) (dt rankFactor : R) (snapState : Corner.SnapState R) :
  let r := Corner.update cfg c dt centerX centerY w h rankFactor snapState in
  let tau := Corner.tauOf cfg rankFactor snapState in
  Corner.rel (fst r) = Corner.rel c
  /\ ((offX (fst r) = 0 /\ offY (fst r) = 0
       /\ CritDamped1D.pos (Corner.sx (fst r)) = 0
       /\ CritDamped1D.vel (Corner.sx (fst r)) = 0
       /\ CritDamped1D.pos (Corner.sy (fst r)) = 0
       /\ CritDamped1D.vel (Corner.sy (fst r)) = 0
       /\ snd r = false)
      \/ (Corner.sx (fst r) = fst (CritDamped1D.step (springX c tau) dt)
          /\ Corner.sy (fst r) = fst (CritDamped1D.step (springY c tau) dt)
          /\ offX (fst r)
             = Rmin (Rmax (CritDamped1D.pos (fst (CritDamped1D.step (springX c tau) dt)))
                          (- M)) M
          /\ offY (fst r)
             = Rmin (Rmax (CritDamped1D.pos (fst (CritDamped1D.step (springY c tau) dt)))
                          (- M)) M
          /\ snd r = snd (CritDamped1D.step (springX c tau) dt)
                     || snd (CritDamped1D.step (springY c tau) dt))).
Proof.
  intros r tau. unfold r, Corner.update.
  destruct (Corner.pdx c <? - ofZ 10000)%num.
  - cbn [fst snd Corner.rel Corner.cx Corner.cy Corner.sx Corner.sy Corner.getDest
         CritDamped1D.reset CritDamped1D.pos CritDamped1D.vel Point.x Point.y].
    split; [reflexivity|]. left. at_R. repeat split; try reflexivity; lra.
  - fold tau.
    unfold CritDamped1D.setTimeConstant, CritDamped1D.setPos.
    cbn [CritDamped1D.pos CritDamped1D.vel CritDamped1D.tau].
    change (Corner.cx c - Point.x (Corner.getDest c centerX centerY w h))%num
      with (offX c).
    change (Corner.cy c - Point.y (Corner.getDest c centerX centerY w h))%num
      with (offY c).
    destruct (CritDamped1D.step (springX c tau) dt) as [sx3 mx].
    destruct (CritDamped1D.step (springY c tau) dt) as [sy3 my].
    cbn [fst snd Corner.rel Corner.cx Corner.cy Corner.sx Corner.sy Corner.getDest
         Point.x Point.y].
    split; [reflexivity|]. right. at_R.
    repeat split; try reflexivity; apply clamp_shift.
Qed.

Hypothesis stretch_nonneg : 0 <= M.

(** After any call the corner is inside the stretch clamp. *)
Lemma update_inside (c : Corner.t R) (dt rankFactor : R) (snapState : Corner.SnapState R) :
  let c' := fst (Corner.update cfg c dt centerX centerY w h rankFactor snapState) in
  Rabs (offX c') <= M /\ Rabs (offY c') <= M.
Proof.
  cbv zeta.
  pose proof (update_cases c dt rankFactor snapState) as H. cbv zeta in H.
  destruct H as (_ & [(Hx & Hy & _) | (_ & _ & Hx & Hy & _)]); rewrite Hx, Hy.
  - rewrite Rabs_R0. split; exact stretch_nonneg.
  - split; apply clamped_inside; exact stretch_nonneg.
Qed.

(** A call that snaps ([tau <= dt]) or finds both offsets under 0.001
    puts the corner on its destination, at rest, and returns false. *)
Lemma update_rests (c : Corner.t R) (dt rankFactor : R) (snapState : Corner.SnapState R) :
  Corner.tauOf cfg rankFactor snapState <= dt
  \/ (Rabs (offX c) < 1 / 1000 /\ Rabs (offY c) < 1 / 1000) ->
  let r := Corner.update cfg c dt centerX centerY w h rankFactor snapState in
  CritDamped1D.pos (Corner.sx (fst r)) = 0
  /\ CritDamped1D.pos (Corner.sy (fst r)) = 0
  /\ snd r = false
  /\ offX (fst r) = 0 /\ offY (fst r) = 0
  /\ CritDamped1D.vel (Corner.sx (fst r)) = 0
  /\ CritDamped1D.vel (Corner.sy (fst r)) = 0.
Proof.
  intros Hrest. cbv zeta.
  pose proof (update_cases c dt rankFactor snapState) as H. cbv zeta in H.
  destruct H as (_ & [(Hx & Hy & Hpx & Hvx & Hpy & Hvy & Hf)
                     | (Esx & Esy & Hx & Hy & Hf)]).
  - repeat split; assumption.
  - set (tau := Corner.tauOf cfg rankFactor snapState) in *.
    pose proof (step_cases (offX c) (CritDamped1D.vel (Corner.sx c)) tau dt) as Sx.
    pose proof (step_cases (offY c) (CritDamped1D.vel (Corner.sy c)) tau dt) as Sy.
    cbv zeta in Sx, Sy.
    destruct Sx as [(_ & Px & Vx & Fx) | (Hlt & Hge & _)];
      [|exfalso; destruct Hrest as [?|[? ?]]; lra].
    destruct Sy as [(_ & Py & Vy & Fy) | (Hlt & Hge & _)];
      [|exfalso; destruct Hrest as [?|[? ?]]; lra].
    rewrite Esx, Esy, Hx, Hy, Hf, Px, Py, Vx, Vy, Fx, Fy.
    rewrite clamp_zero by exact stretch_nonneg. repeat split; reflexivity.
Qed.

Section PositiveTimeConstant.

Variables tau dtMin : R.
Hypothesis tau_pos : 0 < tau.
Hypothesis dtMin_pos : 0 < dtMin.

Local Abbreviation kappa := (Rmax (Rtrigo_def.exp (- (4 / tau) * dtMin)) (3 / 5)).
Local Abbreviation lam := ((1 + kappa) / 2).
Local Abbreviation D := (2 * kappa * tau / (1 - kappa)).
Local Abbreviation pot off vel := (Rabs off + D * Rabs (off * (4 / tau) + vel)).
Local Abbreviation potX c := (pot (offX c) (CritDamped1D.vel (Corner.sx c))).
Local Abbreviation potY c := (pot (offY c) (CritDamped1D.vel (Corner.sy c))).

Lemma kappa_bounds : 3 / 5 <= kappa < 1.
Proof.
  split; [apply Rmax_r|]. apply Rmax_lub_lt; [|lra].
  rewrite <- exp_0. apply exp_increasing.
  assert (0 < 4 / tau) by (apply Rdiv_lt_0_compat; lra). nra.
Qed.

Lemma D_nonneg : 0 <= D.
Proof.
  pose proof kappa_bounds.
  apply Rmult_le_pos; [nra|]. left. apply Rinv_0_lt_compat. lra.
Qed.

Lemma pot_nonneg (off vel : R) : 0 <= pot off vel.
Proof.
  pose proof D_nonneg. pose proof (Rabs_pos off).
  pose proof (Rabs_pos (off * (4 / tau) + vel)). nra.
Qed.

Lemma pot_bounds_offset (off vel : R) : Rabs off <= pot off vel.
Proof.
  pose proof D_nonneg. pose proof (Rabs_pos (off * (4 / tau) + vel)). nra.
Qed.

(** One spring step and the clamp shrink the potential of an axis by the
    factor [lam] at least. *)
Lemma axis_contracts (p v dt : R) :
  dtMin <= dt -> Rabs p <= M ->
  let s' := fst (CritDamped1D.step
                   {| CritDamped1D.pos := p; CritDamped1D.vel := v;
                      CritDamped1D.tau := tau |} dt) in
  pot (Rmin (Rmax (CritDamped1D.pos s') (- M)) M) (CritDamped1D.vel s')
  <= lam * pot p v.
Proof.
  intros Hdt Hp. cbv zeta.
  pose proof kappa_bounds as Hk. pose proof D_nonneg as HD.
  pose proof (pot_nonneg p v) as Hpot.
  pose proof (step_cases p v tau dt) as H. cbv zeta in H.
  destruct H as [(_ & Ep & Ev & _) | (Hlt & _ & Ep & Ev)]; rewrite Ep, Ev.
  - rewrite clamp_zero by exact stretch_nonneg.
    rewrite Rmult_0_l, Rplus_0_l, Rabs_R0. nra.
  - assert (Ho : 4 / tau * tau = 4) by (field; lra).
    assert (Hopos : 0 < 4 / tau) by (apply Rdiv_lt_0_compat; lra).
    assert (Hc : 0 < Rtrigo_def.exp (- (4 / tau) * dt) <= kappa).
    { split; [apply exp_pos|].
      eapply Rle_trans; [|apply Rmax_l].
      destruct (Rle_lt_or_eq_dec dtMin dt Hdt) as [Hlt'|Heq].
      - left. apply exp_increasing. nra.
      - right. rewrite <- Heq. reflexivity. }
    assert (Hcx : Rtrigo_def.exp (- (4 / tau) * dt) * (1 + 4 / tau * dt) <= 1).
    { pose proof (exp_ineq1_le (4 / tau * dt)) as H1.
      assert (H2 : Rtrigo_def.exp (- (4 / tau) * dt) * Rtrigo_def.exp (4 / tau * dt) = 1).
      { rewrite <- exp_plus.
        replace (- (4 / tau) * dt + 4 / tau * dt) with 0 by ring. apply exp_0. }
      pose proof (exp_pos (- (4 / tau) * dt)) as H3. nra. }
    assert (HDk : D * (1 - kappa) = 2 * kappa * tau) by (field; lra).
    set (k := kappa) in *. clearbody k.
    set (c := Rtrigo_def.exp (- (4 / tau) * dt)) in *. clearbody c.
    set (o := 4 / tau) in *. clearbody o.
    destruct (spring_clamp_contracts p v o dt tau c M k
                ltac:(lra) Ho Hc Hcx Hk stretch_nonneg Hp) as (_ & Hq & Hb).
    cbv zeta in Hq, Hb.
    set (q := Rmin (Rmax ((p + (p * o + v) * dt) * c) (- M)) M) in *.
    set (vel' := c * (- p * o - (p * o + v) * dt * o + (p * o + v))) in *.
    pose proof (Rabs_pos p). pose proof (Rabs_pos (p * o + v)).
    pose proof (Rabs_pos q). pose proof (Rabs_pos (q * o + vel')).
    set (Dv := 2 * k * tau / (1 - k)) in *. clearbody Dv.
    nra.
Qed.

(** The same for a call of [update] on a corner inside the clamp. *)
Lemma update_contracts (c : Corner.t R) (dt rankFactor : R)
      (snapState : Corner.SnapState R) :
  Corner.tauOf cfg rankFactor snapState = tau -> dtMin <= dt ->
  Rabs (offX c) <= M -> Rabs (offY c) <= M ->
  let c' := fst (Corner.update cfg c dt centerX centerY w h rankFactor snapState) in
  potX c' <= lam * potX c /\ potY c' <= lam * potY c.
Proof.
  intros Htau Hdt Hx Hy. cbv zeta.
  pose proof kappa_bounds as Hk.
  pose proof (update_cases c dt rankFactor snapState) as H. cbv zeta in H.
  destruct H as (_ & [(Ex & Ey & _ & Vx & _ & Vy & _) | (Esx & Esy & Ex & Ey & _)]).
  - rewrite Ex, Ey, Vx, Vy.
    rewrite !Rmult_0_l, !Rplus_0_l, !Rabs_R0.
    pose proof (pot_nonneg (offX c) (CritDamped1D.vel (Corner.sx c))).
    pose proof (pot_nonneg (offY c) (CritDamped1D.vel (Corner.sy c))).
    split; nra.
  - rewrite Htau in *. rewrite Ex, Ey, Esx, Esy.
    split; apply axis_contracts; assumption.
Qed.

Variable c : Corner.t R.
Variable before : list (R * R * Corner.SnapState R).
Variables dt rankFactor : nat -> R.
Variable snapState : nat -> Corner.SnapState R.
Hypothesis dt_lower : forall k, dtMin <= dt k.
Hypothesis tau_constant : forall k, Corner.tauOf cfg (rankFactor k) (snapState k) = tau.

Local Abbreviation after n :=
  (Corner.run cfg
     (before ++ map (fun k => (dt k, rankFactor k, snapState k)) (seq 0 n))
     c centerX centerY w h).

Lemma after_S (n : nat) :
  after (S n)
  = Corner.update cfg (fst (after n)) (dt n) centerX centerY w h
                  (rankFactor n) (snapState n).
Proof. rewrite seq_S, map_app, app_assoc. cbn [map Nat.add]. apply run_snoc. Qed.

(** From the second frame on the potentials of both axes shrink by the
    factor [lam] per frame. *)
Lemma after_potential (m : nat) :
  (Rabs (offX (fst (after (S m)))) <= M /\ Rabs (offY (fst (after (S m)))) <= M)
  /\ potX (fst (after (S m))) <= lam ^ m * potX (fst (after 1))
  /\ potY (fst (after (S m))) <= lam ^ m * potY (fst (after 1)).
Proof.
  pose proof kappa_bounds as Hk.
  induction m as [|m (Hin & IHx & IHy)].
  - split; [rewrite after_S; apply update_inside|].
    cbn [pow]. split; lra.
  - split; [rewrite (after_S (S m)); apply update_inside|].
    destruct Hin as [Hx Hy].
    pose proof (update_contracts (fst (after (S m))) (dt (S m)) (rankFactor (S m))
                  (snapState (S m)) (tau_constant (S m)) (dt_lower (S m)) Hx Hy) as H.
    cbv zeta in H. rewrite <- (after_S (S m)) in H. destruct H as [Cx Cy].
    cbn [pow]. split.
    + apply Rle_trans with (lam * potX (fst (after (S m)))); [exact Cx|].
      apply Rle_trans with (lam * (lam ^ m * potX (fst (after 1))));
        [apply Rmult_le_compat_l; [lra | exact IHx] | right; ring].
    + apply Rle_trans with (lam * potY (fst (after (S m)))); [exact Cy|].
      apply Rle_trans with (lam * (lam ^ m * potY (fst (after 1))));
        [apply Rmult_le_compat_l; [lra | exact IHy] | right; ring].
Qed.

Lemma tail_settles :
  exists N : nat,
    forall n : nat, (N <= n)%nat ->
      Rabs (CritDamped1D.pos (Corner.sx (fst (after n)))) < 1 / 100
      /\ Rabs (CritDamped1D.pos (Corner.sy (fst (after n)))) < 1 / 100
      /\ snd (after n) = false.
Proof.
  pose proof kappa_bounds as Hk.
  set (X := potX (fst (after 1))). set (Y := potY (fst (after 1))).
  assert (HX : 0 <= X) by apply pot_nonneg.
  assert (HY : 0 <= Y) by apply pot_nonneg.
  destruct (pow_lt_1_zero lam) with (y := 1 / 1000 / (X + Y + 1)) as [K HK].
  { rewrite Rabs_pos_eq; lra. }
  { apply Rdiv_lt_0_compat; lra. }
  exists (S (S K)). intros [|[|m]] Hn; try lia.
  assert (Hm : (m >= K)%nat) by lia.
  specialize (HK m Hm). rewrite Rabs_pos_eq in HK by (apply pow_le; lra).
  destruct (after_potential m) as (_ & Px & Py). fold X Y in Px, Py.
  assert (Hp : 0 <= lam ^ m) by (apply pow_le; lra).
  assert (Hfrac : 1 / 1000 / (X + Y + 1) * (X + Y + 1) = 1 / 1000) by (field; lra).
  assert (Hsmall : lam ^ m * X < 1 / 1000 /\ lam ^ m * Y < 1 / 1000).
  { split.
    - apply Rle_lt_trans with (lam ^ m * (X + Y + 1)).
      + apply Rmult_le_compat_l; lra.
      + rewrite <- Hfrac. apply Rmult_lt_compat_r; lra.
    - apply Rle_lt_trans with (lam ^ m * (X + Y + 1)).
      + apply Rmult_le_compat_l; lra.
      + rewrite <- Hfrac. apply Rmult_lt_compat_r; lra. }
  pose proof (pot_bounds_offset (offX (fst (after (S m))))
                (CritDamped1D.vel (Corner.sx (fst (after (S m)))))) as Bx.
  pose proof (pot_bounds_offset (offY (fst (after (S m))))
                (CritDamped1D.vel (Corner.sy (fst (after (S m)))))) as By.
  rewrite (after_S (S m)).
  pose proof (update_rests (fst (after (S m))) (dt (S m)) (rankFactor (S m))
                (snapState (S m))) as H.
  cbv zeta in H. destruct H as (Hpx & Hpy & Hf & _).
  { right. split; lra. }
  rewrite Hpx, Hpy, Hf, Rabs_R0. repeat split; lra.
Qed.

End PositiveTimeConstant.

(** C8, as the code has it. Take a corner in any state (any position, any
    spring velocities), a target rectangle whose stretch limit is not
    negative, and any frames already run with it. If from then on the
    rectangle stays where it is, the frame times stay above some positive
    bound and the time constant stays the same (as it does on frames
    without a motion event), the corner comes to rest after some number
    of further calls of [update]: from then on both spring offsets are
    below 0.01 in magnitude (they are zero) and the returned flag is
    false. The number depends on the state, on the frame times and on the
    time constant; it is not bounded by 10. *)
Theorem C8_corner_settles_eventually :
  forall (c : Corner.t R) (before : list (R * R * Corner.SnapState R))
         (dt rankFactor : nat -> R) (snapState : nat -> Corner.SnapState R)
         (dtMin : R),
    0 < dtMin ->
    (forall k, dtMin <= dt k) ->
    (forall k, Corner.tauOf cfg (rankFactor k) (snapState k)
               = Corner.tauOf cfg (rankFactor 0%nat) (snapState 0%nat)) ->
    exists N : nat,
      forall n : nat, (N <= n)%nat ->
        let r := Corner.run cfg
                   (before ++ map (fun k => (dt k, rankFactor k, snapState k)) (seq 0 n))
                   c centerX centerY w h in
        Rabs (CritDamped1D.pos (Corner.sx (fst r))) < 1 / 100
        /\ Rabs (CritDamped1D.pos (Corner.sy (fst r))) < 1 / 100
        /\ snd r = false.
Proof.
  intros c before dt rankFactor snapState dtMin HdtMin Hdt Htau.
  set (tau := Corner.tauOf cfg (rankFactor 0%nat) (snapState 0%nat)) in *.
  destruct (Rlt_dec 0 tau) as [Hpos|Hneg].
  - exact (tail_settles tau dtMin Hpos HdtMin c before dt rankFactor snapState
             Hdt Htau).
  - exists 1%nat. intros [|m] Hn; [lia|]. cbv zeta.
    rewrite seq_S, map_app, app_assoc. cbn [map Nat.add]. rewrite run_snoc.
    pose proof (update_rests
                  (fst (Corner.run cfg
                          (before ++ map (fun k => (dt k, rankFactor k, snapState k))
                                         (seq 0 m))
                          c centerX centerY w h))
                  (dt m) (rankFactor m) (snapState m)) as H.
    cbv zeta in H. destruct H as (Hpx & Hpy & Hf & _).
    { left. rewrite Htau. specialize (Hdt m). lra. }
    rewrite Hpx, Hpy, Hf, Rabs_R0. repeat split; lra.
Qed.

End StationaryTargetAnyState.

Lemma tauOf_trailing : Corner.tauOf CFG (8 / 10) Corner.trailingAtRest = 1 / 5.
Proof.
  unfold Corner.tauOf, Corner.snaps. cbn. unfold dec. at_R.
  rewrite Rmax_right; lra.
Qed.

Lemma displacedCorner_settling :
  Corner.settling CFG Corner.displacedCorner 0 0 8 18 (8 / 10) Corner.trailingAtRest.
Proof.
  unfold Corner.settling. cbv zeta. rewrite tauOf_trailing.
  cbn. unfold dec. at_R.
  replace (0 + - (1 / 2) * 8) with (- 4) by lra.
  replace (0 + - (1 / 2) * 18) with (- 9) by lra.
  replace (96 - - 4) with 100 by lra. replace (- 9 - - 9) with 0 by lra.
  rewrite Rabs_R0, (Rabs_pos_eq 100) by lra.
  rewrite (Rmax_right 8 18) by lra.
  split; [left; lra|]. split; [lra|]. split; [left; lra | lra].
Qed.

(** The claim as the specification states it fails: at 16 ms per frame the
    trailing corner ([tau = 0.2 s]), displaced by 100 px and released at
    rest, is still more than 1 px away after 10 ticks, and the tenth tick
    reports moving. *)
Lemma C8_counterexample_ten_ticks :
  Corner.settling CFG Corner.displacedCorner 0 0 8 18 (8 / 10) Corner.trailingAtRest
  /\ snd (Corner.ticks CFG 10 Corner.displacedCorner (16 / 1000) 0 0 8 18 (8 / 10)
            Corner.trailingAtRest) = true
  /\ 1 <= Rabs (CritDamped1D.pos
                  (Corner.sx
                     (fst (Corner.ticks CFG 10 Corner.displacedCorner (16 / 1000)
                             0 0 8 18 (8 / 10) Corner.trailingAtRest)))).
Proof.
  split; [exact displacedCorner_settling|].
  assert (Hdest : Point.x (Corner.getDest Corner.displacedCorner 0 0 8 18) = - 4)
    by (cbn; at_R; lra).
  assert (Hoff : Corner.cx Corner.displacedCorner
                 - Point.x (Corner.getDest Corner.displacedCorner 0 0 8 18) = 100)
    by (rewrite Hdest; cbn; lra).
  assert (Hq : 1 - 4 / Corner.tauOf CFG (8 / 10) Corner.trailingAtRest * (16 / 1000)
               = 68 / 100)
    by (rewrite tauOf_trailing; lra).
  pose proof (ticks_lower CFG (16 / 1000) 0 0 8 18 (8 / 10) Corner.trailingAtRest
                ltac:(lra) Corner.displacedCorner 10 displacedCorner_settling) as H.
  rewrite Hq, Hoff in H. rewrite tauOf_trailing, Hdest in H.
  assert (Hpow : 2 <= (68 / 100) ^ 10 * 100) by (cbn [pow]; lra).
  specialize (H ltac:(lra) ltac:(lra) ltac:(cbn; lra) ltac:(lra) ltac:(lra)).
  cbv zeta in H. destruct H as (Hlow & _ & Hflag).
  destruct (Hflag ltac:(lia)) as [Hm Hpos].
  split; [exact Hm|]. rewrite Hpos, Rabs_pos_eq; lra.
Qed.

(** The same corner does come to rest, later; here after a first frame
    on which it was the leading corner of a long move (time constant
    0.05 s), followed by frames without motion (time constant 0.2 s). *)
Lemma C8_witness_displaced_corner :
  0 <= dynamics_maxTrailDistanceFactor CFG * Rmax 8 18
  /\ 0 < 16 / 1000
  /\ Corner.tauOf CFG (2 / 10) {| Corner.useShort := false; Corner.leadingness := 1 |}
     = 5 / 100
  /\ Corner.tauOf CFG (8 / 10) Corner.trailingAtRest = 1 / 5
  /\ exists N : nat,
       forall n : nat, (N <= n)%nat ->
         let r := Corner.run CFG
                    ([(16 / 1000, 2 / 10,
                       {| Corner.useShort := false; Corner.leadingness := 1 |})]
                     ++ map (fun _ : nat => (16 / 1000, 8 / 10, Corner.trailingAtRest))
                            (seq 0 n))
                    Corner.displacedCorner 0 0 8 18 in
         Rabs (CritDamped1D.pos (Corner.sx (fst r))) < 1 / 100
         /\ Rabs (CritDamped1D.pos (Corner.sy (fst r))) < 1 / 100
         /\ snd r = false.
Proof.
  assert (HM : 0 <= dynamics_maxTrailDistanceFactor CFG * Rmax 8 18).
  { cbn [dynamics_maxTrailDistanceFactor CFG]. at_R.
    rewrite (Rmax_right 8 18) by lra. lra. }
  assert (Hdt : 0 < 16 / 1000) by lra.
  split; [exact HM|]. split; [exact Hdt|].
  split.
  { unfold Corner.tauOf, Corner.snaps. cbn. unfold dec. at_R.
    rewrite Rmax_right; lra. }
  split; [exact tauOf_trailing|].
  apply (C8_corner_settles_eventually CFG 0 0 8 18 HM Corner.displacedCorner
           [(16 / 1000, 2 / 10,
             {| Corner.useShort := false; Corner.leadingness := 1 |})]
           (fun _ => 16 / 1000) (fun _ => 8 / 10) (fun _ => Corner.trailingAtRest)
           (16 / 1000) Hdt).
  - intros k. lra.
  - intros k. reflexivity.
Defined.

(** ** The trail scenario: a 10 by 20 caret rectangle, over [R] *)

Lemma hypot_axis_x (a : R) : hypot a 0 = Rabs a.
Proof.
  at_R. replace (a * a + 0 * 0) with (Rsqr a) by (unfold Rsqr; ring).
  apply sqrt_Rsqr_abs.
Qed.

Lemma hypot_axis_y (a : R) : hypot 0 a = Rabs a.
Proof.
  at_R. replace (0 * 0 + a * a) with (Rsqr a) by (unfold Rsqr; ring).
  apply sqrt_Rsqr_abs.
Qed.

Lemma hypot_ge_abs_x (a b : R) : Rabs a <= hypot a b.
Proof.
  rewrite <- hypot_axis_x. at_R. apply sqrt_le_1_alt.
  pose proof (Rle_0_sqr b) as Hb. unfold Rsqr in Hb. lra.
Qed.

Lemma hypot_nonneg (a b : R) : 0 <= hypot a b.
Proof. at_R. apply sqrt_pos. Qed.

Lemma polygonCenter_rectAt (x : R) : polygonCenter (rectAt x) = caretAt x.
Proof.
  unfold polygonCenter, rectAt, caretAt. run_lists. at_R. f_equal; field.
Qed.

Lemma segmentsIntersect_same_side (a b c d : Point.t R) (eps : R) :
  0 <= eps ->
  eps < orient2 a b c -> eps < orient2 a b d ->
  eps < orient2 c d a -> eps < orient2 c d b ->
  segmentsIntersect a b c d eps = false.
Proof.
  intros He H1 H2 H3 H4. unfold segmentsIntersect. at_R.
  set (o1 := orient2 a b c) in *. set (o2 := orient2 a b d) in *.
  set (o3 := orient2 c d a) in *. set (o4 := orient2 c d b) in *.
  assert (E1 : Rltb o2 (- eps) = false) by (apply Rltb_false; lra).
  assert (E2 : Rltb o1 (- eps) = false) by (apply Rltb_false; lra).
  assert (A1 : Rleb (Rabs o1) eps = false)
    by (apply Rleb_false; rewrite Rabs_pos_eq; lra).
  assert (A2 : Rleb (Rabs o2) eps = false)
    by (apply Rleb_false; rewrite Rabs_pos_eq; lra).
  assert (A3 : Rleb (Rabs o3) eps = false)
    by (apply Rleb_false; rewrite Rabs_pos_eq; lra).
  assert (A4 : Rleb (Rabs o4) eps = false)
    by (apply Rleb_false; rewrite Rabs_pos_eq; lra).
  rewrite E1, E2, A1, A2, A3, A4.
  cbn [andb orb]. now rewrite !andb_false_r.
Qed.

Lemma valid_rectAt (x : R) : isValidTrailPolygon (rectAt x) = true.
Proof.
  unfold isValidTrailPolygon, isSelfIntersectingPolygon, rectAt. run_lists.
  rewrite !segmentsIntersect_same_side;
    try reflexivity; unfold orient2, eps6, dec; cbn [Point.x Point.y]; at_R; lra.
Qed.

Lemma Ratan2_right (dy dx : R) : 0 < dx -> Ratan2 dy dx = atan (dy / dx).
Proof. intros H. unfold Ratan2. destruct (Rlt_dec 0 dx); [reflexivity | lra]. Qed.

Lemma Ratan2_left_up (dy dx : R) :
  dx < 0 -> 0 <= dy -> Ratan2 dy dx = atan (dy / dx) + PI.
Proof.
  intros Hx Hy. unfold Ratan2.
  destruct (Rlt_dec 0 dx); [lra|]. destruct (Rlt_dec dx 0); [|lra].
  destruct (Rle_dec 0 dy); [reflexivity | lra].
Qed.

Lemma Ratan2_left_down (dy dx : R) :
  dx < 0 -> dy < 0 -> Ratan2 dy dx = atan (dy / dx) - PI.
Proof.
  intros Hx Hy. unfold Ratan2.
  destruct (Rlt_dec 0 dx); [lra|]. destruct (Rlt_dec dx 0); [|lra].
  destruct (Rle_dec 0 dy); [lra | reflexivity].
Qed.

Lemma atan_2_bounds : 0 < atan 2 < PI / 2.
Proof.
  split; [|apply atan_bound].
  rewrite <- atan_0. apply atan_increasing. lra.
Qed.

(** The angle keys of the four corners increase in the corner order. *)
Lemma angles_rectAt (x : R) :
  let c := caretAt x in
  k_a (keyOf c (Pt x 0)) = atan 2 - PI
  /\ k_a (keyOf c (Pt (x + 10) 0)) = - atan 2
  /\ k_a (keyOf c (Pt (x + 10) 20)) = atan 2
  /\ k_a (keyOf c (Pt x 20)) = - atan 2 + PI.
Proof.
  unfold keyOf, caretAt. cbn [k_a Point.x Point.y]. at_R.
  replace (x - (x + 5)) with (- 5) by ring.
  replace (x + 10 - (x + 5)) with 5 by ring.
  replace (0 - 10) with (- 10) by ring. replace (20 - 10) with 10 by ring.
  rewrite (Ratan2_left_down (- 10) (- 5)), (Ratan2_left_up 10 (- 5)),
    (Ratan2_right (- 10) 5), (Ratan2_right 10 5) by lra.
  replace (- 10 / - 5) with 2 by field.
  replace (- 10 / 5) with (- (2)) by field.
  replace (10 / 5) with 2 by field.
  replace (10 / - 5) with (- (2)) by field.
  rewrite atan_opp. repeat split; reflexivity.
Qed.

Lemma notBefore_by_angle (a b : Keyed (A := R)) :
  k_a a < k_a b -> notBefore angleCmp a b.
Proof.
  intros Hab. unfold notBefore. at_R. apply Rltb_false.
  destruct (Rle_dec 0 (angleCmp b a)) as [|Hn]; [assumption|].
  exfalso. assert (Hlt : angleCmp b a < 0) by lra.
  apply angleCmp_lt in Hlt. unfold keyLt in Hlt. lra.
Qed.

Lemma sortPolygonByAngle_rectAt (x : R) :
  sortPolygonByAngle (rectAt x) = rectAt x.
Proof.
  unfold sortPolygonByAngle.
  change (length (rectAt x) <? 3)%nat with false. cbv iota.
  rewrite polygonCenter_rectAt.
  rewrite sortBy_sorted_id.
  - apply map_k_p_keyOf.
  - apply angleCmp_asym.
  - apply angleCmp_trans.
  - apply angleCmp_total.
  - destruct (angles_rectAt x) as (A0 & A1 & A2 & A3).
    pose proof atan_2_bounds as Ht.
    unfold rectAt. cbn [map]. at_R.
    repeat constructor; apply notBefore_by_angle; rewrite ?A0, ?A1, ?A2, ?A3; lra.
Qed.

Lemma sign_pos (a : R) : 0 < a -> sign a = 1.
Proof.
  intros Ha. unfold sign. at_R.
  destruct (Rltb 0 a) eqn:E; [reflexivity|]. apply Rltb_false in E. lra.
Qed.

Lemma sign_neg (a : R) : a < 0 -> sign a = -1.
Proof.
  intros Ha. unfold sign. at_R.
  destruct (Rltb 0 a) eqn:E; [apply Rltb_true in E; lra|].
  destruct (Rltb a 0) eqn:E'; [reflexivity|]. apply Rltb_false in E'. lra.
Qed.

Lemma polygonSignedArea_rectAt (x : R) : polygonSignedArea (rectAt x) = 200.
Proof.
  unfold polygonSignedArea, rectAt. run_lists. unfold dec. at_R. field.
Qed.

Lemma polygonSignedArea_rev_rectAt (x : R) :
  polygonSignedArea (rev (rectAt x)) = - 200.
Proof.
  unfold polygonSignedArea, rectAt. run_lists. unfold dec. at_R. field.
Qed.

Lemma rotateToTopLeftStart_rectAt (x : R) :
  rotateToTopLeftStart (rectAt x) = rectAt x.
Proof.
  unfold rotateToTopLeftStart, rectAt. run_lists. at_R.
  assert (E1 : Rltb 0 0 = false) by (apply Rltb_false; lra).
  assert (E2 : Rltb (x + 10) x = false) by (apply Rltb_false; lra).
  assert (E3 : Rltb 20 0 = false) by (apply Rltb_false; lra).
  assert (E4 : Reqb 20 0 = false) by (apply Reqb_false; lra).
  repeat (first [rewrite E1 | rewrite E2 | rewrite E3 | rewrite E4
                 | rewrite andb_false_r];
          cbn [andb orb]; run_lists).
  unfold rotatePolygon. run_lists. reflexivity.
Qed.

Lemma matchBases_rectAt (x x' : R) :
  matchBases (rectAt x') (rectAt x) = [rectAt x].
Proof.
  unfold matchBases.
  rewrite polygonSignedArea_rectAt, (sign_pos 200) by lra. at_R.
  assert (E0 : Reqb 1 0 = false) by (apply Reqb_false; lra).
  rewrite E0. cbn [negb filter].
  rewrite polygonSignedArea_rectAt, polygonSignedArea_rev_rectAt.
  rewrite (sign_pos 200), (sign_neg (- 200)) by lra. at_R.
  assert (E1 : Reqb 1 1 = true) by (now apply Reqb_true).
  assert (E2 : Reqb (- 1) 1 = false) by (apply Reqb_false; lra).
  now rewrite E1, E2.
Qed.

Lemma abs_spread (d : R) : 2 * Rabs d <= Rabs (d + 10) + Rabs (d - 10).
Proof. unfold Rabs. repeat destruct (Rcase_abs _); lra. Qed.

(** Against a reference rectangle of the same shape, shifted along [x],
    the correspondence that keeps the corner order is never beaten. *)
Lemma pickBest_rectAt (x x' : R) :
  fst (pickBest (rectAt x') (matchCandidates [rectAt x] 4)) = Some (rectAt x).
Proof.
  unfold pickBest, matchCandidates, rotatePolygon, rectAt. run_lists.
  unfold matchScore, pointDist. run_lists. cbn [ltInf]. at_R.
  set (d := x - x').
  replace (x + 10 - (x' + 10)) with d by (unfold d; ring).
  replace (x + 10 - x') with (d + 10) by (unfold d; ring).
  replace (x - (x' + 10)) with (d - 10) by (unfold d; ring).
  replace (0 - 0) with 0 by ring. replace (20 - 20) with 0 by ring.
  replace (20 - 0) with 20 by ring. replace (0 - 20) with (- (20)) by ring.
  change (R_sqrt.sqrt (d * d + 0 * 0)) with (hypot d 0).
  change (R_sqrt.sqrt ((d + 10) * (d + 10) + 0 * 0)) with (hypot (d + 10) 0).
  change (R_sqrt.sqrt ((d - 10) * (d - 10) + 0 * 0)) with (hypot (d - 10) 0).
  change (R_sqrt.sqrt (d * d + 20 * 20)) with (hypot d 20).
  change (R_sqrt.sqrt (d * d + - (20) * - (20))) with (hypot d (- (20))).
  change (R_sqrt.sqrt ((d + 10) * (d + 10) + 20 * 20)) with (hypot (d + 10) 20).
  change (R_sqrt.sqrt ((d - 10) * (d - 10) + 20 * 20)) with (hypot (d - 10) 20).
  change (R_sqrt.sqrt ((d + 10) * (d + 10) + - (20) * - (20)))
    with (hypot (d + 10) (- (20))).
  change (R_sqrt.sqrt ((d - 10) * (d - 10) + - (20) * - (20)))
    with (hypot (d - 10) (- (20))).
  rewrite !hypot_axis_x.
  pose proof (abs_spread d) as Hs.
  pose proof (hypot_ge_abs_x d 20) as H1.
  pose proof (hypot_ge_abs_x d (- (20))) as H2.
  pose proof (hypot_ge_abs_x (d + 10) 20) as H3.
  pose proof (hypot_ge_abs_x (d - 10) 20) as H4.
  pose proof (hypot_ge_abs_x (d + 10) (- (20))) as H5.
  pose proof (hypot_ge_abs_x (d - 10) (- (20))) as H6.
  repeat (cbn [ltInf snd fst]; at_R;
          match goal with
          | |- context [Rltb ?a ?b] =>
              let E := fresh "E" in
              destruct (Rltb a b) eqn:E;
              [apply Rltb_true in E; exfalso; lra | clear E]
          end).
  reflexivity.
Qed.

Lemma matchPolygonToReference_rectAt (x x' : R) :
  matchPolygonToReference (rectAt x) (rectAt x') = rectAt x.
Proof.
  unfold matchPolygonToReference.
  change (Nat.min (length (rectAt x)) (length (rectAt x'))) with 4%nat.
  change (4 <? 3)%nat with false. cbv iota.
  change (firstn 4 (rectAt x')) with (rectAt x').
  change (firstn 4 (rectAt x)) with (rectAt x).
  rewrite sortPolygonByAngle_rectAt, matchBases_rectAt, pickBest_rectAt.
  apply clonePolygon_id.
Qed.

Lemma canonicalizePolygon_rectAt (x x' : R) :
  canonicalizePolygon (rectAt x) (Some (rectAt x')) = rectAt x.
Proof.
  unfold canonicalizePolygon.
  change (length (rectAt x)) with 4%nat. change (4 <? 3)%nat with false. cbv iota.
  change (firstn 4 (rectAt x)) with (rectAt x).
  change (length (rectAt x') =? 4)%nat with true. cbv iota.
  rewrite sortPolygonByAngle_rectAt. apply matchPolygonToReference_rectAt.
Qed.

Lemma canonicalizePolygon_rectAt_first (x : R) :
  canonicalizePolygon (rectAt x) None = rectAt x.
Proof.
  unfold canonicalizePolygon.
  change (length (rectAt x)) with 4%nat. change (4 <? 3)%nat with false. cbv iota.
  change (firstn 4 (rectAt x)) with (rectAt x).
  rewrite sortPolygonByAngle_rectAt. apply rotateToTopLeftStart_rectAt.
Qed.

Lemma leadIndex_range {A : Type} `{Num A} (pts : Polygon A) (tp : Point.t A) :
  In (leadIndex pts tp) (0%nat :: seq 0 (length pts)).
Proof.
  unfold leadIndex.
  generalize (seq 0 (length pts)) as l. generalize (@None A) as best.
  generalize 0%nat as i0.
  intros i0 best l. revert i0 best.
  induction l as [|i l IH]; intros i0 best; cbn [fold_left].
  - now left.
  - match goal with |- context [if ?c then _ else _] => destruct c end.
    + right. apply IH.
    + destruct (IH i0 best) as [E|E]; [left; exact E | right; right; exact E].
Qed.

Lemma pointDist_vertical (a b c : R) : pointDist (Pt a b) (Pt a c) = Rabs (b - c).
Proof.
  unfold pointDist. cbn [Point.x Point.y].
  replace (@sub R _ a a) with 0 by (at_R; ring). apply hypot_axis_y.
Qed.

Lemma pointDist_horizontal (a b c : R) : pointDist (Pt a b) (Pt c b) = Rabs (a - c).
Proof.
  unfold pointDist. cbn [Point.x Point.y].
  replace (@sub R _ b b) with 0 by (at_R; ring). apply hypot_axis_x.
Qed.

(** The leading-axis correction leaves an axis-aligned rectangle alone,
    whichever corner is nearest the target. *)
Lemma enforceLeadingAxisCorner_rectAt (x : R) (tp : Point.t R) :
  enforceLeadingAxisCorner (rectAt x) (Some tp) = rectAt x.
Proof.
  unfold enforceLeadingAxisCorner.
  change (length (rectAt x)) with 4%nat. change (4 <? 4)%nat with false. cbv iota.
  pose proof (leadIndex_range (rectAt x) tp) as Hin.
  change (length (rectAt x)) with 4%nat in Hin.
  assert (Hz : forall a : R, Rabs (a - a) = 0)
    by (intros a; replace (a - a) with 0 by ring; apply Rabs_R0).
  assert (H20 : Rabs (0 - 20) = 20) by (rewrite Rabs_left; lra).
  assert (H20' : Rabs (20 - 0) = 20) by (rewrite Rabs_pos_eq; lra).
  assert (H10 : Rabs (x - (x + 10)) = 10) by (rewrite Rabs_left; lra).
  assert (H10' : Rabs (x + 10 - x) = 10) by (rewrite Rabs_pos_eq; lra).
  assert (Et : Rleb (0 + 0) (20 + 10) = true) by (apply Rleb_true; lra).
  assert (Et' : Rleb (0 + 0) (10 + 20) = true) by (apply Rleb_true; lra).
  assert (Ef : Rleb (20 + 10) (0 + 0) = false) by (apply Rleb_false; lra).
  assert (Ef' : Rleb (10 + 20) (0 + 0) = false) by (apply Rleb_false; lra).
  pose proof (valid_rectAt x) as Hv.
  cbn [In seq] in Hin. rewrite !clonePolygon_id.
  destruct Hin as [<-|[<-|[<-|[<-|[<-|[]]]]]];
    unfold rectAt in Hv |- *;
    run_lists; rewrite ?pointDist_refl, ?pointDist_vertical, ?pointDist_horizontal;
    at_R; rewrite ?Hz, ?H20, ?H20', ?H10, ?H10', ?Et, ?Et', ?Ef, ?Ef';
    rewrite Hv; reflexivity.
Qed.

Lemma lerpPolygon_rectAt (a b t : R) :
  lerpPolygon (rectAt a) (rectAt b) t = rectAt (a + (b - a) * t).
Proof.
  unfold lerpPolygon, rectAt, lerpPoint, lerp. run_lists. at_R.
  repeat (f_equal; try ring).
Qed.

Lemma sampleOf_rectAt (t x : R) :
  sampleOf t (rectAt x) = TrailSample.mk t (x + 5) 10 (rectAt x).
Proof. unfold sampleOf. rewrite polygonCenter_rectAt. reflexivity. Qed.

Lemma preparePolygon_rectAt_first (x : R) (tp : Point.t R) :
  preparePolygon CFG None (rectAt x) (Some tp) = rectAt x.
Proof.
  unfold preparePolygon. cfg_values. cbn [option_map].
  rewrite clonePolygon_id, canonicalizePolygon_rectAt_first.
  apply enforceLeadingAxisCorner_rectAt.
Qed.

Lemma preparePolygon_rectAt (t x x' : R) (tp : Point.t R) :
  preparePolygon CFG (Some (sampleOf t (rectAt x'))) (rectAt x) (Some tp) = rectAt x.
Proof.
  unfold preparePolygon. cfg_values. cbn [option_map].
  rewrite sampleOf_rectAt. cbn [TrailSample.pts].
  rewrite clonePolygon_id, canonicalizePolygon_rectAt.
  apply enforceLeadingAxisCorner_rectAt.
Qed.

Lemma orElse_R_nonzero (a b : R) : a <> 0 -> orElse a b = a.
Proof. apply orElse_nonzero. Qed.

Lemma clampPointStep_within (from to : Point.t R) (maxStep : R) :
  0 < maxStep ->
  hypot (Point.x to - Point.x from) (Point.y to - Point.y from) <= maxStep ->
  clampPointStep from to maxStep = to.
Proof.
  intros Hm Hd. unfold clampPointStep. at_R.
  destruct (Rltb 0 maxStep) eqn:E; [|apply Rltb_false in E; lra]. cbn [negb].
  destruct (Rleb _ maxStep) eqn:E'; [|apply Rleb_false in E'; at_R; lra].
  cbn [orb]. now destruct to.
Qed.

Lemma clamp_R_unit (v : R) : 0 <= clamp v 0 1 <= 1.
Proof. apply clamp_R_bounds. lra. Qed.

Lemma smoothPolygon_rectAt (t x x' : R) (tp : Point.t R) :
  smoothPolygon CFG (sampleOf t (rectAt x')) (rectAt x) (Some tp)
  = rectAt (x + (x' - x) * (32 / 100 * (1 - clamp (Rabs (x - x') / 64) 0 1))).
Proof.
  unfold smoothPolygon. rewrite sampleOf_rectAt, polygonCenter_rectAt.
  cbn [TrailSample.pts TrailSample.cx TrailSample.cy]. cfg_values.
  change (length (rectAt x') =? length (rectAt x))%nat with true. cbn [andb].
  rewrite canonicalizePolygon_rectAt.
  change (length (rectAt x') =? length (rectAt x))%nat with true.
  unfold caretAt. cbn [Point.x Point.y]. at_R.
  replace (R_sqrt.sqrt ((x + 5 - (x' + 5)) * (x + 5 - (x' + 5)) + (10 - 10) * (10 - 10)))
    with (Rabs (x - x')).
  2:{ rewrite <- hypot_axis_x. at_R. f_equal. ring. }
  rewrite !orElse_R_nonzero by lra.
  rewrite (clamp_R_id (32 / 100)) by lra.
  replace (Rmax (1 / 10000) 64) with 64 by (symmetry; apply Rmax_right; lra).
  replace (Rmax 0 4) with 4 by (symmetry; apply Rmax_right; lra).
  pose proof (clamp_R_unit (Rabs (x - x') / 64)) as Hr.
  set (s := 32 / 100 * (1 - clamp (Rabs (x - x') / 64) 0 1)) in *.
  assert (Hs : 0 <= s <= 32 / 100) by (unfold s; lra).
  assert (Hl : (if Rltb 0 s && true
                then lerpPolygon (rectAt x) (rectAt x') s else rectAt x)
               = rectAt (x + (x' - x) * s)).
  { destruct (Rltb 0 s) eqn:E; cbn [andb].
    - apply lerpPolygon_rectAt.
    - apply Rltb_false in E. f_equal. replace s with 0 by lra. ring. }
  rewrite Hl.
  change (length (rectAt x') =? length (rectAt (x + (x' - x) * s)%R))%nat with true.
  replace (Rltb 0 8) with true by (symmetry; apply Rltb_true; lra).
  cbn [andb].
  set (y := x + (x' - x) * s) in *.
  assert (Hd : Rabs (y - x') <= Rabs (x - x')).
  { replace (y - x') with ((x - x') * (1 - s)) by (unfold y; ring).
    rewrite Rabs_mult, (Rabs_pos_eq (1 - s)) by lra.
    pose proof (Rabs_pos (x - x')). nra. }
  assert (Hc : map (fun lp : Point.t R * Point.t R =>
                      clampPointStep (fst lp) (snd lp) (8 + 4 * Rabs (x - x')))
                   (combine (rectAt x') (rectAt y)) = rectAt y).
  { pose proof (Rabs_pos (x - x')) as Hp.
    unfold rectAt. run_lists. at_R.
    rewrite !clampPointStep_within; try reflexivity; try lra;
      cbn [Point.x Point.y]; at_R.
    all: match goal with
         | |- R_sqrt.sqrt (?a * ?a + ?b * ?b) <= _ =>
             replace b with 0 by ring;
             change (R_sqrt.sqrt (a * a + 0 * 0)) with (@hypot R _ _ a 0);
             rewrite hypot_axis_x
         end.
    all: try (replace (y + 10 - (x' + 10)) with (y - x') by ring); lra. }
  rewrite Hc.
  change (length (rectAt x') =? length (rectAt y))%nat with true.
  rewrite canonicalizePolygon_rectAt.
  apply enforceLeadingAxisCorner_rectAt.
Qed.

Lemma perimeter_rectAt (x : R) : perimeter (rectAt x) = 60.
Proof.
  unfold perimeter, rectAt. run_lists. at_R.
  rewrite !pointDist_horizontal, !pointDist_vertical.
  replace (x - (x + 10)) with (- (10)) by ring.
  replace (x + 10 - x) with 10 by ring.
  replace (0 - 20) with (- (20)) by ring.
  replace (20 - 0) with 20 by ring.
  rewrite !Rabs_Ropp, !Rabs_pos_eq by lra. ring.
Qed.

Lemma interpMetric_rectAt (t x x' : R) :
  interpMetric (sampleOf t (rectAt x')) (rectAt x) = Rabs (x - x').
Proof.
  unfold interpMetric. rewrite sampleOf_rectAt, polygonCenter_rectAt.
  cbn [TrailSample.pts TrailSample.cx TrailSample.cy].
  rewrite !perimeter_rectAt.
  unfold maxCornerDelta, avgCornerDelta, rectAt, caretAt. run_lists.
  cbn [Point.x Point.y].
  rewrite !pointDist_horizontal. unfold dec. at_R.
  replace (x' + 10 - (x + 10)) with (x' - x) by ring.
  replace (x + 5 - (x' + 5)) with (x - x') by ring.
  replace (10 - 10) with 0 by ring.
  change (R_sqrt.sqrt ((x - x') * (x - x') + 0 * 0)) with (@hypot R _ _ (x - x') 0).
  rewrite hypot_axis_x.
  replace (60 - 60) with 0 by ring. rewrite Rabs_R0.
  rewrite (Rabs_minus_sym x' x).
  pose proof (Rabs_pos (x - x')) as Hp.
  set (d := Rabs (x - x')) in *.
  rewrite (Rmax_right 0 d) by lra. rewrite !(Rmax_left d d) by lra.
  replace ((0 + d + d + d + d) / 4) with d by field.
  rewrite !(Rmax_left d d) by lra. apply Rmax_left. lra.
Qed.


Lemma smoothPolygon_rectAt_same (t x : R) (tp : Point.t R) :
  smoothPolygon CFG (sampleOf t (rectAt x)) (rectAt x) (Some tp) = rectAt x.
Proof. rewrite smoothPolygon_rectAt. f_equal. ring. Qed.


Lemma round_R_eq (k : Z) (a : R) :
  IZR k - 1 / 2 <= a < IZR k + 1 / 2 -> round a = IZR k.
Proof.
  intros Ha. unfold round, floor, dec. at_R. f_equal. apply Zfloor_eq. lra.
Qed.






Lemma restingTrail_R :
  restingTrail (A := R)
  = {| trail := [sampleOf 0 (rectAt 0)];
       lastPushed := Some (sampleOf 0 (rectAt 0)) |}.
Proof.
  unfold restingTrail, pushTrailPolygon, emptyTrail. cbn [lastPushed trail].
  at_R. rewrite preparePolygon_rectAt_first, valid_rectAt. reflexivity.
Qed.






Lemma jitterTrail_R : jitterTrail (A := R) = restingTrail.
Proof.
  unfold jitterTrail. rewrite restingTrail_R.
  unfold pushTrailPolygon. cbn [lastPushed trail]. at_R.
  rewrite preparePolygon_rectAt, valid_rectAt, smoothPolygon_rectAt_same.
  rewrite valid_rectAt, interpMetric_rectAt.
  change (length (rectAt 0) <? 3)%nat with false. cbn [negb].
  replace (Rltb (Rabs (0 - 0)) (moveThreshold CFG)) with true; [reflexivity|].
  symmetry. apply Rltb_true. unfold moveThreshold. cfg_values.
  rewrite Rminus_0_r, Rabs_R0, Rmax_left; lra.
Qed.






(** The caret rectangle is canonical and is a fixed point of the
    canonicalization against itself. *)
Lemma C7_witness_caret_rectangle :
  isCanonical (rectAt 0)
  /\ canonicalizePolygon (rectAt 0) (Some (rectAt 0)) = rectAt 0.
Proof.
  assert (Hc : isCanonical (rectAt 0)).
  { exists (rectAt 0), None. symmetry. apply canonicalizePolygon_rectAt_first. }
  split; [exact Hc | exact (proj2 C7_canonicalization_idempotent (rectAt 0) Hc)].
Defined.

(** A push of the rectangle that is already the last one stored is below
    the minimum-motion threshold and leaves the store as it was. *)
Lemma C10_witness_subpixel_jitter :
  lastPushed restingTrail = Some (sampleOf 0 (rectAt 0))
  /\ interpMetric (sampleOf 0 (rectAt 0)) (rectAt 0) = 0
  /\ jitterTrail (A := R) = restingTrail.
Proof.
  assert (HL : lastPushed restingTrail = Some (sampleOf 0 (rectAt 0)))
    by now rewrite restingTrail_R.
  assert (Hi : interpMetric (sampleOf 0 (rectAt 0)) (rectAt 0) = 0)
    by (rewrite interpMetric_rectAt, Rminus_0_r; apply Rabs_R0).
  split; [exact HL|]. split; [exact Hi|].
  apply (C10_rejected_push_is_atomic R _ _ CFG restingTrail (rectAt 0)
           (Some (caretAt 0)) 16 1).
  right. right. exists (sampleOf 0 (rectAt 0)). split; [exact HL|].
  cbv zeta. right. rewrite HL, preparePolygon_rectAt, smoothPolygon_rectAt_same, Hi.
  at_R. apply Rltb_true. unfold moveThreshold. cfg_values.
  rewrite Rmax_left; lra.
Defined.

(** ** Adjacent cells of the hex path, over [R] *)

Lemma fold_Rmin_le {T} (f : T -> R) (l : list T) (m : R) :
  fold_left (fun m q => Rmin m (f q)) l m <= m
  /\ forall q, In q l -> fold_left (fun m q => Rmin m (f q)) l m <= f q.
Proof.
  revert m. induction l as [|a l IH]; intros m; cbn [fold_left].
  - split; [lra | intros q []].
  - destruct (IH (Rmin m (f a))) as [H1 H2].
    pose proof (Rmin_l m (f a)). pose proof (Rmin_r m (f a)).
    split; [lra|]. intros q [<-|Hq]; [lra | now apply H2].
Qed.

Lemma fold_Rmax_ge {T} (f : T -> R) (l : list T) (m : R) :
  m <= fold_left (fun m q => Rmax m (f q)) l m
  /\ forall q, In q l -> f q <= fold_left (fun m q => Rmax m (f q)) l m.
Proof.
  revert m. induction l as [|a l IH]; intros m; cbn [fold_left].
  - split; [lra | intros q []].
  - destruct (IH (Rmax m (f a))) as [H1 H2].
    pose proof (Rmax_l m (f a)). pose proof (Rmax_r m (f a)).
    split; [lra|]. intros q [<-|Hq]; [lra | now apply H2].
Qed.

(** The bounding box of a polygon contains its vertices. *)
Lemma aabbFromPolygon_contains (pts : Polygon R) (p : Point.t R) :
  In p pts ->
  exists box, aabbFromPolygon pts = Some box
              /\ minX box <= Point.x p <= maxX box
              /\ minY box <= Point.y p <= maxY box.
Proof.
  destruct pts as [|q rest]; [intros []|]. intros Hin.
  eexists. split; [reflexivity|]. cbn [minX maxX minY maxY]. at_R.
  destruct (fold_Rmin_le (@Point.x R) rest (Point.x q)) as [X1 X2].
  destruct (fold_Rmax_ge (@Point.x R) rest (Point.x q)) as [X3 X4].
  destruct (fold_Rmin_le (@Point.y R) rest (Point.y q)) as [Y1 Y2].
  destruct (fold_Rmax_ge (@Point.y R) rest (Point.y q)) as [Y3 Y4].
  destruct Hin as [<-|Hin].
  - repeat split; assumption.
  - repeat split; auto.
Qed.

(** An edge and the same edge reversed intersect, by the collinear case
    of [segmentsIntersect]. *)
Lemma segmentsIntersect_shared_edge (p q : Point.t R) (eps : R) :
  0 <= eps -> segmentsIntersect p q q p eps = true.
Proof.
  intros He. unfold segmentsIntersect.
  assert (H1 : orient2 p q q = 0) by (unfold orient2; at_R; ring).
  assert (H2 : orient2 p q p = 0) by (unfold orient2; at_R; ring).
  assert (H3 : orient2 q p p = 0) by (unfold orient2; at_R; ring).
  assert (H4 : orient2 q p q = 0) by (unfold orient2; at_R; ring).
  cbv zeta. unfold onSegment. rewrite H1, H2, H3, H4. at_R.
  rewrite Rabs_R0.
  replace (Rltb eps 0) with false by (symmetry; apply Rltb_false; lra).
  replace (Rltb 0 (- eps)) with false by (symmetry; apply Rltb_false; lra).
  cbn [andb orb].
  replace (Rleb 0 eps) with true by (symmetry; apply Rleb_true; lra).
  cbn [andb].
  pose proof (Rmin_r (Point.x p) (Point.x q)).
  pose proof (Rmax_r (Point.x p) (Point.x q)).
  pose proof (Rmin_r (Point.y p) (Point.y q)).
  pose proof (Rmax_r (Point.y p) (Point.y q)).
  rewrite !(proj2 (Rleb_true _ _)) by lra. reflexivity.
Qed.

(** Two polygons that run along a common edge in opposite directions
    overlap, by the test of the program. *)
Lemma polygonsOverlap_shared_edge (a b : Polygon R) (eps : R) (i j : nat)
      (p q : Point.t R) :
  0 <= eps ->
  (3 <= length a)%nat -> (3 <= length b)%nat ->
  (i < length a)%nat -> (j < length b)%nat ->
  at_ a i = p -> at_ a ((i + 1) mod length a) = q ->
  at_ b j = q -> at_ b ((j + 1) mod length b) = p ->
  polygonsOverlap a b eps = true.
Proof.
  intros He La Lb Hi Hj Ai Ai' Bj Bj'. unfold polygonsOverlap.
  destruct (Nat.ltb_spec (length a) 3) as [?|_]; [lia|].
  destruct (Nat.ltb_spec (length b) 3) as [?|_]; [lia|]. cbn [orb].
  assert (Hpa : In p a) by (rewrite <- Ai; apply nth_In; exact Hi).
  assert (Hpb : In p b).
  { rewrite <- Bj'. apply nth_In. apply Nat.mod_upper_bound. lia. }
  destruct (aabbFromPolygon_contains a p Hpa) as (ba & -> & Hax & Hay).
  destruct (aabbFromPolygon_contains b p Hpb) as (bb & -> & Hbx & Hby).
  assert (Hbox : aabbOverlaps ba bb eps = true).
  { unfold aabbOverlaps. at_R.
    rewrite !(proj2 (Rltb_false _ _)) by lra. reflexivity. }
  rewrite Hbox. cbn [negb].
  assert (Hex : existsb
                  (fun i0 =>
                     existsb
                       (fun j0 =>
                          segmentsIntersect (at_ a i0) (at_ a ((i0 + 1) mod length a))
                            (at_ b j0) (at_ b ((j0 + 1) mod length b)) eps)
                       (seq 0 (length b)))
                  (seq 0 (length a)) = true).
  { apply existsb_exists. exists i. split; [apply in_seq; lia|].
    apply existsb_exists. exists j. split; [apply in_seq; lia|].
    rewrite Ai, Ai', Bj, Bj'. now apply segmentsIntersect_shared_edge. }
  cbv zeta. rewrite Hex. reflexivity.
Qed.

(** X1. A cell and the cell built on its hand-off edge always overlap by
    [polygonsOverlap], whichever of the quad and the hexagon each is
    rendered as and whatever their geometry: the two polygons run along
    the hand-off edge. This is why the loop leaves the most recently
    rendered cell out of the test. *)
Theorem chained_cells_overlap (c c' : StackHex.Cell R) (eps : R) :
  0 <= eps ->
  StackHex.chained c c' ->
  forall p p',
    In p [StackHex.quadCell c; StackHex.hexCell c] ->
    In p' [StackHex.quadCell c'; StackHex.hexCell c'] ->
    polygonsOverlap p' p eps = true.
Proof.
  intros He [HL HR] p p' Hp Hp'.
  assert (Hgen : forall j, (j < length p)%nat -> (3 <= length p)%nat ->
                   at_ p j = clonePoint (StackHex.handoffR c) ->
                   at_ p ((j + 1) mod length p) = clonePoint (StackHex.handoffL c) ->
                   polygonsOverlap p' p eps = true).
  { intros j Hj Hl Hq Hq'.
    apply (polygonsOverlap_shared_edge p' p eps 0 j
             (clonePoint (StackHex.handoffL c)) (clonePoint (StackHex.handoffR c)));
      try assumption.
    - destruct Hp' as [<-|[<-|[]]]; cbn; lia.
    - destruct Hp' as [<-|[<-|[]]]; cbn; lia.
    - destruct Hp' as [<-|[<-|[]]]; cbn [StackHex.quadCell StackHex.hexCell at_ nth];
        now rewrite HL.
    - destruct Hp' as [<-|[<-|[]]];
        cbn [StackHex.quadCell StackHex.hexCell at_ nth length Nat.add Nat.modulo
             Nat.divmod fst snd Nat.sub]; now rewrite HR. }
  destruct Hp as [<-|[<-|[]]].
  - apply (Hgen 2%nat); cbn; try lia; reflexivity.
  - apply (Hgen 3%nat); cbn; try lia; reflexivity.
Qed.

(** Two sample cells of a straight trail, over the reals. *)
Lemma chained_cells_overlap_witness :
  let c0 := StackHex.straightCell (A := R) 0 11 false in
  let c1 := StackHex.straightCell (A := R) 11 11 false in
  0 <= 1 / 4
  /\ StackHex.chained c0 c1
  /\ polygonsOverlap (StackHex.hexCell c1) (StackHex.hexCell c0) (1 / 4) = true.
Proof.
  intros c0 c1.
  assert (He : 0 <= 1 / 4) by lra.
  assert (Hc : StackHex.chained c0 c1) by (split; reflexivity).
  split; [exact He|]. split; [exact Hc|].
  apply (chained_cells_overlap c0 c1 (1 / 4) He Hc).
  - right. left. reflexivity.
  - right. left. reflexivity.
Defined.

(** * Further properties of the geometry utilities *)

(** ** Cyclic shifts *)

(** X2. [rotatePolygon] is the cyclic shift by [offset], for every
    carrier: the result is as long as the polygon and its vertex [i] is
    vertex [(i + offset) mod n] of the polygon. So it keeps the vertices,
    shifting by [a] and then by [b] is shifting by [a + b], and a shift by
    the length (a full turn) gives the polygon back. *)
Theorem rotatePolygon_cyclic_shift :
  forall (A : Type) (N : Num A) (pts : Polygon A) (a b : nat),
    length (rotatePolygon pts a) = length pts
    /\ (forall i, (i < length pts)%nat ->
          nth_error (rotatePolygon pts a) i
          = nth_error pts ((i + a) mod length pts))
    /\ Permutation (rotatePolygon pts a) pts
    /\ rotatePolygon (rotatePolygon pts a) b = rotatePolygon pts (a + b)
    /\ rotatePolygon pts (length pts) = pts.
Proof.
  intros A N pts a b.
  split; [apply rotatePolygon_length|].
  split.
  { intros i Hi.
    rewrite (nth_error_nth' _ origin) by (now rewrite rotatePolygon_length).
    rewrite (nth_error_nth' pts origin) by (apply Nat.mod_upper_bound; lia).
    f_equal. apply rotatePolygon_at. exact Hi. }
  split; [apply rotatePolygon_perm|].
  split.
  - unfold rotatePolygon at 1 3. rewrite rotatePolygon_length.
    apply map_ext_in. intros i Hi. apply in_seq in Hi.
    assert (Hn : (0 < length pts)%nat) by lia.
    rewrite rotatePolygon_at by (apply Nat.mod_upper_bound; lia).
    rewrite Nat.Div0.add_mod_idemp_l. f_equal. f_equal. lia.
  - rewrite <- (rotatePolygon_0 pts) at 3. unfold rotatePolygon.
    apply map_ext_in. intros i Hi. apply in_seq in Hi.
    f_equal. rewrite Nat.add_0_r.
    replace (i + length pts)%nat with (i + 1 * length pts)%nat by lia.
    now rewrite Nat.Div0.mod_add.
Qed.

(** ** Orientation *)

Lemma rev_index_perm (n : nat) :
  Permutation (map (fun i => n - 1 - (i + 1) mod n)%nat (seq 0 n)) (seq 0 n).
Proof.
  destruct n as [|n]; [reflexivity|].
  apply NoDup_Permutation_bis.
  - apply NoDup_map_NoDup_ForallPairs; [|apply seq_NoDup].
    intros a b Ha Hb Hab. apply in_seq in Ha, Hb.
    pose proof (Nat.mod_upper_bound (a + 1) (S n) ltac:(lia)) as Ua.
    pose proof (Nat.mod_upper_bound (b + 1) (S n) ltac:(lia)) as Ub.
    assert (E : ((a + 1) mod S n = (b + 1) mod S n)%nat) by lia.
    destruct (Nat.eq_dec a n) as [->|Na], (Nat.eq_dec b n) as [->|Nb]; try lia.
    + replace (n + 1)%nat with (S n) in E by lia.
      rewrite Nat.Div0.mod_same, (Nat.mod_small (b + 1)) in E by lia. lia.
    + replace (n + 1)%nat with (S n) in E by lia.
      rewrite Nat.Div0.mod_same, (Nat.mod_small (a + 1)) in E by lia. lia.
    + rewrite !Nat.mod_small in E by lia. lia.
  - now rewrite length_map.
  - intros x Hx. apply in_map_iff in Hx. destruct Hx as (i & <- & Hi).
    apply in_seq. lia.
Qed.

Lemma at_rev {A : Type} `{Num A} (pts : Polygon A) (i : nat) :
  (i < length pts)%nat -> at_ (rev pts) i = at_ pts (length pts - 1 - i).
Proof.
  intros Hi. unfold at_. rewrite rev_nth by exact Hi. f_equal. lia.
Qed.

Lemma fold_left_Rplus_opp (l : list R) :
  fold_left Rplus (map Ropp l) 0 = - fold_left Rplus l 0.
Proof.
  induction l as [|a l IH]; cbn [map fold_left]; [ring|].
  rewrite (fold_left_Rplus_shift _ (0 + - a)), (fold_left_Rplus_shift _ (0 + a)), IH.
  ring.
Qed.

(** X3. Over the reals the signed area does not depend on the vertex the
    list starts with, and listing the vertices in the opposite order
    negates it: the two bases [matchPolygonToReference] tries have
    opposite orientation. *)
Theorem polygonSignedArea_orientation :
  forall (pts : Polygon R) (off : nat),
    polygonSignedArea (rotatePolygon pts off) = polygonSignedArea pts
    /\ polygonSignedArea (rev pts) = - polygonSignedArea pts.
Proof.
  intros pts off. split; [apply polygonSignedArea_rotate|].
  unfold polygonSignedArea. rewrite length_rev.
  destruct (length pts <? 3)%nat eqn:E3; [at_R; ring|].
  apply Nat.ltb_ge in E3.
  set (n := length pts) in *.
  set (term := fun (q : Polygon R) (i : nat) =>
                 (@mul R _ (Point.x (at_ q i)) (Point.y (at_ q ((i + 1) mod n)))
                  - @mul R _ (Point.x (at_ q ((i + 1) mod n))) (Point.y (at_ q i)))%num).
  change ((dec 5 10 * fold_left (fun s i => (s + term (rev pts) i)%num) (seq 0 n) (ofZ 0))%num
          = - (dec 5 10 * fold_left (fun s i => (s + term pts i)%num) (seq 0 n) (ofZ 0))%num).
  at_R.
  rewrite (fold_left_map_sum (term (rev pts))), (fold_left_map_sum (term pts)).
  assert (Hs : fold_left Rplus (map (term (rev pts)) (seq 0 n)) 0
               = - fold_left Rplus (map (term pts) (seq 0 n)) 0).
  { rewrite <- fold_left_Rplus_opp.
    transitivity (fold_left Rplus
                    (map (fun i => - term pts i)
                         (map (fun i => n - 1 - (i + 1) mod n)%nat (seq 0 n))) 0).
    - f_equal. rewrite map_map. apply map_ext_in. intros i Hi. apply in_seq in Hi.
      unfold term.
      pose proof (Nat.mod_upper_bound (i + 1) n ltac:(lia)) as Ui.
      rewrite !at_rev by (fold n; lia). fold n.
      replace ((n - 1 - (i + 1) mod n + 1) mod n)%nat with (n - 1 - i)%nat.
      + at_R. ring.
      + destruct (Nat.eq_dec i (n - 1)) as [->|Hne].
        * replace (n - 1 + 1)%nat with n by lia.
          rewrite Nat.Div0.mod_same.
          replace (n - 1 - 0 + 1)%nat with n by lia.
          rewrite Nat.Div0.mod_same. lia.
        * rewrite (Nat.mod_small (i + 1)) by lia.
          rewrite Nat.mod_small by lia. lia.
    - rewrite <- map_map with (f := term pts) (g := Ropp).
      apply fold_left_Rplus_perm, Permutation_map, Permutation_map, rev_index_perm. }
  rewrite Hs. unfold dec. at_R. ring.
Qed.

(** ** The angular sort and the canonical vertex order *)

Lemma StronglySorted_and {T} (R1 : T -> T -> Prop) (P : T -> Prop) (l : list T) :
  StronglySorted R1 l -> Forall P l ->
  StronglySorted (fun a b => R1 a b /\ P a /\ P b) l.
Proof.
  induction 1 as [|a l Hs IH Ha]; intros HP; constructor.
  - apply IH. now inversion HP.
  - inversion HP as [|? ? Pa Pl]; subst.
    rewrite Forall_forall in *. intros b Hb. auto.
Qed.

Lemma StronglySorted_map {T U} (f : T -> U) (R1 : U -> U -> Prop) (l : list T) :
  StronglySorted (fun a b => R1 (f a) (f b)) l -> StronglySorted R1 (map f l).
Proof.
  induction 1 as [|a l Hs IH Ha]; cbn [map]; constructor; [exact IH|].
  rewrite Forall_forall in *. intros b Hb.
  apply in_map_iff in Hb. destruct Hb as (b' & <- & Hb'). auto.
Qed.

Lemma StronglySorted_weaken {T} (R1 R2 : T -> T -> Prop) (l : list T) :
  (forall a b, R1 a b -> R2 a b) -> StronglySorted R1 l -> StronglySorted R2 l.
Proof.
  intros Himp. induction 1 as [|a l Hs IH Ha]; constructor; [exact IH|].
  eapply Forall_impl; [|exact Ha]. intros b. apply Himp.
Qed.

(** The angle of a vertex as seen from [c]. *)
Lemma k_a_keyOf (c p : Point.t R) :
  k_a (keyOf c p) = Ratan2 (Point.y p - Point.y c) (Point.x p - Point.x c).
Proof. reflexivity. Qed.

(** X4. Over the reals [sortPolygonByAngle] only reorders the vertices;
    a polygon of fewer than three vertices comes back as it is, and in
    any other the angles of the vertices about the centroid of the input
    ([Math.atan2], from [-pi] to [pi]) never decrease along the result. *)
Theorem sortPolygonByAngle_sorts :
  forall pts : Polygon R,
    Permutation (sortPolygonByAngle pts) pts
    /\ ((length pts < 3)%nat -> sortPolygonByAngle pts = pts)
    /\ ((3 <= length pts)%nat ->
        let c := polygonCenter pts in
        StronglySorted
          (fun p q => Ratan2 (Point.y p - Point.y c) (Point.x p - Point.x c)
                      <= Ratan2 (Point.y q - Point.y c) (Point.x q - Point.x c))
          (sortPolygonByAngle pts)).
Proof.
  intros pts.
  split; [apply sortPolygonByAngle_perm|].
  split.
  - intros Hlt. unfold sortPolygonByAngle.
    destruct (Nat.ltb_spec (length pts) 3); [apply clonePolygon_id | lia].
  - intros Hge c. unfold sortPolygonByAngle.
    destruct (Nat.ltb_spec (length pts) 3); [lia|]. fold c.
    apply StronglySorted_map.
    set (keys := sortBy angleCmp (map (keyOf c) pts)).
    assert (Hsorted : StronglySorted (notBefore angleCmp) keys)
      by (apply sortBy_sorted;
          [apply angleCmp_asym | apply angleCmp_trans | apply angleCmp_total]).
    assert (Hkeys : Forall (fun k => k = keyOf c (k_p k)) keys).
    { apply Forall_forall. intros k Hk.
      assert (Hin : In k (map (keyOf c) pts)).
      { eapply Permutation_in; [|exact Hk].
        apply sortBy_perm;
          [apply angleCmp_asym | apply angleCmp_trans | apply angleCmp_total]. }
      apply in_map_iff in Hin. destruct Hin as (p & <- & _).
      cbn [keyOf k_p]. now destruct p. }
    pose proof (StronglySorted_and _ _ _ Hsorted Hkeys) as Hboth.
    eapply StronglySorted_weaken; [|exact Hboth].
    intros a b (Hab & Ea & Eb).
    apply notBefore_R in Hab. rewrite angleCmp_lt in Hab.
    rewrite <- !k_a_keyOf, <- Ea, <- Eb.
    destruct (Rle_dec (k_a a) (k_a b)) as [Hle|Hgt]; [exact Hle|].
    exfalso. apply Hab. left. lra.
Qed.

(** X5. Over the reals [canonicalizePolygon] only reorders the vertices
    of its input, whatever the reference: no vertex is added, dropped or
    moved. *)
Theorem canonicalizePolygon_permutes :
  forall (pts : Polygon R) (refPts : option (Polygon R)),
    Permutation (canonicalizePolygon pts refPts) pts
    /\ length (canonicalizePolygon pts refPts) = length pts.
Proof.
  intros pts refPts.
  assert (HP : Permutation (canonicalizePolygon pts refPts) pts).
  { destruct (canonicalizePolygon_shape pts refPts)
      as [[_ ->] | (_ & base & k & Hbase & _ & ->)]; [reflexivity|].
    transitivity base; [apply rotatePolygon_perm|].
    destruct Hbase as [<-|[<-|[]]].
    - apply sortPolygonByAngle_perm.
    - transitivity (sortPolygonByAngle pts);
        [symmetry; apply Permutation_rev | apply sortPolygonByAngle_perm]. }
  split; [exact HP | now apply Permutation_length].
Qed.

(** X6. Over the reals, for a polygon and a reference of the same length
    (three vertices or more), [matchPolygonToReference] returns a cyclic
    shift of one of the bases it considers, and none of the shifts of
    those bases is closer to the reference in total corner distance. *)
Theorem matchPolygonToReference_optimal :
  forall (pts ref : Polygon R),
    (3 <= length pts)%nat -> length ref = length pts ->
    let bases := matchBases ref (sortPolygonByAngle pts) in
    let best := matchPolygonToReference pts ref in
    (exists base k, In base bases /\ (k < length pts)%nat
                    /\ best = rotatePolygon base k)
    /\ forall base k, In base bases -> (k < length pts)%nat ->
         matchScore best ref <= matchScore (rotatePolygon base k) ref.
Proof.
  intros pts ref Hlen Href bases best. subst best.
  unfold matchPolygonToReference.
  rewrite Href, Nat.min_id.
  destruct (Nat.ltb_spec (length pts) 3); [lia|].
  rewrite firstn_all, <- Href, firstn_all, Href.
  fold bases.
  destruct (matchBases_incl ref (sortPolygonByAngle pts)) as [_ Hne]. fold bases in Hne.
  destruct (pickBest_spec ref (matchCandidates bases (length pts)))
    as (best & Hbest & Hin & Hmin).
  { destruct bases as [|b bs]; [congruence|].
    unfold matchCandidates. simpl.
    destruct (length pts) as [|n]; [lia|]. discriminate. }
  rewrite Hbest, clonePolygon_id. split.
  - apply matchCandidates_in in Hin. destruct Hin as (base & k & Hb & Hk & ->).
    now exists base, k.
  - intros base k Hb Hk. rewrite Forall_forall in Hmin. apply Hmin.
    apply matchCandidates_in. now exists base, k.
Qed.

(** The caret rectangle against a shifted copy of itself. *)
Lemma matchPolygonToReference_optimal_witness :
  (3 <= length (rectAt 0%R))%nat
  /\ length (rectAt 200) = length (rectAt 0)
  /\ forall base k, In base (matchBases (rectAt 200) (sortPolygonByAngle (rectAt 0))) ->
       (k < length (rectAt 0%R))%nat ->
       matchScore (matchPolygonToReference (rectAt 0) (rectAt 200)) (rectAt 200)
       <= matchScore (rotatePolygon base k) (rectAt 200).
Proof.
  assert (H3 : (3 <= length (rectAt 0%R))%nat) by (cbn; lia).
  assert (HL : length (rectAt (A := R) 200) = length (rectAt (A := R) 0)) by reflexivity.
  split; [exact H3|]. split; [exact HL|].
  exact (proj2 (matchPolygonToReference_optimal (rectAt 0) (rectAt 200) H3 HL)).
Defined.

(** ** The leading-corner correction *)

Lemma setAt_length {A : Type} (pts : Polygon A) (i : nat) (p : Point.t A) :
  length (setAt pts i p) = length pts.
Proof.
  revert i. induction pts as [|q rest IH]; intros [|i]; cbn [setAt length];
    try reflexivity. now rewrite IH.
Qed.

Lemma at_setAt_other {A : Type} `{Num A} (pts : Polygon A) (i j : nat) (p : Point.t A) :
  i <> j -> at_ (setAt pts i p) j = at_ pts j.
Proof.
  unfold at_. revert i j. induction pts as [|q rest IH]; intros [|i] [|j] Hij;
    cbn [setAt nth]; try reflexivity; try congruence.
  apply IH. congruence.
Qed.

(** X7. For every carrier, [enforceLeadingAxisCorner] keeps the number of
    vertices, moves no vertex other than the two neighbours of the corner
    nearest the target, and never turns a valid polygon into an invalid
    one: a candidate is returned only after it passed
    [isValidTrailPolygon], and otherwise the input comes back. *)
Theorem enforceLeadingAxisCorner_safe :
  forall (A : Type) (N : Num A) (M : JSMath A)
         (pts : Polygon A) (target : Point.t A),
    let out := enforceLeadingAxisCorner pts (Some target) in
    let n := length pts in
    let leadIdx := leadIndex pts target in
    length out = n
    /\ (out = pts \/ isValidTrailPolygon out = true)
    /\ (isValidTrailPolygon pts = true -> isValidTrailPolygon out = true)
    /\ (forall i, i <> ((leadIdx + n - 1) mod n)%nat -> i <> ((leadIdx + 1) mod n)%nat ->
                  at_ out i = at_ pts i).
Proof.
  intros A N M pts target out n leadIdx. subst out.
  unfold enforceLeadingAxisCorner. fold n. fold leadIdx.
  destruct (n <? 4)%nat.
  { rewrite clonePolygon_id. repeat split; auto. }
  cbv zeta. rewrite !clonePolygon_id.
  set (prevIdx := ((leadIdx + n - 1) mod n)%nat).
  set (nextIdx := ((leadIdx + 1) mod n)%nat).
  set (candA := setAt (setAt pts prevIdx _) nextIdx _).
  set (candB := setAt (setAt pts prevIdx _) nextIdx _).
  assert (LA : length candA = n) by (unfold candA; now rewrite !setAt_length).
  assert (LB : length candB = n) by (unfold candB; now rewrite !setAt_length).
  assert (OA : forall i, i <> prevIdx -> i <> nextIdx -> at_ candA i = at_ pts i).
  { intros i H1 H2. unfold candA. rewrite !at_setAt_other by congruence. reflexivity. }
  assert (OB : forall i, i <> prevIdx -> i <> nextIdx -> at_ candB i = at_ pts i).
  { intros i H1 H2. unfold candB. rewrite !at_setAt_other by congruence. reflexivity. }
  match goal with |- context [if ?c then candA else candB] => destruct c end;
    destruct (isValidTrailPolygon candA) eqn:VA;
    destruct (isValidTrailPolygon candB) eqn:VB;
    repeat split; auto.
Qed.

(** The caret rectangle with the caret as the target. *)
Lemma enforceLeadingAxisCorner_safe_witness :
  isValidTrailPolygon (rectAt 0) = true
  /\ isValidTrailPolygon (enforceLeadingAxisCorner (rectAt 0) (Some (caretAt 0))) = true.
Proof.
  assert (Hv : isValidTrailPolygon (rectAt 0) = true) by apply valid_rectAt.
  split; [exact Hv|].
  exact (proj1 (proj2 (proj2
           (enforceLeadingAxisCorner_safe R _ _ (rectAt 0) (caretAt 0)))) Hv).
Defined.

(** ** The overlap test *)

Lemma existsb_swap {T U} (f : T -> U -> bool) (la : list T) (lb : list U) :
  existsb (fun i => existsb (fun j => f i j) lb) la
  = existsb (fun j => existsb (fun i => f i j) la) lb.
Proof.
  apply eq_true_iff_eq. rewrite !existsb_exists. split.
  - intros (i & Hi & H). apply existsb_exists in H. destruct H as (j & Hj & H).
    exists j. split; [exact Hj|]. apply existsb_exists. now exists i.
  - intros (j & Hj & H). apply existsb_exists in H. destruct H as (i & Hi & H).
    exists i. split; [exact Hi|]. apply existsb_exists. now exists j.
Qed.

Lemma segmentsIntersect_sym {A : Type} `{Num A} (a b c d : Point.t A) (eps : A) :
  segmentsIntersect a b c d eps = segmentsIntersect c d a b eps.
Proof.
  unfold segmentsIntersect. cbv zeta.
  generalize (orient2 a b c) (orient2 a b d) (orient2 c d a) (orient2 c d b).
  intros o1 o2 o3 o4.
  generalize (onSegment a b c eps) (onSegment a b d eps)
             (onSegment c d a eps) (onSegment c d b eps).
  intros s1 s2 s3 s4.
  generalize ((((o1 >? eps) && (o2 <? - eps)) || ((o1 <? - eps) && (o2 >? eps)))%num)
             ((((o3 >? eps) && (o4 <? - eps)) || ((o3 <? - eps) && (o4 >? eps)))%num)
             ((abs o1 <=? eps)%num && s1) ((abs o2 <=? eps)%num && s2)
             ((abs o3 <=? eps)%num && s3) ((abs o4 <=? eps)%num && s4).
  intros [|] [|] [|] [|] [|] [|]; reflexivity.
Qed.

Lemma aabbOverlaps_sym {A : Type} `{Num A} (a b : Aabb) (eps : A) :
  aabbOverlaps a b eps = aabbOverlaps b a eps.
Proof.
  unfold aabbOverlaps.
  destruct (ltb (maxX a) (sub (minX b) eps)), (ltb (maxX b) (sub (minX a) eps)),
           (ltb (maxY a) (sub (minY b) eps)), (ltb (maxY b) (sub (minY a) eps));
    reflexivity.
Qed.

(** X8. For every carrier the overlap test is symmetric: [polygonsOverlap]
    gives the same answer whichever of the two polygons comes first. *)
Theorem polygonsOverlap_symmetric :
  forall (A : Type) (N : Num A) (a b : Polygon A) (eps : A),
    polygonsOverlap a b eps = polygonsOverlap b a eps.
Proof.
  intros A N a b eps. unfold polygonsOverlap.
  rewrite (orb_comm (length a <? 3)%nat).
  destruct ((length b <? 3)%nat || (length a <? 3)%nat); [reflexivity|].
  destruct (aabbFromPolygon a) as [ab|], (aabbFromPolygon b) as [bb|];
    try reflexivity.
  rewrite (aabbOverlaps_sym ab bb).
  destruct (aabbOverlaps bb ab eps); [|reflexivity]. cbn [negb].
  rewrite existsb_swap.
  assert (E : forall (j : nat),
            existsb (fun i => segmentsIntersect (at_ a i) (at_ a ((i + 1) mod length a))
                                (at_ b j) (at_ b ((j + 1) mod length b)) eps)
                    (seq 0 (length a))
            = existsb (fun i => segmentsIntersect (at_ b j) (at_ b ((j + 1) mod length b))
                                  (at_ a i) (at_ a ((i + 1) mod length a)) eps)
                      (seq 0 (length a))).
  { intros j. induction (seq 0 (length a)) as [|i l IH]; [reflexivity|].
    cbn [existsb]. now rewrite segmentsIntersect_sym, IH. }
  assert (E' : existsb
                 (fun j => existsb
                    (fun i => segmentsIntersect (at_ a i) (at_ a ((i + 1) mod length a))
                                (at_ b j) (at_ b ((j + 1) mod length b)) eps)
                    (seq 0 (length a))) (seq 0 (length b))
               = existsb
                   (fun j => existsb
                      (fun i => segmentsIntersect (at_ b j) (at_ b ((j + 1) mod length b))
                                  (at_ a i) (at_ a ((i + 1) mod length a)) eps)
                      (seq 0 (length a))) (seq 0 (length b))).
  { induction (seq 0 (length b)) as [|j l IH]; [reflexivity|].
    cbn [existsb]. now rewrite E, IH. }
  rewrite E'.
  match goal with |- context [if ?e then true else _] => destruct e end;
    [reflexivity|].
  destruct (pointInPolygon (at_ a 0) b), (pointInPolygon (at_ b 0) a); reflexivity.
Qed.

(** ** The even-odd containment test *)

(** X9. Over the reals, for an axis-parallel rectangle listed as the
    program lists a caret (top-left, top-right, bottom-right,
    bottom-left), [pointInPolygon] answers true exactly on the half-open
    box: the top and left edges count as inside, the bottom and right
    edges as outside. *)
Theorem pointInPolygon_rectangle :
  forall (x0 y0 x1 y1 px py : R),
    x0 <= x1 -> y0 <= y1 ->
    (pointInPolygon (Pt px py) [Pt x0 y0; Pt x1 y0; Pt x1 y1; Pt x0 y1] = true
     <-> (x0 <= px < x1 /\ y0 <= py < y1)).
Proof.
  intros x0 y0 x1 y1 px py Hx Hy.
  unfold pointInPolygon. run_lists. unfold dec. at_R. unfold Rltb.
  repeat (match goal with
          | |- context [Rlt_dec ?a ?b] => destruct (Rlt_dec a b)
          end;
          cbn [Bool.eqb negb fst snd nth at_ Point.x Point.y] in *;
          try (exfalso; lra)).
  all: split; intros H; try discriminate; try reflexivity; try lra.
Qed.

(** The caret lies in the caret rectangle. *)
Lemma pointInPolygon_rectangle_witness :
  0 <= 10 /\ 0 <= 20
  /\ pointInPolygon (Pt 5 10) [Pt 0 0; Pt 10 0; Pt 10 20; Pt 0 20] = true.
Proof.
  assert (Hx : 0 <= 10) by lra. assert (Hy : 0 <= 20) by lra.
  split; [exact Hx|]. split; [exact Hy|].
  apply (proj2 (pointInPolygon_rectangle 0 0 10 20 5 10 Hx Hy)). lra.
Defined.

(** X10. The crossing abscissa is computed with the denominator
    [max(1e-9, yj - yi)], which is [1e-9] on every edge walked with
    [yj < yi]. Over the reals, for the right triangle [(0,0), (w,0),
    (0,h)] in this order, the test answers false at every point with
    [x >= 0], the interior included; for the same triangle in the opposite
    order (and [h >= 1e-9]) it answers true exactly below the slanted
    edge. *)
Theorem pointInPolygon_descending_edge :
  forall (w h px py : R),
    0 < w -> 1 / 1000000000 <= h -> 0 <= px ->
    pointInPolygon (Pt px py) [Pt 0 0; Pt w 0; Pt 0 h] = false
    /\ (pointInPolygon (Pt px py) [Pt 0 0; Pt 0 h; Pt w 0] = true
        <-> (0 <= py < h /\ px < w * (1 - py / h))).
Proof.
  intros w h px py Hw Hh Hpx.
  assert (Hmax : Rmax (1 / 1000000000) (h - 0) = h)
    by (rewrite Rmax_right by lra; lra).
  assert (Hmin : Rmax (1 / 1000000000) (0 - h) = 1 / 1000000000)
    by (apply Rmax_left; lra).
  assert (Hz : Rmax (1 / 1000000000) (0 - 0) = 1 / 1000000000)
    by (apply Rmax_left; lra).
  split.
  - unfold pointInPolygon. run_lists. unfold dec. at_R. unfold Rltb.
    repeat (match goal with
            | |- context [Rlt_dec ?a ?b] => destruct (Rlt_dec a b)
            end;
            cbn [Bool.eqb negb fst snd nth at_ Point.x Point.y] in *;
            rewrite ?Hmin, ?Hmax, ?Hz in *;
            try (exfalso; lra)).
    all: try reflexivity.
    exfalso.
    replace ((w - 0) * (py - h) / (1 / 1000000000) + 0)
      with (1000000000 * (w * (py - h))) in * by field.
    assert (w * (py - h) < 0) by nra. lra.
  - unfold pointInPolygon. run_lists. unfold dec. at_R. unfold Rltb.
    repeat (match goal with
            | |- context [Rlt_dec ?a ?b] => destruct (Rlt_dec a b)
            end;
            cbn [Bool.eqb negb fst snd nth at_ Point.x Point.y] in *;
            rewrite ?Hmin, ?Hmax, ?Hz in *;
            try (exfalso; lra)).
    all: try replace ((0 - w) * (py - 0) / h + w) with (w * (1 - py / h)) in *
           by (field; lra).
    all: split; [intros H | intros [H1 H2]];
      try discriminate; try reflexivity; try (split; lra); try lra.
Qed.

(** A point inside the triangle with legs 10 and 20. *)
Lemma pointInPolygon_descending_edge_witness :
  0 < 10 /\ 1 / 1000000000 <= 20 /\ 0 <= 2
  /\ pointInPolygon (Pt 2 5) [Pt 0 0; Pt 10 0; Pt 0 20] = false
  /\ pointInPolygon (Pt 2 5) [Pt 0 0; Pt 0 20; Pt 10 0] = true.
Proof.
  assert (Hw : 0 < 10) by lra.
  assert (Hh : 1 / 1000000000 <= 20) by lra.
  assert (Hp : 0 <= 2) by lra.
  destruct (pointInPolygon_descending_edge 10 20 2 5 Hw Hh Hp) as [H1 H2].
  repeat split; try assumption. apply H2. lra.
Defined.

(** ** The per-vertex step clamp *)

Lemma hypot_scale (a b s : R) : 0 <= s -> hypot (a * s) (b * s) = s * hypot a b.
Proof.
  intros Hs. at_R.
  replace (a * s * (a * s) + b * s * (b * s)) with (s * s * (a * a + b * b)) by ring.
  rewrite sqrt_mult by (try apply sum_squares_nonneg; nra).
  now rewrite sqrt_square.
Qed.

Lemma pointDist_sym (a b : Point.t R) : pointDist a b = pointDist b a.
Proof. unfold pointDist. at_R. f_equal. ring. Qed.

(** X11. Over the reals [clampPointStep(from, to, maxStep)] returns [to]
    itself when [maxStep] is not positive, when [to] is within [maxStep]
    of [from], or when the two are closer than [1e-6]; otherwise it
    returns the point of the segment from [from] to [to] at distance
    exactly [maxStep] from [from]. *)
Theorem clampPointStep_limits_step :
  forall (from to : Point.t R) (maxStep : R),
    let out := clampPointStep from to maxStep in
    let d := pointDist from to in
    (maxStep <= 0 \/ d <= maxStep \/ d < 1 / 1000000 -> out = to)
    /\ (0 < maxStep -> maxStep < d -> 1 / 1000000 <= d ->
        pointDist from out = maxStep
        /\ out = Pt (Point.x from + (Point.x to - Point.x from) * (maxStep / d))
                    (Point.y from + (Point.y to - Point.y from) * (maxStep / d))
        /\ 0 < maxStep / d < 1).
Proof.
  intros from to maxStep out d. subst out.
  assert (Hd : R_sqrt.sqrt ((Point.x to - Point.x from) * (Point.x to - Point.x from)
                            + (Point.y to - Point.y from) * (Point.y to - Point.y from))
               = d).
  { unfold d. rewrite pointDist_sym. reflexivity. }
  unfold clampPointStep. cbv zeta. unfold eps6, dec. at_R. rewrite Hd.
  split.
  - intros Hcase.
    destruct (Rltb 0 maxStep) eqn:E0; cbn [negb]; [|now destruct to].
    apply Rltb_true in E0.
    destruct (Rleb d maxStep) eqn:E1; cbn [orb]; [now destruct to|].
    apply Rleb_false in E1.
    destruct (Rltb d (1 / 1000000)) eqn:E2; [now destruct to|].
    apply Rltb_false in E2. lra.
  - intros H0 H1 H2.
    rewrite (proj2 (Rltb_true _ _) H0). cbn [negb].
    rewrite (proj2 (Rleb_false _ _)) by lra.
    rewrite (proj2 (Rltb_false _ _)) by lra. cbn [orb].
    split; [|split; [reflexivity|]].
    + unfold pointDist. cbn [Point.x Point.y]. at_R.
      replace (Point.x from - (Point.x from + (Point.x to - Point.x from) * (maxStep / d)))
        with ((Point.x from - Point.x to) * (maxStep / d)) by ring.
      replace (Point.y from - (Point.y from + (Point.y to - Point.y from) * (maxStep / d)))
        with ((Point.y from - Point.y to) * (maxStep / d)) by ring.
      assert (Hs : 0 <= maxStep / d) by (apply Rlt_le, Rdiv_lt_0_compat; lra).
      pose proof (hypot_scale (Point.x from - Point.x to) (Point.y from - Point.y to)
                    (maxStep / d) Hs) as Hsc.
      at_R. rewrite Hsc.
      change (R_sqrt.sqrt _) with (pointDist from to). fold d. field. lra.
    + split; [apply Rdiv_lt_0_compat; lra|].
      apply Rmult_lt_reg_r with d; [lra|].
      unfold Rdiv. rewrite Rmult_assoc, Rinv_l by lra. lra.
Qed.

(** A step of 200 px clamped to 8 px. *)
Lemma clampPointStep_limits_step_witness :
  0 < 8 /\ 8 < pointDist (Pt 0 0) (Pt 200 0)
  /\ pointDist (Pt 0 0) (clampPointStep (Pt 0 0) (Pt 200 0) 8) = 8.
Proof.
  assert (Hd : pointDist (Pt 0 0) (Pt 200 0) = 200).
  { rewrite pointDist_horizontal. rewrite Rminus_0_l, Rabs_Ropp.
    apply Rabs_pos_eq. lra. }
  assert (H0 : 0 < 8) by lra.
  assert (H1 : 8 < pointDist (Pt 0 0) (Pt 200 0)) by (rewrite Hd; lra).
  assert (H2 : 1 / 1000000 <= pointDist (Pt 0 0) (Pt 200 0)) by (rewrite Hd; lra).
  split; [exact H0|]. split; [exact H1|].
  exact (proj1 (proj2 (clampPointStep_limits_step (Pt 0 0) (Pt 200 0) 8) H0 H1 H2)).
Defined.

(** ** Bounding boxes and centroids *)

Lemma fold_Rmin_attained {T} (f : T -> R) (l : list T) (m : R) :
  fold_left (fun m q => Rmin m (f q)) l m = m
  \/ exists q, In q l /\ fold_left (fun m q => Rmin m (f q)) l m = f q.
Proof.
  revert m. induction l as [|a l IH]; intros m; cbn [fold_left]; [now left|].
  destruct (IH (Rmin m (f a))) as [E|(q & Hq & E)].
  - rewrite E. unfold Rmin. destruct (Rle_dec m (f a)); [now left|].
    right. exists a. split; [now left | reflexivity].
  - right. exists q. split; [now right | exact E].
Qed.

Lemma fold_Rmax_attained {T} (f : T -> R) (l : list T) (m : R) :
  fold_left (fun m q => Rmax m (f q)) l m = m
  \/ exists q, In q l /\ fold_left (fun m q => Rmax m (f q)) l m = f q.
Proof.
  revert m. induction l as [|a l IH]; intros m; cbn [fold_left]; [now left|].
  destruct (IH (Rmax m (f a))) as [E|(q & Hq & E)].
  - rewrite E. unfold Rmax. destruct (Rle_dec m (f a)); [|now left].
    right. exists a. split; [now left | reflexivity].
  - right. exists q. split; [now right | exact E].
Qed.

Lemma sum_between {T} (f : T -> R) (l : list T) (lo hi : R) :
  (forall q, In q l -> lo <= f q <= hi) ->
  IZR (Z.of_nat (length l)) * lo <= fold_left (fun s q => s + f q) l 0
  <= IZR (Z.of_nat (length l)) * hi.
Proof.
  intros Hb. rewrite fold_left_map_sum.
  induction l as [|a l IH]; cbn [map fold_left length].
  - cbn. lra.
  - rewrite fold_left_Rplus_shift.
    rewrite Nat2Z.inj_succ, succ_IZR.
    specialize (IH (fun q Hq => Hb q (or_intror Hq))).
    pose proof (Hb a (or_introl eq_refl)). lra.
Qed.

(** The bounding box contains the vertices and touches them on each
    side. *)
Lemma aabbFromPolygon_attained (pts : Polygon R) :
  (0 < length pts)%nat ->
  exists box,
    aabbFromPolygon pts = Some box
    /\ (forall p, In p pts ->
          minX box <= Point.x p <= maxX box /\ minY box <= Point.y p <= maxY box)
    /\ (exists p, In p pts /\ Point.x p = minX box)
    /\ (exists p, In p pts /\ Point.x p = maxX box)
    /\ (exists p, In p pts /\ Point.y p = minY box)
    /\ (exists p, In p pts /\ Point.y p = maxY box).
Proof.
  intros Hlen. destruct pts as [|q rest]; [cbn in Hlen; lia|].
  eexists. split; [reflexivity|]. cbn [minX maxX minY maxY]. at_R.
  split.
  { intros p Hp.
    destruct (aabbFromPolygon_contains (q :: rest) p Hp) as (box & E & Hx & Hy).
    cbn [aabbFromPolygon] in E. injection E as <-.
    cbn [minX maxX minY maxY] in Hx, Hy. at_R. now split. }
  assert (At : forall (f : Point.t R -> R) v,
             (v = f q \/ exists p, In p rest /\ v = f p) ->
             exists p, In p (q :: rest) /\ f p = v).
  { intros f v [->|(p & Hp & ->)]; [exists q | exists p]; split; auto;
      [now left | now right]. }
  split; [apply (At (@Point.x R));
          destruct (fold_Rmin_attained (@Point.x R) rest (Point.x q)) as [E|(p & ? & E)];
          [left; exact E | right; exists p; split; [assumption | exact E]]|].
  split; [apply (At (@Point.x R));
          destruct (fold_Rmax_attained (@Point.x R) rest (Point.x q)) as [E|(p & ? & E)];
          [left; exact E | right; exists p; split; [assumption | exact E]]|].
  split; [apply (At (@Point.y R));
          destruct (fold_Rmin_attained (@Point.y R) rest (Point.y q)) as [E|(p & ? & E)];
          [left; exact E | right; exists p; split; [assumption | exact E]]|].
  apply (At (@Point.y R)).
  destruct (fold_Rmax_attained (@Point.y R) rest (Point.y q)) as [E|(p & ? & E)];
    [left; exact E | right; exists p; split; [assumption | exact E]].
Qed.

(** X12. Over the reals the bounding box of a non-empty polygon contains
    every vertex, each of its four sides passes through a vertex, and
    the centroid [polygonCenter] lies in it. *)
Theorem aabbFromPolygon_tight :
  forall pts : Polygon R,
    (0 < length pts)%nat ->
    exists box,
      aabbFromPolygon pts = Some box
      /\ (forall p, In p pts ->
            minX box <= Point.x p <= maxX box /\ minY box <= Point.y p <= maxY box)
      /\ (exists p, In p pts /\ Point.x p = minX box)
      /\ (exists p, In p pts /\ Point.x p = maxX box)
      /\ (exists p, In p pts /\ Point.y p = minY box)
      /\ (exists p, In p pts /\ Point.y p = maxY box)
      /\ minX box <= Point.x (polygonCenter pts) <= maxX box
      /\ minY box <= Point.y (polygonCenter pts) <= maxY box.
Proof.
  intros pts Hlen.
  destruct (aabbFromPolygon_attained pts Hlen) as (box & E & Hall & A1 & A2 & A3 & A4).
  exists box. repeat (split; [assumption|]).
  unfold polygonCenter. cbn [Point.x Point.y]. at_R.
  set (n := length pts) in *.
  assert (En : Nat.max 1 n = n) by lia. rewrite En.
  assert (Hn : 0 < IZR (Z.of_nat n)) by (apply IZR_lt; lia).
  pose proof (sum_between (@Point.x R) pts (minX box) (maxX box)
                (fun p Hp => proj1 (Hall p Hp))) as Sx.
  pose proof (sum_between (@Point.y R) pts (minY box) (maxY box)
                (fun p Hp => proj2 (Hall p Hp))) as Sy.
  fold n in Sx, Sy.
  split; split.
  - apply Rmult_le_reg_r with (IZR (Z.of_nat n)); [exact Hn|].
    unfold Rdiv. rewrite Rmult_assoc, Rinv_l by lra. lra.
  - apply Rmult_le_reg_r with (IZR (Z.of_nat n)); [exact Hn|].
    unfold Rdiv. rewrite Rmult_assoc, Rinv_l by lra. lra.
  - apply Rmult_le_reg_r with (IZR (Z.of_nat n)); [exact Hn|].
    unfold Rdiv. rewrite Rmult_assoc, Rinv_l by lra. lra.
  - apply Rmult_le_reg_r with (IZR (Z.of_nat n)); [exact Hn|].
    unfold Rdiv. rewrite Rmult_assoc, Rinv_l by lra. lra.
Qed.

(** The caret rectangle. *)
Lemma aabbFromPolygon_tight_witness :
  (0 < length (rectAt 0%R))%nat
  /\ exists box,
       aabbFromPolygon (rectAt 0%R) = Some box
       /\ minX box <= Point.x (polygonCenter (rectAt 0)) <= maxX box.
Proof.
  assert (Hl : (0 < length (rectAt 0%R))%nat) by (cbn; lia).
  split; [exact Hl|].
  destruct (aabbFromPolygon_tight (rectAt 0) Hl)
    as (box & E & _ & _ & _ & _ & _ & Hc & _).
  exists box. split; [exact E | exact Hc].
Defined.

(** X13. Over the reals two polygons whose vertices are separated along
    an axis by more than [eps] (every vertex of the one left of, or
    above, every vertex of the other) do not overlap by
    [polygonsOverlap]: the bounding-box check rejects the pair. *)
Theorem polygonsOverlap_separated :
  forall (a b : Polygon R) (eps : R),
    ((forall p q, In p a -> In q b -> Point.x p < Point.x q - eps)
     \/ (forall p q, In p a -> In q b -> Point.y p < Point.y q - eps)) ->
    polygonsOverlap a b eps = false /\ polygonsOverlap b a eps = false.
Proof.
  intros a b eps Hsep.
  assert (Hrej : forall u v : Polygon R,
             (forall bu bv, aabbFromPolygon u = Some bu -> aabbFromPolygon v = Some bv ->
                            aabbOverlaps bu bv eps = false) ->
             polygonsOverlap u v eps = false).
  { intros u v Hb. unfold polygonsOverlap.
    destruct ((length u <? 3)%nat || (length v <? 3)%nat); [reflexivity|].
    destruct (aabbFromPolygon u) as [bu|], (aabbFromPolygon v) as [bv|];
      try reflexivity.
    now rewrite (Hb bu bv eq_refl eq_refl). }
  assert (Hbox : forall ba bb, aabbFromPolygon a = Some ba -> aabbFromPolygon b = Some bb ->
                   (maxX ba < minX bb - eps \/ maxY ba < minY bb - eps)).
  { intros ba bb Ea Eb.
    assert (La : (0 < length a)%nat) by (destruct a; [discriminate | cbn; lia]).
    assert (Lb : (0 < length b)%nat) by (destruct b; [discriminate | cbn; lia]).
    destruct (aabbFromPolygon_attained a La)
      as (ba' & Ea' & _ & _ & (pa & Hpa & Epa) & _ & (pa' & Hpa' & Epa')).
    destruct (aabbFromPolygon_attained b Lb)
      as (bb' & Eb' & _ & (pb & Hpb & Epb) & _ & (pb' & Hpb' & Epb') & _).
    rewrite Ea in Ea'. rewrite Eb in Eb'.
    injection Ea' as <-. injection Eb' as <-.
    rewrite <- Epa, <- Epb, <- Epa', <- Epb'.
    destruct Hsep as [Hx|Hy]; [left; now apply Hx | right; now apply Hy]. }
  split; apply Hrej; intros bu bv Eu Ev; unfold aabbOverlaps; at_R.
  - destruct (Hbox bu bv Eu Ev) as [Hx|Hy].
    + rewrite (proj2 (Rltb_true _ _) Hx). reflexivity.
    + rewrite (proj2 (Rltb_true _ _) Hy). now rewrite !orb_true_r.
  - destruct (Hbox bv bu Ev Eu) as [Hx|Hy].
    + rewrite (proj2 (Rltb_true _ _) Hx). now rewrite !orb_true_r.
    + rewrite (proj2 (Rltb_true _ _) Hy). now rewrite !orb_true_r.
Qed.

(** Two caret rectangles 200 px apart. *)
Lemma polygonsOverlap_separated_witness :
  (forall p q, In p (rectAt 0) -> In q (rectAt 200) ->
               Point.x p < Point.x q - 1 / 4)
  /\ polygonsOverlap (rectAt 0) (rectAt 200) (1 / 4) = false.
Proof.
  assert (Hs : forall p q, In p (rectAt 0) -> In q (rectAt 200) ->
                           Point.x p < Point.x q - 1 / 4).
  { intros p q Hp Hq. unfold rectAt in Hp, Hq. at_R.
    repeat (destruct Hp as [<-|Hp]; [|]); try contradiction;
      repeat (destruct Hq as [<-|Hq]; [|]); try contradiction;
      cbn [Point.x]; lra. }
  split; [exact Hs|].
  exact (proj1 (polygonsOverlap_separated (rectAt 0) (rectAt 200) (1 / 4)
                  (or_introl Hs))).
Defined.

(** ** Interpolation *)

Lemma lerpPolygon_at_0 (p0 p1 : Polygon R) :
  length p0 = length p1 -> lerpPolygon p0 p1 0 = p0.
Proof.
  revert p1. induction p0 as [|a p0 IH]; intros [|b p1] Hlen;
    try discriminate; [reflexivity|].
  unfold lerpPolygon in *. cbn [combine map fst snd].
  rewrite IH by (cbn in Hlen; lia).
  unfold lerpPoint, lerp. destruct a as [ax ay]. cbn [Point.x Point.y]. at_R.
  do 2 f_equal; ring.
Qed.

Lemma lerpPolygon_at_1 (p0 p1 : Polygon R) :
  length p0 = length p1 -> lerpPolygon p0 p1 1 = p1.
Proof.
  revert p1. induction p0 as [|a p0 IH]; intros [|b p1] Hlen;
    try discriminate; [reflexivity|].
  unfold lerpPolygon in *. cbn [combine map fst snd].
  rewrite IH by (cbn in Hlen; lia).
  unfold lerpPoint, lerp. destruct b as [bx by']. cbn [Point.x Point.y]. at_R.
  do 2 f_equal; ring.
Qed.

(** X14. Over the reals [lerpPolygon] is as long as the shorter of its two
    arguments; between polygons of equal length it returns the first at
    [t = 0] and the second at [t = 1], so the last step [t = segments /
    segments] of the interpolation loop of [pushTrailPolygon] lands on
    the processed polygon itself. *)
Theorem lerpPolygon_endpoints :
  forall (p0 p1 : Polygon R) (t : R),
    length (lerpPolygon p0 p1 t) = Nat.min (length p0) (length p1)
    /\ (length p0 = length p1 ->
        lerpPolygon p0 p1 0 = p0
        /\ lerpPolygon p0 p1 1 = p1
        /\ forall segments : R, segments <> 0 ->
             lerpPolygon p0 p1 (segments / segments) = p1).
Proof.
  intros p0 p1 t. split.
  - unfold lerpPolygon. now rewrite length_map, length_combine.
  - intros Hlen.
    split; [now apply lerpPolygon_at_0|]. split; [now apply lerpPolygon_at_1|].
    intros s Hs. replace (s / s) with 1 by (field; exact Hs).
    now apply lerpPolygon_at_1.
Qed.

(** * Further properties of the corner controller *)

(** X15. Over the reals, whatever the state of a corner and the frame
    time, after [update] the corner is within the stretch limit
    [maxTrailDistanceFactor * max(w, h)] of its destination on each axis
    (provided the limit is not negative), and it remembers that
    destination in [pdx], [pdy]. *)
Theorem Corner_update_within_stretch :
  forall (cfg : Config R) (c : Corner.t R)
         (dt centerX centerY w h rankFactor : R) (snapState : Corner.SnapState R),
    let dest := Corner.getDest c centerX centerY w h in
    let maxStretch := dynamics_maxTrailDistanceFactor cfg * Rmax w h in
    let c' := fst (Corner.update cfg c dt centerX centerY w h rankFactor snapState) in
    0 <= maxStretch ->
    Rabs (Corner.cx c' - Point.x dest) <= maxStretch
    /\ Rabs (Corner.cy c' - Point.y dest) <= maxStretch
    /\ Corner.pdx c' = Point.x dest /\ Corner.pdy c' = Point.y dest
    /\ Corner.rel c' = Corner.rel c.
Proof.
  intros cfg c dt centerX centerY w h rankFactor snapState dest maxStretch c' Hs.
  subst c'. unfold Corner.update. fold dest.
  destruct (ltb (Corner.pdx c) _).
  - cbn [fst Corner.cx Corner.cy Corner.pdx Corner.pdy Corner.rel].
    rewrite !Rminus_diag, Rabs_R0. repeat split; lra.
  - destruct (CritDamped1D.step _ dt) as [sx3 mx].
    destruct (CritDamped1D.step _ dt) as [sy3 my].
    cbn [fst Corner.cx Corner.cy Corner.pdx Corner.pdy Corner.rel]. at_R.
    fold maxStretch.
    pose proof (clamp_R_bounds (Point.x dest + CritDamped1D.pos sx3)
                  (Point.x dest - maxStretch) (Point.x dest + maxStretch)
                  ltac:(lra)) as Bx.
    pose proof (clamp_R_bounds (Point.y dest + CritDamped1D.pos sy3)
                  (Point.y dest - maxStretch) (Point.y dest + maxStretch)
                  ltac:(lra)) as By.
    repeat split; try reflexivity; apply Rabs_le; lra.
Qed.

(** The displaced sample corner, one tick at 16 ms. *)
Lemma Corner_update_within_stretch_witness :
  0 <= dynamics_maxTrailDistanceFactor CFG * Rmax 8 18
  /\ Rabs (Corner.cx (fst (Corner.update CFG Corner.displacedCorner (16 / 1000)
                             0 0 8 18 (8 / 10) Corner.trailingAtRest))
           - Point.x (Corner.getDest Corner.displacedCorner 0 0 8 18))
     <= dynamics_maxTrailDistanceFactor CFG * Rmax 8 18.
Proof.
  assert (Hs : 0 <= dynamics_maxTrailDistanceFactor CFG * Rmax 8 18).
  { cbn [CFG dynamics_maxTrailDistanceFactor]. at_R.
    rewrite Rmax_right by lra. lra. }
  split; [exact Hs|].
  exact (proj1 (Corner_update_within_stretch CFG Corner.displacedCorner (16 / 1000)
                  0 0 8 18 (8 / 10) Corner.trailingAtRest Hs)).
Defined.

(** ** The rank order of the corners *)

Lemma insertBy_permutation {A : Type} `{Num A} {T : Type}
      (cmp : T -> T -> A) (a : T) (l : list T) :
  Permutation (insertBy cmp a l) (a :: l).
Proof.
  induction l as [|b l IH]; cbn [insertBy]; [reflexivity|].
  destruct (ltb (cmp a b) (ofZ 0)); [reflexivity|].
  rewrite IH. apply perm_swap.
Qed.

Lemma sortBy_permutation {A : Type} `{Num A} {T : Type}
      (cmp : T -> T -> A) (l : list T) :
  Permutation (sortBy cmp l) l.
Proof.
  unfold sortBy.
  assert (G : forall acc, Permutation (fold_left (fun acc a => insertBy cmp a acc) l acc)
                                      (acc ++ l)).
  { induction l as [|a l IH]; intros acc; cbn [fold_left].
    - now rewrite app_nil_r.
    - rewrite IH, insertBy_permutation. apply Permutation_middle. }
  apply (G []).
Qed.

Lemma rankOf_nth (idxs : list nat) (k : nat) :
  NoDup idxs -> (k < length idxs)%nat ->
  CursorSquish.rankOf idxs (nth k idxs 0%nat) = k.
Proof.
  revert k. induction idxs as [|j idxs IH]; intros k Hnd Hk; [cbn in Hk; lia|].
  inversion Hnd as [|? ? Hnotin Hnd']; subst.
  destruct k as [|k]; cbn [nth CursorSquish.rankOf].
  - now rewrite Nat.eqb_refl.
  - destruct (Nat.eqb_spec j (nth k idxs 0%nat)) as [E|_].
    + exfalso. apply Hnotin. rewrite E. apply nth_In. cbn in Hk. lia.
    + f_equal. apply IH; [exact Hnd' | cbn in Hk; lia].
Qed.

Lemma rankOf_lt (idxs : list nat) (i : nat) :
  In i idxs -> (CursorSquish.rankOf idxs i < length idxs)%nat
               /\ nth (CursorSquish.rankOf idxs i) idxs 0%nat = i.
Proof.
  induction idxs as [|j idxs IH]; intros Hin; [destruct Hin|].
  cbn [CursorSquish.rankOf length].
  destruct (Nat.eqb_spec j i) as [->|Hne].
  - split; [lia | reflexivity].
  - destruct Hin as [E|Hin]; [congruence|].
    destruct (IH Hin) as [H1 H2]. split; [lia | exact H2].
Qed.

(** X16. For every carrier and whatever the alignments, the order
    [idxs] that [CursorSquish.step] sorts is a permutation of the four
    corner indices, so [rankOf] is its inverse: the four corners get the
    four ranks 0 to 3, each once, and with four rank factors configured
    the fallback factor [1.0] is never used. *)
Theorem rankOrder_assigns_each_rank_once :
  forall (A : Type) (N : Num A) (cfg : Config A) (align : list A),
    let idxs := CursorSquish.rankOrder align in
    Permutation idxs [0; 1; 2; 3]%nat
    /\ (forall k, (k < 4)%nat -> CursorSquish.rankOf idxs (nth k idxs 0%nat) = k)
    /\ (forall i, (i < 4)%nat ->
          (CursorSquish.rankOf idxs i < 4)%nat
          /\ nth (CursorSquish.rankOf idxs i) idxs 0%nat = i)
    /\ (length (dynamics_rankFactors cfg) = 4%nat ->
        forall i, (i < 4)%nat ->
          nth_error (dynamics_rankFactors cfg) (CursorSquish.rankOf idxs i) <> None).
Proof.
  intros A N cfg align idxs.
  assert (HP : Permutation idxs [0; 1; 2; 3]%nat) by apply sortBy_permutation.
  assert (HL : length idxs = 4%nat) by (now rewrite (Permutation_length HP)).
  assert (HN : NoDup idxs).
  { eapply Permutation_NoDup; [symmetry; exact HP|].
    repeat constructor; cbn; intuition lia. }
  assert (HI : forall i, (i < 4)%nat -> In i idxs).
  { intros i Hi. eapply Permutation_in; [symmetry; exact HP|].
    cbn. lia. }
  split; [exact HP|]. split; [|split].
  - intros k Hk. apply rankOf_nth; [exact HN | lia].
  - intros i Hi. destruct (rankOf_lt idxs i (HI i Hi)) as [H1 H2].
    split; [lia | exact H2].
  - intros Hlen i Hi. apply nth_error_Some.
    destruct (rankOf_lt idxs i (HI i Hi)) as [H1 _]. lia.
Qed.

Lemma alignOf_still (c : Corner.t R) : CursorSquish.alignOf (Pt 0 0) c = 0.
Proof. unfold CursorSquish.alignOf. cbn [Point.x Point.y]. at_R. ring. Qed.

Lemma nth_align_still (corners : list (Corner.t R)) (a : nat) :
  nth a (map (CursorSquish.alignOf (Pt 0 0)) corners) 0 = 0.
Proof.
  revert a. induction corners as [|c cs IH]; intros [|a]; cbn [map nth];
    try reflexivity; [apply alignOf_still | apply IH].
Qed.

Lemma insertBy_last {T : Type} (cmp : T -> T -> R) (a : T) (l : list T) :
  (forall b, Rltb (cmp a b) 0 = false) -> insertBy cmp a l = l ++ [a].
Proof.
  intros Hc. induction l as [|b l IH]; cbn [insertBy app]; [reflexivity|].
  at_R. now rewrite Hc, IH.
Qed.

(** X17. Over the reals, on a frame whose motion is no longer than
    [0.0001] px (every frame that has no fresh motion event gets
    [NO_MOTION]) all alignments are zero and the stable sort leaves the
    corners in index order: corner [i] has rank [i], so the top-left
    corner is stepped with the first rank factor and the bottom-left one
    with the last, whatever the direction of the move that is being
    animated. *)
Theorem still_frame_ranks_by_index :
  forall (cfg : Config R) (s : CursorSquish.t R) (dtSec : R)
         (motionInfo : CursorSquish.MotionInfo R),
    CursorSquish.dist motionInfo <= 1 / 10000 ->
    CursorSquish.rankOrder (map (CursorSquish.alignOf (Pt 0 0)) (CursorSquish.corners s))
    = [0; 1; 2; 3]%nat
    /\ (forall i, (i < 4)%nat -> CursorSquish.rankOf [0; 1; 2; 3]%nat i = i)
    /\ CursorSquish.step cfg s dtSec motionInfo
       = (let '(cs, anyMoving) :=
            CursorSquish.stepCorners cfg dtSec (CursorSquish.target s)
              (CursorSquish.useShort motionInfo) [0; 1; 2; 3]%nat 0
              (CursorSquish.corners s) false in
          ({| CursorSquish.corners := cs; CursorSquish.target := CursorSquish.target s |},
           anyMoving)).
Proof.
  intros cfg s dtSec motionInfo Hd.
  assert (HR : CursorSquish.rankOrder
                 (map (CursorSquish.alignOf (Pt 0 0)) (CursorSquish.corners s))
               = [0; 1; 2; 3]%nat).
  { unfold CursorSquish.rankOrder, sortBy. cbn [fold_left].
    rewrite !insertBy_last; [reflexivity | | | |];
      intros b; at_R; rewrite !nth_align_still; apply Rltb_false; lra. }
  split; [exact HR|]. split.
  - intros i Hi. do 4 (destruct i as [|i]; [reflexivity|]). lia.
  - unfold CursorSquish.step. unfold dec. at_R.
    rewrite (proj2 (Rltb_false _ _) Hd). at_R.
    now rewrite HR.
Qed.

(** A frame without a motion event. *)
Lemma still_frame_ranks_by_index_witness :
  CursorSquish.dist (CursorSquish.NO_MOTION (A := R)) <= 1 / 10000
  /\ CursorSquish.rankOrder
       (map (CursorSquish.alignOf (Pt 0 0))
            (CursorSquish.corners (CursorSquish.make (A := R) CFG)))
     = [0; 1; 2; 3]%nat.
Proof.
  assert (Hd : CursorSquish.dist (CursorSquish.NO_MOTION (A := R)) <= 1 / 10000)
    by (cbn; lra).
  split; [exact Hd|].
  exact (proj1 (still_frame_ranks_by_index CFG (CursorSquish.make CFG) (16 / 1000)
                  CursorSquish.NO_MOTION Hd)).
Defined.

(** ** The first frame and the target rectangle *)

Lemma Corner_update_fresh (cfg : Config R) (rel : Point.t R)
      (dt centerX centerY w h rankFactor : R) (snapState : Corner.SnapState R) :
  let c := Corner.make cfg rel in
  Corner.update cfg c dt centerX centerY w h rankFactor snapState
  = ({| Corner.rel := rel;
        Corner.cx := centerX + Point.x rel * w;
        Corner.cy := centerY + Point.y rel * h;
        Corner.sx := CritDamped1D.reset (Corner.sx c);
        Corner.sy := CritDamped1D.reset (Corner.sy c);
        Corner.pdx := centerX + Point.x rel * w;
        Corner.pdy := centerY + Point.y rel * h |}, false).
Proof.
  intros c. unfold Corner.update, c, Corner.make, Corner.getDest.
  cbn [Corner.pdx Corner.rel Corner.sx Corner.sy Point.x Point.y]. at_R.
  replace (Rltb (- (100000)) (- (10000))) with true
    by (symmetry; apply Rltb_true; lra).
  reflexivity.
Qed.

(** X18. Over the reals, a controller that has just been built and given
    a target rectangle puts its four corners exactly on the corners of
    the target on the first [step], whatever the frame time and the
    motion, and reports that nothing is moving: the caret appears in
    place instead of flying in from the initial position. *)
Theorem first_step_snaps_to_target :
  forall (cfg : Config R) (cfgm : ConfigMore R) (r : Rect R) (dtSec : R)
         (motionInfo : CursorSquish.MotionInfo R),
    let s1 := fst (SquishRect.setTargetFromRect cfgm (SquishRect.make cfg) r) in
    let out := SquishRect.step cfg s1 dtSec motionInfo in
    let T := SquishRect.getTargetRect s1 in
    snd out = false
    /\ SquishRect.getCornerPolygon (fst out) 0
       = [ Pt (left T) (top T); Pt (left T + width T) (top T);
           Pt (left T + width T) (top T + height T); Pt (left T) (top T + height T) ].
Proof.
  intros cfg cfgm r dtSec motionInfo s1 out T.
  subst out T s1.
  unfold SquishRect.step, SquishRect.setTargetFromRect, SquishRect.make,
    SquishRect.getTargetRect, SquishRect.getCornerPolygon, SquishRect.cornerPoints,
    CursorSquish.step, CursorSquish.make, CursorSquish.REL_CORNERS.
  cbn [fst snd SquishRect.squish CursorSquish.corners CursorSquish.target map
       CursorSquish.stepCorners CursorSquish.t_cx CursorSquish.t_cy
       CursorSquish.t_w CursorSquish.t_h].
  rewrite !Corner_update_fresh.
  cbn [fst snd SquishRect.squish CursorSquish.corners CursorSquish.target map
       orb Corner.cx Corner.cy Point.x Point.y left top width height].
  unfold dec. at_R.
  replace (Rltb 0 0) with false by (symmetry; apply Rltb_false; lra).
  cbn [negb orb].
  set (w := Rmax 1 (width r)). set (h := Rmax 1 (height r)).
  assert (Hw : Rmax 1 w = w) by (apply Rmax_right, Rmax_l).
  assert (Hh : Rmax 1 h = h) by (apply Rmax_right, Rmax_l).
  rewrite Hw, Hh.
  split; [reflexivity|].
  assert (E : forall a b c d : R, a = c -> b = d -> Pt a b = Pt c d)
    by (intros; subst; reflexivity).
  repeat (f_equal; [apply E; field|]). f_equal. apply E; field.
Qed.

(** X19. Over the reals [getTargetRect] after [setTargetFromRect(r)]
    gives [r] back when [r] is at least 1 px wide and high; in any case
    it has the centre of [r] and sides raised to at least 1. The motion
    returned is measured from the previous centre, so giving the same
    rectangle again reports a motion of length zero and leaves the
    target as it is. *)
Theorem setTargetFromRect_round_trip :
  forall (cfgm : ConfigMore R) (s : SquishRect.t R) (r : Rect R),
    let s1 := fst (SquishRect.setTargetFromRect cfgm s r) in
    let T := SquishRect.getTargetRect s1 in
    let again := SquishRect.setTargetFromRect cfgm s1 r in
    (1 <= width r -> 1 <= height r -> T = r)
    /\ left T + width T / 2 = left r + width r / 2
    /\ top T + height T / 2 = top r + height r / 2
    /\ width T = Rmax 1 (width r) /\ height T = Rmax 1 (height r)
    /\ CursorSquish.dx (snd again) = 0 /\ CursorSquish.dy (snd again) = 0
    /\ CursorSquish.dist (snd again) = 0
    /\ fst again = s1.
Proof.
  intros cfgm s r s1 T again. subst again T s1.
  unfold SquishRect.setTargetFromRect, SquishRect.getTargetRect.
  cbn [fst snd SquishRect.squish SquishRect.last_cx SquishRect.last_cy
       CursorSquish.target CursorSquish.t_cx CursorSquish.t_cy CursorSquish.t_w
       CursorSquish.t_h CursorSquish.dx CursorSquish.dy CursorSquish.dist
       CursorSquish.corners left top width height].
  at_R.
  set (w := Rmax 1 (width r)). set (h := Rmax 1 (height r)).
  assert (Hw : Rmax 1 w = w) by (apply Rmax_right, Rmax_l).
  assert (Hh : Rmax 1 h = h) by (apply Rmax_right, Rmax_l).
  rewrite Hw, Hh.
  split; [|split; [|split; [|split; [|split; [|split; [|split; [|split]]]]]]].
  - intros H1 H2.
    assert (Ew : w = width r) by (unfold w; apply Rmax_right; lra).
    assert (Eh : h = height r) by (unfold h; apply Rmax_right; lra).
    rewrite Ew, Eh. destruct r as [l t wd ht]. cbn [left top width height].
    f_equal; field.
  - field.
  - field.
  - reflexivity.
  - reflexivity.
  - ring.
  - ring.
  - rewrite !Rminus_diag. replace (0 * 0 + 0 * 0) with 0 by ring. apply sqrt_0.
  - reflexivity.
Qed.

(** ** The padded corner polygon and the bounding rectangle *)

Lemma Forall2_map_r {T U} (R1 : T -> U -> Prop) (f : T -> U) (l : list T) :
  (forall x, In x l -> R1 x (f x)) -> Forall2 R1 l (map f l).
Proof.
  induction l as [|a l IH]; intros Hf; cbn [map]; constructor.
  - apply Hf. now left.
  - apply IH. intros x Hx. apply Hf. now right.
Qed.

(** X20. Over the reals [getCornerPolygon(padPx)] returns the corner
    positions themselves when [padPx] is not positive; otherwise every
    corner is pushed straight away from the centroid of the corners by
    exactly [padPx] (a corner closer than [1e-6] to the centroid stays
    where it is). *)
Theorem getCornerPolygon_pads_radially :
  forall (s : SquishRect.t R) (padPx : R),
    let pts := SquishRect.cornerPoints s in
    let out := SquishRect.getCornerPolygon s padPx in
    let c := polygonCenter pts in
    (padPx <= 0 -> out = pts)
    /\ (0 < padPx ->
        Forall2
          (fun p q =>
             (pointDist p c < 1 / 1000000 /\ q = p)
             \/ (1 / 1000000 <= pointDist p c
                 /\ pointDist q c = pointDist p c + padPx
                 /\ q = Pt (Point.x c + (Point.x p - Point.x c)
                                        * ((pointDist p c + padPx) / pointDist p c))
                           (Point.y c + (Point.y p - Point.y c)
                                        * ((pointDist p c + padPx) / pointDist p c))))
          pts out).
Proof.
  intros s padPx pts out c. subst out. unfold SquishRect.getCornerPolygon.
  fold pts. at_R. split.
  - intros Hp. rewrite (proj2 (Rltb_false _ _) Hp). reflexivity.
  - intros Hp. rewrite (proj2 (Rltb_true _ _) Hp). cbn [negb orb].
    destruct (Nat.eqb_spec (length pts) 0) as [E0|Hne].
    { destruct pts; [constructor | discriminate]. }
    assert (Ec : c = Pt (fold_left (fun s p => s + Point.x p) pts 0
                         / IZR (Z.of_nat (length pts)))
                        (fold_left (fun s p => s + Point.y p) pts 0
                         / IZR (Z.of_nat (length pts)))).
    { unfold c, polygonCenter. at_R.
      replace (Nat.max 1 (length pts)) with (length pts) by lia. reflexivity. }
    rewrite Ec. cbn [Point.x Point.y].
    set (cx := fold_left _ pts 0 / _). set (cy := fold_left _ pts 0 / _).
    apply Forall2_map_r. intros p _. unfold eps6, dec. at_R.
    assert (Ed : R_sqrt.sqrt ((Point.x p - cx) * (Point.x p - cx)
                              + (Point.y p - cy) * (Point.y p - cy))
                 = pointDist p (Pt cx cy)) by reflexivity.
    rewrite Ed. set (len := pointDist p (Pt cx cy)).
    destruct (Rltb len (1 / 1000000)) eqn:E.
    + apply Rltb_true in E. left. split; [exact E | now destruct p].
    + apply Rltb_false in E. right. split; [exact E|]. split; [|reflexivity].
      unfold pointDist. cbn [Point.x Point.y]. at_R.
      replace (cx + (Point.x p - cx) * ((len + padPx) / len) - cx)
        with ((Point.x p - cx) * ((len + padPx) / len)) by ring.
      replace (cy + (Point.y p - cy) * ((len + padPx) / len) - cy)
        with ((Point.y p - cy) * ((len + padPx) / len)) by ring.
      assert (Hs : 0 <= (len + padPx) / len)
        by (apply Rlt_le, Rdiv_lt_0_compat; lra).
      pose proof (hypot_scale (Point.x p - cx) (Point.y p - cy) _ Hs) as Hsc.
      at_R. rewrite Hsc, Ed. fold len. field. lra.
Qed.

(** The first frame of X18 with the shipped padding of 2 px. *)
Lemma getCornerPolygon_pads_radially_witness :
  let s := fst (SquishRect.step CFG
                  (fst (SquishRect.setTargetFromRect CFG_more (SquishRect.make CFG)
                          {| left := 0; top := 0; width := 8; height := 18 |}))
                  (16 / 1000) CursorSquish.NO_MOTION) in
  0 < 2
  /\ length (SquishRect.getCornerPolygon s 2) = length (SquishRect.cornerPoints s).
Proof.
  intros s. assert (Hp : 0 < 2) by lra. split; [exact Hp|].
  symmetry.
  exact (Forall2_length (proj2 (getCornerPolygon_pads_radially s 2) Hp)).
Defined.

(** X21. Over the reals the rectangle [getAabbRect] returns for a
    controller with corners contains every corner position and is at
    least 1 px wide and high. *)
Theorem getAabbRect_contains_corners :
  forall (s : SquishRect.t R),
    (0 < length (SquishRect.cornerPoints s))%nat ->
    exists box,
      SquishRect.getAabbRect s = Some box
      /\ 1 <= width box /\ 1 <= height box
      /\ forall p, In p (SquishRect.cornerPoints s) ->
           left box <= Point.x p <= left box + width box
           /\ top box <= Point.y p <= top box + height box.
Proof.
  intros s Hlen. unfold SquishRect.getAabbRect.
  destruct (aabbFromPolygon_attained _ Hlen) as (b & -> & Hall & _).
  eexists. split; [reflexivity|]. cbn [left top width height]. at_R.
  split; [apply Rmax_l|]. split; [apply Rmax_l|].
  intros p Hp. destruct (Hall p Hp) as [Hx Hy].
  pose proof (Rmax_r 1 (maxX b - minX b)).
  pose proof (Rmax_r 1 (maxY b - minY b)). lra.
Qed.

Lemma first_frame_corner_count (r : Rect R) (dtSec : R)
      (motionInfo : CursorSquish.MotionInfo R) :
  length (SquishRect.cornerPoints
            (fst (SquishRect.step CFG
                    (fst (SquishRect.setTargetFromRect CFG_more (SquishRect.make CFG) r))
                    dtSec motionInfo))) = 4%nat.
Proof.
  unfold SquishRect.step, SquishRect.setTargetFromRect, SquishRect.make,
    SquishRect.cornerPoints, CursorSquish.step, CursorSquish.make,
    CursorSquish.REL_CORNERS.
  cbn [fst snd SquishRect.squish CursorSquish.corners CursorSquish.target map
       CursorSquish.stepCorners CursorSquish.t_cx CursorSquish.t_cy
       CursorSquish.t_w CursorSquish.t_h].
  rewrite !Corner_update_fresh. reflexivity.
Qed.

(** The controller after its first frame. *)
Lemma getAabbRect_contains_corners_witness :
  let s := fst (SquishRect.step CFG
                  (fst (SquishRect.setTargetFromRect CFG_more (SquishRect.make CFG)
                          {| left := 0; top := 0; width := 8; height := 18 |}))
                  (16 / 1000) CursorSquish.NO_MOTION) in
  (0 < length (SquishRect.cornerPoints s))%nat
  /\ exists box, SquishRect.getAabbRect s = Some box /\ 1 <= width box.
Proof.
  intros s.
  assert (Hl : (0 < length (SquishRect.cornerPoints s))%nat)
    by (unfold s; rewrite first_frame_corner_count; lia).
  split; [exact Hl|].
  destruct (getAabbRect_contains_corners s Hl) as (box & E & Hw & _).
  exists box. split; [exact E | exact Hw].
Defined.

(** * Further properties of the frame scalars *)

Lemma round_R_bounds (a : R) : a - 1 / 2 < round a <= a + 1 / 2.
Proof.
  unfold round, floor, dec. at_R.
  pose proof (Zfloor_bound (a + 1 / 2)). lra.
Qed.

Lemma round_R_integer (k : Z) : round (IZR k) = IZR k.
Proof. apply round_R_eq. lra. Qed.

(** X22. Over the reals, with a positive device pixel ratio,
    [snapToDevicePixel] moves a coordinate by at most half a device
    pixel, lands on a whole number of device pixels, and snapping twice
    is snapping once; a pixel ratio of [0] counts as [1]. *)
Theorem snapToDevicePixel_half_pixel :
  forall (cfgm : ConfigMore R) (devicePixelRatio v : R),
    0 < devicePixelRatio ->
    let s := snapToDevicePixel cfgm devicePixelRatio v in
    Rabs (s - v) <= 1 / (2 * devicePixelRatio)
    /\ snapToDevicePixel cfgm devicePixelRatio s = s
    /\ (motion_snapCenterToDevicePixel cfgm = true ->
        exists k : Z, s * devicePixelRatio = IZR k)
    /\ snapToDevicePixel cfgm 0 v = snapToDevicePixel cfgm 1 v.
Proof.
  intros cfgm dpr v Hd s. subst s. unfold snapToDevicePixel. cbv zeta. at_R.
  assert (Hinv : 0 < 1 / (2 * dpr)) by (apply Rdiv_lt_0_compat; lra).
  rewrite (orElse_zero 0 1 eq_refl), (orElse_R_nonzero 1) by lra.
  rewrite (orElse_R_nonzero dpr) by lra.
  destruct (motion_snapCenterToDevicePixel cfgm); cbn [negb].
  2:{ rewrite Rminus_diag, Rabs_R0. repeat split; try lra; try discriminate. }
  at_R.
  pose proof (round_R_bounds (v * dpr)) as Hb.
  assert (Hk : round (v * dpr) = IZR (Zfloor (v * dpr + 1 / 2)))
    by (unfold round, floor, dec; at_R; reflexivity).
  split; [|split; [|split]].
  - replace (round (v * dpr) / dpr - v) with ((round (v * dpr) - v * dpr) / dpr)
      by (field; lra).
    unfold Rdiv at 1. rewrite Rabs_mult, (Rabs_pos_eq (/ dpr))
      by (apply Rlt_le, Rinv_0_lt_compat; lra).
    replace (1 / (2 * dpr)) with (1 / 2 * / dpr) by (field; lra).
    apply Rmult_le_compat_r; [apply Rlt_le, Rinv_0_lt_compat; lra|].
    apply Rabs_le. lra.
  - replace (round (v * dpr) / dpr * dpr) with (round (v * dpr)) by (field; lra).
    rewrite Hk at 1. now rewrite round_R_integer, <- Hk.
  - intros _. exists (Zfloor (v * dpr + 1 / 2)). rewrite <- Hk. field. lra.
  - reflexivity.
Qed.

(** A caret centre at 100.3 px on a display with pixel ratio 2. *)
Lemma snapToDevicePixel_half_pixel_witness :
  0 < 2
  /\ Rabs (snapToDevicePixel CFG_more 2 (1003 / 10) - 1003 / 10) <= 1 / (2 * 2).
Proof.
  assert (Hd : 0 < 2) by lra. split; [exact Hd|].
  exact (proj1 (snapToDevicePixel_half_pixel CFG_more 2 (1003 / 10) Hd)).
Defined.

(** ** Width and opacity of a trail sample *)

Lemma clamp_R_mono (a b lo hi : R) : a <= b -> clamp a lo hi <= clamp b lo hi.
Proof.
  intros Hab. unfold clamp. at_R.
  unfold Rmin, Rmax. repeat destruct (Rle_dec _ _); lra.
Qed.

Lemma ageFrac_facts (now stamp : R) :
  0 <= ageFrac CFG now stamp <= 1
  /\ (stamp + 256 <= now -> ageFrac CFG now stamp = 1)
  /\ (now <= stamp -> ageFrac CFG now stamp = 0).
Proof.
  unfold ageFrac. cbn [CFG trail_ttlMs]. at_R.
  split; [apply clamp_R_bounds; lra|]. split; intros Hn.
  - unfold clamp. at_R.
    assert (1 <= (now - stamp) / 256).
    { apply Rmult_le_reg_r with 256; [lra|].
      unfold Rdiv. rewrite Rmult_assoc, Rinv_l by lra. lra. }
    rewrite Rmax_left by lra. apply Rmin_right. lra.
  - unfold clamp. at_R.
    assert ((now - stamp) / 256 <= 0).
    { apply Rmult_le_reg_r with 256; [lra|].
      unfold Rdiv. rewrite Rmult_assoc, Rinv_l by lra. lra. }
    rewrite Rmax_right by lra. apply Rmin_left. lra.
Qed.

Lemma scaleExtraOf_shipped (bounceX : R) :
  - (4 / 100) <= scaleExtraOf CFG_more bounceX <= 32 / 100.
Proof.
  unfold scaleExtraOf. cbn [CFG_more overshoot_enabled overshoot_gain
                            overshoot_minScale overshoot_maxScale].
  unfold dec. at_R. apply clamp_R_bounds. lra.
Qed.

(** X23. Over the reals and with the shipped configuration, whatever the
    oscillator state: a trail sample is drawn scaled by a factor between
    0.192 and 1.32 (the floor of 0.05 is never reached) and with an
    opacity between 0 and the trail opacity; neither grows as the sample
    ages, and a sample as old as [ttlMs] or older is drawn with opacity
    zero. *)
Theorem trail_sample_fades_out :
  forall (bounceX trailOpacity now later stamp : R),
    0 <= trailOpacity <= 1 -> now <= later ->
    let scaleExtra := scaleExtraOf CFG_more bounceX in
    let scale t := polyScaleAt scaleExtra (ageFrac CFG t stamp) in
    let alpha t := alphaAt CFG (ageFrac CFG t stamp) trailOpacity in
    192 / 1000 <= scale now <= 132 / 100
    /\ 0 <= alpha now <= trailOpacity
    /\ scale later <= scale now
    /\ alpha later <= alpha now
    /\ (stamp + 256 <= now -> alpha now = 0).
Proof.
  intros bounceX op now later stamp Hop Hlater scaleExtra scale alpha.
  pose proof (scaleExtraOf_shipped bounceX) as Hse. fold scaleExtra in Hse.
  assert (Hmono : ageFrac CFG now stamp <= ageFrac CFG later stamp).
  { unfold ageFrac. apply clamp_R_mono. cbn [CFG trail_ttlMs]. at_R.
    apply Rmult_le_compat_r; lra. }
  destruct (ageFrac_facts now stamp) as (Hf & Hold & _).
  destruct (ageFrac_facts later stamp) as (Hf' & _ & _).
  assert (Hscale : forall f, 0 <= f <= 1 ->
             polyScaleAt scaleExtra f
             = (1 + scaleExtra) * (20 / 100 + 80 / 100 * (1 - f))).
  { intros f Hfr. unfold polyScaleAt, TRAIL_WIDTH_ENVELOPE_AT, dec. at_R.
    apply Rmax_right. nra. }
  assert (Halpha : forall f, 0 <= f <= 1 ->
             alphaAt CFG f op = (1 - f) * op).
  { intros f Hfr. unfold alphaAt. cbn [CFG trail_minAlpha]. at_R.
    apply clamp_R_id. nra. }
  subst scale alpha. cbv beta.
  rewrite !Hscale, !Halpha by assumption.
  split; [split; nra|]. split; [split; nra|]. split; [nra|]. split; [nra|].
  intros Ho. rewrite (Hold Ho). ring.
Qed.

(** A sample 100 ms old, drawn again 16 ms later. *)
Lemma trail_sample_fades_out_witness :
  0 <= 69 / 100 <= 1 /\ 100 <= 116
  /\ alphaAt CFG (ageFrac CFG 116 0) (69 / 100)
     <= alphaAt CFG (ageFrac CFG 100 0) (69 / 100).
Proof.
  assert (Ho : 0 <= 69 / 100 <= 1) by lra.
  assert (Hl : 100 <= 116) by lra.
  split; [exact Ho|]. split; [exact Hl|].
  exact (proj1 (proj2 (proj2 (proj2
           (trail_sample_fades_out 0 (69 / 100) 100 116 0 Ho Hl))))).
Defined.

(** ** The staged quality cuts of [draw] *)

Lemma clampedQuality_shipped (q : R) :
  38 / 100 <= clamp q (performance_qualityMin CFG) 1 <= 1.
Proof.
  cbn [CFG performance_qualityMin]. unfold dec. at_R. apply clamp_R_bounds. lra.
Qed.

(** X24. Over the reals and with the shipped configuration, for every
    quality scalar: [draw] works with a quality in [[0.38, 1]], always
    four ribbon sides, between 2 and 6 subdivisions per pair, a shadow
    scale in [[0, 1]] and a history of 30 samples or, once cut, between
    11 and 15. The cuts are staged: at quality 0.68 or more nothing but
    the subdivisions is cut, and the history is shortened only when the
    shadow is already reduced. *)
Theorem drawParams_staged :
  forall perfQuality : R,
    let p := drawParams CFG CFG_more perfQuality in
    38 / 100 <= clampedQuality p <= 1
    /\ effectiveRibbonSides p = 4
    /\ 2 <= effectiveMaxDrawSubdivisions p <= 6
    /\ effectiveDrawSubdivideStep p = 72 / 100 / clampedQuality p
    /\ 0 <= shadowScale p <= 1
    /\ (effectiveMaxRects p = 30 \/ 11 <= effectiveMaxRects p <= 15)
    /\ (68 / 100 <= clampedQuality p ->
        effectiveMaxRects p = 30 /\ shadowScale p = 1)
    /\ (effectiveMaxRects p < 30 -> shadowScale p < 1).
Proof.
  intros q p. subst p. unfold drawParams.
  cbn [clampedQuality allowPostSubdivideCuts effectiveDrawSubdivideStep
       effectiveMaxDrawSubdivisions effectiveRibbonSides effectiveMaxRects
       shadowScale].
  pose proof (clampedQuality_shipped q) as Hq.
  set (cq := clamp q (performance_qualityMin CFG) (ofZ 1)) in *.
  change (clamp q (performance_qualityMin CFG) 1) with cq in Hq.
  cbn [CFG CFG_more performance_qualityMin performance_subdivideOnlyThreshold
       performance_blurStartThreshold performance_historyStartThreshold
       trail_drawSubdivideStepPx trail_maxDrawSubdivisions trail_ribbonSides
       trail_ribbonSidesMin trail_maxRects].
  unfold dec, lerp. at_R.
  split; [exact Hq|].
  assert (Hsides : Rmax 3 (round (4 + (4 - 4) * cq)) = 4).
  { replace (4 + (4 - 4) * cq) with (IZR 4) by ring.
    rewrite round_R_integer. apply Rmax_right. lra. }
  split; [exact Hsides|].
  pose proof (round_R_bounds (6 * cq)) as Hr6.
  assert (H6 : 2 <= round (6 * cq) <= 6).
  { unfold round, floor, dec in *. at_R.
    split.
    - apply (IZR_le 2). apply Zfloor_lub. lra.
    - apply (IZR_le _ 6).
      assert (Zfloor (6 * cq + 1 / 2) < 7)%Z; [|lia].
      apply lt_IZR. pose proof (Zfloor_bound (6 * cq + 1 / 2)). lra. }
  split; [rewrite Rmax_right by lra; exact H6|].
  split; [f_equal; apply Rmax_left; lra|].
  assert (H30 : forall x, 38 / 100 <= x -> x < 50 / 100 ->
                 11 <= Rmax 8 (round (IZR (Z.of_nat 30) * x)) <= 15).
  { intros x Hx1 Hx2. change (IZR (Z.of_nat 30)) with 30.
    assert (11 <= round (30 * x) <= 15).
    { unfold round, floor, dec. at_R. split.
      - apply (IZR_le 11). apply Zfloor_lub. lra.
      - apply (IZR_le _ 15).
        assert (Zfloor (30 * x + 1 / 2) < 16)%Z; [|lia].
        apply lt_IZR. pose proof (Zfloor_bound (30 * x + 1 / 2)). lra. }
    rewrite Rmax_right by lra. assumption. }
  assert (Hshadow : forall x, 38 / 100 <= x -> x < 66 / 100 ->
                      0 <= clamp ((x - 38 / 100) / Rmax (1 / 10000) (66 / 100 - 38 / 100))
                                 0 1 < 1).
  { intros x Hx1 Hx2. rewrite (Rmax_right (1 / 10000)) by lra.
    assert (0 <= (x - 38 / 100) / (66 / 100 - 38 / 100) < 1).
    { replace ((x - 38 / 100) / (66 / 100 - 38 / 100))
        with ((x - 38 / 100) * (100 / 28)) by field. lra. }
    rewrite clamp_R_id by lra. assumption. }
  change (IZR (Z.of_nat 30)) with 30 in *.
  destruct (Rltb cq (68 / 100)) eqn:E68;
    [apply Rltb_true in E68 | apply Rltb_false in E68];
    destruct (Rltb cq (66 / 100)) eqn:E66;
    [apply Rltb_true in E66 | apply Rltb_false in E66 | apply Rltb_true in E66
     | apply Rltb_false in E66];
    destruct (Rltb cq (50 / 100)) eqn:E50;
    [apply Rltb_true in E50 | apply Rltb_false in E50 | apply Rltb_true in E50
     | apply Rltb_false in E50 | apply Rltb_true in E50 | apply Rltb_false in E50
     | apply Rltb_true in E50 | apply Rltb_false in E50];
    cbn [andb]; try (exfalso; lra).
  all: try (pose proof (H30 cq ltac:(lra) ltac:(lra)) as R30).
  all: try (pose proof (Hshadow cq ltac:(lra) ltac:(lra)) as S66).
  all: repeat split; try lra; try (right; lra); try (left; reflexivity).
Qed.

(** * Further properties of the trail store *)

(** X26. For every carrier, a push reads the buffer only to append to it:
    what it appends and what it leaves in [lastPushed] depend on
    [lastPushed] alone, which [pruneTrail] never touches. So a push after
    a prune appends the same samples as it would without the prune, and a
    caret that rests until its trail is pruned away is still compared
    with the last sample pushed; pruning twice at the same time is
    pruning once. *)
Theorem push_after_prune :
  forall (A : Type) (N : Num A) (M : JSMath A) (cfg : Config A)
         (st : TrailState A) (now : A) (poly : Polygon A)
         (target : option (Point.t A)) (stampMs perfQuality : A),
    let pruned := pruneTrail cfg st now in
    let st1 := pushTrailPolygon cfg st poly target stampMs perfQuality in
    let st2 := pushTrailPolygon cfg pruned poly target stampMs perfQuality in
    lastPushed pruned = lastPushed st
    /\ pruneTrail cfg pruned now = pruned
    /\ lastPushed st2 = lastPushed st1
    /\ ((st1 = st /\ st2 = pruned)
        \/ exists new,
             trail st1 = capTrail cfg (trail st ++ new)
             /\ trail st2 = capTrail cfg (trail pruned ++ new)).
Proof.
  intros A N M cfg st now poly target stampMs q pruned st1 st2.
  assert (HL : lastPushed pruned = lastPushed st) by reflexivity.
  split; [exact HL|]. split.
  { assert (E : trail (pruneTrail cfg pruned now) = trail pruned).
    { rewrite pruneTrail_filter. unfold pruned. rewrite pruneTrail_filter.
      generalize (trail st). intros l.
      induction l as [|s l IH]; cbn [filter]; [reflexivity|].
      destruct (fresh cfg now s) eqn:E; cbn [filter]; [rewrite E|]; now rewrite ?IH. }
    destruct pruned as [tr lp] eqn:Ep.
    unfold pruneTrail in *. cbn [trail lastPushed] in *. now rewrite E. }
  subst st1 st2. generalize dependent pruned. intros pruned HL.
  unfold pushTrailPolygon. rewrite HL.
  destruct (length poly <? 3)%nat; [split; [congruence | now left]|].
  destruct (isValidTrailPolygon (preparePolygon cfg (lastPushed st) poly target));
    cbn [negb]; [|split; [congruence | now left]].
  destruct (lastPushed st) as [last|] eqn:Elp.
  - destruct (isValidTrailPolygon
                (smoothPolygon cfg last (preparePolygon cfg (Some last) poly target)
                               target));
      cbn [negb]; [|split; [congruence | now left]].
    destruct (ltb (interpMetric last _) (moveThreshold cfg));
      [split; [congruence | now left]|].
    cbn [lastPushed trail]. split; [reflexivity|]. right.
    exists (pushedEntries cfg last
              (smoothPolygon cfg last (preparePolygon cfg (Some last) poly target) target)
              target stampMs q).
    split; reflexivity.
  - cbn [lastPushed trail]. split; [reflexivity|]. right.
    exists [sampleOf stampMs (preparePolygon cfg None poly target)].
    split; reflexivity.
Qed.

(** ** Scaling a sample about its centre *)

Lemma sum_affine {T} (f : T -> R) (a k : R) (l : list T) :
  fold_left (fun s p => s + (a + (f p - a) * k)) l 0
  = IZR (Z.of_nat (length l)) * a
    + k * (fold_left (fun s p => s + f p) l 0 - IZR (Z.of_nat (length l)) * a).
Proof.
  rewrite (fold_left_map_sum (fun p => a + (f p - a) * k)), (fold_left_map_sum f).
  induction l as [|p l IH]; cbn [map fold_left length].
  - cbn [length Z.of_nat]. ring.
  - rewrite (fold_left_Rplus_shift _ (0 + _)), (fold_left_Rplus_shift _ (0 + f p)), IH.
    rewrite Nat2Z.inj_succ, succ_IZR. ring.
Qed.

(** X25. Over the reals [scalePolygonInto] keeps the number of vertices,
    is the identity at scale 1, composes (scaling by [s] and then by [s']
    about the same point is scaling by [s * s']), and scaling a polygon
    about its own centroid, as [draw] scales every trail sample, leaves
    the centroid where it is. *)
Theorem scalePolygonInto_about_centroid :
  forall (pts : Polygon R) (cx cy s s' : R),
    let c := polygonCenter pts in
    length (scalePolygonInto pts cx cy s) = length pts
    /\ scalePolygonInto pts cx cy 1 = pts
    /\ scalePolygonInto (scalePolygonInto pts cx cy s) cx cy s'
       = scalePolygonInto pts cx cy (s * s')
    /\ polygonCenter (scalePolygonInto pts (Point.x c) (Point.y c) s) = c.
Proof.
  intros pts cx cy s s' c.
  split; [unfold scalePolygonInto; apply length_map|].
  split.
  { unfold scalePolygonInto. rewrite <- (map_id pts) at 2.
    apply map_ext. intros [px py]. cbn [Point.x Point.y]. at_R. f_equal; ring. }
  split.
  { unfold scalePolygonInto. rewrite map_map. apply map_ext. intros p.
    cbn [Point.x Point.y]. at_R. f_equal; ring. }
  assert (Sum : forall (g : Point.t R -> Point.t R) (f : Point.t R -> R) (l : Polygon R),
             fold_left (fun s0 p => s0 + f p) (map g l) 0
             = fold_left (fun s0 p => s0 + f (g p)) l 0).
  { intros g f l.
    rewrite (fold_left_map_sum f (map g l)), (fold_left_map_sum (fun p => f (g p)) l).
    now rewrite map_map. }
  set (g := fun p : Point.t R =>
              Pt (Point.x c + (Point.x p - Point.x c) * s)
                 (Point.y c + (Point.y p - Point.y c) * s)).
  assert (Eg : scalePolygonInto pts (Point.x c) (Point.y c) s = map g pts) by reflexivity.
  rewrite Eg.
  assert (Ec : forall l : Polygon R,
             polygonCenter l
             = Pt (fold_left (fun s0 p => s0 + Point.x p) l 0
                   / IZR (Z.of_nat (Nat.max 1 (length l))))
                  (fold_left (fun s0 p => s0 + Point.y p) l 0
                   / IZR (Z.of_nat (Nat.max 1 (length l))))) by reflexivity.
  rewrite (Ec (map g pts)), length_map, !Sum.
  unfold g. cbn [Point.x Point.y].
  rewrite (sum_affine (@Point.x R)), (sum_affine (@Point.y R)).
  set (n := IZR (Z.of_nat (Nat.max 1 (length pts)))).
  assert (Hn : 0 < n) by (apply IZR_lt; lia).
  assert (Hc : c = Pt (fold_left (fun s0 p => s0 + Point.x p) pts 0 / n)
                      (fold_left (fun s0 p => s0 + Point.y p) pts 0 / n))
    by apply Ec.
  set (sx := fold_left (fun s0 p => s0 + Point.x p) pts 0) in *.
  set (sy := fold_left (fun s0 p => s0 + Point.y p) pts 0) in *.
  destruct pts as [|p0 rest].
  - subst sx sy. cbn [fold_left] in Hc. rewrite Hc. cbn [length Point.x Point.y].
    cbn [Z.of_nat fold_left]. f_equal; unfold Rdiv; ring.
  - assert (En : IZR (Z.of_nat (length (p0 :: rest))) = n)
      by (unfold n; do 2 f_equal; cbn [length]; lia).
    rewrite En. clearbody sx sy n. rewrite Hc. cbn [Point.x Point.y].
    f_equal; field; lra.
Qed.

(* --------------------------------------------------------------------- *)
(** *** The sections picked for the stacked cells *)

Lemma pickLoop_sorted (fuel i s last : nat) :
  (1 <= s)%nat ->
  StronglySorted lt (pickLoop fuel i s last)
  /\ Forall (fun x => (i <= x < last)%nat) (pickLoop fuel i s last).
Proof.
  intros Hs. revert i. induction fuel as [|fuel IH]; intros i; cbn [pickLoop].
  - split; constructor.
  - destruct (Nat.ltb_spec i last) as [Hi|Hi]; [|split; constructor].
    destruct (IH (i + s)%nat) as [Hsorted Hall]. split.
    + constructor; [exact Hsorted|].
      eapply Forall_impl; [|exact Hall]. cbv beta. intros x Hx. lia.
    + constructor; [lia|].
      eapply Forall_impl; [|exact Hall]. cbv beta. intros x Hx. lia.
Qed.

Lemma pickLoop_length (fuel i s last c : nat) :
  (last <= i + c * s)%nat -> (length (pickLoop fuel i s last) <= c)%nat.
Proof.
  revert i c. induction fuel as [|fuel IH]; intros i c Hc; cbn [pickLoop length].
  - lia.
  - destruct (Nat.ltb_spec i last) as [Hi|Hi]; cbn [length]; [|lia].
    destruct c as [|c]; [lia|].
    specialize (IH (i + s)%nat c). lia.
Qed.

Lemma pickLoop_complete (fuel i s last j : nat) :
  (1 <= s)%nat -> (last <= i + fuel)%nat -> (i + j * s < last)%nat ->
  In (i + j * s)%nat (pickLoop fuel i s last).
Proof.
  intros Hs. revert i j. induction fuel as [|fuel IH]; intros i j Hf Hj;
    cbn [pickLoop].
  - lia.
  - destruct (Nat.ltb_spec i last) as [Hi|Hi]; [|nia].
    destruct j as [|j].
    + left. lia.
    + right. replace (i + S j * s)%nat with (i + s + j * s)%nat by lia.
      apply IH; lia.
Qed.

Lemma maxCellsOf_shipped (q : R) :
  exists k : Z, (1 <= k)%Z /\ maxCellsOf CFG_more q = IZR k.
Proof.
  unfold maxCellsOf. cbn [stackHex_maxCellsPerFrame CFG_more].
  rewrite orElse_R_nonzero by (at_R; lra).
  unfold round, floor, dec. at_R.
  set (z := Zfloor _).
  exists (Z.max 1 z). split; [lia|].
  unfold Rmax at 1. destruct (Rle_dec 1 (IZR z)) as [Hz|Hz].
  - apply le_IZR in Hz. f_equal. lia.
  - assert (z < 1)%Z by (apply lt_IZR; lra). f_equal. lia.
Qed.

Lemma strideOf_R (L : nat) (k : Z) :
  (1 <= k)%Z -> (1 <= L)%nat ->
  exists s : nat,
    strideOf L (IZR k) = IZR (Z.of_nat s) /\ (1 <= s)%nat
    /\ (Z.of_nat L - 1 <= Z.of_nat s * k)%Z.
Proof.
  intros Hk HL. unfold strideOf, ceil. at_R.
  set (a := IZR (Z.of_nat L - 1) / IZR k).
  set (c := (- Zfloor (- a))%Z).
  assert (Hkpos : 0 < IZR k) by (apply IZR_lt; lia).
  assert (Ha : 0 <= a).
  { unfold a. apply Rmult_le_pos; [apply IZR_le; lia|].
    left. now apply Rinv_0_lt_compat. }
  assert (Hc : a <= IZR c < a + 1).
  { unfold c. rewrite opp_IZR. pose proof (Zfloor_bound (- a)). lra. }
  exists (Z.to_nat (Z.max 1 c)).
  assert (Hc0 : (0 <= c)%Z).
  { apply Z.lt_succ_r. apply lt_IZR. rewrite succ_IZR. lra. }
  rewrite Z2Nat.id by lia. repeat split.
  - unfold Rmax. destruct (Rle_dec 1 (IZR c)) as [Hz|Hz].
    + apply le_IZR in Hz. f_equal. lia.
    + assert (c < 1)%Z by (apply lt_IZR; lra). f_equal. lia.
  - lia.
  - apply le_IZR. rewrite mult_IZR.
    assert (IZR (Z.of_nat L - 1) = a * IZR k) by (unfold a; field; lra).
    assert (IZR c <= IZR (Z.max 1 c)) by (apply IZR_le; lia).
    nra.
Qed.

(** X27. Over the reals, with the shipped cell budget of 48 and any
    quality, the sections [drawStackedHexTrail] picks out of two or more
    start with the first and end with the last, strictly increase, contain
    every multiple of the stride below the last index, and leave at most
    [maxCells] cells between them. *)
Theorem picked_sections_within_budget (L : nat) (q : R) :
  (2 <= L)%nat ->
  let maxCells := maxCellsOf CFG_more q in
  let stride := strideOf L maxCells in
  let picked := pickedIndices L stride in
  hd 0%nat picked = 0%nat
  /\ List.last picked 0%nat = (L - 1)%nat
  /\ StronglySorted lt picked
  /\ (forall j : nat,
        (j * Z.to_nat (floorZ stride) < L - 1)%nat ->
        In (j * Z.to_nat (floorZ stride))%nat picked)
  /\ IZR (Z.of_nat (length picked - 1)) <= maxCells.
Proof.
  intros HL maxCells stride picked.
  destruct (maxCellsOf_shipped q) as [k [Hk Em]].
  destruct (strideOf_R L k Hk ltac:(lia)) as [s [Es [Hs Hsk]]].
  assert (EsN : Z.to_nat (floorZ stride) = s).
  { unfold stride, maxCells. rewrite Em, Es. at_R. rewrite ZfloorZ. lia. }
  unfold picked, pickedIndices. rewrite EsN.
  set (body := pickLoop L s s (L - 1)).
  destruct (pickLoop_sorted L s s (L - 1) Hs) as [Hsorted Hall].
  fold body in Hsorted, Hall.
  assert (Hlast : List.last (0%nat :: body) 0%nat <> (L - 1)%nat).
  { destruct (exists_last (l := 0%nat :: body) ltac:(discriminate))
      as [front [x Ex]].
    rewrite Ex, last_last.
    assert (Hin : In x (0%nat :: body)) by (rewrite Ex; apply in_elt).
    destruct Hin as [<-|Hin]; [lia|].
    rewrite Forall_forall in Hall. specialize (Hall x Hin). lia. }
  apply Nat.eqb_neq in Hlast. rewrite Hlast. cbv iota.
  assert (Hlen : (length body <= Z.to_nat k - 1)%nat).
  { apply Nat.le_trans with (length (pickLoop L s s (L - 1))); [reflexivity|].
    apply pickLoop_length. nia. }
  repeat split.
  - apply last_last.
  - change (0%nat :: body) with ([0%nat] ++ body). rewrite <- app_assoc.
    cbn [app]. constructor.
    + clear Hlast Hlen. induction Hsorted as [|x l Hl IH Hx]; cbn [app].
      * repeat constructor.
      * inversion Hall as [|x' l' Hx' Hall']; subst.
        constructor; [now apply IH|].
        apply Forall_app. split; [exact Hx|]. constructor; [lia|constructor].
    + apply Forall_app. split.
      * eapply Forall_impl; [|exact Hall]. cbv beta. intros x Hx. lia.
      * constructor; [lia|constructor].
  - intros j Hj. apply in_or_app. left.
    destruct j as [|j]; [now left|]. right.
    replace (S j * s)%nat with (s + j * s)%nat by lia.
    apply pickLoop_complete; lia.
  - unfold maxCells. rewrite Em. apply IZR_le.
    rewrite length_app. cbn [length]. lia.
Qed.

Lemma picked_sections_within_budget_witness :
  (2 <= 200)%nat
  /\ List.last (pickedIndices 200 (strideOf 200 (maxCellsOf CFG_more (1 / 2)))) 0%nat
     = 199%nat.
Proof.
  split; [lia|].
  apply (picked_sections_within_budget 200 (1 / 2)). lia.
Defined.

(* --------------------------------------------------------------------- *)
(** *** Resampling an outline *)

Lemma resampleWalk_length {A : Type} `{JSMath A} (src : Polygon A) (el : list A)
    (total : A) (dstN : nat) (todo : list nat) (w : Walk) :
  length (resampleWalk src el total dstN todo w) = length todo.
Proof.
  revert w. induction todo as [|i rest IH]; intros w; cbn [resampleWalk length].
  - reflexivity.
  - now rewrite IH.
Qed.

Lemma map_copy_at_seq {A : Type} `{JSMath A} (src : Polygon A) :
  map (fun i => Pt (Point.x (at_ src i)) (Point.y (at_ src i))) (seq 0 (length src))
  = src.
Proof.
  unfold at_. induction src as [|p rest IH]; [reflexivity|].
  cbn [length seq map nth]. rewrite <- seq_shift, map_map. cbn [nth].
  rewrite IH. now destruct p.
Qed.

(** X28. [resamplePolygonInto] gives nothing for fewer than three
    vertices and otherwise [max(3, outSides | 0)] of them; an outline
    that already has that many vertices is copied unchanged. *)
Theorem resamplePolygonInto_counts {A : Type} `{JSMath A}
    (src : Polygon A) (outSides : A) :
  let dstN := Z.to_nat (Z.max 3 (toInt32 outSides)) in
  ((length src < 3)%nat -> resamplePolygonInto src outSides = [])
  /\ ((3 <= length src)%nat -> length (resamplePolygonInto src outSides) = dstN)
  /\ ((3 <= length src)%nat -> length src = dstN ->
      resamplePolygonInto src outSides = src).
Proof.
  intros dstN. unfold resamplePolygonInto. fold dstN. repeat split.
  - intros Hn. apply Nat.ltb_lt in Hn. now rewrite Hn.
  - intros Hn. apply Nat.ltb_ge in Hn. rewrite Hn.
    destruct (length src =? dstN)%nat.
    + now rewrite length_map, length_seq.
    + destruct (negb _).
      * now rewrite length_map, length_seq.
      * now rewrite resampleWalk_length, length_seq.
  - intros Hn E. apply Nat.ltb_ge in Hn. rewrite Hn.
    rewrite <- E, Nat.eqb_refl. apply map_copy_at_seq.
Qed.

(** The arc length from the first vertex to vertex [e]. *)
Lemma cum_step_from (el : list R) (e : nat) (acc : R) :
  fold_left Rplus (firstn (S e) el) acc
  = fold_left Rplus (firstn e el) acc + nth e el 0.
Proof.
  revert e acc. induction el as [|a l IH]; intros e acc.
  - rewrite !firstn_nil. destruct e; cbn [fold_left nth]; lra.
  - destruct e as [|e].
    + cbn [firstn fold_left nth]. reflexivity.
    + rewrite !firstn_cons. cbn [fold_left nth]. apply IH.
Qed.

Lemma sum_at_least (c : R) (l : list R) :
  Forall (fun len => c <= len) l ->
  c * IZR (Z.of_nat (length l)) <= fold_left Rplus l 0.
Proof.
  assert (G : forall acc, Forall (fun len => c <= len) l ->
              acc + c * IZR (Z.of_nat (length l)) <= fold_left Rplus l acc).
  { induction l as [|a l IH]; intros acc Hl; cbn [length fold_left].
    - cbn [Z.of_nat]. lra.
    - inversion Hl as [|a' l' Ha Hl']; subst.
      specialize (IH (acc + a) Hl').
      rewrite Nat2Z.inj_succ, succ_IZR. lra. }
  intros Hl. specialize (G 0 Hl). lra.
Qed.

Lemma edgeLengths_length (src : Polygon R) :
  length (edgeLengths src) = length src.
Proof. unfold edgeLengths. now rewrite length_map, length_seq. Qed.

Lemma edgeLengths_nth (src : Polygon R) (e : nat) :
  (e < length src)%nat ->
  nth e (edgeLengths src) 0
  = pointDist (at_ src ((e + 1) mod length src)) (at_ src e).
Proof.
  intros He. unfold edgeLengths.
  set (f := fun i : nat => _).
  rewrite (nth_indep _ 0 (f 0%nat)) by (now rewrite length_map, length_seq).
  rewrite map_nth, seq_nth by exact He. reflexivity.
Qed.

Section ResampleWalk.

Variable src : Polygon R.
Variable dstN : nat.

Local Abbreviation n := (length src).
Local Abbreviation el := (edgeLengths src).
Local Abbreviation cum e := (fold_left Rplus (firstn e el) 0).
Local Abbreviation total := (fold_left Rplus el 0).
Local Abbreviation target i := (total * IZR (Z.of_nat i) / IZR (Z.of_nat dstN)).

Hypothesis Hn : (3 <= n)%nat.
Hypothesis Hd : (1 <= dstN)%nat.
Hypothesis Hlong : Forall (fun len => 1 / 1000000 <= len) el.

(** What the walk keeps true of its variables before target [T]. *)
Local Abbreviation walkInv w T :=
  (lt (edgeIdx w) n
   /\ edgeStartCum w = cum (edgeIdx w)
   /\ edgeEndCum w = cum (S (edgeIdx w))
   /\ edgeStartCum w <= T).

(** Where an output vertex [p] for index [i] has to be. *)
Local Abbreviation placed i p :=
  (exists e : nat,
     (e < n)%nat
     /\ exists t : R,
          0 <= t <= 1
          /\ p = lerpPoint (at_ src e) (at_ src ((e + 1) mod n)) t
          /\ cum e + pointDist p (at_ src e) = target i).

Lemma total_nonneg : 0 <= total.
Proof.
  pose proof (sum_at_least (1 / 1000000) el Hlong) as G.
  assert (0 <= IZR (Z.of_nat (length el))) by (apply IZR_le; lia).
  nra.
Qed.

Lemma cum_all : cum n = total.
Proof. rewrite firstn_all2; [reflexivity|]. rewrite edgeLengths_length. lia. Qed.

Lemma target_le_total (i : nat) : (i < dstN)%nat -> target i <= total.
Proof.
  intros Hi. pose proof total_nonneg as Ht.
  assert (Hdp : 0 < IZR (Z.of_nat dstN)) by (apply IZR_lt; lia).
  assert (Hid : IZR (Z.of_nat i) <= IZR (Z.of_nat dstN)) by (apply IZR_le; lia).
  apply Rmult_le_reg_r with (IZR (Z.of_nat dstN)); [exact Hdp|].
  unfold Rdiv. rewrite Rmult_assoc, Rinv_l by lra. nra.
Qed.

Lemma target_mono (i : nat) : target i <= target (S i).
Proof.
  pose proof total_nonneg as Ht.
  assert (Hdp : 0 < IZR (Z.of_nat dstN)) by (apply IZR_lt; lia).
  rewrite Nat2Z.inj_succ, succ_IZR.
  unfold Rdiv. apply Rmult_le_compat_r; [left; now apply Rinv_0_lt_compat|]. nra.
Qed.

Lemma advance_inv (fuel : nat) (T : R) (w : Walk) :
  T <= total -> walkInv w T -> (n - 1 - edgeIdx w <= fuel)%nat ->
  walkInv (advance fuel el n T w) T /\ T <= edgeEndCum (advance fuel el n T w).
Proof.
  intros HT. revert w.
  induction fuel as [|fuel IH]; intros w (Hi & Hs & He & HsT) Hf; cbn [advance].
  - split; [now repeat split|].
    assert (Ei : S (edgeIdx w) = n) by lia.
    rewrite He, Ei, cum_all. exact HT.
  - destruct (Nat.ltb_spec (edgeIdx w) (n - 1)) as [Hlt|Hge]; cbn [andb].
    + at_R. destruct (Rltb (edgeEndCum w) T) eqn:Ecmp.
      * apply Rltb_true in Ecmp. apply IH.
        -- cbn [edgeIdx edgeStartCum edgeEndCum].
           rewrite Nat.add_1_r. repeat split.
           ++ lia.
           ++ exact He.
           ++ rewrite (cum_step_from el (S (edgeIdx w)) 0), He. reflexivity.
           ++ lra.
        -- cbn [edgeIdx]. lia.
      * apply Rltb_false in Ecmp. split; [now repeat split|lra].
    + split; [now repeat split|].
      assert (Ei : S (edgeIdx w) = n) by lia.
      rewrite He, Ei, cum_all. exact HT.
Qed.

Lemma walk_places (T : R) (w : Walk) :
  walkInv w T -> T <= edgeEndCum w ->
  let edgeLen := Rmax (1 / 1000000) (nth (edgeIdx w) el 0) in
  let t := clamp ((T - edgeStartCum w) / edgeLen) 0 1 in
  let a := at_ src (edgeIdx w) in
  let b := at_ src ((edgeIdx w + 1) mod n) in
  let p := Pt (lerp (Point.x a) (Point.x b) t) (lerp (Point.y a) (Point.y b) t) in
  0 <= t <= 1
  /\ p = lerpPoint a b t
  /\ cum (edgeIdx w) + pointDist p a = T.
Proof.
  intros (Hi & Hs & He & HsT) HTe edgeLen t a b p.
  assert (Hlen : 1 / 1000000 <= nth (edgeIdx w) el 0).
  { rewrite Forall_forall in Hlong. apply Hlong. apply nth_In.
    rewrite edgeLengths_length. exact Hi. }
  assert (EedgeLen : edgeLen = nth (edgeIdx w) el 0).
  { unfold edgeLen. apply Rmax_right. exact Hlen. }
  assert (Hspan : edgeEndCum w = edgeStartCum w + nth (edgeIdx w) el 0).
  { rewrite He, Hs. apply cum_step_from. }
  set (len := nth (edgeIdx w) el 0) in *.
  assert (Et : t = (T - edgeStartCum w) / len).
  { unfold t. rewrite EedgeLen. apply clamp_R_id. split.
    - apply Rmult_le_pos; [lra|]. left. apply Rinv_0_lt_compat. lra.
    - apply Rmult_le_reg_r with len; [lra|].
      unfold Rdiv. rewrite Rmult_assoc, Rinv_l by lra. lra. }
  assert (Ht : 0 <= t <= 1).
  { unfold t. apply clamp_R_unit. }
  split; [exact Ht|]. split; [reflexivity|].
  assert (Ed : pointDist p a = t * len).
  { unfold pointDist, p, lerp. cbn [Point.x Point.y].
    replace (@sub R _ (Point.x a + (Point.x b - Point.x a) * t) (Point.x a))
      with ((Point.x b - Point.x a) * t) by (at_R; ring).
    replace (@sub R _ (Point.y a + (Point.y b - Point.y a) * t) (Point.y a))
      with ((Point.y b - Point.y a) * t) by (at_R; ring).
    rewrite hypot_scale by lra. f_equal.
    unfold len. rewrite edgeLengths_nth by exact Hi. reflexivity. }
  rewrite Ed, Et, <- Hs. field. lra.
Qed.

Lemma resampleWalk_places (m k : nat) (w : Walk) :
  (k + m <= dstN)%nat -> walkInv w (target k) ->
  forall j : nat, (j < m)%nat ->
    placed (k + j)%nat
           (nth j (resampleWalk src el total dstN (seq k m) w) origin).
Proof.
  revert k w. induction m as [|m IH]; intros k w Hk Hw j Hj; [lia|].
  cbn [seq resampleWalk].
  assert (HT : target k <= total) by (apply target_le_total; lia).
  destruct (advance_inv n (target k) w HT Hw ltac:(lia)) as [Hw' Hend].
  set (w' := advance n el n (target k) w) in *.
  destruct j as [|j].
  - cbn [nth]. rewrite Nat.add_0_r.
    destruct (walk_places (target k) w' Hw' Hend) as (Ht & Ep & Ec).
    exists (edgeIdx w'). split; [apply Hw'|].
    eexists. split; [exact Ht|]. split; [exact Ep|exact Ec].
  - cbn [nth]. replace (k + S j)%nat with (S k + j)%nat by lia.
    apply IH; [lia| |lia].
    destruct Hw' as (Hi & Hs & He & HsT). repeat split; try assumption.
    exact (Rle_trans _ _ _ HsT (target_mono k)).
Qed.

End ResampleWalk.

Lemma toInt32_R_small (k : Z) :
  (0 <= k < 2 ^ 31)%Z -> toInt32 (IZR k) = k.
Proof.
  intros Hk. unfold toInt32. at_R.
  assert (E1 : Reqb (IZR k) (IZR k) = true) by now apply Reqb_true.
  assert (E2 : Rltb (IZR k) 0 = false) by (apply Rltb_false, IZR_le; lia).
  rewrite E1, E2. cbn [negb]. rewrite ZfloorZ.
  rewrite Z.mod_small by lia. lia.
Qed.

(** X29. Over the reals, when the outline has three or more vertices,
    another number of them than asked for, and no edge shorter than
    [1e-6], [resamplePolygonInto] spaces its vertices evenly along the
    outline: vertex [i] lies on an edge [e] of the source, at arc length
    [total * i / dstN] from the first source vertex. *)
Theorem resamplePolygonInto_equal_arcs (src : Polygon R) (outSides : R) (i : nat) :
  let n := length src in
  let dstN := Z.to_nat (Z.max 3 (toInt32 outSides)) in
  let el := edgeLengths src in
  (3 <= n)%nat -> n <> dstN ->
  Forall (fun len => 1 / 1000000 <= len) el ->
  (i < dstN)%nat ->
  let p := nth i (resamplePolygonInto src outSides) origin in
  exists e : nat,
    (e < n)%nat
    /\ exists t : R,
         0 <= t <= 1
         /\ p = lerpPoint (at_ src e) (at_ src ((e + 1) mod n)) t
         /\ fold_left Rplus (firstn e el) 0 + pointDist p (at_ src e)
            = fold_left Rplus el 0 * IZR (Z.of_nat i) / IZR (Z.of_nat dstN).
Proof.
  intros n dstN el Hn Hne Hlong Hi p.
  assert (Htotal : 1 / 1000000 < fold_left Rplus el 0).
  { pose proof (sum_at_least _ _ Hlong) as G.
    unfold el in G at 1. rewrite edgeLengths_length in G.
    assert (3 <= IZR (Z.of_nat n)) by (apply IZR_le; unfold n; lia).
    fold n in G. nra. }
  assert (Ep : p = nth (0 + i)
                     (resampleWalk src el (fold_left Rplus el 0) dstN (seq 0 dstN)
                        {| edgeIdx := 0; edgeEndCum := nth 0 el 0;
                           edgeStartCum := 0 |}) origin).
  { unfold p, resamplePolygonInto. fold n dstN el.
    assert (E1 : (n <? 3)%nat = false) by (apply Nat.ltb_ge; exact Hn).
    assert (E2 : (n =? dstN)%nat = false) by (apply Nat.eqb_neq; exact Hne).
    rewrite E1, E2.
    assert (E3 : @ltb R _ eps6 (fold_left (fun total len : R => total + len) el 0)
                 = true).
    { unfold eps6, dec. at_R. apply Rltb_true. exact Htotal. }
    at_R. rewrite E3. reflexivity. }
  rewrite Ep.
  apply (resampleWalk_places src dstN Hn ltac:(lia) Hlong dstN 0%nat); [lia| |exact Hi].
  cbn [edgeIdx edgeStartCum edgeEndCum]. repeat split.
  - unfold n in Hn. lia.
  - rewrite (cum_step_from (edgeLengths src) 0 0). cbn [firstn fold_left].
    unfold el. lra.
  - cbn [Z.of_nat]. unfold Rdiv. rewrite Rmult_0_r, Rmult_0_l. lra.
Qed.

Lemma hypot_comm (a b : R) : hypot a b = hypot b a.
Proof. at_R. f_equal. ring. Qed.

Lemma resamplePolygonInto_equal_arcs_witness :
  let src := [Pt 0 0; Pt 4 0; Pt 4 4; Pt 0 4] in
  let p := nth 1 (resamplePolygonInto src 6) origin in
  exists e : nat,
    (e < 4)%nat
    /\ exists t : R,
         0 <= t <= 1
         /\ p = lerpPoint (at_ src e) (at_ src ((e + 1) mod 4)) t
         /\ fold_left Rplus (firstn e (edgeLengths src)) 0 + pointDist p (at_ src e)
            = fold_left Rplus (edgeLengths src) 0 * IZR (Z.of_nat 1)
              / IZR (Z.of_nat (Z.to_nat (Z.max 3 (toInt32 6)))).
Proof.
  intros src p.
  assert (E6 : toInt32 6 = 6%Z) by (apply (toInt32_R_small 6); lia).
  apply (resamplePolygonInto_equal_arcs src 6 1).
  - cbn [length src]. lia.
  - rewrite E6. cbn [length src]. lia.
  - unfold edgeLengths, src, at_. run_lists. cbn [Point.x Point.y].
    repeat (apply Forall_cons; [|]); [| | | |apply Forall_nil].
    + eapply Rle_trans; [|apply hypot_ge_abs_x]. at_R.
      rewrite Rabs_right; lra.
    + rewrite hypot_comm. eapply Rle_trans; [|apply hypot_ge_abs_x]. at_R.
      rewrite Rabs_right; lra.
    + eapply Rle_trans; [|apply hypot_ge_abs_x]. at_R.
      rewrite Rabs_left; lra.
    + rewrite hypot_comm. eapply Rle_trans; [|apply hypot_ge_abs_x]. at_R.
      rewrite Rabs_left; lra.
  - rewrite E6. lia.
Defined.

(* --------------------------------------------------------------------- *)
(** *** Colours *)

Section ColorFacts.

Import Stdlib.Strings.Ascii Stdlib.Strings.String ColorParse.
Local Open Scope Z_scope.

Lemma digitOf_range (c : ascii) (d : Z) : digitOf c = Some d -> 0 <= d <= 15.
Proof.
  unfold digitOf. set (n := Z.of_N (N_of_ascii c)).
  destruct ((48 <=? n) && (n <=? 57)) eqn:E1;
    [|destruct ((65 <=? n) && (n <=? 70)) eqn:E2;
      [|destruct ((97 <=? n) && (n <=? 102)) eqn:E3]];
    intros Hd; inversion Hd; subst;
    match goal with
    | E : _ && _ = true |- _ => apply andb_prop in E; destruct E
    end; lia.
Qed.

(** What [toUpperCase] leaves of a digit: the same digit, which is no
    white space, no sign, no [x] and no [#]. *)
Lemma digitOf_upper (c : ascii) (d : Z) :
  digitOf c = Some d ->
  digitOf (upperChar c) = Some d
  /\ isStrWhiteSpace (upperChar c) = false
  /\ Ascii.eqb (upperChar c) "-" = false
  /\ Ascii.eqb (upperChar c) "+" = false
  /\ Ascii.eqb (upperChar c) "x" = false
  /\ Ascii.eqb (upperChar c) "X" = false
  /\ Ascii.eqb c "#" = false.
Proof.
  destruct c as [b0 b1 b2 b3 b4 b5 b6 b7].
  destruct b0, b1, b2, b3, b4, b5, b6, b7; vm_compute; intros Hd;
    try discriminate Hd; now repeat split.
Qed.

Lemma parseInt16_two_digits (c1 c2 : ascii) (d1 d2 : Z) :
  digitOf c1 = Some d1 -> digitOf c2 = Some d2 ->
  shr0 (parseInt16 (String (upperChar c1) (String (upperChar c2) EmptyString)))
  = 16 * d1 + d2.
Proof.
  intros H1 H2.
  pose proof (digitOf_range _ _ H1). pose proof (digitOf_range _ _ H2).
  destruct (digitOf_upper _ _ H1) as (D1 & W1 & M1 & P1 & _).
  destruct (digitOf_upper _ _ H2) as (D2 & _ & _ & _ & X2 & X2' & _).
  unfold parseInt16. cbn [trimStart]. rewrite W1, M1, P1, X2, X2'.
  rewrite andb_false_r. cbn [digitsValue]. rewrite D1, D2.
  cbn [shr0]. rewrite Z.mod_small by lia. lia.
Qed.

Lemma substring_length_le (n m : nat) (s : string) :
  (String.length (substring n m s) <= m)%nat.
Proof.
  revert n m. induction s as [|c s IH]; intros n m.
  - destruct n, m; cbn [substring String.length]; lia.
  - destruct n as [|n].
    + destruct m as [|m]; cbn [substring String.length]; [lia|].
      specialize (IH 0%nat m). lia.
    + cbn [substring]. apply IH.
Qed.

(** A slice of at most two characters parses to a channel between [-15]
    (a sign and one digit) and [255] (two digits). *)
Lemma parseInt16_range (s : string) :
  (String.length s <= 2)%nat -> -15 <= shr0 (parseInt16 s) <= 255.
Proof.
  destruct s as [|c1 [|c2 [|c3 t]]]; cbn [String.length]; intros Hlen;
    try lia; unfold parseInt16;
    repeat (cbn [trimStart digitsValue shr0 andb orb];
            match goal with
            | |- context [isStrWhiteSpace ?c] => destruct (isStrWhiteSpace c)
            | |- context [Ascii.eqb ?c ?k] => destruct (Ascii.eqb c k)
            | |- context [digitOf ?c] =>
                let E := fresh "E" in
                let d := fresh "d" in
                destruct (digitOf c) as [d|] eqn:E; [apply digitOf_range in E|]
            end);
    cbn [trimStart digitsValue shr0 andb orb];
    try (rewrite Z.mod_small by lia); lia.
Qed.

(** X30. [resolveColor] reads [#RRGGBB], [RRGGBB], [#RGB] and
    [#RRGGBBAA], in either letter case: the channels are the values of the
    digit pairs (a short digit counts twice) and alpha is 255 unless it
    is given. Whatever the string, every channel is between [-15] and
    [255]; a sign in front of a digit is accepted, so a channel can be
    negative. *)
Theorem resolveColor_channels :
  (forall (c1 c2 c3 c4 c5 c6 c7 c8 : ascii) (d1 d2 d3 d4 d5 d6 d7 d8 : Z),
     digitOf c1 = Some d1 -> digitOf c2 = Some d2 -> digitOf c3 = Some d3 ->
     digitOf c4 = Some d4 -> digitOf c5 = Some d5 -> digitOf c6 = Some d6 ->
     digitOf c7 = Some d7 -> digitOf c8 = Some d8 ->
     let rgb (rest : string) :=
       String c1 (String c2 (String c3 (String c4 (String c5 (String c6 rest))))) in
     let opaque :=
       {| r := 16 * d1 + d2; g := 16 * d3 + d4; b := 16 * d5 + d6; a := 255 |} in
     resolveColor (String "#" (rgb EmptyString)) = opaque
     /\ resolveColor (rgb EmptyString) = opaque
     /\ resolveColor (String "#" (rgb (String c7 (String c8 EmptyString))))
        = {| r := 16 * d1 + d2; g := 16 * d3 + d4; b := 16 * d5 + d6;
             a := 16 * d7 + d8 |}
     /\ resolveColor (String "#" (String c1 (String c2 (String c3 EmptyString))))
        = {| r := 17 * d1; g := 17 * d2; b := 17 * d3; a := 255 |})
  /\ (forall hex : string,
        let c := resolveColor hex in
        -15 <= r c <= 255 /\ -15 <= g c <= 255
        /\ -15 <= b c <= 255 /\ -15 <= a c <= 255)
  /\ resolveColor "#-F-1+2" = {| r := -15; g := -1; b := 2; a := 255 |}.
Proof.
  assert (EFF : shr0 (parseInt16 "FF") = 255) by reflexivity.
  split; [|split].
  - intros c1 c2 c3 c4 c5 c6 c7 c8 d1 d2 d3 d4 d5 d6 d7 d8
           H1 H2 H3 H4 H5 H6 H7 H8 rgb opaque.
    assert (Hhash : Ascii.eqb c1 "#" = false) by apply (digitOf_upper _ _ H1).
    assert (Hrgb : forall x y z w : Z,
               x = 16 * d1 + d2 -> y = 16 * d3 + d4 -> z = 16 * d5 + d6 ->
               w = 255 -> {| r := x; g := y; b := z; a := w |} = opaque)
      by (intros; subst; reflexivity).
    split; [|split; [|split]].
    + unfold resolveColor, stripHash, rgb. rewrite Ascii.eqb_refl.
      unfold expandShort, addAlpha, slice.
      cbn [toUpperCase String.length Nat.eqb append Nat.sub substring].
      apply Hrgb; try apply parseInt16_two_digits; assumption.
    + unfold resolveColor, stripHash, rgb. rewrite Hhash.
      unfold expandShort, addAlpha, slice.
      cbn [toUpperCase String.length Nat.eqb append Nat.sub substring].
      apply Hrgb; try apply parseInt16_two_digits; assumption.
    + unfold resolveColor, stripHash, rgb. rewrite Ascii.eqb_refl.
      unfold expandShort, addAlpha, slice.
      cbn [toUpperCase String.length Nat.eqb append Nat.sub substring].
      f_equal; apply parseInt16_two_digits; assumption.
    + unfold resolveColor, stripHash. rewrite Ascii.eqb_refl.
      unfold expandShort, addAlpha, slice, charAt.
      cbn [toUpperCase String.length Nat.eqb append Nat.sub substring get].
      rewrite EFF, (parseInt16_two_digits c1 c1 d1 d1 H1 H1),
        (parseInt16_two_digits c2 c2 d2 d2 H2 H2),
        (parseInt16_two_digits c3 c3 d3 d3 H3 H3).
      f_equal; lia.
  - intros hex c. unfold c, resolveColor, slice. cbn [r g b a].
    repeat split; try (apply parseInt16_range; apply substring_length_le);
      apply (proj1 (parseInt16_range _ (substring_length_le _ _ _)))
      || apply (proj2 (parseInt16_range _ (substring_length_le _ _ _))).
  - reflexivity.
Qed.

End ColorFacts.
